(** * Verification of the chesspage engine against its specification

    The development embeds the search worker (the file that starts with the
    "CHESS AI WEB WORKER" banner) and the parts of [chess.js] and
    [test-positions.js] that the specification talks about, and settles
    the specification's claims C1..C10 on that embedding.

    Conventions of the embedding:
    - the worker's module-level variables are the fields of two records:
      [Position] holds [board], [aiColor], [currentTurn], [castlingRights]
      and [enPassantTarget], and [Worker] holds the position, the
      transposition table, the killer moves, the history table and the
      counters; a function of the worker is a computation [M A] that
      threads the worker, or [P A] when it touches the position only;
    - a JavaScript exception (a [TypeError] on [null.toLowerCase()], the
      [RangeError] of an exhausted call stack) is the result [None];
    - JavaScript numbers are modelled by [Num]: exact rationals extended
      with [Infinity], [-Infinity] and [NaN]. Rounding of IEEE doubles
      and the sign of zero are not modelled;
    - the host functions [Date.now], [Math.random] and [Math.exp] are the
      fields of [Host]; the n-th call of [Date.now] returns [dateNow n]. *)

From Stdlib Require Import ZArith QArith Qround Qabs String Ascii Bool Lia Lqa.
From Stdlib Require Import Sorted.
From stdpp Require Import gmap strings list fin_maps pretty.

Open Scope Z_scope.

(** ** JavaScript numbers *)

Inductive Num : Type :=
| NaN
| NegInf
| Fin (q : Q)
| PosInf.

Definition ofZ (z : Z) : Num := Fin (inject_Z z).

Definition Num_neg (a : Num) : Num :=
  match a with
  | NaN => NaN
  | NegInf => PosInf
  | Fin q => Fin (- q)%Q
  | PosInf => NegInf
  end.

Definition Num_add (a b : Num) : Num :=
  match a, b with
  | NaN, _ | _, NaN => NaN
  | PosInf, NegInf | NegInf, PosInf => NaN
  | PosInf, _ | _, PosInf => PosInf
  | NegInf, _ | _, NegInf => NegInf
  | Fin x, Fin y => Fin (x + y)%Q
  end.

Definition Num_sub (a b : Num) : Num := Num_add a (Num_neg b).

Definition Num_abs (a : Num) : Num :=
  match a with
  | NaN => NaN
  | NegInf | PosInf => PosInf
  | Fin q => Fin (Qabs q)
  end.

(** [a < b]; every comparison with [NaN] is false. *)
Definition Num_ltb (a b : Num) : bool :=
  match a, b with
  | NaN, _ | _, NaN => false
  | NegInf, NegInf => false
  | NegInf, _ => true
  | _, NegInf => false
  | PosInf, _ => false
  | Fin _, PosInf => true
  | Fin x, Fin y => negb (Qle_bool y x)
  end.

(** [a <= b]. *)
Definition Num_leb (a b : Num) : bool :=
  match a, b with
  | NaN, _ | _, NaN => false
  | NegInf, _ => true
  | _, PosInf => true
  | PosInf, _ => false
  | Fin _, NegInf => false
  | Fin x, Fin y => Qle_bool x y
  end.

Definition Num_gtb (a b : Num) : bool := Num_ltb b a.
Definition Num_geb (a b : Num) : bool := Num_leb b a.

(** [Math.max(a, b)] and [Math.min(a, b)]. *)
Definition Num_max (a b : Num) : Num :=
  match a, b with
  | NaN, _ | _, NaN => NaN
  | _, _ => if Num_ltb a b then b else a
  end.

Definition Num_min (a b : Num) : Num :=
  match a, b with
  | NaN, _ | _, NaN => NaN
  | _, _ => if Num_ltb b a then b else a
  end.

(** [a / b]; a zero divisor is taken as [+0]. *)
Definition Num_div (a b : Num) : Num :=
  match a, b with
  | NaN, _ | _, NaN => NaN
  | Fin x, Fin y =>
      if Qeq_bool y 0 then
        (if Qeq_bool x 0 then NaN
         else if Qle_bool 0 x then PosInf else NegInf)
      else Fin (x / y)%Q
  | Fin _, _ => Fin 0%Q
  | PosInf, Fin y => if Qle_bool 0 y then PosInf else NegInf
  | NegInf, Fin y => if Qle_bool 0 y then NegInf else PosInf
  | _, _ => NaN
  end.

(** Equality of numbers as values: the representation of a rational does
    not matter. *)
Definition Num_eq (a b : Num) : Prop :=
  match a, b with
  | NegInf, NegInf | PosInf, PosInf => True
  | Fin x, Fin y => (x == y)%Q
  | _, _ => False
  end.

(** ** Pieces, squares, moves *)

Inductive Color : Type := white | black.

Inductive PieceType : Type := Pawn | Knight | Bishop | Rook | Queen | King.

(** A piece is one of the twelve letters [PNBRQK] / [pnbrqk]: the case is
    the colour ([getPieceColor]), the lower-cased letter the type. *)
Record Piece : Type := mkPiece { pcolor : Color; ptype : PieceType }.

Definition Color_eqb (a b : Color) : bool :=
  match a, b with
  | white, white | black, black => true
  | _, _ => false
  end.

Definition PieceType_eqb (a b : PieceType) : bool :=
  match a, b with
  | Pawn, Pawn | Knight, Knight | Bishop, Bishop
  | Rook, Rook | Queen, Queen | King, King => true
  | _, _ => false
  end.

Definition opposite (c : Color) : Color :=
  match c with white => black | black => white end.

Definition getPieceColor (p : Piece) : Color := pcolor p.

Definition toLowerCase (p : Piece) : PieceType := ptype p.

Definition PIECE_VALUES (p : Piece) : Z :=
  match ptype p with
  | Pawn => 100
  | Knight => 320
  | Bishop => 330
  | Rook => 500
  | Queen => 900
  | King => 20000
  end.

Definition pieceChar (p : Piece) : ascii :=
  match pcolor p, ptype p with
  | white, Pawn => "P" | white, Knight => "N" | white, Bishop => "B"
  | white, Rook => "R" | white, Queen => "Q" | white, King => "K"
  | black, Pawn => "p" | black, Knight => "n" | black, Bishop => "b"
  | black, Rook => "r" | black, Queen => "q" | black, King => "k"
  end%char.

Record Square : Type := mkSquare { sqRow : Z; sqCol : Z }.

Record Move : Type :=
  mkMove { fromRow : Z; fromCol : Z; toRow : Z; toCol : Z }.

#[global] Instance Color_eq_dec : EqDecision Color.
Proof. solve_decision. Defined.

#[global] Instance PieceType_eq_dec : EqDecision PieceType.
Proof. solve_decision. Defined.

#[global] Instance Piece_eq_dec : EqDecision Piece.
Proof. solve_decision. Defined.

#[global] Instance Square_eq_dec : EqDecision Square.
Proof. solve_decision. Defined.

#[global] Instance Move_eq_dec : EqDecision Move.
Proof. solve_decision. Defined.

Definition sameMove (a b : Move) : bool :=
  (fromRow a =? fromRow b) && (fromCol a =? fromCol b) &&
  (toRow a =? toRow b) && (toCol a =? toCol b).

(** ** The board: an array of rows, each an array of cells *)

Abbreviation Board := (list (list (option Piece))).

(** [board[row][col]], read at a square of the board. Outside the board the
    result is the empty cell, where JavaScript raises a [TypeError] for a
    row that the board does not have and reads [undefined] for a column
    outside the row: what is stated of the code is stated for squares of
    the board. *)
Definition cell (b : Board) (r c : Z) : option Piece :=
  if (r <? 0) || (c <? 0) then None
  else match b !! Z.to_nat r with
       | Some cells => match cells !! Z.to_nat c with
                       | Some x => x
                       | None => None
                       end
       | None => None
       end.

(** [board[row][col] = v] at a square of the board; no effect outside,
    where JavaScript raises a [TypeError] for a row that the board does not
    have and lengthens the row for a column outside it. *)
Definition setCell (b : Board) (r c : Z) (v : option Piece) : Board :=
  if (r <? 0) || (c <? 0) then b
  else match b !! Z.to_nat r with
       | Some cells => <[Z.to_nat r := <[Z.to_nat c := v]> cells]> b
       | None => b
       end.

Definition isValidSquare (r c : Z) : bool :=
  (0 <=? r) && (r <? 8) && (0 <=? c) && (c <? 8).

(** The squares in the order of the double loop
    [for row = 0..7, for col = 0..7]. *)
Definition allSquares : list (Z * Z) :=
  r ← seqZ 0 8; c ← seqZ 0 8; [(r, c)].

(** ** Settings, transposition entries, worker state *)

Record Settings : Type := mkSettings {
  searchDepth : Z;
  mistakeRate : Q;
  mistakeSizeCp : Q;
  timePerMove : Q;
  maxNodes : Z;
  positionWeight : Q;
  mobilityWeight : Q;
  pawnStructureWeight : Q;
  kingSafetyWeight : Q;
  temperature : Q;
  softmaxWindow : Q;
  useQuiescence : bool
}.

Record Rights : Type := mkRights { kingside : bool; queenside : bool }.

Record CastlingRights : Type :=
  mkCastling { crWhite : Rights; crBlack : Rights }.

(** [castlingRights[color]] *)
Definition rightsOf (cr : CastlingRights) (c : Color) : Rights :=
  match c with white => crWhite cr | black => crBlack cr end.

(** [{ score, depth, bestMove }]; leaf and terminal entries carry no
    [bestMove]. *)
Record TTEntry : Type :=
  mkEntry { ttScore : Num; ttDepth : nat; ttBestMove : option Move }.

(** [{ type: 'progress', depth, nodes, score }] *)
Record Progress : Type :=
  mkProgress { prDepth : Z; prNodes : Z; prScore : Num }.

Record Host : Type := mkHost {
  dateNow : nat -> Z;
  mathRandom : nat -> Q;
  mathExp : Num -> Num
}.

(** The variables that describe the position searched: they are set from
    the request and read by the move generator and the evaluator. *)
Record Position : Type := mkPosition {
  board : Board;
  aiColor : Color;
  currentTurn : Color;
  castlingRights : CastlingRights;
  enPassantTarget : option Square
}.

(** The module-level variables of the worker: the position, the history of
    the game, the three search tables, the counters, the messages posted so
    far, and the host with the number of clock readings and random draws
    taken. *)
Record Worker : Type := mkWorker {
  position : Position;
  positionHistory : list string;
  transpositionTable : gmap string TTEntry;
  killerMoves : list (list Move);
  historyTable : gmap string Z;
  nodesSearched : Z;
  forceTimeout : bool;
  posted : list Progress;
  host : Host;
  ticks : nat;
  draws : nat
}.

Definition setBoard (b : Board) (pos : Position) : Position :=
  mkPosition b (aiColor pos) (currentTurn pos) (castlingRights pos)
    (enPassantTarget pos).

Definition setCurrentTurn (c : Color) (pos : Position) : Position :=
  mkPosition (board pos) (aiColor pos) c (castlingRights pos)
    (enPassantTarget pos).

Definition setPosition (pos : Position) (w : Worker) : Worker :=
  mkWorker pos (positionHistory w) (transpositionTable w)
    (killerMoves w) (historyTable w) (nodesSearched w) (forceTimeout w)
    (posted w) (host w) (ticks w) (draws w).

Definition setTranspositionTable (t : gmap string TTEntry) (w : Worker)
  : Worker :=
  mkWorker (position w) (positionHistory w) t
    (killerMoves w) (historyTable w) (nodesSearched w) (forceTimeout w)
    (posted w) (host w) (ticks w) (draws w).

Definition setKillerMoves (k : list (list Move)) (w : Worker) : Worker :=
  mkWorker (position w) (positionHistory w) (transpositionTable w)
    k (historyTable w) (nodesSearched w) (forceTimeout w)
    (posted w) (host w) (ticks w) (draws w).

Definition setHistoryTable (h : gmap string Z) (w : Worker) : Worker :=
  mkWorker (position w) (positionHistory w) (transpositionTable w)
    (killerMoves w) h (nodesSearched w) (forceTimeout w)
    (posted w) (host w) (ticks w) (draws w).

Definition setNodesSearched (n : Z) (w : Worker) : Worker :=
  mkWorker (position w) (positionHistory w) (transpositionTable w)
    (killerMoves w) (historyTable w) n (forceTimeout w)
    (posted w) (host w) (ticks w) (draws w).

Definition setForceTimeout (f : bool) (w : Worker) : Worker :=
  mkWorker (position w) (positionHistory w) (transpositionTable w)
    (killerMoves w) (historyTable w) (nodesSearched w) f
    (posted w) (host w) (ticks w) (draws w).

Definition setPosted (l : list Progress) (w : Worker) : Worker :=
  mkWorker (position w) (positionHistory w) (transpositionTable w)
    (killerMoves w) (historyTable w) (nodesSearched w) (forceTimeout w)
    l (host w) (ticks w) (draws w).

Definition setTicks (n : nat) (w : Worker) : Worker :=
  mkWorker (position w) (positionHistory w) (transpositionTable w)
    (killerMoves w) (historyTable w) (nodesSearched w) (forceTimeout w)
    (posted w) (host w) n (draws w).

Definition setDraws (n : nat) (w : Worker) : Worker :=
  mkWorker (position w) (positionHistory w) (transpositionTable w)
    (killerMoves w) (historyTable w) (nodesSearched w) (forceTimeout w)
    (posted w) (host w) (ticks w) n.

(** ** The monad of computations: state and exceptions *)

(** A computation on the state [S] that returns an [A] or raises. *)
Definition ST (S A : Type) : Type := S -> option (A * S).

(** The computations of the worker, and those that touch the position
    only. *)
Definition M (A : Type) : Type := ST Worker A.
Definition P (A : Type) : Type := ST Position A.

Definition ret {S A : Type} (a : A) : ST S A := fun s => Some (a, s).

Definition bind {S A B : Type} (m : ST S A) (k : A -> ST S B) : ST S B :=
  fun s => match m s with
           | Some (a, s') => k a s'
           | None => None
           end.

Definition throw {S A : Type} : ST S A := fun _ => None.

(** Read-only access to the variables. *)
Definition reads {S A : Type} (f : S -> A) : ST S A :=
  fun s => Some (f s, s).

(** A read-only computation that may raise. *)
Definition readsE {S A : Type} (f : S -> option A) : ST S A :=
  fun s => match f s with Some a => Some (a, s) | None => None end.

Definition modify {S : Type} (f : S -> S) : ST S unit :=
  fun s => Some (tt, f s).

(** A computation on the position, run on the worker. *)
Definition onPosition {A : Type} (m : P A) : M A :=
  fun w => match m (position w) with
           | Some (a, pos') => Some (a, setPosition pos' w)
           | None => None
           end.

Notation "'let*' x ':=' c1 'in' c2" := (bind c1 (fun x => c2))
  (at level 10, x pattern, c1 at level 100, c2 at level 200).
Notation "c1 ;; c2" := (bind c1 (fun _ => c2))
  (at level 100, c2 at level 200, right associativity).

(** Sequencing of read-only computations that may raise. *)
Notation "'let?' x ':=' c1 'in' c2" :=
  (match c1 with Some x => c2 | None => None end)
  (at level 10, x pattern, c1 at level 100, c2 at level 200).

(** [Date.now()] *)
Definition DateNow : M Z :=
  fun w => Some (dateNow (host w) (ticks w), setTicks (S (ticks w)) w).

(** [Math.random()] *)
Definition MathRandom : M Q :=
  fun w => Some (mathRandom (host w) (draws w), setDraws (S (draws w)) w).

(** ** Move generation *)

(** Truthiness of a cell. *)
Definition occupied (x : option Piece) : bool :=
  match x with Some _ => true | None => false end.

(** [getPieceColor(targetPiece) !== getPieceColor(piece)]; a [TypeError]
    when [piece] is [null]. *)
Definition colorDiffers (targetPiece : Piece) (piece : option Piece)
  : option bool :=
  let? p := piece in
  Some (negb (Color_eqb (getPieceColor targetPiece) (getPieceColor p))).

(** [piece === 'P'] *)
Definition isWhitePawn (piece : option Piece) : bool :=
  match piece with
  | Some (mkPiece white Pawn) => true
  | _ => false
  end.

(** One round of the loop [for (const colOffset of [-1, 1])] of
    [getPawnMoves]. *)
Definition pawnCapture (pos : Position) (piece : option Piece)
    (newRow newCol : Z) : option (list Square) :=
  if isValidSquare newRow newCol then
    let? capture := match cell (board pos) newRow newCol with
              | Some targetPiece =>
                  let? d := colorDiffers targetPiece piece in
                  Some (if d then [mkSquare newRow newCol] else [])
              | None => Some []
              end in
    let enPassant :=
      match enPassantTarget pos with
      | Some e =>
          if (newRow =? sqRow e) && (newCol =? sqCol e)
          then [mkSquare newRow newCol] else []
      | None => []
      end in
    Some (capture ++ enPassant)
  else Some [].

Definition getPawnMoves (pos : Position) (row col : Z) : option (list Square) :=
  let piece := cell (board pos) row col in
  let direction := if isWhitePawn piece then -1 else 1 in
  let startRow := if isWhitePawn piece then 6 else 1 in
  let forward :=
    if isValidSquare (row + direction) col
       && negb (occupied (cell (board pos) (row + direction) col))
    then mkSquare (row + direction) col ::
         (if (row =? startRow)
             && negb (occupied (cell (board pos) (row + 2 * direction) col))
          then [mkSquare (row + 2 * direction) col] else [])
    else [] in
  let? l := pawnCapture pos piece (row + direction) (col + -1) in
  let? r := pawnCapture pos piece (row + direction) (col + 1) in
  Some (forward ++ l ++ r).

(** The loop over fixed offsets shared by [getKnightMoves] and the first
    part of [getKingMoves]. *)
Fixpoint offsetMoves (pos : Position) (row col : Z) (offsets : list (Z * Z))
  : option (list Square) :=
  match offsets with
  | [] => Some []
  | (rowOffset, colOffset) :: rest =>
      let newRow := row + rowOffset in
      let newCol := col + colOffset in
      let? here := (if isValidSquare newRow newCol then
                match cell (board pos) newRow newCol with
                | None => Some [mkSquare newRow newCol]
                | Some targetPiece =>
                    let? d := colorDiffers targetPiece (cell (board pos) row col) in
                    Some (if d then [mkSquare newRow newCol] else [])
                end
              else Some []) in
      let? more := offsetMoves pos row col rest in
      Some (here ++ more)
  end.

Definition knightOffsets : list (Z * Z) :=
  [(-2, -1); (-2, 1); (-1, -2); (-1, 2); (1, -2); (1, 2); (2, -1); (2, 1)].

Definition kingOffsets : list (Z * Z) :=
  [(-1, -1); (-1, 0); (-1, 1); (0, -1); (0, 1); (1, -1); (1, 0); (1, 1)].

Definition getKnightMoves (pos : Position) (row col : Z) : option (list Square) :=
  offsetMoves pos row col knightOffsets.

(** The [while (isValidSquare(newRow, newCol))] loop of [getSlidingMoves]
    along one direction. [n] bounds the number of rounds; running out of
    rounds stands for a loop that does not end. *)
Fixpoint slide (n : nat) (pos : Position) (piece : option Piece)
    (newRow newCol rowDir colDir : Z) : option (list Square) :=
  match n with
  | O => None
  | S n' =>
      if isValidSquare newRow newCol then
        match cell (board pos) newRow newCol with
        | None =>
            let? rest := slide n' pos piece (newRow + rowDir) (newCol + colDir)
                     rowDir colDir in
            Some (mkSquare newRow newCol :: rest)
        | Some targetPiece =>
            let? d := colorDiffers targetPiece piece in
            Some (if d then [mkSquare newRow newCol] else [])
        end
      else Some []
  end.

(** A ray on the 8x8 board has left it after nine rounds. *)
Fixpoint getSlidingMoves (pos : Position) (row col : Z)
    (directions : list (Z * Z)) : option (list Square) :=
  match directions with
  | [] => Some []
  | (rowDir, colDir) :: rest =>
      let? ray := slide 9 pos (cell (board pos) row col)
              (row + rowDir) (col + colDir) rowDir colDir in
      let? more := getSlidingMoves pos row col rest in
      Some (ray ++ more)
  end.

Definition getBishopMoves (pos : Position) (row col : Z) : option (list Square) :=
  getSlidingMoves pos row col [(-1, -1); (-1, 1); (1, -1); (1, 1)].

Definition getRookMoves (pos : Position) (row col : Z) : option (list Square) :=
  getSlidingMoves pos row col [(-1, 0); (1, 0); (0, -1); (0, 1)].

Definition getQueenMoves (pos : Position) (row col : Z) : option (list Square) :=
  getSlidingMoves pos row col
    [(-1, -1); (-1, 0); (-1, 1); (0, -1); (0, 1); (1, -1); (1, 0); (1, 1)].

(** [getKingMoves] calls [isSquareUnderAttack], which calls [getRawMoves]
    and through it [getKingMoves] again. The functions of this cycle take
    the attack test as the argument [attacked]; [isSquareUnderAttack] below
    closes the cycle. The conjunctions are evaluated left to right and stop
    at the first false operand, as [&&] does. *)
Definition getKingMovesWith
    (attacked : option Z -> option Z -> Color -> option bool)
    (pos : Position) (row col : Z) : option (list Square) :=
  let? steps := offsetMoves pos row col kingOffsets in
  let? color := getPieceColor <$> cell (board pos) row col in
  let free (c : Z) := negb (occupied (cell (board pos) row c)) in
  let safe (c : Z) (rest : option bool) : option bool :=
    let? a := attacked (Some row) (Some c) color in
    if a then Some false else rest in
  let? ks := (if kingside (rightsOf (castlingRights pos) color) && free 5 && free 6
        then safe 4 (safe 5 (safe 6 (Some true)))
        else Some false) in
  let? qs := (if queenside (rightsOf (castlingRights pos) color)
           && free 1 && free 2 && free 3
        then safe 4 (safe 3 (safe 2 (Some true)))
        else Some false) in
  Some (steps ++ (if ks then [mkSquare row 6] else [])
              ++ (if qs then [mkSquare row 2] else [])).

Definition getRawMovesWith
    (attacked : option Z -> option Z -> Color -> option bool)
    (pos : Position) (row col : Z) : option (list Square) :=
  match cell (board pos) row col with
  | None => Some []
  | Some piece =>
      match toLowerCase piece with
      | Pawn => getPawnMoves pos row col
      | Knight => getKnightMoves pos row col
      | Bishop => getBishopMoves pos row col
      | Rook => getRookMoves pos row col
      | Queen => getQueenMoves pos row col
      | King =>
          let? ms := getKingMovesWith attacked pos row col in
          Some (filter (λ m, Z.abs (sqCol m - col) ≤ 1) ms)
      end
  end.

(** [move.row === row && move.col === col], where [row] and [col] may be
    [undefined]. *)
Definition hits (row col : option Z) (move : Square) : bool :=
  match row, col with
  | Some r, Some c => (sqRow move =? r) && (sqCol move =? c)
  | _, _ => false
  end.

(** The double loop of [isSquareUnderAttack] over the squares [sqs]. *)
Fixpoint scanAttack (rawMoves : Z -> Z -> option (list Square))
    (pos : Position) (row col : option Z) (defenderColor : Color)
    (sqs : list (Z * Z)) : option bool :=
  match sqs with
  | [] => Some false
  | (r, c) :: rest =>
      match cell (board pos) r c with
      | Some piece =>
          if negb (Color_eqb (getPieceColor piece) defenderColor) then
            let? moves := rawMoves r c in
            if existsb (hits row col) moves then Some true
            else scanAttack rawMoves pos row col defenderColor rest
          else scanAttack rawMoves pos row col defenderColor rest
      | None => scanAttack rawMoves pos row col defenderColor rest
      end
  end.

(** [stack] is the number of nested calls of [isSquareUnderAttack] the call
    stack has room for; [None] is the [RangeError] of its exhaustion. *)
Fixpoint isSquareUnderAttack (stack : nat) (pos : Position)
    (row col : option Z) (defenderColor : Color) : option bool :=
  match stack with
  | O => None
  | S stack' =>
      scanAttack (getRawMovesWith (isSquareUnderAttack stack' pos) pos)
        pos row col defenderColor allSquares
  end.

Definition getKingMoves (stack : nat) (pos : Position) (row col : Z)
  : option (list Square) :=
  getKingMovesWith (isSquareUnderAttack stack pos) pos row col.

Definition getRawMoves (stack : nat) (pos : Position) (row col : Z)
  : option (list Square) :=
  getRawMovesWith (isSquareUnderAttack stack pos) pos row col.

(** The king search of [isInCheck]: the [break] leaves the inner loop only,
    so the king of the last row that has one is kept, and in that row the
    first one. *)
Definition findKingInRow (b : Board) (color : Color) (r : Z) : option Z :=
  find (λ c, match cell b r c with
             | Some piece =>
                 PieceType_eqb (toLowerCase piece) King
                 && Color_eqb (getPieceColor piece) color
             | None => false
             end) (seqZ 0 8).

Definition findKing (b : Board) (color : Color) : option (Z * Z) :=
  foldl (λ acc r, match findKingInRow b color r with
                  | Some c => Some (r, c)
                  | None => acc
                  end) None (seqZ 0 8).

Definition isInCheck (stack : nat) (pos : Position) (color : Color)
  : option bool :=
  let king := findKing (board pos) color in
  isSquareUnderAttack stack pos (fst <$> king) (snd <$> king) color.

(** ** Legal moves: the pseudo-legal moves filtered by make, test, unmake *)

Definition readCell (r c : Z) : P (option Piece) :=
  reads (λ pos, cell (board pos) r c).

Definition writeCell (r c : Z) (v : option Piece) : P unit :=
  modify (λ pos, setBoard (setCell (board pos) r c v) pos).

Definition wouldBeInCheck (stack : nat) (fromRow fromCol toRow toCol : Z)
  : P bool :=
  let* originalPiece := readCell toRow toCol in
  let* moving := readCell fromRow fromCol in
  writeCell toRow toCol moving ;;
  writeCell fromRow fromCol None ;;
  let* color := readsE (λ pos, getPieceColor <$> cell (board pos) toRow toCol) in
  let* inCheck := readsE (λ pos, isInCheck stack pos color) in
  let* moved := readCell toRow toCol in
  writeCell fromRow fromCol moved ;;
  writeCell toRow toCol originalPiece ;;
  ret inCheck.

(** [moves.filter(move => !wouldBeInCheck(row, col, move.row, move.col))] *)
Fixpoint filterLegal (stack : nat) (row col : Z) (moves : list Square)
  : P (list Square) :=
  match moves with
  | [] => ret []
  | move :: rest =>
      let* inCheck := wouldBeInCheck stack row col (sqRow move) (sqCol move) in
      let* kept := filterLegal stack row col rest in
      ret (if inCheck then kept else move :: kept)
  end.

Definition getValidMovesForPiece (stack : nat) (row col : Z)
  : P (list Square) :=
  let* piece := readCell row col in
  match piece with
  | None => ret []
  | Some piece =>
      let* moves :=
        readsE (λ pos, match toLowerCase piece with
                     | Pawn => getPawnMoves pos row col
                     | Knight => getKnightMoves pos row col
                     | Bishop => getBishopMoves pos row col
                     | Rook => getRookMoves pos row col
                     | Queen => getQueenMoves pos row col
                     | King => getKingMoves stack pos row col
                     end) in
      filterLegal stack row col moves
  end.

(** The double loop of [getAllValidMoves] over the squares [sqs]. *)
Fixpoint getAllValidMovesOn (stack : nat) (color : Color)
    (sqs : list (Z * Z)) : P (list Move) :=
  match sqs with
  | [] => ret []
  | (row, col) :: rest =>
      let* piece := readCell row col in
      let* here :=
        match piece with
        | Some piece =>
            if Color_eqb (getPieceColor piece) color then
              let* pieceMoves := getValidMovesForPiece stack row col in
              ret (map (λ move, mkMove row col (sqRow move) (sqCol move))
                       pieceMoves)
            else ret []
        | None => ret []
        end in
      let* more := getAllValidMovesOn stack color rest in
      ret (here ++ more)
  end.

Definition getAllValidMoves (stack : nat) (color : Color) : P (list Move) :=
  getAllValidMovesOn stack color allSquares.

(** ** The position key *)

(** The inner loop of [getFEN] over the cells of one row, with the running
    [emptyCount]; [fen += emptyCount] appends the decimal numeral. *)
Fixpoint fenCells (cells : list (option Piece)) (emptyCount : Z) : string :=
  match cells with
  | [] => if 0 <? emptyCount then pretty emptyCount else ""
  | Some piece :: rest =>
      (if 0 <? emptyCount then pretty emptyCount else "")
      +:+ String (pieceChar piece) (fenCells rest 0)
  | None :: rest => fenCells rest (emptyCount + 1)
  end.

Definition fenRow (b : Board) (r : Z) : string :=
  fenCells (map (cell b r) (seqZ 0 8)) 0
  +:+ (if r <? 7 then "/" else "").

Definition fenBoard (b : Board) : string :=
  foldr (λ r acc, fenRow b r +:+ acc) "" (seqZ 0 8).

Definition fenCastling (cr : CastlingRights) : string :=
  let castling :=
    (if kingside (crWhite cr) then "K" else "")
    +:+ (if queenside (crWhite cr) then "Q" else "")
    +:+ (if kingside (crBlack cr) then "k" else "")
    +:+ (if queenside (crBlack cr) then "q" else "") in
  if String.eqb castling "" then "-" else castling.

(** [String.fromCharCode(97 + col) + (8 - row)], for a file letter in the
    Latin-1 range. *)
Definition fenEnPassant (ep : option Square) : string :=
  match ep with
  | Some e =>
      String (ascii_of_N (Z.to_N (97 + sqCol e))) (pretty (8 - sqRow e))
  | None => "-"
  end.

(** [getFEN] as a function of the four variables it reads; the game object
    of [chess.js] and the worker run the same code on their own copies. *)
Definition fenOf (b : Board) (turn : Color) (cr : CastlingRights)
    (ep : option Square) : string :=
  fenBoard b
  +:+ " " +:+ (match turn with white => "w" | black => "b" end)
  +:+ " " +:+ fenCastling cr
  +:+ " " +:+ fenEnPassant ep.

Definition getFEN (pos : Position) : string :=
  fenOf (board pos) (currentTurn pos) (castlingRights pos)
    (enPassantTarget pos).

(** [s.split(' ')[0]] *)
Fixpoint firstField (s : string) : string :=
  match s with
  | EmptyString => EmptyString
  | String c rest =>
      if Ascii.eqb c " " then EmptyString else String c (firstField rest)
  end.

Definition countRepetitions (w : Worker) : Z :=
  let currentFEN := firstField (getFEN (position w)) in
  Z.of_nat (length (filter (λ fen, firstField fen = currentFEN)
                           (positionHistory w))).

(** ** Static evaluation *)

Definition PAWN_TABLE : list Z :=
  [ 0;  0;  0;  0;  0;  0;  0;  0;
    50; 50; 50; 50; 50; 50; 50; 50;
    10; 10; 20; 30; 30; 20; 10; 10;
    5;  5; 10; 25; 25; 10;  5;  5;
    0;  0;  0; 20; 20;  0;  0;  0;
    5; -5;-10;  0;  0;-10; -5;  5;
    5; 10; 10;-20;-20; 10; 10;  5;
    0;  0;  0;  0;  0;  0;  0;  0 ].

Definition KNIGHT_TABLE : list Z :=
  [ -50;-40;-30;-30;-30;-30;-40;-50;
    -40;-20;  0;  0;  0;  0;-20;-40;
    -30;  0; 10; 15; 15; 10;  0;-30;
    -30;  5; 15; 20; 20; 15;  5;-30;
    -30;  0; 15; 20; 20; 15;  0;-30;
    -30;  5; 10; 15; 15; 10;  5;-30;
    -40;-20;  0;  5;  5;  0;-20;-40;
    -50;-40;-30;-30;-30;-30;-40;-50 ].

Definition BISHOP_TABLE : list Z :=
  [ -20;-10;-10;-10;-10;-10;-10;-20;
    -10;  0;  0;  0;  0;  0;  0;-10;
    -10;  0;  5; 10; 10;  5;  0;-10;
    -10;  5;  5; 10; 10;  5;  5;-10;
    -10;  0; 10; 10; 10; 10;  0;-10;
    -10; 10; 10; 10; 10; 10; 10;-10;
    -10;  5;  0;  0;  0;  0;  5;-10;
    -20;-10;-10;-10;-10;-10;-10;-20 ].

Definition KING_TABLE : list Z :=
  [ -30;-40;-40;-50;-50;-40;-40;-30;
    -30;-40;-40;-50;-50;-40;-40;-30;
    -30;-40;-40;-50;-50;-40;-40;-30;
    -30;-40;-40;-50;-50;-40;-40;-30;
    -20;-30;-30;-40;-40;-30;-30;-20;
    -10;-20;-20;-20;-20;-20;-20;-10;
    20; 20;  0;  0;  0;  0; 20; 20;
    20; 30; 10;  0;  0; 10; 30; 20 ].

(** [TABLE[index]] for an index of the table. *)
Definition tableAt (table : list Z) (index : Z) : Z :=
  if index <? 0 then 0 else default 0 (table !! Z.to_nat index).

Definition getPositionValue (piece : Piece) (row col : Z) : Z :=
  let isWhite := Color_eqb (getPieceColor piece) white in
  let index := if isWhite then (7 - row) * 8 + col else row * 8 + col in
  match toLowerCase piece with
  | Pawn => tableAt PAWN_TABLE index
  | Knight => tableAt KNIGHT_TABLE index
  | Bishop => tableAt BISHOP_TABLE index
  | King => tableAt KING_TABLE index
  | _ => 0
  end.

Definition Qgtb (a b : Q) : bool := negb (Qle_bool a b).

(** The material sum shared by [quickEval] and [evaluatePosition]: own
    pieces count positively, the opponent's negatively. *)
Definition materialOf (pos : Position) : Z :=
  foldl (λ acc '(r, c),
           match cell (board pos) r c with
           | Some piece =>
               if Color_eqb (getPieceColor piece) (aiColor pos)
               then acc + PIECE_VALUES piece
               else acc - PIECE_VALUES piece
           | None => acc
           end) 0 allSquares.

Definition quickEval (settings : Settings) : P Num :=
  reads (λ pos, ofZ (materialOf pos)).

Definition positionScoreOf (settings : Settings) (pos : Position) : Q :=
  foldl (λ acc '(r, c),
           match cell (board pos) r c with
           | Some piece =>
               let multiplier :=
                 if Color_eqb (getPieceColor piece) (aiColor pos)
                 then 1 else -1 in
               if Qgtb (positionWeight settings) 0 then
                 (acc + inject_Z (getPositionValue piece r c)
                        * positionWeight settings * inject_Z multiplier)%Q
               else acc
           | None => acc
           end) 0%Q allSquares.

(** The squares pushed on [whitePawns] / [blackPawns], in scan order. *)
Definition pawnsOf (pos : Position) (color : Color) : list Square :=
  omap (λ '(r, c),
          match cell (board pos) r c with
          | Some piece =>
              if PieceType_eqb (toLowerCase piece) Pawn
                 && Color_eqb (getPieceColor piece) color
              then Some (mkSquare r c) else None
          | None => None
          end) allSquares.

Definition evaluateMobility (stack : nat) (settings : Settings) : P Q :=
  let* ai := reads aiColor in
  let* aiMoves := getAllValidMoves stack ai in
  let opponentColor := opposite ai in
  let* originalTurn := reads currentTurn in
  modify (setCurrentTurn opponentColor) ;;
  let* opponentMoves := getAllValidMoves stack opponentColor in
  modify (setCurrentTurn originalTurn) ;;
  ret (inject_Z (Z.of_nat (length aiMoves) - Z.of_nat (length opponentMoves))
       * 10 * mobilityWeight settings)%Q.

Definition evaluatePawnStructure (whitePawns blackPawns : list Square)
    (settings : Settings) (pos : Position) : Q :=
  let some (l : list Square) (f : Square -> bool) := existsb f l in
  let whiteTerm (pawn : Square) : Z :=
    (if some whitePawns
          (λ p, (sqCol p =? sqCol pawn) && (sqRow p <? sqRow pawn))
     then -20 else 0)
    + (if negb (some whitePawns
                  (λ p, Z.abs (sqCol p - sqCol pawn) =? 1))
       then -15 else 0)
    + (if negb (some blackPawns
                  (λ p, (Z.abs (sqCol p - sqCol pawn) <=? 1)
                        && (sqRow pawn <? sqRow p)))
       then (6 - sqRow pawn) * 10 else 0) in
  let blackTerm (pawn : Square) : Z :=
    (if some blackPawns
          (λ p, (sqCol p =? sqCol pawn) && (sqRow pawn <? sqRow p))
     then 20 else 0)
    + (if negb (some blackPawns
                  (λ p, Z.abs (sqCol p - sqCol pawn) =? 1))
       then 15 else 0)
    + (if negb (some whitePawns
                  (λ p, (Z.abs (sqCol p - sqCol pawn) <=? 1)
                        && (sqRow p <? sqRow pawn)))
       then - ((sqRow pawn - 1) * 10) else 0) in
  let score :=
    foldl (λ acc pawn, acc + blackTerm pawn)
      (foldl (λ acc pawn, acc + whiteTerm pawn) 0 whitePawns) blackPawns in
  (inject_Z (match aiColor pos with white => score | black => - score end)
   * pawnStructureWeight settings)%Q.

Definition countPieces (pos : Position) : Z :=
  Z.of_nat (length (filter (λ '(r, c), occupied (cell (board pos) r c) = true)
                           allSquares)).

(** The contribution of the king found at [(row, col)] to
    [evaluateKingSafety]. *)
Definition kingSafetyAt (settings : Settings) (pos : Position) (piece : Piece)
    (row col : Z) : Q :=
  let pieceColor := getPieceColor piece in
  let multiplier := if Color_eqb pieceColor (aiColor pos) then 1 else -1 in
  let direction := match pieceColor with white => -1 | black => 1 end in
  let own (x : option Piece) : bool :=
    match x with
    | Some p => Color_eqb (getPieceColor p) pieceColor
    | None => false
    end in
  let ownPawn (x : option Piece) : bool :=
    match x with
    | Some p => PieceType_eqb (toLowerCase p) Pawn
                && Color_eqb (getPieceColor p) pieceColor
    | None => false
    end in
  let pawnShield :=
    foldl (λ acc dc,
             if isValidSquare (row + direction) (col + dc)
                && ownPawn (cell (board pos) (row + direction) (col + dc))
             then acc + 20 else acc) 0 [-1; 0; 1] in
  let defenders :=
    foldl (λ acc '(dr, dc),
             if isValidSquare (row + dr) (col + dc)
                && own (cell (board pos) (row + dr) (col + dc))
             then acc + 8 else acc) 0 kingOffsets in
  let pieceCount := countPieces pos in
  let centerDist :=
    (Qabs ((7 # 2) - inject_Z row) + Qabs ((7 # 2) - inject_Z col))%Q in
  let centralization :=
    if pieceCount <=? 12 then ((7 - centerDist) * 15)%Q
    else (centerDist * 5)%Q in
  let openFilePenalty :=
    foldl (λ acc dc,
             let fileCol := col + dc in
             if (0 <=? fileCol) && (fileCol <? 8) then
               if existsb (λ r, ownPawn (cell (board pos) r fileCol))
                          (seqZ 0 8)
               then acc else acc - 15
             else acc) 0 [-1; 0; 1] in
  ((inject_Z pawnShield + inject_Z defenders + centralization
    + inject_Z openFilePenalty)
   * inject_Z multiplier * kingSafetyWeight settings)%Q.

Definition evaluateKingSafety (settings : Settings) (pos : Position) : Q :=
  foldl (λ safety '(r, c),
           match cell (board pos) r c with
           | Some piece =>
               if PieceType_eqb (toLowerCase piece) King
               then (safety + kingSafetyAt settings pos piece r c)%Q
               else safety
           | None => safety
           end) 0%Q allSquares.

Definition evaluatePosition (stack : nat) (settings : Settings) : P Num :=
  let* materialScore := reads materialOf in
  let* positionScore := reads (positionScoreOf settings) in
  let* whitePawns := reads (λ pos, pawnsOf pos white) in
  let* blackPawns := reads (λ pos, pawnsOf pos black) in
  let* mobilityScore :=
    (if Qgtb (mobilityWeight settings) 0
     then evaluateMobility stack settings else ret 0%Q) in
  let* pawnStructureScore :=
    (if Qgtb (pawnStructureWeight settings) 0
     then reads (evaluatePawnStructure whitePawns blackPawns settings)
     else ret 0%Q) in
  let* kingSafetyScore :=
    (if Qgtb (kingSafetyWeight settings) 0
     then reads (evaluateKingSafety settings) else ret 0%Q) in
  ret (Fin (inject_Z materialScore + positionScore + mobilityScore
            + pawnStructureScore + kingSafetyScore)%Q).

(** ** Move ordering, killer moves, history table *)

(** [array.sort(comparefn)]: the sort is stable, and an element stays in
    front of a later one unless [comparefn] is positive on the pair.
    [positive x y] is [comparefn(x, y) > 0]. *)
Fixpoint insertSorted {A : Type} (positive : A -> A -> bool) (x : A)
    (l : list A) : list A :=
  match l with
  | [] => [x]
  | y :: l' =>
      if positive x y then y :: insertSorted positive x l' else x :: l
  end.

Definition sortBy {A : Type} (positive : A -> A -> bool) (l : list A)
  : list A :=
  foldr (insertSorted positive) [] l.

(** The template string
    [`${move.fromRow},${move.fromCol},${move.toRow},${move.toCol}`]. *)
Definition historyKey (move : Move) : string :=
  pretty (fromRow move) +:+ "," +:+ pretty (fromCol move) +:+ ","
  +:+ pretty (toRow move) +:+ "," +:+ pretty (toCol move).

(** The score [orderMoves] gives to one move. *)
Definition orderScore (w : Worker) (bestMove : option Move) (depth : Z)
    (move : Move) : option Q :=
  let pv :=
    match bestMove with
    | Some bm => if sameMove move bm then 100000 else 0
    | None => 0
    end in
  let targetPiece := cell (board (position w)) (toRow move) (toCol move) in
  let? movingPiece := cell (board (position w)) (fromRow move) (fromCol move) in
  let capture :=
    match targetPiece with
    | Some t => 10000 + (PIECE_VALUES t * 10 - PIECE_VALUES movingPiece)
    | None => 0
    end in
  let promotion :=
    if PieceType_eqb (toLowerCase movingPiece) Pawn
       && ((toRow move =? 0) || (toRow move =? 7))
    then 9000 else 0 in
  let? killer :=
    (if negb (occupied targetPiece)
        && (depth <? Z.of_nat (length (killerMoves w)))
     then
       if depth <? 0 then None
       else
         let killers := default [] (killerMoves w !! Z.to_nat depth) in
         Some (foldl (λ acc '(i, k),
                        if sameMove k move
                        then acc + (8000 - Z.of_nat i * 1000) else acc)
                     0 (imap (λ i k, (i, k)) killers))
     else Some 0) in
  let history := default 0 (historyTable w !! historyKey move) in
  let centerDistance :=
    (Qabs ((7 # 2) - inject_Z (toRow move))
     + Qabs ((7 # 2) - inject_Z (toCol move)))%Q in
  let development :=
    if PieceType_eqb (toLowerCase movingPiece) Knight
       || PieceType_eqb (toLowerCase movingPiece) Bishop
    then
      let startRow :=
        match getPieceColor movingPiece with white => 7 | black => 0 end in
      if fromRow move =? startRow then 50 else 0
    else 0 in
  Some (inject_Z (pv + capture + promotion + killer + history)
        + (7 - centerDistance) * 10 + inject_Z development)%Q.

Fixpoint scoreMoves (w : Worker) (bestMove : option Move) (depth : Z)
    (moves : list Move) : option (list (Move * Q)) :=
  match moves with
  | [] => Some []
  | move :: rest =>
      let? s := orderScore w bestMove depth move in
      let? more := scoreMoves w bestMove depth rest in
      Some ((move, s) :: more)
  end.

Definition orderMoves (moves : list Move) (bestMove : option Move)
    (depth : Z) (w : Worker) : option (list Move) :=
  let? scoredMoves := scoreMoves w bestMove depth moves in
  Some (map fst (sortBy (λ a b, Qgtb (snd b - snd a) 0) scoredMoves)).

Definition storeKillerMove (move : Move) (depth : Z) : M unit :=
  let* km := reads killerMoves in
  if Z.of_nat (length km) <=? depth then ret tt
  else if depth <? 0 then throw
  else
    let killers := default [] (km !! Z.to_nat depth) in
    if existsb (λ k, sameMove k move) killers then ret tt
    else
      let unshifted := move :: killers in
      let popped :=
        if (2 <? length unshifted)%nat
        then take (length unshifted - 1) unshifted else unshifted in
      modify (setKillerMoves (<[Z.to_nat depth := popped]> km)).

Definition updateHistory (move : Move) (depth : nat) : M unit :=
  modify (λ w,
    let old := default 0 (historyTable w !! historyKey move) in
    setHistoryTable
      (<[historyKey move := old + Z.of_nat depth * Z.of_nat depth]>
         (historyTable w)) w).

(** ** Search *)

(** [forceTimeout || Date.now() >= deadline || nodesSearched > settings.maxNodes];
    the clock is read only when [forceTimeout] is false. *)
Definition timedOut (settings : Settings) (deadline : Z) : M bool :=
  let* ft := reads forceTimeout in
  if ft then ret true
  else
    let* now := DateNow in
    if deadline <=? now then ret true
    else
      let* n := reads nodesSearched in
      ret (maxNodes settings <? n).

(** [forceTimeout || Date.now() >= deadline] *)
Definition deadlinePassed (deadline : Z) : M bool :=
  let* ft := reads forceTimeout in
  if ft then ret true
  else
    let* now := DateNow in
    ret (deadline <=? now).

(** The make step written out in every move loop of the search:
    [piece = board[from]; captured = board[to]; board[to] = piece;
     board[from] = null]. *)
Definition makeSearchMove (move : Move)
  : P (option Piece * option Piece) :=
  let* piece := readCell (fromRow move) (fromCol move) in
  let* captured := readCell (toRow move) (toCol move) in
  writeCell (toRow move) (toCol move) piece ;;
  writeCell (fromRow move) (fromCol move) None ;;
  ret (piece, captured).

(** The unmake step: [board[from] = piece; board[to] = captured]. *)
Definition unmakeSearchMove (move : Move) (piece captured : option Piece)
  : P unit :=
  writeCell (fromRow move) (fromCol move) piece ;;
  writeCell (toRow move) (toCol move) captured.

Definition ttSet (boardKey : string) (e : TTEntry) : M unit :=
  modify (λ w, setTranspositionTable
                 (<[boardKey := e]> (transpositionTable w)) w).

(** [allMoves.filter(...)] of [quiescenceSearch]: captures, and moves that
    give check. *)
Fixpoint tacticalFilter (stack : nat) (color : Color) (moves : list Move)
  : P (list Move) :=
  match moves with
  | [] => ret []
  | move :: rest =>
      let* target := readCell (toRow move) (toCol move) in
      let* keep :=
        (if occupied target then ret true
         else
           let* piece := readCell (fromRow move) (fromCol move) in
           writeCell (toRow move) (toCol move) piece ;;
           writeCell (fromRow move) (fromCol move) None ;;
           let opponentColor := opposite color in
           let* givesCheck := readsE (λ pos, isInCheck stack pos opponentColor) in
           writeCell (fromRow move) (fromCol move) piece ;;
           writeCell (toRow move) (toCol move) None ;;
           ret givesCheck) in
      let* more := tacticalFilter stack color rest in
      ret (if keep then move :: more else more)
  end.

(** The move loop of [quiescenceSearch]; [search] is the recursive call
    with the side flipped and the depth increased. *)
Fixpoint quiescenceLoop (search : Num -> Num -> M Num)
    (settings : Settings) (deadline : Z) (isMaximizing : bool)
    (moves : list Move) (alpha beta : Num) : M Num :=
  match moves with
  | [] => ret (if isMaximizing then alpha else beta)
  | move :: rest =>
      let* stop := timedOut settings deadline in
      if stop then ret (if isMaximizing then alpha else beta)
      else
        let* (piece, captured) := onPosition (makeSearchMove move) in
        let* score := search alpha beta in
        onPosition (unmakeSearchMove move piece captured) ;;
        if isMaximizing then
          if Num_geb score beta then ret beta
          else quiescenceLoop search settings deadline isMaximizing rest
                 (if Num_gtb score alpha then score else alpha) beta
        else
          if Num_leb score alpha then ret alpha
          else quiescenceLoop search settings deadline isMaximizing rest
                 alpha (if Num_ltb score beta then score else beta)
  end.

(** [quiescenceSearch]; [budget] counts the nested calls still allowed by
    the cap [depth > 4]. *)
Fixpoint quiescenceRec (budget : nat) (stack : nat) (alpha beta : Num)
    (isMaximizing : bool) (settings : Settings) (deadline : Z) (depth : Z)
  : M Num :=
  let* stop := (if 4 <? depth then ret true else timedOut settings deadline) in
  if stop then onPosition (evaluatePosition stack settings)
  else
    let* standPat := onPosition (evaluatePosition stack settings) in
    if isMaximizing && Num_geb standPat beta then ret beta
    else if negb isMaximizing && Num_leb standPat alpha then ret alpha
    else
      let alpha' :=
        if isMaximizing && Num_ltb alpha standPat then standPat else alpha in
      let beta' :=
        if negb isMaximizing && Num_gtb beta standPat then standPat
        else beta in
      let* ai := reads (λ w, aiColor (position w)) in
      let color := if isMaximizing then ai else opposite ai in
      let* allMoves := onPosition (getAllValidMoves stack color) in
      let* tacticalMoves := onPosition (tacticalFilter stack color allMoves) in
      match tacticalMoves with
      | [] => ret standPat
      | _ =>
          let* orderedMoves := readsE (orderMoves tacticalMoves None 0) in
          match budget with
          | O => throw
          | S budget' =>
              quiescenceLoop
                (λ a b, quiescenceRec budget' stack a b (negb isMaximizing)
                          settings deadline (depth + 1))
                settings deadline isMaximizing orderedMoves alpha' beta'
          end
      end.

Definition quiescenceSearch (stack : nat) (alpha beta : Num)
    (isMaximizing : bool) (settings : Settings) (deadline : Z) (depth : Z)
  : M Num :=
  quiescenceRec (Z.to_nat (5 - depth)) stack alpha beta isMaximizing
    settings deadline depth.

(** The move loop of the maximizing branch of [alphaBetaSearch]; [search]
    is the recursive call at [depth - 1]. The result is
    [(maxEval, bestMoveAtDepth)]. *)
Fixpoint maxLoop (search : Num -> Num -> M Num) (settings : Settings)
    (deadline : Z) (depth : nat) (searchDepth : Z) (moves : list Move)
    (alpha beta maxEval : Num) (bestMoveAtDepth : option Move)
  : M (Num * option Move) :=
  match moves with
  | [] => ret (maxEval, bestMoveAtDepth)
  | move :: rest =>
      let* stop := timedOut settings deadline in
      if stop then ret (maxEval, bestMoveAtDepth)
      else
        let* (piece, captured) := onPosition (makeSearchMove move) in
        let* evaluation := search alpha beta in
        onPosition (unmakeSearchMove move piece captured) ;;
        let better := Num_gtb evaluation maxEval in
        let maxEval' := if better then evaluation else maxEval in
        let best' := if better then Some move else bestMoveAtDepth in
        let alpha' := Num_max alpha evaluation in
        if Num_leb beta alpha' then
          (if occupied captured then ret tt
           else storeKillerMove move searchDepth) ;;
          updateHistory move depth ;;
          ret (maxEval', best')
        else
          maxLoop search settings deadline depth searchDepth rest
            alpha' beta maxEval' best'
  end.

(** The move loop of the minimizing branch. *)
Fixpoint minLoop (search : Num -> Num -> M Num) (settings : Settings)
    (deadline : Z) (depth : nat) (searchDepth : Z) (moves : list Move)
    (alpha beta minEval : Num) (bestMoveAtDepth : option Move)
  : M (Num * option Move) :=
  match moves with
  | [] => ret (minEval, bestMoveAtDepth)
  | move :: rest =>
      let* stop := timedOut settings deadline in
      if stop then ret (minEval, bestMoveAtDepth)
      else
        let* (piece, captured) := onPosition (makeSearchMove move) in
        let* evaluation := search alpha beta in
        onPosition (unmakeSearchMove move piece captured) ;;
        let better := Num_ltb evaluation minEval in
        let minEval' := if better then evaluation else minEval in
        let best' := if better then Some move else bestMoveAtDepth in
        let beta' := Num_min beta evaluation in
        if Num_leb beta' alpha then
          (if occupied captured then ret tt
           else storeKillerMove move searchDepth) ;;
          updateHistory move depth ;;
          ret (minEval', best')
        else
          minLoop search settings deadline depth searchDepth rest
            alpha beta' minEval' best'
  end.

(** [ttEntry && ttEntry.depth >= depth]: the score that short-circuits the
    search, if any. *)
Definition ttHit (ttEntry : option TTEntry) (depth : nat) : option Num :=
  match ttEntry with
  | Some e => if (depth <=? ttDepth e)%nat then Some (ttScore e) else None
  | None => None
  end.

Fixpoint alphaBetaSearch (stack : nat) (depth : nat) (alpha beta : Num)
    (isMaximizing : bool) (settings : Settings) (deadline : Z)
    (searchDepth : Z) {struct depth} : M Num :=
  modify (λ w, setNodesSearched (nodesSearched w + 1) w) ;;
  let* stop := timedOut settings deadline in
  if stop then onPosition (quickEval settings)
  else
    let* repetitions := reads countRepetitions in
    if 2 <=? repetitions then ret (ofZ 0)
    else
      let* boardKey := reads (λ w, getFEN (position w)) in
      let* ttEntry := reads (λ w, transpositionTable w !! boardKey) in
      match ttHit ttEntry depth with
      | Some s => ret s
      | None =>
          match depth with
          | O =>
              let* s :=
                (if useQuiescence settings
                 then quiescenceSearch stack alpha beta isMaximizing
                        settings deadline 0
                 else onPosition (evaluatePosition stack settings)) in
              ttSet boardKey (mkEntry s depth None) ;;
              ret s
          | S depth' =>
              let* ai := reads (λ w, aiColor (position w)) in
              let color := if isMaximizing then ai else opposite ai in
              let* moves := onPosition (getAllValidMoves stack color) in
              match moves with
              | [] =>
                  let* inCheck := readsE (λ w, isInCheck stack (position w) color) in
                  let s :=
                    if inCheck
                    then (if isMaximizing then ofZ (-999999) else ofZ 999999)
                    else ofZ 0 in
                  ttSet boardKey (mkEntry s depth None) ;;
                  ret s
              | _ =>
                  let* orderedMoves :=
                    readsE (orderMoves moves (ttEntry ≫= ttBestMove)
                              searchDepth) in
                  if isMaximizing then
                    let* (maxEval, bestMoveAtDepth) :=
                      maxLoop
                        (λ a b, alphaBetaSearch stack depth' a b false
                                  settings deadline (searchDepth + 1))
                        settings deadline depth searchDepth orderedMoves
                        alpha beta NegInf None in
                    ttSet boardKey (mkEntry maxEval depth bestMoveAtDepth) ;;
                    ret maxEval
                  else
                    let* (minEval, bestMoveAtDepth) :=
                      minLoop
                        (λ a b, alphaBetaSearch stack depth' a b true
                                  settings deadline (searchDepth + 1))
                        settings deadline depth searchDepth orderedMoves
                        alpha beta PosInf None in
                    ttSet boardKey (mkEntry minEval depth bestMoveAtDepth) ;;
                    ret minEval
              end
          end
      end.

(** ** Move selection *)

(** [{ move, score }] *)
Abbreviation MoveScore := (Move * Num)%type.

Definition maybeBlunder (moveScores : list MoveScore) (settings : Settings)
  : M (option Move) :=
  let* r := MathRandom in
  if Qle_bool (mistakeRate settings) r then ret None
  else
    match moveScores with
    | [] => throw
    | first :: _ =>
        let bestScore := snd first in
        let targetScore := Num_sub bestScore (Fin (mistakeSizeCp settings)) in
        let blunderCandidates :=
          List.filter
            (λ m, Num_ltb (Num_abs (Num_sub (snd m) targetScore)) (ofZ 50)
                  && Num_ltb (snd m) (Num_sub bestScore (ofZ 50)))
            moveScores in
        match blunderCandidates with
        | _ :: _ =>
            let* r2 := MathRandom in
            let index :=
              Qfloor (r2 * inject_Z (Z.of_nat (length blunderCandidates))) in
            if index <? 0 then throw
            else match blunderCandidates !! Z.to_nat index with
                 | Some selected => ret (Some (fst selected))
                 | None => throw
                 end
        | [] =>
            if (1 <? length moveScores)%nat then
              let worseIndex :=
                Nat.min (length moveScores / 2) (length moveScores - 1) in
              match moveScores !! worseIndex with
              | Some m => ret (Some (fst m))
              | None => throw
              end
            else ret None
        end
    end.

(** The cumulative loop of [selectMoveWithSoftmax]:
    [cumulative += probabilities[i]; if (rand <= cumulative) return ...]. *)
Fixpoint pickCumulative (rand : Q) (cumulative : Num)
    (candidates : list (MoveScore * Num)) : option Move :=
  match candidates with
  | [] => None
  | (m, probability) :: rest =>
      let cumulative' := Num_add cumulative probability in
      if Num_leb (Fin rand) cumulative' then Some (fst m)
      else pickCumulative rand cumulative' rest
  end.

Definition selectMoveWithSoftmax (moveScores : list MoveScore)
    (settings : Settings) : M (option Move) :=
  match moveScores with
  | [] => throw
  | first :: _ =>
      let bestScore := snd first in
      let windowSize :=
        if Qeq_bool (softmaxWindow settings) 0 then 50%Q
        else softmaxWindow settings in
      let topMoves :=
        List.filter (λ m, Num_geb (snd m) (Num_sub bestScore (Fin windowSize)))
                    moveScores in
      match topMoves with
      | [only] => ret (Some (fst only))
      | _ =>
          let temperature' :=
            if Qeq_bool (temperature settings) 0 then (1 # 2)%Q
            else temperature settings in
          let* exp := reads (λ w, mathExp (host w)) in
          let expScores :=
            map (λ m, exp (Num_div (snd m) (Fin temperature'))) topMoves in
          let sumExp := foldl Num_add (ofZ 0) expScores in
          let probabilities := map (λ e, Num_div e sumExp) expScores in
          let* rand := MathRandom in
          match pickCumulative rand (ofZ 0) (zip topMoves probabilities) with
          | Some m => ret (Some m)
          | None =>
              match topMoves with
              | m :: _ => ret (Some (fst m))
              | [] => throw
              end
          end
      end
  end.

(** ** The root search *)

(** Truthiness of [depthBestMove]. *)
Definition occupiedMove (m : option Move) : bool :=
  match m with Some _ => true | None => false end.

(** [{ move, score, depth }] *)
Record Result : Type :=
  mkResult { move : option Move; resScore : Num; resDepth : Z }.

(** The loop [for (const move of orderedMoves)] of [getBestMove] at one
    iteration depth. The state of the loop is
    [(depthBestMove, depthBestScore, depthMoveScores)]. *)
Fixpoint rootLoop (stack : nat) (depth : nat) (settings : Settings)
    (deadline : Z) (moves : list Move) (depthBestMove : option Move)
    (depthBestScore : Num) (depthMoveScores : list MoveScore)
  : M (option Move * Num * list MoveScore) :=
  match moves with
  | [] => ret (depthBestMove, depthBestScore, depthMoveScores)
  | mv :: rest =>
      let* stop := deadlinePassed deadline in
      if stop then ret (depthBestMove, depthBestScore, depthMoveScores)
      else
        let* n := reads nodesSearched in
        if maxNodes settings <? n then
          modify (setForceTimeout true) ;;
          ret (depthBestMove, depthBestScore, depthMoveScores)
        else
          let* (piece, captured) := onPosition (makeSearchMove mv) in
          let* value :=
            alphaBetaSearch stack (depth - 1) NegInf PosInf false settings
              deadline 0 in
          let score := Num_neg value in
          onPosition (unmakeSearchMove mv piece captured) ;;
          let better := Num_gtb score depthBestScore in
          rootLoop stack depth settings deadline rest
            (if better then Some mv else depthBestMove)
            (if better then score else depthBestScore)
            (depthMoveScores ++ [(mv, score)])
  end.

(** The iterative-deepening loop [for (depth = 1; depth <= searchDepth;
    depth++)] over the depths [depths]. The state of the loop is
    [(bestMove, bestScore, completedDepth, allMoveScores)]. *)
Fixpoint deepen (stack : nat) (settings : Settings) (deadline : Z)
    (moves : list Move) (depths : list nat) (bestMove : option Move)
    (bestScore : Num) (completedDepth : Z) (allMoveScores : list MoveScore)
  : M (option Move * Num * Z * list MoveScore) :=
  match depths with
  | [] => ret (bestMove, bestScore, completedDepth, allMoveScores)
  | depth :: rest =>
      let* stop := deadlinePassed deadline in
      if stop then ret (bestMove, bestScore, completedDepth, allMoveScores)
      else
        let* orderedMoves := readsE (orderMoves moves bestMove 0) in
        let* (depthBestMove, depthBestScore, depthMoveScores) :=
          rootLoop stack depth settings deadline orderedMoves None NegInf [] in
        let* ft := reads forceTimeout in
        let* accept :=
          (if occupiedMove depthBestMove && negb ft then
             let* now := DateNow in ret (now <? deadline)
           else ret false) in
        if accept then
          let* n := reads nodesSearched in
          modify (λ w, setPosted
                         (posted w
                          ++ [mkProgress (Z.of_nat depth) n depthBestScore])
                         w) ;;
          deepen stack settings deadline moves rest depthBestMove
            depthBestScore (Z.of_nat depth) depthMoveScores
        else
          deepen stack settings deadline moves rest bestMove bestScore
            completedDepth allMoveScores
  end.

Definition getBestMove (stack : nat) (settings : Settings) (deadline : Z)
    (startTime : Z) : M Result :=
  let* ai := reads (λ w, aiColor (position w)) in
  let* moves := onPosition (getAllValidMoves stack ai) in
  match moves with
  | [] => ret (mkResult None (ofZ 0) 0)
  | first :: _ =>
      if searchDepth settings =? 0 then
        let* r := MathRandom in
        let index := Qfloor (r * inject_Z (Z.of_nat (length moves))) in
        ret (mkResult (if index <? 0 then None else moves !! Z.to_nat index)
                      (ofZ 0) 0)
      else
        let* (bestMove, bestScore, completedDepth, allMoveScores) :=
          deepen stack settings deadline moves
            (seq 1 (Z.to_nat (searchDepth settings)))
            (Some first) NegInf 0 [] in
        match allMoveScores with
        | [] => ret (mkResult bestMove bestScore completedDepth)
        | _ =>
            let sorted :=
              sortBy (λ a b, Num_gtb (Num_sub (snd b) (snd a)) (ofZ 0))
                     allMoveScores in
            let* blunderMove := maybeBlunder sorted settings in
            match blunderMove with
            | Some m => ret (mkResult (Some m) bestScore completedDepth)
            | None =>
                let* selectedMove := selectMoveWithSoftmax sorted settings in
                match selectedMove with
                | Some m => ret (mkResult (Some m) bestScore completedDepth)
                | None => ret (mkResult bestMove bestScore completedDepth)
                end
            end
        end
  end.

(** ** The message handler of the worker *)

(** The data of a [{ type: 'search', ... }] message. *)
Record SearchRequest : Type := mkRequest {
  rqBoard : Board;
  rqSettings : Settings;
  rqAiColor : Color;
  rqCurrentTurn : Color;
  rqCastlingRights : CastlingRights;
  rqEnPassantTarget : option Square;
  rqPositionHistory : list string
}.

(** [{ type: 'move', move, score, depth, nodes, time }] *)
Record MoveMessage : Type := mkMoveMessage {
  msgMove : option Move;
  msgScore : Num;
  msgDepth : Z;
  msgNodes : Z;
  msgTime : Z
}.

(** The branch [type === 'search'] of [self.onmessage]. The transposition
    table, the killer moves and the history table are the ones the previous
    message left behind. *)
Definition onmessage_search (stack : nat) (data : SearchRequest)
  : M MoveMessage :=
  modify (λ w,
    mkWorker
      (mkPosition (rqBoard data) (rqAiColor data) (rqCurrentTurn data)
         (rqCastlingRights data) (rqEnPassantTarget data))
      (rqPositionHistory data) (transpositionTable w) (killerMoves w)
      (historyTable w) (nodesSearched w) (forceTimeout w) (posted w)
      (host w) (ticks w) (draws w)) ;;
  let settings := rqSettings data in
  let* startTime := DateNow in
  let deadline := startTime + Qfloor (timePerMove settings * (9 # 10)) in
  modify (setForceTimeout false) ;;
  modify (setNodesSearched 0) ;;
  modify (λ w, if 100000 <? Z.of_nat (size (transpositionTable w))
               then setTranspositionTable ∅ w else w) ;;
  let* result := getBestMove stack settings deadline startTime in
  let* nodes := reads nodesSearched in
  let* endTime := DateNow in
  ret (mkMoveMessage (move result) (resScore result) (resDepth result)
         nodes (endTime - startTime)).

(** The branch [type === 'stop']. *)
Definition onmessage_stop : M unit := modify (setForceTimeout true).

(** ** Plain minimax, the reference of the specification *)

(** The position the search reaches by its make step. *)
Definition afterSearchMove (pos : Position) (m : Move) : Position :=
  let piece := cell (board pos) (fromRow m) (fromCol m) in
  setBoard (setCell (setCell (board pos) (toRow m) (toCol m) piece)
                    (fromRow m) (fromCol m) None) pos.

Fixpoint minimaxChildren (child : Move -> option Num) (moves : list Move)
  : option (list Num) :=
  match moves with
  | [] => Some []
  | m :: rest =>
      let? v := child m in
      let? vs := minimaxChildren child rest in
      Some (v :: vs)
  end.

(** Spec: "plain minimax score at depth D": no window, no cache, no move
    ordering and no budget. A position that the history holds twice is a
    draw, the leaves take the static evaluation, a side without moves is
    mated or stalemated, and an inner node takes the maximum (the engine to
    move) or the minimum (the opponent to move) of its children. *)
Fixpoint minimax (stack : nat) (depth : nat) (isMaximizing : bool)
    (settings : Settings) (w : Worker) : option Num :=
  if 2 <=? countRepetitions w then Some (ofZ 0)
  else
    match depth with
    | O => fst <$> evaluatePosition stack settings (position w)
    | S depth' =>
        let ai := aiColor (position w) in
        let color := if isMaximizing then ai else opposite ai in
        let? (moves, _) := getAllValidMoves stack color (position w) in
        match moves with
        | [] =>
            let? inCheck := isInCheck stack (position w) color in
            Some (if inCheck
                  then (if isMaximizing then ofZ (-999999) else ofZ 999999)
                  else ofZ 0)
        | _ =>
            let? values :=
              minimaxChildren
                (λ m, minimax stack depth' (negb isMaximizing) settings
                        (setPosition (afterSearchMove (position w) m) w))
                moves in
            Some (if isMaximizing then foldl Num_max NegInf values
                  else foldl Num_min PosInf values)
        end
    end.

(** ** The game object of [chess.js]: applying a move *)

(** One entry of [moveHistory]. *)
Record HistoryEntry : Type := mkHistoryEntry {
  heNotation : string;
  hePiece : Piece;
  heMove : Move;
  heCaptured : option Piece;
  heBoard : Board
}.

(** The fields of [ChessGame] that [makeMove] reads or writes. The status
    line, the timer and the [gameOver] flag that [checkGameOver] and
    [updateUI] maintain belong to the page and are left out. *)
Record ChessGame : Type := mkGame {
  gBoard : Board;
  gCurrentTurn : Color;
  gEnPassantTarget : option Square;
  gCastlingRights : CastlingRights;
  gCapturedWhite : list Piece;
  gCapturedBlack : list Piece;
  gLastMove : option Move;
  gMoveHistory : list HistoryEntry;
  gPositionHistory : list string
}.

(** [String.fromCharCode(97 + col) + (8 - row)] *)
Definition squareName (r c : Z) : string :=
  String (ascii_of_N (Z.to_N (97 + c))) (pretty (8 - r)).

Definition upperLetter (t : PieceType) : string :=
  match t with
  | Pawn => "P" | Knight => "N" | Bishop => "B"
  | Rook => "R" | Queen => "Q" | King => "K"
  end.

Definition getMoveNotation (b : Board) (fromRow fromCol toRow toCol : Z)
  : option string :=
  let? piece := cell b fromRow fromCol in
  let pieceSymbol :=
    match toLowerCase piece with Pawn => "" | t => upperLetter t end in
  let capture := if occupied (cell b toRow toCol) then "x" else "" in
  Some (pieceSymbol +:+ squareName fromRow fromCol +:+ capture
        +:+ squareName toRow toCol).

(** [this.capturedPieces[captureColor].push(p)], where [captureColor] is
    the colour opposite to the one of [p]. *)
Definition pushCaptured (p : option Piece) (cw cb : list Piece)
  : list Piece * list Piece :=
  match p with
  | Some x =>
      match getPieceColor x with
      | white => (cw, cb ++ [x])
      | black => (cw ++ [x], cb)
      end
  | None => (cw, cb)
  end.

(** The update of [castlingRights[currentTurn]]. *)
Definition updateRights (cr : CastlingRights) (turn : Color)
    (f : Rights -> Rights) : CastlingRights :=
  match turn with
  | white => mkCastling (f (crWhite cr)) (crBlack cr)
  | black => mkCastling (crWhite cr) (f (crBlack cr))
  end.

(** The statements of [makeMove] that assign the fields of the game, from
    its first line to the switch of turns (l.271-342). The two calls that
    end [makeMove], [this.checkGameOver()] and [this.updateUI()], are not
    part of this definition: [makeMoveOnPage] below is [makeMove] with its
    [checkGameOver]. [None] is the [TypeError] of a move from an empty
    square. *)
Definition makeMove (g : ChessGame) (fromRow fromCol toRow toCol : Z)
  : option ChessGame :=
  let b0 := gBoard g in
  let turn := gCurrentTurn g in
  let? piece := cell b0 fromRow fromCol in
  let capturedPiece := cell b0 toRow toCol in
  let isEnPassant :=
    match gEnPassantTarget g with
    | Some e => (toRow =? sqRow e) && (toCol =? sqCol e)
                && PieceType_eqb (toLowerCase piece) Pawn
    | None => false
    end in
  let? moveNotation := getMoveNotation b0 fromRow fromCol toRow toCol in
  (* en passant capture *)
  let capturedRow := match turn with white => toRow + 1 | black => toRow - 1 end in
  let capturedPawn := if isEnPassant then cell b0 capturedRow toCol else None in
  let b1 := if isEnPassant then setCell b0 capturedRow toCol None else b0 in
  let (cw1, cb1) := pushCaptured capturedPawn (gCapturedWhite g) (gCapturedBlack g) in
  (* castling *)
  let b2 :=
    if PieceType_eqb (toLowerCase piece) King
       && (Z.abs (toCol - fromCol) =? 2)
    then
      let rookFromCol := if fromCol <? toCol then 7 else 0 in
      let rookToCol := if fromCol <? toCol then toCol - 1 else toCol + 1 in
      setCell (setCell b1 toRow rookToCol (cell b1 toRow rookFromCol))
              toRow rookFromCol None
    else b1 in
  (* move piece *)
  let b3 := setCell (setCell b2 toRow toCol (Some piece)) fromRow fromCol None in
  (* pawn promotion *)
  let b4 :=
    if PieceType_eqb (toLowerCase piece) Pawn
       && ((toRow =? 0) || (toRow =? 7))
    then setCell b3 toRow toCol (Some (mkPiece turn Queen))
    else b3 in
  (* castling rights *)
  let cr1 :=
    if PieceType_eqb (toLowerCase piece) King
    then updateRights (gCastlingRights g) turn (λ _, mkRights false false)
    else gCastlingRights g in
  let cr2 :=
    if PieceType_eqb (toLowerCase piece) Rook then
      let cr' :=
        if fromCol =? 0
        then updateRights cr1 turn (λ r, mkRights (kingside r) false)
        else cr1 in
      if fromCol =? 7
      then updateRights cr' turn (λ r, mkRights false (queenside r))
      else cr'
    else cr1 in
  (* en passant target *)
  let ep :=
    if PieceType_eqb (toLowerCase piece) Pawn
       && (Z.abs (toRow - fromRow) =? 2)
    then Some (mkSquare
                 (match turn with white => fromRow - 1 | black => fromRow + 1 end)
                 fromCol)
    else None in
  let (cw2, cb2) := pushCaptured capturedPiece cw1 cb1 in
  let mv := mkMove fromRow fromCol toRow toCol in
  let entry := mkHistoryEntry moveNotation piece mv capturedPiece b4 in
  Some (mkGame b4 (opposite turn) ep cr2 cw2 cb2 (Some mv)
          (gMoveHistory g ++ [entry])
          (gPositionHistory g ++ [fenOf b4 turn cr2 ep])).

(** ** The difficulty calibrator of [chess.js] *)

(** [Math.round(x)] *)
Definition MathRound (x : Q) : Z := Qfloor (x + (1 # 2)).

(** [Math.max(500, Math.min(2200, this.aiElo))] *)
Definition clampElo (aiElo : Z) : Z := Z.max 500 (Z.min 2200 aiElo).

(** The helper [lerp] of [getAISettings], with the clamped rating [elo] it
    closes over. *)
Definition lerp (elo : Z) (minElo maxElo : Z) (minVal maxVal : Q) : Q :=
  let t := (inject_Z (elo - minElo) / inject_Z (maxElo - minElo))%Q in
  (minVal + t * (maxVal - minVal))%Q.

Definition getAISettings (aiElo : Z) : Settings :=
  let elo := clampElo aiElo in
  {| searchDepth := if elo <=? 500 then 0 else MathRound (lerp elo 500 2200 1 6);
     mistakeRate := lerp elo 500 2200 (90 # 100) (2 # 100);
     mistakeSizeCp := inject_Z (MathRound (lerp elo 500 2200 350 100));
     timePerMove := inject_Z (MathRound (lerp elo 500 2200 300 5000));
     maxNodes := MathRound (lerp elo 500 2200 50000 500000);
     positionWeight := lerp elo 500 2200 0 (15 # 10);
     mobilityWeight := lerp elo 500 2200 0 1;
     pawnStructureWeight := lerp elo 500 2200 0 1;
     kingSafetyWeight := lerp elo 500 2200 0 (12 # 10);
     temperature := lerp elo 500 2200 (12 # 10) (3 # 10);
     softmaxWindow := inject_Z (MathRound (lerp elo 500 2200 80 30));
     useQuiescence := 1200 <=? elo |}.

(** ** The FEN reader of [test-positions.js] *)

(** [s.split(sep)] *)
Fixpoint splitOn (sep : ascii) (s : string) : list string :=
  match s with
  | EmptyString => [EmptyString]
  | String c rest =>
      if Ascii.eqb c sep then EmptyString :: splitOn sep rest
      else match splitOn sep rest with
           | first :: more => String c first :: more
           | [] => [String c EmptyString]
           end
  end.

Definition pieceOfChar (c : ascii) : option Piece :=
  find (λ p, Ascii.eqb (pieceChar p) c)
    (col ← [white; black];
     t ← [Pawn; Knight; Bishop; Rook; Queen; King]; [mkPiece col t]).

(** The loop [for (const char of rows[i])] of [parseFEN]. A character that
    is neither a digit [1..8] nor a piece letter has no counterpart among
    the cells of [Board]; the reader stops with [None] there. *)
Fixpoint parseRow (chars : string) : option (list (option Piece)) :=
  match chars with
  | EmptyString => Some []
  | String char rest =>
      let? more := parseRow rest in
      let code := Z.of_N (N_of_ascii char) in
      if (49 <=? code) && (code <=? 56)
      then Some (replicate (Z.to_nat (code - 48)) None ++ more)
      else let? piece := pieceOfChar char in Some (Some piece :: more)
  end.

(** [parseFEN(fen)]: [{ board, turn }]. A FEN with fewer than eight rows
    raises in the source. *)
Definition parseFEN (fen : string) : option (Board * Color) :=
  let parts := splitOn " " fen in
  let? position := parts !! 0%nat in
  let turn := parts !! 1%nat in
  let rows := splitOn "/" position in
  let? b := mapM (λ i, let? r := rows !! i in parseRow r) (seq 0 8) in
  Some (b, match turn with Some "w"%string => white | _ => black end).

(** ** Concrete positions, settings and hosts used by the examples *)

Definition pc (c : Color) (t : PieceType) : option Piece := Some (mkPiece c t).

Definition emptyBoard : Board := replicate 8 (replicate 8 None).

(** [place b l] puts the listed pieces on [b]. *)
Definition place (b : Board) (l : list (Z * Z * option Piece)) : Board :=
  foldl (λ b '(r, c, x), setCell b r c x) b l.

Definition initialBoard : Board :=
  [ [pc black Rook; pc black Knight; pc black Bishop; pc black Queen;
     pc black King; pc black Bishop; pc black Knight; pc black Rook];
    replicate 8 (pc black Pawn);
    replicate 8 None; replicate 8 None; replicate 8 None; replicate 8 None;
    replicate 8 (pc white Pawn);
    [pc white Rook; pc white Knight; pc white Bishop; pc white Queen;
     pc white King; pc white Bishop; pc white Knight; pc white Rook] ].

Definition noCastling : CastlingRights :=
  mkCastling (mkRights false false) (mkRights false false).

Definition allCastling : CastlingRights :=
  mkCastling (mkRights true true) (mkRights true true).

(** A host whose clock stands still at 0 and whose random draws are all 0. *)
Definition stillHost (exp : Num -> Num) : Host :=
  mkHost (λ _, 0) (λ _, 0%Q) exp.

(** A worker that has not searched yet. *)
Definition freshWorker (pos : Position) (history : list string) (h : Host)
  : Worker :=
  mkWorker pos history ∅ (replicate 20 []) ∅ 0 false [] h 0%nat 0%nat.

(** Material-only settings: every weight is 0, no blunders, no quiescence,
    and budgets that the examples do not exhaust. *)
Definition materialOnly (searchDepth : Z) : Settings :=
  mkSettings searchDepth 0 0 1000000 100000000 0 0 0 0 1 1 false.

(** White: Kd1, pawns f7 and h6. Black: Kh8, pawns h7, d4 and b3.
    [7k/5P1p/7P/8/3p4/1p6/8/3K4 w - -] *)
Definition triangleBoard : Board :=
  place emptyBoard
    [(0, 7, pc black King); (1, 7, pc black Pawn); (2, 7, pc white Pawn);
     (1, 5, pc white Pawn); (7, 3, pc white King); (4, 3, pc black Pawn);
     (5, 1, pc black Pawn)].

Definition trianglePosition : Position :=
  mkPosition triangleBoard white white noCastling None.

(** White: Ke1, pawn e4. Black: Ke8, an undefended queen on d5 that the
    pawn can take. [4k3/8/8/3q4/4P3/8/8/4K3 w - -] *)
Definition hangingQueenBoard : Board :=
  place emptyBoard
    [(7, 4, pc white King); (4, 4, pc white Pawn); (0, 4, pc black King);
     (3, 3, pc black Queen)].

Definition hangingQueenPosition : Position :=
  mkPosition hangingQueenBoard white white noCastling None.

(** Black is mated: Kh8 against Qg7 and Kf6. [7k/6Q1/5K2/8/8/8/8/8 b - -] *)
Definition matedBoard : Board :=
  place emptyBoard
    [(0, 7, pc black King); (1, 6, pc white Queen); (2, 5, pc white King)].

Definition matedPosition : Position :=
  mkPosition matedBoard black black noCastling None.

(** Black is stalemated: Kh8 against Qg6 and Ka1. The queen on g6 takes
    g8, g7 and h7 from the king without giving check.
    [7k/8/6Q1/8/8/8/8/K7 b - -] *)
Definition stalematedBoard : Board :=
  place emptyBoard
    [(0, 7, pc black King); (2, 6, pc white Queen); (7, 0, pc white King)].

Definition stalematedPosition : Position :=
  mkPosition stalematedBoard black black noCastling None.

(** White: Ke1, Ng2. Black: Ke8, pawn e7, knight d5.
    [4k3/4p3/8/3n4/8/8/6N1/4K3 w - -] *)
Definition knightBoard : Board :=
  place emptyBoard
    [(7, 4, pc white King); (0, 4, pc black King); (6, 6, pc white Knight);
     (1, 4, pc black Pawn); (3, 3, pc black Knight)].

(** Depth 2, no blunders, piece-square tables on, a softmax window of half
    a centipawn and a budget of 30 nodes. *)
Definition tightBudget : Settings :=
  mkSettings 2 0 0 1000 30 1 0 0 0 1 (1 # 2) false.

Definition knightRequest : SearchRequest :=
  mkRequest knightBoard tightBudget white white noCastling None [].

(** A white pawn on a7 about to promote, and the kings.
    [7k/P7/8/8/8/8/8/4K3 w - -] *)
Definition promotionBoard : Board :=
  place emptyBoard
    [(1, 0, pc white Pawn); (7, 4, pc white King); (0, 7, pc black King)].

(** White may castle on the king side. [4k3/8/8/8/8/8/8/4K2R w K -] *)
Definition castlingBoard : Board :=
  place emptyBoard
    [(7, 4, pc white King); (7, 7, pc white Rook); (0, 4, pc black King)].

(** Black has just played d7-d5 next to the white pawn on e5.
    [4k3/8/8/3pP3/8/8/8/4K3 w - d6] *)
Definition enPassantBoard : Board :=
  place emptyBoard
    [(7, 4, pc white King); (0, 4, pc black King); (3, 4, pc white Pawn);
     (3, 3, pc black Pawn)].

Definition newGame (b : Board) (turn : Color) (cr : CastlingRights)
    (ep : option Square) : ChessGame :=
  mkGame b turn ep cr [] [] None [] [].

(** A board without a black king: Ke1 and Ra1 against a knight and a pawn. *)
Definition kinglessBoard : Board :=
  place emptyBoard
    [(7, 4, pc white King); (7, 0, pc white Rook); (3, 3, pc black Knight);
     (1, 4, pc black Pawn)].

Definition kinglessPosition : Position :=
  mkPosition kinglessBoard white white allCastling None.

(** Only white may castle, on the king side. *)
Definition whiteKingside : CastlingRights :=
  mkCastling (mkRights true false) (mkRights false false).

Definition promotionPosition : Position :=
  mkPosition promotionBoard white white noCastling None.

Definition castlingPosition : Position :=
  mkPosition castlingBoard white white whiteKingside None.

Definition enPassantPosition : Position :=
  mkPosition enPassantBoard white white noCastling (Some (mkSquare 2 3)).

(** Every term of the evaluation switched on, quiescence included, no
    blunders, and budgets that the examples do not exhaust. *)
Definition allTerms (searchDepth : Z) : Settings :=
  mkSettings searchDepth 0 0 1000000 100000000 (3 # 2) 1 1 (6 # 5) 1 1 true.

(** The root scores [{ move, score }] of one iteration of [getBestMove] at
    the depth [depth], from a fresh worker whose clock stands still. *)
Definition rootScores (settings : Settings) (depth : nat) (pos : Position)
  : option (list MoveScore) :=
  match getAllValidMoves 3 (aiColor pos) pos with
  | Some (moves, _) =>
      match rootLoop 3 depth settings 100 moves None NegInf []
              (freshWorker pos [] (stillHost id)) with
      | Some ((_, _, scores), _) => Some scores
      | None => None
      end
  | None => None
  end.

(** [score + margin < other] for the score of [mv] and the score of every
    other move of the list. *)
Definition belowAllOthers (mv : Move) (margin : Z) (scores : list MoveScore)
  : bool :=
  match List.find (λ ms, sameMove (fst ms) mv) scores with
  | Some (_, score) =>
      forallb (λ ms, sameMove (fst ms) mv
                     || Num_ltb (Num_add score (ofZ margin)) (snd ms))
              scores
  | None => false
  end.

(** A worker that has received no message yet, with the host [stillHost]. *)
Definition idleWorker (exp : Num -> Num) : Worker :=
  freshWorker (mkPosition [] white white noCastling None) [] (stillHost exp).

(** The board of [hangingQueenPosition] with black to move, every castling
    right and the en-passant target d6. *)
Definition hangingQueenOther : Position :=
  mkPosition hangingQueenBoard white black allCastling (Some (mkSquare 2 3)).

(** ** The game object of [chess.js]: undoing moves, game over *)

(** [createInitialBoard()] *)
Definition createInitialBoard : Board := initialBoard.

(** The game object with the fields of the page that [undoMove] and the
    click handler use besides those of [ChessGame]. *)
Record Page : Type := mkPage {
  pgGame : ChessGame;
  pgPlayerColor : Color;
  pgGameOver : bool;
  pgSelectedSquare : option (Z * Z);
  pgValidMoves : list Square
}.

(** [array.pop()], for its effect on the array. *)
Definition pop {A : Type} (l : list A) : list A := take (length l - 1) l.

(** The loop of [undoMove] that recomputes [capturedPieces] from the
    entries of [moveHistory]. *)
Definition recapture (entries : list HistoryEntry) : list Piece * list Piece :=
  foldl (λ '(cw, cb) entry, pushCaptured (heCaptured entry) cw cb) ([], [])
        entries.

(** [undoMove()], without the rendering. *)
Definition undoMove (p : Page) : Page :=
  let g := pgGame p in
  match gMoveHistory g with
  | [] => p
  | _ :: _ =>
      let moveHistory1 := pop (gMoveHistory g) in
      let positionHistory1 := pop (gPositionHistory g) in
      let both :=
        (0 <? length moveHistory1)%nat
        && Color_eqb (gCurrentTurn g) (pgPlayerColor p) in
      let moveHistory2 := if both then pop moveHistory1 else moveHistory1 in
      let positionHistory2 :=
        if both then pop positionHistory1 else positionHistory1 in
      let b :=
        match last moveHistory2 with
        | Some lastState => heBoard lastState
        | None => createInitialBoard
        end in
      let (cw, cb) := recapture moveHistory2 in
      mkPage
        (mkGame b (pgPlayerColor p) (gEnPassantTarget g) (gCastlingRights g)
           cw cb (gLastMove g) moveHistory2 positionHistory2)
        (pgPlayerColor p) false None []
  end.

(** The variables of the game object that the move generator reads, as a
    position of the generator; the game object runs the same generator
    code as the worker. *)
Definition gamePosition (g : ChessGame) (ai : Color) : Position :=
  mkPosition (gBoard g) ai (gCurrentTurn g) (gCastlingRights g)
    (gEnPassantTarget g).

(** The double loop of [hasAnyValidMoves] over the squares [sqs]. *)
Fixpoint hasAnyValidMovesOn (stack : nat) (color : Color)
    (sqs : list (Z * Z)) : P bool :=
  match sqs with
  | [] => ret false
  | (row, col) :: rest =>
      let* piece := readCell row col in
      match piece with
      | Some piece =>
          if Color_eqb (getPieceColor piece) color then
            let* moves := getValidMovesForPiece stack row col in
            if (0 <? length moves)%nat then ret true
            else hasAnyValidMovesOn stack color rest
          else hasAnyValidMovesOn stack color rest
      | None => hasAnyValidMovesOn stack color rest
      end
  end.

Definition hasAnyValidMoves (stack : nat) (color : Color) : P bool :=
  hasAnyValidMovesOn stack color allSquares.

(** The status line that [checkGameOver] writes. *)
Inductive Status : Type :=
| Checkmate (winner : Color)
| Stalemate
| InCheck
| Playing.

(** [checkGameOver()]: the new value of [gameOver] and the status line,
    given the old value of [gameOver]. *)
Definition checkGameOver (stack : nat) (gameOver : bool)
  : P (bool * Status) :=
  let* turn := reads currentTurn in
  let* hasValidMoves := hasAnyValidMoves stack turn in
  let* inCheck := readsE (λ pos, isInCheck stack pos turn) in
  ret (if negb hasValidMoves
       then (true, if inCheck then Checkmate (opposite turn) else Stalemate)
       else (gameOver, if inCheck then InCheck else Playing)).

(** [this.board = b] *)
Definition setGameBoard (b : Board) (g : ChessGame) : ChessGame :=
  mkGame b (gCurrentTurn g) (gEnPassantTarget g) (gCastlingRights g)
    (gCapturedWhite g) (gCapturedBlack g) (gLastMove g) (gMoveHistory g)
    (gPositionHistory g).

(** The colour [aiColor] of the page, the other one than [playerColor]. *)
Definition pgAiColor (p : Page) : Color := opposite (pgPlayerColor p).

(** [makeMove] in full (l.270-346): the assignments of [makeMove] above,
    then [checkGameOver()] on the new position, which sets [gameOver];
    the status line and [updateUI] only render. [None] is an exception:
    the [TypeError] of a move from an empty square, or the [RangeError]
    of the attack test under [checkGameOver]. *)
Definition makeMoveOnPage (stack : nat) (p : Page)
    (fromRow fromCol toRow toCol : Z) : option Page :=
  let? g' := makeMove (pgGame p) fromRow fromCol toRow toCol in
  let? r := checkGameOver stack (pgGameOver p)
              (gamePosition g' (pgAiColor p)) in
  Some (mkPage (setGameBoard (board (snd r)) g') (pgPlayerColor p)
          (fst (fst r)) (pgSelectedSquare p) (pgValidMoves p)).

(** ** The notation helpers of the lesson engine and of [chessboard-fix.js] *)

(** A JavaScript number that is an integer or [NaN] ([None]). *)
Record Coordinate : Type := mkCoordinate { coRow : option Z; coCol : option Z }.

(** [notation.charCodeAt(0)]: [NaN] on the empty string. *)
Definition charCodeAt0 (notation : string) : option Z :=
  match notation with
  | String ch _ => Some (Z.of_N (N_of_ascii ch))
  | EmptyString => None
  end.

(** [parseInt(notation[1])]: the value of a decimal digit, and [NaN] for
    any other character and for [undefined]. *)
Definition parseIntAt1 (notation : string) : option Z :=
  match notation with
  | String _ (String ch _) =>
      let code := Z.of_N (N_of_ascii ch) in
      if (48 <=? code) && (code <=? 57) then Some (code - 48) else None
  | _ => None
  end.

(** [a < b] and [a > b] for a number [a] that may be [NaN]. *)
Definition nanLtb (a : option Z) (b : Z) : bool :=
  match a with Some x => x <? b | None => false end.

Definition nanGtb (a : option Z) (b : Z) : bool :=
  match a with Some x => b <? x | None => false end.

(** The move data of a lesson, [{ from, to, notation, feedback }], and
    the fields of a lesson that [validateMove] reads; a field that is
    missing is [None]. A lesson has a [solution]. *)
Record MoveData : Type := mkMoveData {
  mdFrom : option string;
  mdTo : option string;
  mdNotation : option string;
  mdFeedback : option string
}.

Record Lesson : Type := mkLesson {
  lsSolution : MoveData;
  lsAlternatives : option (list MoveData);
  lsExplanation : option string;
  lsHint : option string;
  lsPoints : option Z
}.

(** The result of [validateMove]: [{ valid, correct, message, hint,
    points }]. *)
Record Verdict : Type := mkVerdict {
  vdValid : bool;
  vdCorrect : option bool;
  vdMessage : option string;
  vdHint : option string;
  vdPoints : option Z
}.

(** Truthiness of a string that may be missing. *)
Definition truthy (s : option string) : bool :=
  match s with
  | Some (String _ _) => true
  | _ => false
  end.

(** [s[0]] of a string that is not empty. *)
Definition firstChar (s : string) : string :=
  match s with
  | String ch _ => String ch EmptyString
  | EmptyString => EmptyString
  end.

Module LessonEngine.

(** [String.fromCharCode(97 + col) + (8 - row).toString()] *)
Definition coordinateToNotation (row col : Z) : string :=
  String (ascii_of_N (Z.to_N (97 + col))) (pretty (8 - row)).

Definition notationToCoordinate (notation : string) : Coordinate :=
  let file := (λ code, code - 97) <$> charCodeAt0 notation in
  let rank := (λ digit, 8 - digit) <$> parseIntAt1 notation in
  mkCoordinate rank file.

(** [this.chessGame.board[row][col]]: a [TypeError] ([None]) for a row
    that the board does not have; a column outside the row reads as
    [undefined], which is falsy like the empty cell. *)
Definition boardAt (b : Board) (row col : Z) : option (option Piece) :=
  if (row <? 0) || (Z.of_nat (length b) <=? row) then None
  else Some (cell b row col).

(** [convertMoveToNotation] on the board of the game. *)
Definition convertMoveToNotation (b : Board) (fromRow fromCol toRow toCol : Z)
  : option string :=
  let? piece := boardAt b fromRow fromCol in
  let fromSquare := coordinateToNotation fromRow fromCol in
  let toSquare := coordinateToNotation toRow toCol in
  let? target := boardAt b toRow toCol in
  let capture := if occupied target then "x" else EmptyString in
  Some (match piece with
        | Some p =>
            if PieceType_eqb (toLowerCase p) Pawn then
              if occupied target
              then firstChar fromSquare +:+ capture +:+ toSquare
              else toSquare
            else upperLetter (toLowerCase p) +:+ capture +:+ toSquare
        | None => fromSquare +:+ toSquare
        end).

(** [movesMatch], as the condition it is used for; the notation is
    computed only when the squares do not match and the move data has a
    notation. *)
Definition movesMatch (b : Board) (fromRow fromCol toRow toCol : Z)
    (moveData : MoveData) : option bool :=
  let fromSquare := coordinateToNotation fromRow fromCol in
  let toSquare := coordinateToNotation toRow toCol in
  if bool_decide (Some fromSquare = mdFrom moveData)
     && bool_decide (Some toSquare = mdTo moveData)
  then Some true
  else if truthy (mdNotation moveData) then
    let? notation := convertMoveToNotation b fromRow fromCol toRow toCol in
    Some (bool_decide (Some notation = mdNotation moveData))
  else Some false.

(** The loop [for (const alt of this.currentLesson.alternatives)] of
    [validateMove]: the first alternative that matches. *)
Fixpoint firstMatch (b : Board) (fromRow fromCol toRow toCol : Z)
    (alternatives : list MoveData) : option (option MoveData) :=
  match alternatives with
  | [] => Some None
  | alt :: rest =>
      let? matches := movesMatch b fromRow fromCol toRow toCol alt in
      if matches then Some (Some alt)
      else firstMatch b fromRow fromCol toRow toCol rest
  end.

(** [validateMove]; [currentLesson] is [None] when no lesson is active.
    The notation of the move is computed first, whatever the lesson, and
    not used. *)
Definition validateMove (currentLesson : option Lesson) (b : Board)
    (fromRow fromCol toRow toCol : Z) : option Verdict :=
  match currentLesson with
  | None => Some (mkVerdict false None (Some "No active lesson") None None)
  | Some lesson =>
      let? moveNotation :=
        convertMoveToNotation b fromRow fromCol toRow toCol in
      let? correct :=
        movesMatch b fromRow fromCol toRow toCol (lsSolution lesson) in
      if correct then
        Some (mkVerdict true (Some true) (lsExplanation lesson) None
                (Some (match lsPoints lesson with
                       | Some points => if points =? 0 then 100 else points
                       | None => 100
                       end)))
      else
        let? alt := firstMatch b fromRow fromCol toRow toCol
                      (default [] (lsAlternatives lesson)) in
        Some (match alt with
              | Some alt =>
                  mkVerdict true (Some false) (mdFeedback alt)
                    (Some "Try again!") (Some 0)
              | None =>
                  mkVerdict true (Some false)
                    (Some (if truthy (lsHint lesson)
                           then default EmptyString (lsHint lesson)
                           else "That's not the best move. Try again!"))
                    None (Some 0)
              end)
  end.

End LessonEngine.

Module ChessboardFix.

(** [null] is [None]. *)
Definition notationToCoordinate (notation : string) : option Coordinate :=
  if negb (String.length notation =? 2)%nat then None
  else
    let file := (λ code, code - 97) <$> charCodeAt0 notation in
    let rank := (λ digit, 8 - digit) <$> parseIntAt1 notation in
    if nanLtb file 0 || nanGtb file 7 || nanLtb rank 0 || nanGtb rank 7
    then None
    else Some (mkCoordinate rank file).

End ChessboardFix.

(** ** The knight test of [test-positions.js] *)

Definition isKnightMove (fromRow fromCol toRow toCol : Z) : bool :=
  let rowDiff := Z.abs (toRow - fromRow) in
  let colDiff := Z.abs (toCol - fromCol) in
  ((rowDiff =? 2) && (colDiff =? 1)) || ((rowDiff =? 1) && (colDiff =? 2)).

(** ** The page and its worker *)



(** [loadFEN(fen)] of the lesson extensions, without the rendering. Its
    reader is the code of [parseFEN]; the castling rights, the en-passant
    target, the histories and the captured pieces are not assigned. *)
Definition loadFEN (fen : string) (p : Page) : option Page :=
  let? (b, turn) := parseFEN fen in
  let g := pgGame p in
  Some (mkPage
          (mkGame b turn (gEnPassantTarget g) (gCastlingRights g)
             (gCapturedWhite g) (gCapturedBlack g) None (gMoveHistory g)
             (gPositionHistory g))
          (pgPlayerColor p) false None []).

(** ** Clicks on the board *)



(** * Properties and invariants used in the statements *)

Definition wfBoard (b : Board) : Prop :=
  length b = 8%nat ∧ Forall (λ cells, length cells = 8%nat) b.

(** A computation on the position restores it: started on an 8x8 board, it
    ends in the position it started in. *)
Definition restores {A : Type} (m : P A) : Prop :=
  ∀ pos a pos', wfBoard (board pos) → m pos = Some (a, pos') → pos' = pos.

Definition validSquare (m : Square) : Prop :=
  isValidSquare (sqRow m) (sqCol m) = true.

(** A computation of the worker keeps the position: started on an 8x8
    board, it ends with [board], [aiColor], [currentTurn],
    [castlingRights] and [enPassantTarget] as they were. *)
Definition keepsPosition {A : Type} (m : M A) : Prop :=
  ∀ w a w', wfBoard (board (position w)) → m w = Some (a, w') →
            position w' = position w.

Definition returned {S A : Type} (r : option (A * S)) : bool :=
  match r with Some _ => true | None => false end.

(** No king of colour [color] stands on the board. *)
Definition kingless (b : Board) (color : Color) : Prop :=
  ∀ r c p, cell b r c = Some p → ptype p = King → pcolor p ≠ color.

Definition unitDirection (d : Z * Z) : Prop :=
  (d.1 ≠ 0 ∨ d.2 ≠ 0) ∧ -1 ≤ d.1 ≤ 1 ∧ -1 ≤ d.2 ≤ 1.

(** Started in a state that satisfies [pre], the computation returns, and
    its result and final state satisfy [post]. *)
Definition triple {S A : Type} (pre : S → Prop) (m : ST S A)
    (post : A → S → Prop) : Prop :=
  ∀ s, pre s → ∃ a s', m s = Some (a, s') ∧ post a s'.

(** A computation on the position that returns in the position [pos] it
    was started in, with a result that satisfies [Q]. *)
Definition runsAt {A : Type} (pos : Position) (m : P A) (Q : A → Prop)
  : Prop :=
  ∃ a, m pos = Some (a, pos) ∧ Q a.

(** The invariant of the search on such a board: the board is 8x8 and no
    king of [color] stands on it. *)
Definition kinglessBoard8 (color : Color) (pos : Position) : Prop :=
  wfBoard (board pos) ∧ kingless (board pos) color.

Definition awayFrom (r c : Z) (m : Square) : Prop :=
  (sqRow m, sqCol m) ≠ (r, c).

(** The pseudo-legal moves that [getValidMovesForPiece] hands to its
    filter. *)
Definition pseudoMoves (stack : nat) (piece : Piece) (pos : Position)
    (r c : Z) : option (list Square) :=
  match toLowerCase piece with
  | Pawn => getPawnMoves pos r c
  | Knight => getKnightMoves pos r c
  | Bishop => getBishopMoves pos r c
  | Rook => getRookMoves pos r c
  | Queen => getQueenMoves pos r c
  | King => getKingMoves stack pos r c
  end.

Definition fromOccupied (b : Board) (mv : Move) : Prop :=
  is_Some (cell b (fromRow mv) (fromCol mv)).

(** A computation of the worker that, started with the position [pos],
    returns with the position [pos] and a result that satisfies [Q]. *)
Definition returnsAt {A : Type} (pos : Position) (m : M A) (Q : A → Prop)
  : Prop :=
  triple (λ w, position w = pos) m (λ a w', position w' = pos ∧ Q a).

(** The scan of the 64 squares that decides [kingless]. *)
Definition hasNoKing (b : Board) (color : Color) : bool :=
  forallb (λ '(r, c),
             match cell b r c with
             | Some p =>
                 negb (PieceType_eqb (ptype p) King
                       && Color_eqb (pcolor p) color)
             | None => true
             end)
          allSquares.

(** The character [sep] does not occur in [s]. *)
Fixpoint avoids (sep : ascii) (s : string) : bool :=
  match s with
  | EmptyString => true
  | String c rest => negb (Ascii.eqb c sep) && avoids sep rest
  end.

(** An 8x8 board and an en-passant target, if any, on the board. *)
Definition wfPosition (pos : Position) : Prop :=
  wfBoard (board pos)
  ∧ match enPassantTarget pos with
    | Some e => isValidSquare (sqRow e) (sqCol e) = true
    | None => True
    end.

(** The eight squares of the row [r]. *)
Definition rowCells (b : Board) (r : Z) : list (option Piece) :=
  map (cell b r) (seqZ 0 8).

(** A number other than [NaN]. *)
Definition ordered (v : Num) : Prop := v ≠ NaN.

(** The value of a leaf of the search tree: a draw by repetition, or the
    static evaluation. *)
Definition leafValue (stack : nat) (settings : Settings)
    (history : list string) (pos : Position) : option Num :=
  if 2 <=? Z.of_nat (length (filter (λ fen, firstField fen
                                            = firstField (getFEN pos))
                                    history))
  then Some (ofZ 0)
  else fst <$> evaluatePosition stack settings pos.

(** The board after the make step of the search. *)
Definition movedBoard (b : Board) (mv : Move) : Board :=
  setCell (setCell b (toRow mv) (toCol mv) (cell b (fromRow mv) (fromCol mv)))
          (fromRow mv) (fromCol mv) None.

(** Every entry of the table is the static evaluation of the position
    with its key. *)
Definition ttSound (stack : nat) (settings : Settings) (root : Position)
    (table : gmap string TTEntry) : Prop :=
  ∀ b e, wfBoard b → table !! getFEN (setBoard b root) = Some e →
         fst <$> evaluatePosition stack settings (setBoard b root)
         = Some (ttScore e).

(** The state of a worker in the middle of a search of [root] that has
    not timed out: the board is [b], at most [n] nodes have been counted,
    and the table satisfies [inv]. *)
Definition searching (root : Position) (history : list string) (h : Host)
    (inv : gmap string TTEntry → Prop) (b : Board) (n : Z) (w : Worker)
  : Prop :=
  position w = setBoard b root ∧ positionHistory w = history
  ∧ forceTimeout w = false ∧ host w = h ∧ nodesSearched w ≤ n
  ∧ inv (transpositionTable w).

(** The comparisons of the side [side] ([true] for the maximizing side):
    [a] is no better than [b]; the better of two values; the worst value;
    the values a running best can take. *)
Definition noBetter (side : bool) (a b : Num) : Prop :=
  if side then Num_leb a b = true else Num_leb b a = true.

Definition pick (side : bool) : Num → Num → Num :=
  if side then Num_max else Num_min.

Definition worst (side : bool) : Num := if side then NegInf else PosInf.

Definition running (side : bool) (v : Num) : Prop :=
  v = worst side ∨ ∃ q, v = Fin q.

(** [alphaBetaSearch] for the side [side], with the window given as the
    bound [own] that the side raises and the bound [other] of its
    opponent. *)
Definition searchAs (side : bool) (stack depth : nat) (own other : Num)
    (settings : Settings) (deadline searchDepth : Z) : M Num :=
  alphaBetaSearch stack depth (if side then own else other)
    (if side then other else own) side settings deadline searchDepth.

(** The move loop of the side [side] at the depth [S depth']. *)
Definition sideLoop (side : bool) (stack depth' : nat) (settings : Settings)
    (deadline searchDepth : Z) (moves : list Move) (own other value : Num)
    (bestMoveAtDepth : option Move) : M (Num * option Move) :=
  if side then
    maxLoop (λ a b, alphaBetaSearch stack depth' a b false settings deadline
                      (searchDepth + 1))
      settings deadline (S depth') searchDepth moves own other value
      bestMoveAtDepth
  else
    minLoop (λ a b, alphaBetaSearch stack depth' a b true settings deadline
                      (searchDepth + 1))
      settings deadline (S depth') searchDepth moves other own value
      bestMoveAtDepth.

(** The test [beta <= alpha] after the bound [own] of [side] was raised. *)
Definition cutsOff (side : bool) (own other : Num) : bool :=
  if side then Num_leb other own else Num_leb own other.

Definition betterThan (side : bool) (a b : Num) : bool :=
  if side then Num_gtb a b else Num_ltb a b.

(** The move takes a piece of [color] from its square to another square. *)
Definition movesPieceOf (color : Color) (b : Board) (mv : Move) : Prop :=
  (∃ p, cell b (fromRow mv) (fromCol mv) = Some p ∧ pcolor p = color)
  ∧ (toRow mv, toCol mv) ≠ (fromRow mv, fromCol mv).

(** The number of nodes of the plain minimax tree of depth [depth]: the
    budget that a search of that tree cannot exceed. *)
Fixpoint minimaxNodes (stack : nat) (depth : nat) (isMaximizing : bool)
    (w : Worker) : Z :=
  1 + (if 2 <=? countRepetitions w then 0
       else
         match depth with
         | O => 0
         | S depth' =>
             let ai := aiColor (position w) in
             let color := if isMaximizing then ai else opposite ai in
             match getAllValidMoves stack color (position w) with
             | Some (moves, _) =>
                 foldr (λ m acc,
                          minimaxNodes stack depth' (negb isMaximizing)
                            (setPosition (afterSearchMove (position w) m) w)
                          + acc)
                       0 moves
             | None => 0
             end
         end).

(** The colour that moves at a node of the side [side]. *)
Definition sideColor (side : bool) (pos : Position) : Color :=
  if side then aiColor pos else opposite (aiColor pos).

(** The minimax value of the child of the root of [w0] after the move
    [m], for a root of the side [side] searched at depth 2. *)
Definition childValue (stack : nat) (settings : Settings) (w0 : Worker)
    (side : bool) (m : Move) : option Num :=
  minimax stack 1 (negb side) settings
    (setPosition (afterSearchMove (position w0) m) w0).

(** The table in the middle of a search of depth 2 whose running best at
    the root is [best]: an entry of depth 0 is the static evaluation of
    the position with its key; any other entry has the key of a child of
    the root, and neither its score nor the value of that child is better
    than [best]. *)
Definition ttInv (stack : nat) (settings : Settings) (w0 : Worker)
    (side : bool) (best : Num) (table : gmap string TTEntry) : Prop :=
  ∀ k e, table !! k = Some e →
    (ttDepth e = 0%nat
     ∧ ∀ b, wfBoard b → k = getFEN (setBoard b (position w0)) →
            fst <$> evaluatePosition stack settings
                      (setBoard b (position w0))
            = Some (ttScore e))
    ∨ (∃ m v,
         movesPieceOf (sideColor side (position w0)) (board (position w0)) m
         ∧ k = getFEN (afterSearchMove (position w0) m)
         ∧ childValue stack settings w0 side m = Some v
         ∧ (∃ q, ttScore e = Fin q)
         ∧ noBetter side (ttScore e) best ∧ noBetter side v best).

(** The board of the game object is the one its move history records: the
    copy in the last entry, or the initial board when there is none. *)
Definition recorded (g : ChessGame) : Prop :=
  gBoard g = match last (gMoveHistory g) with
             | Some entry => heBoard entry
             | None => createInitialBoard
             end.

(** The lists of captured pieces are the ones the move history gives. *)
Definition capturesRecorded (g : ChessGame) : Prop :=
  (gCapturedWhite g, gCapturedBlack g) = recapture (gMoveHistory g).

(** No list of killer moves holds more than two moves. *)
Definition killersBounded (killers : list (list Move)) : Prop :=
  Forall (λ ks, (length ks ≤ 2)%nat) killers.

(** The square [m] is empty or holds a piece of the other colour than
    [p]: a piece [p] may move there. *)
Definition okTarget (pos : Position) (p : Piece) (m : Square) : Prop :=
  match cell (board pos) (sqRow m) (sqCol m) with
  | Some target => pcolor target ≠ pcolor p
  | None => True
  end.

(** The squares [(row + j * rowDir, col + j * colDir)] for [0 < j < k] are
    on the board and empty. *)
Definition clearPath (pos : Position) (row col rowDir colDir k : Z) : Prop :=
  ∀ j, 0 < j < k →
       isValidSquare (row + j * rowDir) (col + j * colDir) = true
       ∧ cell (board pos) (row + j * rowDir) (col + j * colDir) = None.

(** The test that [getKingMoves] makes for the king of [color] on the row
    [row] before it asks whether the king's squares are attacked: the
    colour has a castling right and the squares between king and rook on
    that side are empty. *)
Definition castlingOpen (pos : Position) (row : Z) (color : Color) : bool :=
  let free c := negb (occupied (cell (board pos) row c)) in
  (kingside (rightsOf (castlingRights pos) color) && free 5 && free 6)
  || (queenside (rightsOf (castlingRights pos) color)
      && free 1 && free 2 && free 3).

(** A king stands on the row [row]. *)
Definition kingOnRow (pos : Position) (row : Z) : Prop :=
  ∃ col k, cell (board pos) row col = Some k ∧ ptype k = King.

(** No piece other than a king has a pseudo-legal move to the square in
    column 4 of a row on which a king stands. *)
Definition kingFilesQuiet (pos : Position) : Prop :=
  ∀ r c p moves row,
    cell (board pos) r c = Some p → ptype p ≠ King →
    pseudoMoves 0 p pos r c = Some moves → kingOnRow pos row →
    mkSquare row 4 ∉ moves.

(** [kingOnRow] and [kingFilesQuiet], decided by scanning the board. *)
Definition kingOnRowb (pos : Position) (row : Z) : bool :=
  existsb (λ col, match cell (board pos) row col with
                  | Some k => PieceType_eqb (ptype k) King
                  | None => false
                  end) (seqZ 0 8).

Definition kingFilesQuietb (pos : Position) : bool :=
  forallb (λ '(r, c),
             match cell (board pos) r c with
             | Some p =>
                 PieceType_eqb (ptype p) King
                 || match pseudoMoves 0 p pos r c with
                    | Some moves =>
                        forallb (λ row,
                                   negb (kingOnRowb pos row)
                                   || negb (existsb (hits (Some row) (Some 4))
                                                    moves))
                                (seqZ 0 8)
                    | None => true
                    end
             | None => true
             end) allSquares.

(** The opening position after 1. Nf3 Nf6 2. g3 g6 3. Bg2 Bg7: all four
    castling rights, and the squares between king and rook empty on the
    kingside of both colours. *)
Definition fianchettoBoard : Board :=
  [ [pc black Rook; pc black Knight; pc black Bishop; pc black Queen;
     pc black King; None; None; pc black Rook];
    [pc black Pawn; pc black Pawn; pc black Pawn; pc black Pawn;
     pc black Pawn; pc black Pawn; pc black Bishop; pc black Pawn];
    [None; None; None; None; None; pc black Knight; pc black Pawn; None];
    replicate 8 None; replicate 8 None;
    [None; None; None; None; None; pc white Knight; pc white Pawn; None];
    [pc white Pawn; pc white Pawn; pc white Pawn; pc white Pawn;
     pc white Pawn; pc white Pawn; pc white Bishop; pc white Pawn];
    [pc white Rook; pc white Knight; pc white Bishop; pc white Queen;
     pc white King; None; None; pc white Rook] ].

Definition fianchettoPosition : Position :=
  mkPosition fianchettoBoard black white allCastling None.

(** A computation of the worker whose initial and final states are
    related by [R] whenever it returns. *)
Definition evolves {A : Type} (R : Worker → Worker → Prop) (m : M A) : Prop :=
  ∀ w a w', m w = Some (a, w') → R w w'.

(** What a call of the search leaves of the worker, apart from the
    position: the history of the game, the host, the stop flag, the
    messages posted and the random draws are untouched; the node counter
    and the clock readings only grow; the killer lists keep their number
    and their bound of two moves; no entry of the history table shrinks
    and no key of the transposition table is lost. *)
Definition searched (w w' : Worker) : Prop :=
  positionHistory w' = positionHistory w ∧ host w' = host w
  ∧ forceTimeout w' = forceTimeout w ∧ posted w' = posted w
  ∧ draws w' = draws w
  ∧ nodesSearched w ≤ nodesSearched w' ∧ (ticks w ≤ ticks w')%nat
  ∧ length (killerMoves w') = length (killerMoves w)
  ∧ (killersBounded (killerMoves w) → killersBounded (killerMoves w'))
  ∧ (∀ key, default 0 (historyTable w !! key)
            ≤ default 0 (historyTable w' !! key))
  ∧ dom (transpositionTable w) ⊆ dom (transpositionTable w').

(** What the quiescence search leaves of the worker: everything but the
    number of clock readings, which only grows, and the position. *)
Definition onlyClock (w w' : Worker) : Prop :=
  (ticks w ≤ ticks w')%nat
  ∧ ∃ pos, w' = setTicks (ticks w') (setPosition pos w).

(** What the root search leaves of the worker's counters and flags: the
    host is untouched, the node counter only grows, and the stop flag
    changes only by being raised with the node counter above the budget
    of the settings. *)
Definition rootSearched (settings : Settings) (w w' : Worker) : Prop :=
  host w' = host w
  ∧ nodesSearched w ≤ nodesSearched w'
  ∧ (forceTimeout w' = forceTimeout w
     ∨ (forceTimeout w' = true ∧ maxNodes settings < nodesSearched w')).

(** The clock has reached the deadline, or the stop flag is raised. *)
Definition outOfTime (deadline : Z) (w : Worker) : Prop :=
  forceTimeout w = true ∨ deadline ≤ dateNow (host w) (ticks w).

(** The position with the engine's colour and the side to move replaced. *)
Definition recolor (ai turn : Color) (pos : Position) : Position :=
  mkPosition (board pos) ai turn (castlingRights pos) (enPassantTarget pos).

(** A computation on the position that looks neither at the engine's
    colour nor at the side to move, and leaves both as they are. *)
Definition blind {A : Type} (m : P A) : Prop :=
  ∀ ai turn pos,
    m (recolor ai turn pos)
    = (λ '(a, pos'), (a, recolor ai turn pos')) <$> m pos.

(** White: Ke1, Rh1. Black: Ke8 and a pawn on e2, which bears on d1 and
    f1. [4k3/8/8/8/8/8/4p3/4K2R w K -] *)
Definition pawnOnE2Board : Board :=
  place emptyBoard
    [(7, 4, pc white King); (7, 7, pc white Rook); (0, 4, pc black King);
     (6, 4, pc black Pawn)].

Definition pawnOnE2Position : Position :=
  mkPosition pawnOnE2Board white white whiteKingside None.
(** ** The keys of the transposition table during a search *)

(** The worker is in a search of [root]: its board is 8x8, and the side
    to move, the castling rights and the en-passant target of its
    position are those of [root]. *)
Definition rooted (root : Position) (w : Worker) : Prop :=
  wfBoard (board (position w))
  ∧ currentTurn (position w) = currentTurn root
  ∧ castlingRights (position w) = castlingRights root
  ∧ enPassantTarget (position w) = enPassantTarget root.

(** Every key of the table of [w'] is a key of the table of [w] or the
    key of a board with the side to move, the castling rights and the
    en-passant target of [root]. *)
Definition keysOf (root : Position) (w w' : Worker) : Prop :=
  ∀ key, key ∈ dom (transpositionTable w') →
         key ∈ dom (transpositionTable w)
         ∨ ∃ b, key = fenOf b (currentTurn root) (castlingRights root)
                        (enPassantTarget root).

(** A computation that, started in a search of [root], ends in a search
    of [root] and adds keys of [root] only. *)
Definition keyed {A : Type} (root : Position) (m : M A) : Prop :=
  ∀ w a w', rooted root w → m w = Some (a, w') →
            rooted root w' ∧ keysOf root w w'.

(** The transposition table is left as it is. *)
Definition sameTable (w w' : Worker) : Prop :=
  transpositionTable w' = transpositionTable w.

(** The call of [alphaBetaSearch] on [w] gets past its timeout test and
    its repetition test: the stop flag is down, the clock is before the
    deadline, the node counted by the call is within the budget, and the
    history holds the board less than twice. *)
Definition entersSearch (settings : Settings) (deadline : Z) (w : Worker)
  : Prop :=
  forceTimeout w = false
  ∧ dateNow (host w) (ticks w) < deadline
  ∧ nodesSearched w + 1 ≤ maxNodes settings
  ∧ countRepetitions w < 2.

(** The worker after these tests: one more node, one more reading of the
    clock. *)
Definition entered (w : Worker) : Worker :=
  setTicks (S (ticks w)) (setNodesSearched (nodesSearched w + 1) w).



(** * Properties *)

(** ** Cells of the board *)

Lemma setCell_setCell_eq (b : Board) (r c : Z) (x y : option Piece) :
  setCell (setCell b r c x) r c y = setCell b r c y.
Proof.
  unfold setCell. destruct ((r <? 0) || (c <? 0)) eqn:E; [done|].
  destruct (b !! Z.to_nat r) as [cells|] eqn:Hr; [|by rewrite Hr].
  rewrite list_lookup_insert_eq by (by eapply lookup_lt_Some).
  by rewrite list_insert_insert_eq, list_insert_insert_eq.
Qed.

Lemma setCell_cell_id (b : Board) (r c : Z) :
  setCell b r c (cell b r c) = b.
Proof.
  unfold setCell, cell. destruct ((r <? 0) || (c <? 0)) eqn:E; [done|].
  destruct (b !! Z.to_nat r) as [cells|] eqn:Hr; [|done].
  destruct (cells !! Z.to_nat c) as [x|] eqn:Hc.
  - rewrite (list_insert_id cells _ _ Hc). by apply list_insert_id.
  - rewrite (list_insert_ge cells) by (by apply lookup_ge_None).
    by apply list_insert_id.
Qed.

Lemma setCell_comm (b : Board) (r c r' c' : Z) (x y : option Piece) :
  (r, c) ≠ (r', c') →
  setCell (setCell b r c x) r' c' y = setCell (setCell b r' c' y) r c x.
Proof.
  intros Hne. unfold setCell.
  destruct ((r <? 0) || (c <? 0)) eqn:E; [done|].
  destruct ((r' <? 0) || (c' <? 0)) eqn:E'.
  { destruct (b !! Z.to_nat r); by rewrite ?E'. }
  apply orb_false_elim in E as [?%Z.ltb_ge ?%Z.ltb_ge].
  apply orb_false_elim in E' as [?%Z.ltb_ge ?%Z.ltb_ge].
  destruct (decide (Z.to_nat r = Z.to_nat r')) as [Hrr|Hrr].
  - assert (r = r') by lia. subst r'. assert (c ≠ c') by congruence.
    destruct (b !! Z.to_nat r) as [cells|] eqn:Hr; [|by rewrite Hr].
    rewrite !list_lookup_insert_eq by (by eapply lookup_lt_Some).
    rewrite !list_insert_insert_eq. f_equal.
    apply list_insert_insert_ne. lia.
  - destruct (b !! Z.to_nat r) as [cells|] eqn:Hr;
      destruct (b !! Z.to_nat r') as [cells'|] eqn:Hr';
      rewrite ?list_lookup_insert_ne by done; rewrite ?Hr, ?Hr'; try done.
    by apply list_insert_insert_ne.
Qed.

Lemma cell_setCell_ne (b : Board) (r c r' c' : Z) (x : option Piece) :
  (r, c) ≠ (r', c') → cell (setCell b r c x) r' c' = cell b r' c'.
Proof.
  intros Hne. unfold setCell, cell.
  destruct ((r' <? 0) || (c' <? 0)) eqn:E'; [done|].
  destruct ((r <? 0) || (c <? 0)) eqn:E; [done|].
  apply orb_false_elim in E as [?%Z.ltb_ge ?%Z.ltb_ge].
  apply orb_false_elim in E' as [?%Z.ltb_ge ?%Z.ltb_ge].
  destruct (b !! Z.to_nat r) as [cells|] eqn:Hr; [|done].
  destruct (decide (Z.to_nat r = Z.to_nat r')) as [Hrr|Hrr].
  - assert (r = r') by lia. subst r'. assert (c ≠ c') by congruence.
    rewrite list_lookup_insert_eq by (by eapply lookup_lt_Some).
    rewrite Hr. rewrite list_lookup_insert_ne by lia. done.
  - by rewrite list_lookup_insert_ne.
Qed.

Lemma wfBoard_valid_lookup (b : Board) (r c : Z) :
  wfBoard b → isValidSquare r c = true →
  ∃ cells, b !! Z.to_nat r = Some cells ∧ (Z.to_nat c < length cells)%nat.
Proof.
  intros [Hlen Hrows] Hv. unfold isValidSquare in Hv.
  repeat (apply andb_prop in Hv as [Hv ?]).
  assert (Z.to_nat r < length b)%nat as Hlt by lia.
  apply lookup_lt_is_Some in Hlt as [cells Hcells].
  exists cells. split; [done|].
  rewrite Forall_forall in Hrows.
  rewrite (Hrows cells) by (by eapply list_elem_of_lookup_2). lia.
Qed.

Lemma cell_setCell_eq (b : Board) (r c : Z) (x : option Piece) :
  wfBoard b → isValidSquare r c = true → cell (setCell b r c x) r c = x.
Proof.
  intros Hwf Hv.
  destruct (wfBoard_valid_lookup b r c Hwf Hv) as (cells & Hr & Hc).
  unfold isValidSquare in Hv. repeat (apply andb_prop in Hv as [Hv ?]).
  unfold setCell, cell.
  replace ((r <? 0) || (c <? 0)) with false by (symmetry; apply orb_false_intro; lia).
  rewrite Hr. rewrite list_lookup_insert_eq by (by eapply lookup_lt_Some).
  by rewrite list_lookup_insert_eq.
Qed.

Lemma wfBoard_setCell (b : Board) (r c : Z) (x : option Piece) :
  wfBoard b → wfBoard (setCell b r c x).
Proof.
  intros [Hlen Hrows]. unfold setCell.
  destruct ((r <? 0) || (c <? 0)); [done|].
  destruct (b !! Z.to_nat r) as [cells|] eqn:Hr; [|done].
  split; [by rewrite length_insert|].
  apply Forall_insert; [done|]. rewrite length_insert.
  rewrite Forall_forall in Hrows. apply Hrows. by eapply list_elem_of_lookup_2.
Qed.

(** A piece is found on squares of the board only. *)
Lemma cell_Some_valid (b : Board) (r c : Z) (x : Piece) :
  wfBoard b → cell b r c = Some x → isValidSquare r c = true.
Proof.
  intros [Hlen Hrows] Hc. unfold cell in Hc.
  destruct ((r <? 0) || (c <? 0)) eqn:E; [done|].
  apply orb_false_elim in E as [?%Z.ltb_ge ?%Z.ltb_ge].
  destruct (b !! Z.to_nat r) as [cells|] eqn:Hr; [|done].
  destruct (cells !! Z.to_nat c) as [y|] eqn:Hcc; [|done].
  apply lookup_lt_Some in Hr as Hr'. apply lookup_lt_Some in Hcc.
  rewrite Forall_forall in Hrows.
  rewrite (Hrows cells) in Hcc by (by eapply list_elem_of_lookup_2).
  unfold isValidSquare. repeat (apply andb_true_intro; split); lia.
Qed.

(** The make step of the search followed by its unmake step leaves every
    board as it was, whatever the two squares are. *)
Lemma make_unmake_board (b : Board) (fr fc tr tc : Z) :
  let piece := cell b fr fc in
  let captured := cell b tr tc in
  let made := setCell (setCell b tr tc piece) fr fc None in
  setCell (setCell made fr fc piece) tr tc captured = b.
Proof.
  intros piece captured made. unfold made.
  rewrite setCell_setCell_eq.
  destruct (decide ((fr, fc) = (tr, tc))) as [Heq|Hne].
  - injection Heq as -> ->. rewrite !setCell_setCell_eq.
    apply setCell_cell_id.
  - rewrite (setCell_comm _ fr fc tr tc) by done.
    rewrite setCell_setCell_eq. unfold captured. rewrite setCell_cell_id.
    apply setCell_cell_id.
Qed.

(** ** Running computations step by step *)

Lemma bind_Some {S A B : Type} (m : ST S A) (k : A -> ST S B)
    (s s' : S) (b : B) :
  bind m k s = Some (b, s') →
  ∃ a s1, m s = Some (a, s1) ∧ k a s1 = Some (b, s').
Proof.
  unfold bind. destruct (m s) as [[a s1]|]; [|done]. intros H. by exists a, s1.
Qed.

Lemma bind_run {S A B : Type} (m : ST S A) (k : A -> ST S B)
    (s s1 : S) (a : A) :
  m s = Some (a, s1) → bind m k s = k a s1.
Proof. unfold bind. by intros ->. Qed.

Lemma onPosition_Some {A : Type} (m : P A) (w w' : Worker) (a : A) :
  onPosition m w = Some (a, w') →
  ∃ pos', m (position w) = Some (a, pos') ∧ w' = setPosition pos' w.
Proof.
  unfold onPosition. destruct (m (position w)) as [[x pos']|]; [|done].
  intros [= <- <-]. by exists pos'.
Qed.

Lemma setPosition_position (w : Worker) : setPosition (position w) w = w.
Proof. by destruct w. Qed.

Lemma setBoard_board (pos : Position) : setBoard (board pos) pos = pos.
Proof. by destruct pos. Qed.

(** ** The position survives move generation and evaluation *)

Lemma restores_ret {A : Type} (a : A) : restores (ret a).
Proof. intros pos x pos' _ [= _ <-]. done. Qed.

Lemma restores_throw {A : Type} : restores (@throw Position A).
Proof. intros pos x pos' _ [=]. Qed.

Lemma restores_reads {A : Type} (f : Position -> A) : restores (reads f).
Proof. intros pos x pos' _ [= _ <-]. done. Qed.

Lemma restores_readsE {A : Type} (f : Position -> option A) :
  restores (readsE f).
Proof.
  intros pos x pos' _. unfold readsE. destruct (f pos); [|done].
  by intros [= _ <-].
Qed.

Lemma restores_bind {A B : Type} (m : P A) (k : A -> P B) :
  restores m → (∀ a, restores (k a)) → restores (bind m k).
Proof.
  intros Hm Hk pos b pos' Hwf H.
  apply bind_Some in H as (a & pos1 & H1 & H2).
  apply Hm in H1 as ->; [|done]. by eapply Hk.
Qed.

Ltac restores_step :=
  first
    [ apply restores_ret
    | apply restores_throw
    | apply restores_reads
    | apply restores_readsE
    | assumption
    | apply restores_bind; [|intros ?]
    | match goal with
      | |- restores (match ?x with _ => _ end) => destruct x
      end ].

Lemma wouldBeInCheck_restores (stack : nat) (fr fc tr tc : Z) :
  isValidSquare tr tc = true → restores (wouldBeInCheck stack fr fc tr tc).
Proof.
  intros Hv pos a pos' Hwf H.
  unfold wouldBeInCheck, bind, readCell, writeCell, reads, readsE, modify, ret
    in H.
  cbn in H.
  set (b := board pos) in *.
  set (made := setCell (setCell b tr tc (cell b fr fc)) fr fc None) in *.
  destruct (getPieceColor <$> cell made tr tc) as [color|]; [|done].
  destruct (isInCheck stack _ color) as [inCheck|]; [|done].
  injection H as _ <-. destruct pos as [b0 ai turn cr ep]. cbn in *.
  unfold setBoard. cbn. f_equal. subst b.
  destruct (decide ((fr, fc) = (tr, tc))) as [Heq|Hne].
  - injection Heq as -> ->. unfold made.
    rewrite !setCell_setCell_eq. apply setCell_cell_id.
  - replace (cell made tr tc) with (cell b0 fr fc).
    + apply make_unmake_board.
    + unfold made. rewrite cell_setCell_ne by done.
      by rewrite cell_setCell_eq.
Qed.

Lemma filterLegal_restores (stack : nat) (r c : Z) (moves : list Square) :
  Forall validSquare moves → restores (filterLegal stack r c moves).
Proof.
  induction 1 as [|m moves Hm Hms IH]; cbn.
  - apply restores_ret.
  - apply restores_bind; [by apply wouldBeInCheck_restores|intros inCheck].
    apply restores_bind; [done|intros kept]. apply restores_ret.
Qed.

(** ** The move generators stay on the board *)

Lemma isValidSquare_iff (r c : Z) :
  isValidSquare r c = true ↔ 0 ≤ r < 8 ∧ 0 ≤ c < 8.
Proof.
  unfold isValidSquare. rewrite !andb_true_iff.
  rewrite !Z.leb_le, !Z.ltb_lt. lia.
Qed.

Lemma pawnCapture_valid (pos : Position) (piece : option Piece) (r c : Z)
    (l : list Square) :
  pawnCapture pos piece r c = Some l → Forall validSquare l.
Proof.
  unfold pawnCapture. destruct (isValidSquare r c) eqn:Hv;
    [|intros [= <-]; constructor].
  intros H.
  destruct (match cell (board pos) r c with
            | Some t => _ | None => _ end) as [capture|] eqn:Hc; [|done].
  injection H as <-. apply Forall_app. split.
  - destruct (cell (board pos) r c) as [t|]; [|by injection Hc as <-].
    destruct (colorDiffers t piece) as [[]|]; try done;
      injection Hc as <-; repeat constructor; done.
  - destruct (enPassantTarget pos) as [e|]; [|constructor].
    destruct ((r =? sqRow e) && (c =? sqCol e)); repeat constructor; done.
Qed.

Lemma getPawnMoves_valid (pos : Position) (r c : Z) (l : list Square) :
  getPawnMoves pos r c = Some l → Forall validSquare l.
Proof.
  unfold getPawnMoves. intros H.
  set (piece := cell (board pos) r c) in *.
  set (direction := if isWhitePawn piece then -1 else 1) in *.
  destruct (pawnCapture pos piece (r + direction) (c + -1)) as [l1|] eqn:H1;
    [|done].
  destruct (pawnCapture pos piece (r + direction) (c + 1)) as [l2|] eqn:H2;
    [|done].
  injection H as <-. apply pawnCapture_valid in H1, H2.
  repeat (apply Forall_app; split); try done.
  destruct (isValidSquare (r + direction) c) eqn:Hv; cbn; [|constructor].
  destruct (negb (occupied (cell (board pos) (r + direction) c)));
    [|constructor].
  constructor; [done|].
  destruct (r =? _) eqn:Hs; cbn; [|constructor].
  destruct (negb _); repeat constructor.
  unfold validSquare. cbn. apply isValidSquare_iff in Hv.
  apply isValidSquare_iff. apply Z.eqb_eq in Hs. subst direction.
  destruct (isWhitePawn piece); lia.
Qed.

Lemma offsetMoves_valid (pos : Position) (r c : Z) (offsets : list (Z * Z))
    (l : list Square) :
  offsetMoves pos r c offsets = Some l → Forall validSquare l.
Proof.
  revert l. induction offsets as [|[dr dc] rest IH]; cbn; intros l H.
  - injection H as <-. constructor.
  - destruct (isValidSquare (r + dr) (c + dc)) eqn:Hv.
    + destruct (cell (board pos) (r + dr) (c + dc)) as [t|].
      * destruct (colorDiffers t _) as [d|]; [|done].
        destruct (offsetMoves pos r c rest) as [more|]; [|done].
        injection H as <-. apply Forall_app. split; [|by apply IH].
        destruct d; repeat constructor; done.
      * destruct (offsetMoves pos r c rest) as [more|]; [|done].
        injection H as <-. constructor; [done|by apply IH].
    + destruct (offsetMoves pos r c rest) as [more|]; [|done].
      injection H as <-. by apply IH.
Qed.

Lemma slide_valid (n : nat) (pos : Position) (piece : option Piece)
    (r c dr dc : Z) (l : list Square) :
  slide n pos piece r c dr dc = Some l → Forall validSquare l.
Proof.
  revert r c l. induction n as [|n IH]; cbn; intros r c l H; [done|].
  destruct (isValidSquare r c) eqn:Hv; [|injection H as <-; constructor].
  destruct (cell (board pos) r c) as [t|].
  - destruct (colorDiffers t piece) as [[]|]; try done;
      injection H as <-; repeat constructor; done.
  - destruct (slide n pos piece (r + dr) (c + dc) dr dc) as [rest|] eqn:Hr;
      [|done].
    injection H as <-. constructor; [done|]. by eapply IH.
Qed.

Lemma getSlidingMoves_valid (pos : Position) (r c : Z)
    (directions : list (Z * Z)) (l : list Square) :
  getSlidingMoves pos r c directions = Some l → Forall validSquare l.
Proof.
  revert l. induction directions as [|[dr dc] rest IH]; cbn -[slide];
    intros l H.
  - injection H as <-. constructor.
  - destruct (slide 9 pos _ _ _ dr dc) as [ray|] eqn:Hray; [|done].
    destruct (getSlidingMoves pos r c rest) as [more|]; [|done].
    injection H as <-. apply Forall_app. split; [|by apply IH].
    by eapply slide_valid.
Qed.

Lemma getKingMovesWith_valid attacked (pos : Position) (r c : Z)
    (l : list Square) :
  isValidSquare r c = true →
  getKingMovesWith attacked pos r c = Some l → Forall validSquare l.
Proof.
  intros Hv. unfold getKingMovesWith.
  destruct (offsetMoves pos r c kingOffsets) as [steps|] eqn:Hs; [|done].
  destruct (getPieceColor <$> cell (board pos) r c) as [color|]; [|done].
  match goal with |- (let? ks := ?e in _) = _ → _ => destruct e as [ks|] end;
    [|done].
  match goal with |- (let? qs := ?e in _) = _ → _ => destruct e as [qs|] end;
    [|done].
  intros [= <-]. apply isValidSquare_iff in Hv.
  repeat (apply Forall_app; split).
  - by eapply offsetMoves_valid.
  - destruct ks; repeat constructor. apply isValidSquare_iff. cbn. lia.
  - destruct qs; repeat constructor. apply isValidSquare_iff. cbn. lia.
Qed.

Lemma filterLegal_sublist (stack : nat) (r c : Z) (moves kept : list Square)
    (pos pos' : Position) :
  filterLegal stack r c moves pos = Some (kept, pos') → kept ⊆ moves.
Proof.
  revert kept pos pos'. induction moves as [|m moves IH]; cbn;
    intros kept pos pos' H.
  - by injection H as [= <-].
  - apply bind_Some in H as (inCheck & pos1 & _ & H).
    apply bind_Some in H as (kept' & pos2 & H2 & H).
    injection H as [= <-]. apply IH in H2.
    destruct inCheck; set_solver.
Qed.

Lemma getValidMovesForPiece_restores (stack : nat) (r c : Z) :
  restores (getValidMovesForPiece stack r c).
Proof.
  intros pos a pos' Hwf H. unfold getValidMovesForPiece in H.
  apply bind_Some in H as (piece & pos1 & [= <- <-] & H).
  destruct (cell (board pos) r c) as [piece|] eqn:Hc;
    [|by injection H as _ <-].
  apply bind_Some in H as (moves & pos1 & H1 & H).
  unfold readsE in H1.
  destruct (match toLowerCase piece with Pawn => _ | _ => _ end)
    as [ms|] eqn:Hgen; [|done].
  injection H1 as <- <-.
  eapply filterLegal_restores; [|done|done].
  pose proof (cell_Some_valid _ _ _ _ Hwf Hc) as Hv.
  destruct (toLowerCase piece).
  - by eapply getPawnMoves_valid.
  - by eapply offsetMoves_valid.
  - by eapply getSlidingMoves_valid.
  - by eapply getSlidingMoves_valid.
  - by eapply getSlidingMoves_valid.
  - by eapply getKingMovesWith_valid.
Qed.

Lemma getAllValidMovesOn_restores (stack : nat) (color : Color)
    (sqs : list (Z * Z)) :
  restores (getAllValidMovesOn stack color sqs).
Proof.
  induction sqs as [|[r c] rest IH]; cbn; [apply restores_ret|].
  apply restores_bind; [apply restores_reads|intros piece].
  apply restores_bind; [|intros here; repeat restores_step].
  destruct piece as [piece|]; [|apply restores_ret].
  destruct (Color_eqb _ color); [|apply restores_ret].
  apply restores_bind; [apply getValidMovesForPiece_restores|intros ?].
  apply restores_ret.
Qed.

Lemma getAllValidMoves_restores (stack : nat) (color : Color) :
  restores (getAllValidMoves stack color).
Proof. apply getAllValidMovesOn_restores. Qed.

Lemma setCurrentTurn_restore (pos : Position) (c : Color) :
  setCurrentTurn (currentTurn pos) (setCurrentTurn c pos) = pos.
Proof. by destruct pos. Qed.

Lemma evaluateMobility_restores (stack : nat) (settings : Settings) :
  restores (evaluateMobility stack settings).
Proof.
  intros pos a pos' Hwf H. unfold evaluateMobility in H.
  apply bind_Some in H as (ai & p1 & [= <- <-] & H).
  apply bind_Some in H as (aiMoves & p1 & H1 & H).
  apply getAllValidMoves_restores in H1 as ->; [|done].
  apply bind_Some in H as (originalTurn & p1 & [= <- <-] & H).
  apply bind_Some in H as ([] & p1 & [= <-] & H).
  apply bind_Some in H as (opponentMoves & p2 & H2 & H).
  apply getAllValidMoves_restores in H2 as ->; [|by destruct pos].
  apply bind_Some in H as ([] & p3 & [= <-] & H).
  injection H as _ <-. apply setCurrentTurn_restore.
Qed.

Lemma evaluatePosition_restores (stack : nat) (settings : Settings) :
  restores (evaluatePosition stack settings).
Proof.
  unfold evaluatePosition.
  repeat (apply restores_bind; [try apply restores_reads|intros ?]).
  - destruct (Qgtb _ 0);
      [apply evaluateMobility_restores|apply restores_ret].
  - destruct (Qgtb _ 0); [apply restores_reads|apply restores_ret].
  - destruct (Qgtb _ 0); [apply restores_reads|apply restores_ret].
  - apply restores_ret.
Qed.

Lemma quickEval_restores (settings : Settings) : restores (quickEval settings).
Proof. apply restores_reads. Qed.

Lemma tacticalFilter_restores (stack : nat) (color : Color)
    (moves : list Move) :
  restores (tacticalFilter stack color moves).
Proof.
  induction moves as [|m moves IH]; cbn; [apply restores_ret|].
  intros pos a pos' Hwf H.
  apply bind_Some in H as (target & p1 & [= <- <-] & H).
  apply bind_Some in H as (keep & p1 & Hkeep & H).
  assert (p1 = pos) as ->.
  { destruct (occupied (cell (board pos) (toRow m) (toCol m))) eqn:Hocc;
      [by injection Hkeep as _ <-|].
    unfold bind, readCell, writeCell, reads, readsE, modify, ret in Hkeep.
    cbn in Hkeep.
    match type of Hkeep with
    | match (match ?e with _ => _ end) with _ => _ end = _ =>
        destruct e as [givesCheck|]
    end; [|done].
    injection Hkeep as _ <-. destruct pos as [b ai turn cr ep]. cbn in *.
    unfold setBoard. cbn. f_equal.
    destruct (cell b (toRow m) (toCol m)) eqn:Hto; [done|].
    rewrite <- Hto at 2. apply make_unmake_board. }
  apply bind_Some in H as (more & p2 & Hmore & H).
  apply IH in Hmore as ->; [|done]. by injection H as _ <-.
Qed.

(** ** The search returns with the position it was called in *)

Lemma keeps_ret {A : Type} (a : A) : keepsPosition (ret a).
Proof. intros w x w' _ [= _ <-]. done. Qed.

Lemma keeps_throw {A : Type} : keepsPosition (@throw Worker A).
Proof. intros w x w' _ [=]. Qed.

Lemma keeps_reads {A : Type} (f : Worker -> A) : keepsPosition (reads f).
Proof. intros w x w' _ [= _ <-]. done. Qed.

Lemma keeps_readsE {A : Type} (f : Worker -> option A) :
  keepsPosition (readsE f).
Proof.
  intros w x w' _. unfold readsE. destruct (f w); [|done]. by intros [= _ <-].
Qed.

Lemma keeps_modify (f : Worker -> Worker) :
  (∀ w, position (f w) = position w) → keepsPosition (modify f).
Proof. intros Hf w x w' _ [= _ <-]. apply Hf. Qed.

Lemma keeps_bind {A B : Type} (m : M A) (k : A -> M B) :
  keepsPosition m → (∀ a, keepsPosition (k a)) → keepsPosition (bind m k).
Proof.
  intros Hm Hk w b w' Hwf H.
  apply bind_Some in H as (a & w1 & H1 & H2).
  pose proof (Hm _ _ _ Hwf H1) as Hp.
  rewrite <- Hp. eapply Hk; [|done]. by rewrite Hp.
Qed.

Lemma keeps_onPosition {A : Type} (m : P A) :
  restores m → keepsPosition (onPosition m).
Proof.
  intros Hm w a w' Hwf H. apply onPosition_Some in H as (pos' & H & ->).
  cbn. by eapply Hm.
Qed.

Lemma keeps_DateNow : keepsPosition DateNow.
Proof. intros w x w' _ [= _ <-]. done. Qed.

Lemma keeps_MathRandom : keepsPosition MathRandom.
Proof. intros w x w' _ [= _ <-]. done. Qed.

(** The make step, a computation that keeps the position, and the unmake
    step: together they keep the position. *)
Lemma keeps_bracket {A B : Type} (mv : Move) (body : M A)
    (k : option Piece -> option Piece -> A -> M B) :
  keepsPosition body → (∀ p c a, keepsPosition (k p c a)) →
  keepsPosition
    (let* (piece, captured) := onPosition (makeSearchMove mv) in
     let* a := body in
     onPosition (unmakeSearchMove mv piece captured) ;; k piece captured a).
Proof.
  intros Hbody Hk w b w' Hwf H.
  apply bind_Some in H as ([piece captured] & w1 & Hmake & H).
  apply bind_Some in H as (a & w2 & Hb & H).
  apply bind_Some in H as ([] & w3 & Hunmake & H).
  unfold onPosition, makeSearchMove, unmakeSearchMove, bind, readCell,
    writeCell, reads, modify, ret in Hmake, Hunmake.
  cbn in Hmake, Hunmake.
  injection Hmake as <- <- <-. injection Hunmake as <-.
  apply Hbody in Hb as Hp; [|cbn; by repeat apply wfBoard_setCell].
  cbn in Hp.
  apply Hk in H as Hfin.
  - rewrite Hfin. cbn. rewrite Hp. cbn.
    destruct w as [[b0 ai turn cr ep] ? ? ? ? ? ? ? ? ? ?]. cbn.
    unfold setBoard. cbn. f_equal. apply make_unmake_board.
  - cbn. rewrite Hp. cbn. by repeat apply wfBoard_setCell.
Qed.

Ltac keeps_step :=
  first
    [ apply keeps_ret
    | apply keeps_throw
    | apply keeps_reads
    | apply keeps_readsE
    | apply keeps_DateNow
    | apply keeps_MathRandom
    | apply keeps_modify; intros []; reflexivity
    | assumption
    | apply keeps_bind; [|intros ?]
    | match goal with
      | |- keepsPosition (match ?x with _ => _ end) => destruct x
      end ].

Lemma keeps_timedOut (settings : Settings) (deadline : Z) :
  keepsPosition (timedOut settings deadline).
Proof. unfold timedOut. repeat keeps_step. Qed.

Lemma keeps_deadlinePassed (deadline : Z) :
  keepsPosition (deadlinePassed deadline).
Proof. unfold deadlinePassed. repeat keeps_step. Qed.

Lemma keeps_storeKillerMove (mv : Move) (d : Z) :
  keepsPosition (storeKillerMove mv d).
Proof. unfold storeKillerMove. repeat keeps_step. Qed.

Lemma keeps_updateHistory (mv : Move) (d : nat) :
  keepsPosition (updateHistory mv d).
Proof. unfold updateHistory. repeat keeps_step. Qed.

Lemma keeps_ttSet (k : string) (e : TTEntry) : keepsPosition (ttSet k e).
Proof. unfold ttSet. repeat keeps_step. Qed.

Lemma keeps_evaluatePosition (stack : nat) (settings : Settings) :
  keepsPosition (onPosition (evaluatePosition stack settings)).
Proof. apply keeps_onPosition, evaluatePosition_restores. Qed.

Lemma keeps_getAllValidMoves (stack : nat) (color : Color) :
  keepsPosition (onPosition (getAllValidMoves stack color)).
Proof. apply keeps_onPosition, getAllValidMoves_restores. Qed.

Lemma keeps_quiescenceLoop (search : Num -> Num -> M Num)
    (settings : Settings) (deadline : Z) (isMaximizing : bool)
    (moves : list Move) (alpha beta : Num) :
  (∀ a b, keepsPosition (search a b)) →
  keepsPosition
    (quiescenceLoop search settings deadline isMaximizing moves alpha beta).
Proof.
  intros Hs. revert alpha beta.
  induction moves as [|mv moves IH]; intros alpha beta; cbn;
    [apply keeps_ret|].
  apply keeps_bind; [apply keeps_timedOut|intros stop].
  destruct stop; [apply keeps_ret|].
  apply (keeps_bracket mv (search alpha beta)); [done|intros piece captured score].
  destruct isMaximizing.
  - destruct (Num_geb score beta); [apply keeps_ret|apply IH].
  - destruct (Num_leb score alpha); [apply keeps_ret|apply IH].
Qed.

Lemma keeps_quiescenceRec (budget stack : nat) (alpha beta : Num)
    (isMaximizing : bool) (settings : Settings) (deadline : Z) (d : Z) :
  keepsPosition
    (quiescenceRec budget stack alpha beta isMaximizing settings deadline d).
Proof.
  revert alpha beta isMaximizing d.
  induction budget as [|budget IH]; intros alpha beta isMaximizing d; cbn.
  - apply keeps_bind.
    { destruct (4 <? d); [apply keeps_ret|apply keeps_timedOut]. }
    intros stop. destruct stop; [apply keeps_evaluatePosition|].
    apply keeps_bind; [apply keeps_evaluatePosition|intros standPat].
    destruct (isMaximizing && _); [apply keeps_ret|].
    destruct (negb isMaximizing && _); [apply keeps_ret|].
    apply keeps_bind; [apply keeps_reads|intros ai].
    apply keeps_bind; [apply keeps_getAllValidMoves|intros allMoves].
    apply keeps_bind;
      [apply keeps_onPosition, tacticalFilter_restores|intros tactical].
    destruct tactical; [apply keeps_ret|].
    apply keeps_bind; [apply keeps_readsE|intros ordered]. apply keeps_throw.
  - apply keeps_bind.
    { destruct (4 <? d); [apply keeps_ret|apply keeps_timedOut]. }
    intros stop. destruct stop; [apply keeps_evaluatePosition|].
    apply keeps_bind; [apply keeps_evaluatePosition|intros standPat].
    destruct (isMaximizing && _); [apply keeps_ret|].
    destruct (negb isMaximizing && _); [apply keeps_ret|].
    apply keeps_bind; [apply keeps_reads|intros ai].
    apply keeps_bind; [apply keeps_getAllValidMoves|intros allMoves].
    apply keeps_bind;
      [apply keeps_onPosition, tacticalFilter_restores|intros tactical].
    destruct tactical; [apply keeps_ret|].
    apply keeps_bind; [apply keeps_readsE|intros ordered].
    apply keeps_quiescenceLoop. intros a b. apply IH.
Qed.

Lemma keeps_maxLoop (search : Num -> Num -> M Num) (settings : Settings)
    (deadline : Z) (d : nat) (searchDepth : Z) (moves : list Move)
    (alpha beta maxEval : Num) (best : option Move) :
  (∀ a b, keepsPosition (search a b)) →
  keepsPosition
    (maxLoop search settings deadline d searchDepth moves alpha beta maxEval
       best).
Proof.
  intros Hs. revert alpha beta maxEval best.
  induction moves as [|mv moves IH]; intros alpha beta maxEval best; cbn;
    [apply keeps_ret|].
  apply keeps_bind; [apply keeps_timedOut|intros stop].
  destruct stop; [apply keeps_ret|].
  apply (keeps_bracket mv (search alpha beta)); [done|intros piece captured evaluation].
  destruct (Num_leb beta _); [|apply IH].
  apply keeps_bind.
  { destruct (occupied _); [apply keeps_ret|apply keeps_storeKillerMove]. }
  intros _. apply keeps_bind; [apply keeps_updateHistory|intros _].
  apply keeps_ret.
Qed.

Lemma keeps_minLoop (search : Num -> Num -> M Num) (settings : Settings)
    (deadline : Z) (d : nat) (searchDepth : Z) (moves : list Move)
    (alpha beta minEval : Num) (best : option Move) :
  (∀ a b, keepsPosition (search a b)) →
  keepsPosition
    (minLoop search settings deadline d searchDepth moves alpha beta minEval
       best).
Proof.
  intros Hs. revert alpha beta minEval best.
  induction moves as [|mv moves IH]; intros alpha beta minEval best; cbn;
    [apply keeps_ret|].
  apply keeps_bind; [apply keeps_timedOut|intros stop].
  destruct stop; [apply keeps_ret|].
  apply (keeps_bracket mv (search alpha beta)); [done|intros piece captured evaluation].
  destruct (Num_leb _ alpha); [|apply IH].
  apply keeps_bind.
  { destruct (occupied _); [apply keeps_ret|apply keeps_storeKillerMove]. }
  intros _. apply keeps_bind; [apply keeps_updateHistory|intros _].
  apply keeps_ret.
Qed.

Lemma keeps_alphaBetaSearch (stack d : nat) (alpha beta : Num)
    (isMaximizing : bool) (settings : Settings) (deadline : Z)
    (searchDepth : Z) :
  keepsPosition
    (alphaBetaSearch stack d alpha beta isMaximizing settings deadline
       searchDepth).
Proof.
  revert alpha beta isMaximizing searchDepth.
  induction d as [|d IH]; intros alpha beta isMaximizing searchDepth; cbn.
  - apply keeps_bind; [keeps_step|intros _].
    apply keeps_bind; [apply keeps_timedOut|intros stop].
    destruct stop; [apply keeps_onPosition, quickEval_restores|].
    apply keeps_bind; [apply keeps_reads|intros repetitions].
    destruct (2 <=? repetitions); [apply keeps_ret|].
    apply keeps_bind; [apply keeps_reads|intros boardKey].
    apply keeps_bind; [apply keeps_reads|intros ttEntry].
    destruct (ttHit ttEntry 0); [apply keeps_ret|].
    apply keeps_bind.
    { destruct (useQuiescence settings);
        [apply keeps_quiescenceRec|apply keeps_evaluatePosition]. }
    intros s. apply keeps_bind; [apply keeps_ttSet|intros _]. apply keeps_ret.
  - apply keeps_bind; [keeps_step|intros _].
    apply keeps_bind; [apply keeps_timedOut|intros stop].
    destruct stop; [apply keeps_onPosition, quickEval_restores|].
    apply keeps_bind; [apply keeps_reads|intros repetitions].
    destruct (2 <=? repetitions); [apply keeps_ret|].
    apply keeps_bind; [apply keeps_reads|intros boardKey].
    apply keeps_bind; [apply keeps_reads|intros ttEntry].
    destruct (ttHit ttEntry (S d)); [apply keeps_ret|].
    apply keeps_bind; [apply keeps_reads|intros ai].
    apply keeps_bind; [apply keeps_getAllValidMoves|intros moves].
    destruct moves as [|m0 moves].
    { apply keeps_bind; [apply keeps_readsE|intros inCheck].
      apply keeps_bind; [apply keeps_ttSet|intros _]. apply keeps_ret. }
    apply keeps_bind; [apply keeps_readsE|intros ordered].
    destruct isMaximizing.
    + apply keeps_bind; [apply keeps_maxLoop; intros a b; apply IH|].
      intros [maxEval best].
      apply keeps_bind; [apply keeps_ttSet|intros _]. apply keeps_ret.
    + apply keeps_bind; [apply keeps_minLoop; intros a b; apply IH|].
      intros [minEval best].
      apply keeps_bind; [apply keeps_ttSet|intros _]. apply keeps_ret.
Qed.

Lemma keeps_rootLoop (stack d : nat) (settings : Settings) (deadline : Z)
    (moves : list Move) (best : option Move) (bestScore : Num)
    (scores : list MoveScore) :
  keepsPosition (rootLoop stack d settings deadline moves best bestScore scores).
Proof.
  revert best bestScore scores.
  induction moves as [|mv moves IH]; intros best bestScore scores; cbn;
    [apply keeps_ret|].
  apply keeps_bind; [apply keeps_deadlinePassed|intros stop].
  destruct stop; [apply keeps_ret|].
  apply keeps_bind; [apply keeps_reads|intros n].
  destruct (maxNodes settings <? n).
  { apply keeps_bind; [keeps_step|intros _]. apply keeps_ret. }
  apply (keeps_bracket mv
           (alphaBetaSearch stack (d - 1) NegInf PosInf false settings
              deadline 0)
           (λ _ _ value, rootLoop stack d settings deadline moves _ _ _)).
  - apply keeps_alphaBetaSearch.
  - intros piece captured value. apply IH.
Qed.

Lemma keeps_deepen (stack : nat) (settings : Settings) (deadline : Z)
    (moves : list Move) (depths : list nat) (best : option Move)
    (bestScore : Num) (completed : Z) (scores : list MoveScore) :
  keepsPosition
    (deepen stack settings deadline moves depths best bestScore completed
       scores).
Proof.
  revert best bestScore completed scores.
  induction depths as [|d depths IH];
    intros best bestScore completed scores; cbn; [apply keeps_ret|].
  apply keeps_bind; [apply keeps_deadlinePassed|intros stop].
  destruct stop; [apply keeps_ret|].
  apply keeps_bind; [apply keeps_readsE|intros ordered].
  apply keeps_bind; [apply keeps_rootLoop|intros [[dBest dScore] dScores]].
  apply keeps_bind; [apply keeps_reads|intros ft].
  apply keeps_bind.
  { destruct (occupiedMove dBest && negb ft); repeat keeps_step. }
  intros accept. destruct accept; [|apply IH].
  apply keeps_bind; [apply keeps_reads|intros n].
  apply keeps_bind; [keeps_step|intros _]. apply IH.
Qed.

Lemma keeps_maybeBlunder (scores : list MoveScore) (settings : Settings) :
  keepsPosition (maybeBlunder scores settings).
Proof.
  unfold maybeBlunder.
  apply keeps_bind; [apply keeps_MathRandom|intros r].
  destruct (Qle_bool _ r); [apply keeps_ret|].
  destruct scores as [|first rest]; [apply keeps_throw|].
  match goal with
  | |- keepsPosition (match ?l with _ => _ end) => destruct l
  end.
  - destruct (_ <? _)%nat; [|apply keeps_ret].
    match goal with
    | |- keepsPosition (match ?l with _ => _ end) => destruct l
    end; [apply keeps_ret|apply keeps_throw].
  - apply keeps_bind; [apply keeps_MathRandom|intros r2].
    destruct (_ <? 0); [apply keeps_throw|].
    match goal with
    | |- keepsPosition (match ?l with _ => _ end) => destruct l
    end; [apply keeps_ret|apply keeps_throw].
Qed.

Lemma keeps_selectMoveWithSoftmax (scores : list MoveScore)
    (settings : Settings) :
  keepsPosition (selectMoveWithSoftmax scores settings).
Proof.
  unfold selectMoveWithSoftmax.
  destruct scores as [|first rest]; [apply keeps_throw|].
  match goal with
  | |- keepsPosition (match ?l with _ => _ end) => destruct l as [|x [|y l']]
  end; try apply keeps_ret.
  all: apply keeps_bind; [apply keeps_reads|intros exp].
  all: apply keeps_bind; [apply keeps_MathRandom|intros rand].
  all: repeat keeps_step.
Qed.

Lemma keeps_getBestMove (stack : nat) (settings : Settings)
    (deadline startTime : Z) :
  keepsPosition (getBestMove stack settings deadline startTime).
Proof.
  unfold getBestMove.
  apply keeps_bind; [apply keeps_reads|intros ai].
  apply keeps_bind; [apply keeps_getAllValidMoves|intros moves].
  destruct moves as [|first rest]; [apply keeps_ret|].
  destruct (searchDepth settings =? 0).
  { apply keeps_bind; [apply keeps_MathRandom|intros r]. apply keeps_ret. }
  apply keeps_bind; [apply keeps_deepen|intros [[[best bs] cd] scores]].
  destruct scores as [|s0 scores]; [apply keeps_ret|].
  apply keeps_bind; [apply keeps_maybeBlunder|intros blunder].
  destruct blunder; [apply keeps_ret|].
  apply keeps_bind; [apply keeps_selectMoveWithSoftmax|intros selected].
  destruct selected; apply keeps_ret.
Qed.

Lemma make_unmake_position (mv : Move) (pos : Position) :
  (let* (piece, captured) := makeSearchMove mv in
   unmakeSearchMove mv piece captured) pos = Some (tt, pos).
Proof.
  unfold makeSearchMove, unmakeSearchMove, bind, readCell, writeCell, reads,
    modify, ret.
  cbn. do 2 f_equal. destruct pos as [b ai turn cr ep]. unfold setBoard. cbn.
  f_equal. apply make_unmake_board.
Qed.

Lemma triangleBoard_wf : wfBoard triangleBoard.
Proof. split; [reflexivity|repeat constructor]. Qed.

(** C3. On an 8x8 board the make step followed by the unmake step gives
    back the position bit for bit, for every move; and every call of
    [alphaBetaSearch], of [quiescenceSearch], of the root move loop and of
    [getBestMove] that returns, on whatever path (timeout, cache hit,
    cutoff or full loop), returns with the board, the castling rights and
    the en-passant target it was entered with. *)
Theorem search_restores_position (stack : nat) (settings : Settings)
    (deadline : Z) (w : Worker) :
  wfBoard (board (position w)) →
  (∀ mv, (let* (piece, captured) := makeSearchMove mv in
          unmakeSearchMove mv piece captured) (position w)
         = Some (tt, position w))
  ∧ (∀ d alpha beta isMaximizing searchDepth v w',
       alphaBetaSearch stack d alpha beta isMaximizing settings deadline
         searchDepth w = Some (v, w') →
       position w' = position w)
  ∧ (∀ alpha beta isMaximizing d v w',
       quiescenceSearch stack alpha beta isMaximizing settings deadline d w
       = Some (v, w') →
       position w' = position w)
  ∧ (∀ d moves best bestScore scores r w',
       rootLoop stack d settings deadline moves best bestScore scores w
       = Some (r, w') →
       position w' = position w)
  ∧ (∀ startTime r w',
       getBestMove stack settings deadline startTime w = Some (r, w') →
       position w' = position w).
Proof.
  intros Hwf. split; [intros mv; apply make_unmake_position|].
  split; [intros; by eapply keeps_alphaBetaSearch|].
  split; [intros; by eapply keeps_quiescenceRec|].
  split; [intros; by eapply keeps_rootLoop|].
  intros; by eapply keeps_getBestMove.
Qed.

Lemma search_restores_position_witness :
  wfBoard triangleBoard
  ∧ match alphaBetaSearch 3 2 NegInf PosInf true (materialOnly 2) 100 0
            (freshWorker trianglePosition [] (stillHost id)) with
    | Some (_, w') => position w' = trianglePosition
    | None => False
    end.
Proof.
  split; [apply triangleBoard_wf|].
  assert (returned
            (alphaBetaSearch 3 2 NegInf PosInf true (materialOnly 2) 100 0
               (freshWorker trianglePosition [] (stillHost id))) = true)
    as Hret by (vm_compute; reflexivity).
  destruct (alphaBetaSearch 3 2 NegInf PosInf true (materialOnly 2) 100 0
              (freshWorker trianglePosition [] (stillHost id)))
    as [[v w']|] eqn:E; [|discriminate Hret].
  exact (proj1 (proj2 (search_restores_position 3 (materialOnly 2) 100
                         (freshWorker trianglePosition [] (stillHost id))
                         triangleBoard_wf))
           2%nat NegInf PosInf true 0 v w' E).
Defined.

(** ** Repetition *)

Lemma filter_length_mono {A : Type} (P Q : A → Prop)
    `{∀ x, Decision (P x)} `{∀ x, Decision (Q x)} (l : list A) :
  (∀ x, P x → Q x) → (length (filter P l) ≤ length (filter Q l))%nat.
Proof.
  intros HPQ. induction l as [|x l IH]; [done|].
  rewrite !filter_cons. destruct (decide (P x)) as [HP|HP].
  - rewrite decide_True by auto. cbn. lia.
  - destruct (decide (Q x)); cbn; lia.
Qed.

(** C4. When the key of the current position occurs at least twice in the
    position history and the timeout and node-budget check does not trip,
    [alphaBetaSearch] returns exactly 0 whatever the material, and does
    nothing else: the node counter and the clock reading are the only
    changes of the worker. *)
Theorem repetition_scores_zero (stack d : nat) (alpha beta : Num)
    (isMaximizing : bool) (settings : Settings) (deadline searchDepth : Z)
    (w : Worker) :
  forceTimeout w = false →
  dateNow (host w) (ticks w) < deadline →
  nodesSearched w + 1 ≤ maxNodes settings →
  (2 ≤ length (filter (λ fen, fen = getFEN (position w))
                      (positionHistory w)))%nat →
  alphaBetaSearch stack d alpha beta isMaximizing settings deadline
    searchDepth w
  = Some (ofZ 0,
          setTicks (S (ticks w)) (setNodesSearched (nodesSearched w + 1) w)).
Proof.
  intros Hft Hclock Hnodes Hrep.
  set (w1 := setNodesSearched (nodesSearched w + 1) w).
  set (w2 := setTicks (S (ticks w)) w1).
  assert (timedOut settings deadline w1 = Some (false, w2)) as Htime.
  { unfold timedOut, bind, reads, DateNow, ret. cbn. rewrite Hft. cbn.
    destruct (deadline <=? _) eqn:E1; [apply Z.leb_le in E1; lia|].
    destruct (maxNodes settings <? _) eqn:E2;
      [apply Z.ltb_lt in E2; cbn in E2; lia|reflexivity]. }
  assert (2 <=? countRepetitions w2 = true) as Hcount.
  { apply Z.leb_le. unfold countRepetitions. cbn.
    assert (∀ fen : string,
              fen = getFEN (position w) →
              firstField fen = firstField (getFEN (position w))) as Himp
      by (by intros fen ->).
    pose proof (filter_length_mono _ _ (positionHistory w) Himp). lia. }
  destruct d; cbn -[timedOut countRepetitions];
    unfold bind at 1; cbn -[timedOut countRepetitions];
    unfold bind at 1; fold w1; rewrite Htime;
    unfold bind at 1; cbn -[timedOut countRepetitions];
    rewrite Hcount; reflexivity.
Qed.

Lemma repetition_scores_zero_witness :
  alphaBetaSearch 3 3 NegInf PosInf true (materialOnly 3) 100 0
    (freshWorker hangingQueenPosition
       [getFEN hangingQueenPosition; getFEN hangingQueenPosition]
       (stillHost id))
  = Some (ofZ 0,
          setTicks 1
            (setNodesSearched 1
               (freshWorker hangingQueenPosition
                  [getFEN hangingQueenPosition; getFEN hangingQueenPosition]
                  (stillHost id)))).
Proof.
  apply (repetition_scores_zero 3 3 NegInf PosInf true (materialOnly 3) 100 0
           (freshWorker hangingQueenPosition
              [getFEN hangingQueenPosition; getFEN hangingQueenPosition]
              (stillHost id))).
  - reflexivity.
  - cbn. lia.
  - cbn. lia.
  - vm_compute. lia.
Defined.

(** ** A side without a king *)

Lemma allSquares_valid (r c : Z) :
  (r, c) ∈ allSquares → isValidSquare r c = true.
Proof.
  assert (forallb (λ '(r, c), isValidSquare r c) allSquares = true) as H
    by reflexivity.
  rewrite forallb_forall in H. intros Hin.
  apply (H (r, c)). by apply list_elem_of_In.
Qed.

Lemma Color_eqb_eq (a b : Color) : Color_eqb a b = true ↔ a = b.
Proof. destruct a, b; cbn; split; congruence. Qed.

Lemma PieceType_eqb_eq (a b : PieceType) : PieceType_eqb a b = true ↔ a = b.
Proof. destruct a, b; cbn; split; congruence. Qed.

Lemma findKing_kingless (b : Board) (color : Color) :
  kingless b color → findKing b color = None.
Proof.
  intros Hk. unfold findKing.
  assert (∀ r, findKingInRow b color r = None) as Hrow.
  { intros r. unfold findKingInRow.
    generalize (seqZ 0 8). intros l. induction l as [|c l IH]; [done|].
    cbn. destruct (cell b r c) as [p|] eqn:Hc; [|done].
    destruct (PieceType_eqb (toLowerCase p) King) eqn:Ht; [|done].
    destruct (Color_eqb (getPieceColor p) color) eqn:Hcol; [|done].
    apply PieceType_eqb_eq in Ht. apply Color_eqb_eq in Hcol.
    by destruct (Hk r c p Hc Ht). }
  generalize (seqZ 0 8). intros l. induction l as [|r l IH]; [done|].
  cbn. by rewrite Hrow.
Qed.

Lemma pawnCapture_total (pos : Position) (p : Piece) (r c : Z) :
  is_Some (pawnCapture pos (Some p) r c).
Proof.
  unfold pawnCapture. destruct (isValidSquare r c); [|eauto].
  destruct (cell (board pos) r c); cbn; eauto.
Qed.

Lemma getPawnMoves_total (pos : Position) (p : Piece) (r c : Z) :
  cell (board pos) r c = Some p → is_Some (getPawnMoves pos r c).
Proof.
  intros Hc. unfold getPawnMoves. rewrite Hc.
  destruct (pawnCapture_total pos p
              (r + (if isWhitePawn (Some p) then -1 else 1)) (c + -1))
    as [l1 ->].
  destruct (pawnCapture_total pos p
              (r + (if isWhitePawn (Some p) then -1 else 1)) (c + 1))
    as [l2 ->].
  eauto.
Qed.

Lemma offsetMoves_total (pos : Position) (p : Piece) (r c : Z)
    (offsets : list (Z * Z)) :
  cell (board pos) r c = Some p → is_Some (offsetMoves pos r c offsets).
Proof.
  intros Hc. induction offsets as [|[dr dc] rest [more IH]]; cbn; [eauto|].
  rewrite IH, Hc.
  destruct (isValidSquare (r + dr) (c + dc)); [|eauto].
  destruct (cell (board pos) (r + dr) (c + dc)); cbn; eauto.
Qed.

(** A ray that meets a square off the board after [k] steps ends within
    [k + 1] rounds of the loop. *)
Lemma slide_total (n : nat) (pos : Position) (p : Piece) (r c dr dc : Z)
    (k : nat) :
  (k < n)%nat →
  isValidSquare (r + Z.of_nat k * dr) (c + Z.of_nat k * dc) = false →
  is_Some (slide n pos (Some p) r c dr dc).
Proof.
  revert r c k. induction n as [|n IH]; intros r c k Hk Hout; [lia|].
  cbn. destruct (isValidSquare r c) eqn:Hv; [|eauto].
  destruct (cell (board pos) r c); cbn; [eauto|].
  destruct k as [|k].
  { replace (r + Z.of_nat 0 * dr) with r in Hout by lia.
    replace (c + Z.of_nat 0 * dc) with c in Hout by lia. congruence. }
  destruct (IH (r + dr) (c + dc) k) as [rest ->]; [lia| |eauto].
  rewrite <- Hout. f_equal; lia.
Qed.

Lemma getSlidingMoves_total (pos : Position) (p : Piece) (r c : Z)
    (directions : list (Z * Z)) :
  cell (board pos) r c = Some p → isValidSquare r c = true →
  Forall unitDirection directions →
  is_Some (getSlidingMoves pos r c directions).
Proof.
  intros Hc Hv Hdirs.
  induction Hdirs as [|[dr dc] rest Hd Hrest [more IH]]; cbn -[slide];
    [eauto|].
  rewrite IH, Hc.
  destruct (slide_total 9 pos p (r + dr) (c + dc) dr dc 8) as [ray ->];
    [lia| |eauto].
  apply isValidSquare_iff in Hv. destruct Hd as (Hnz & Hr & Hcc). cbn in *.
  apply not_true_is_false. intros Hv'. apply isValidSquare_iff in Hv'. lia.
Qed.

Lemma getKingMovesWith_total attacked (pos : Position) (p : Piece) (r c : Z) :
  cell (board pos) r c = Some p →
  (∀ row col, is_Some (attacked row col (getPieceColor p))) →
  is_Some (getKingMovesWith attacked pos r c).
Proof.
  intros Hc Hatt. unfold getKingMovesWith.
  destruct (offsetMoves_total pos p r c kingOffsets Hc) as [steps ->].
  rewrite Hc. cbn.
  assert (∀ col rest, is_Some rest →
            is_Some (let? a := attacked (Some r) (Some col) (getPieceColor p)
                     in if a then Some false else rest)) as Hsafe.
  { intros col rest Hrest. destruct (Hatt (Some r) (Some col)) as [a ->].
    destruct a; eauto. }
  match goal with
  | |- is_Some (let? ks := ?e in _) =>
      assert (is_Some e) as [ks ->]
        by (destruct (_ && _); [repeat apply Hsafe|]; eauto)
  end.
  match goal with
  | |- is_Some (let? qs := ?e in _) =>
      assert (is_Some e) as [qs ->]
        by (destruct (_ && _); [repeat apply Hsafe|]; eauto)
  end.
  eauto.
Qed.

Lemma getRawMovesWith_total attacked (pos : Position) (r c : Z) :
  isValidSquare r c = true →
  (∀ p, cell (board pos) r c = Some p → ptype p = King →
        ∀ row col, is_Some (attacked row col (getPieceColor p))) →
  is_Some (getRawMovesWith attacked pos r c).
Proof.
  intros Hv Hatt. unfold getRawMovesWith.
  destruct (cell (board pos) r c) as [p|] eqn:Hc; [|eauto].
  unfold toLowerCase. destruct (ptype p) eqn:Ht.
  - by eapply getPawnMoves_total.
  - by eapply offsetMoves_total.
  - eapply getSlidingMoves_total; [done..|].
    repeat constructor; cbn; lia.
  - eapply getSlidingMoves_total; [done..|].
    repeat constructor; cbn; lia.
  - eapply getSlidingMoves_total; [done..|].
    repeat constructor; cbn; lia.
  - destruct (getKingMovesWith_total attacked pos p r c Hc) as [ms ->];
      [by apply Hatt|eauto].
Qed.

Lemma scanAttack_total rawMoves (pos : Position) (row col : option Z)
    (defender : Color) (sqs : list (Z * Z)) :
  (∀ r c p, (r, c) ∈ sqs → cell (board pos) r c = Some p →
            getPieceColor p ≠ defender → is_Some (rawMoves r c)) →
  is_Some (scanAttack rawMoves pos row col defender sqs).
Proof.
  induction sqs as [|[r c] rest IH]; intros Hraw; cbn; [eauto|].
  assert (is_Some (scanAttack rawMoves pos row col defender rest)) as Hrest.
  { apply IH. intros r' c' p Hin. apply Hraw. set_solver. }
  destruct (cell (board pos) r c) as [p|] eqn:Hc; [|done].
  destruct (Color_eqb (getPieceColor p) defender) eqn:Hcol; cbn; [done|].
  destruct (Hraw r c p) as [moves ->]; [set_solver|done| |].
  - intros Heq. apply Color_eqb_eq in Heq. congruence.
  - destruct (existsb _ moves); eauto.
Qed.

Lemma scanAttack_undefined rawMoves (pos : Position) (defender : Color)
    (sqs : list (Z * Z)) :
  (∀ r c p, (r, c) ∈ sqs → cell (board pos) r c = Some p →
            getPieceColor p ≠ defender → is_Some (rawMoves r c)) →
  scanAttack rawMoves pos None None defender sqs = Some false.
Proof.
  induction sqs as [|[r c] rest IH]; intros Hraw; cbn; [done|].
  assert (scanAttack rawMoves pos None None defender rest = Some false)
    as Hrest.
  { apply IH. intros r' c' p Hin. apply Hraw. set_solver. }
  destruct (cell (board pos) r c) as [p|] eqn:Hc; [|done].
  destruct (Color_eqb (getPieceColor p) defender) eqn:Hcol; cbn; [done|].
  destruct (Hraw r c p) as [moves ->]; [set_solver|done| |].
  - intros Heq. apply Color_eqb_eq in Heq. congruence.
  - replace (existsb (hits None None) moves) with false; [done|].
    symmetry. by induction moves.
Qed.

(** The pieces of a kingless side never ask whether a square is attacked:
    a test of the squares they attack succeeds on any stack. *)
Lemma isSquareUnderAttack_by_kingless (stack : nat) (pos : Position)
    (row col : option Z) (color : Color) :
  kingless (board pos) color →
  is_Some (isSquareUnderAttack (S stack) pos row col (opposite color)).
Proof.
  intros Hk. cbn. apply scanAttack_total. intros r c p Hin Hc Hcol.
  apply getRawMovesWith_total; [by apply allSquares_valid|].
  intros p' Hc' Hking. rewrite Hc in Hc'. injection Hc' as <-.
  destruct (Hk r c p Hc Hking). unfold getPieceColor in Hcol.
  destruct (pcolor p), color; cbn in *; congruence.
Qed.

Lemma opposite_involutive (c : Color) : opposite (opposite c) = c.
Proof. by destruct c. Qed.

Lemma isInCheck_kingless (stack : nat) (pos : Position) (color : Color) :
  kingless (board pos) color →
  isInCheck (S (S stack)) pos color = Some false.
Proof.
  intros Hk. unfold isInCheck. rewrite findKing_kingless by done.
  cbn [fmap option_fmap option_map fst snd isSquareUnderAttack].
  apply scanAttack_undefined. intros r c p Hin Hc Hcol.
  apply getRawMovesWith_total; [by apply allSquares_valid|].
  intros p' Hc' Hking row col. rewrite Hc in Hc'. injection Hc' as <-.
  replace (getPieceColor p) with (opposite color).
  - by apply isSquareUnderAttack_by_kingless.
  - unfold getPieceColor in *. destruct (pcolor p), color; cbn in *; congruence.
Qed.

(** ** Total correctness triples *)

Lemma triple_ret {S A : Type} (pre : S → Prop) (a : A)
    (post : A → S → Prop) :
  (∀ s, pre s → post a s) → triple pre (ret a) post.
Proof. intros H s Hs. exists a, s. split; [done|by apply H]. Qed.

Lemma triple_bind {S A B : Type} (pre : S → Prop) (m : ST S A)
    (mid : A → S → Prop) (k : A → ST S B) (post : B → S → Prop) :
  triple pre m mid → (∀ a, triple (mid a) (k a) post) →
  triple pre (bind m k) post.
Proof.
  intros Hm Hk s Hs. destruct (Hm s Hs) as (a & s1 & H1 & Hmid).
  destruct (Hk a s1 Hmid) as (b & s2 & H2 & Hpost).
  exists b, s2. split; [|done]. unfold bind. by rewrite H1.
Qed.

Lemma triple_conseq {S A : Type} (pre pre' : S → Prop) (m : ST S A)
    (post post' : A → S → Prop) :
  triple pre' m post' → (∀ s, pre s → pre' s) →
  (∀ a s, post' a s → post a s) → triple pre m post.
Proof.
  intros Hm Hpre Hpost s Hs. destruct (Hm s (Hpre s Hs)) as (a & s' & H & Hp).
  exists a, s'. split; [done|by apply Hpost].
Qed.

Lemma triple_reads {S A : Type} (pre : S → Prop) (f : S → A)
    (post : A → S → Prop) :
  (∀ s, pre s → post (f s) s) → triple pre (reads f) post.
Proof. intros H s Hs. exists (f s), s. split; [done|by apply H]. Qed.

Lemma triple_readsE {S A : Type} (pre : S → Prop) (f : S → option A)
    (post : A → S → Prop) :
  (∀ s, pre s → ∃ a, f s = Some a ∧ post a s) → triple pre (readsE f) post.
Proof.
  intros H s Hs. destruct (H s Hs) as (a & Hf & Hp). exists a, s.
  split; [|done]. unfold readsE. by rewrite Hf.
Qed.

Lemma triple_modify {S : Type} (pre : S → Prop) (f : S → S)
    (post : unit → S → Prop) :
  (∀ s, pre s → post tt (f s)) → triple pre (modify f) post.
Proof. intros H s Hs. exists tt, (f s). split; [done|by apply H]. Qed.

Lemma runsAt_bind {A B : Type} (pos : Position) (m : P A) (Q : A → Prop)
    (k : A → P B) (R : B → Prop) :
  runsAt pos m Q → (∀ a, Q a → runsAt pos (k a) R) → runsAt pos (bind m k) R.
Proof.
  intros (a & Hm & Ha) Hk. destruct (Hk a Ha) as (b & Hb & HR).
  exists b. split; [|done]. unfold bind. by rewrite Hm.
Qed.

Lemma runsAt_ret {A : Type} (pos : Position) (a : A) (Q : A → Prop) :
  Q a → runsAt pos (ret a) Q.
Proof. intros. by exists a. Qed.

Lemma runsAt_reads {A : Type} (pos : Position) (f : Position → A)
    (Q : A → Prop) :
  Q (f pos) → runsAt pos (reads f) Q.
Proof. intros. by exists (f pos). Qed.

Lemma runsAt_weaken {A : Type} (pos : Position) (m : P A) (Q R : A → Prop) :
  runsAt pos m Q → (∀ a, Q a → R a) → runsAt pos m R.
Proof. intros (a & Hm & Ha) H. exists a. auto. Qed.

(** ** Search on a board where one side has no king *)

Lemma cell_setCell_cases (b : Board) (r c r' c' : Z) (v : option Piece) :
  cell (setCell b r c v) r' c' = v
  ∨ cell (setCell b r c v) r' c' = cell b r' c'.
Proof.
  destruct (decide ((r, c) = (r', c'))) as [Heq|Hne];
    [|right; by apply cell_setCell_ne].
  injection Heq as <- <-. unfold setCell, cell.
  destruct ((r <? 0) || (c <? 0)); [by right|].
  destruct (b !! Z.to_nat r) as [cells|] eqn:Hr; [|right; by rewrite Hr].
  rewrite list_lookup_insert_eq by (by eapply lookup_lt_Some).
  destruct (cells !! Z.to_nat c) as [x|] eqn:Hc.
  - left. by rewrite list_lookup_insert_eq by (by eapply lookup_lt_Some).
  - right. rewrite list_insert_ge by (by apply lookup_ge_None). by rewrite Hc.
Qed.

Lemma kingless_setCell (b : Board) (color : Color) (r c : Z)
    (v : option Piece) :
  kingless b color →
  (∀ p, v = Some p → ptype p = King → pcolor p ≠ color) →
  kingless (setCell b r c v) color.
Proof.
  intros Hk Hv r' c' p Hc. destruct (cell_setCell_cases b r c r' c' v) as [H|H];
    rewrite H in Hc; [by apply Hv|by eapply Hk].
Qed.

Lemma kinglessBoard8_afterSearchMove (color : Color) (pos : Position)
    (mv : Move) :
  kinglessBoard8 color pos → kinglessBoard8 color (afterSearchMove pos mv).
Proof.
  intros [Hwf Hk]. unfold afterSearchMove. split; cbn.
  - by repeat apply wfBoard_setCell.
  - apply kingless_setCell; [|done].
    apply kingless_setCell; [done|]. intros p Hp. by eapply Hk.
Qed.

Lemma isInCheck_total (stack : nat) (color c : Color) (pos : Position) :
  kingless (board pos) color → is_Some (isInCheck (S (S stack)) pos c).
Proof.
  intros Hk. destruct (decide (c = color)) as [->|Hne].
  - rewrite isInCheck_kingless by done. eauto.
  - unfold isInCheck. replace c with (opposite color) by (by destruct c, color).
    by apply isSquareUnderAttack_by_kingless.
Qed.


Lemma colorDiffers_self (p : Piece) : colorDiffers p (Some p) = Some false.
Proof. unfold colorDiffers. cbn. by destruct (getPieceColor p). Qed.

Lemma pawnCapture_away (pos : Position) (piece : option Piece)
    (r' c' r c : Z) (l : list Square) :
  r' ≠ r → pawnCapture pos piece r' c' = Some l → Forall (awayFrom r c) l.
Proof.
  intros Hr. unfold pawnCapture.
  destruct (isValidSquare r' c'); [|intros [= <-]; constructor].
  destruct (match cell (board pos) r' c' with
            | Some t => _ | None => _ end) as [capture|] eqn:Hc; [|done].
  intros [= <-]. apply Forall_app. split.
  - destruct (cell (board pos) r' c') as [t|]; [|by injection Hc as <-].
    destruct (colorDiffers t piece) as [[]|]; try done;
      injection Hc as <-; repeat constructor.
    unfold awayFrom. cbn. congruence.
  - destruct (enPassantTarget pos) as [e|]; [|constructor].
    destruct (_ && _); repeat constructor. unfold awayFrom. cbn. congruence.
Qed.

Lemma getPawnMoves_away (pos : Position) (r c : Z) (l : list Square) :
  getPawnMoves pos r c = Some l → Forall (awayFrom r c) l.
Proof.
  unfold getPawnMoves. intros H.
  set (piece := cell (board pos) r c) in *.
  set (direction := if isWhitePawn piece then -1 else 1) in *.
  assert (direction ≠ 0) as Hd by (subst direction; by destruct (isWhitePawn _)).
  destruct (pawnCapture pos piece (r + direction) (c + -1)) as [l1|] eqn:H1;
    [|done].
  destruct (pawnCapture pos piece (r + direction) (c + 1)) as [l2|] eqn:H2;
    [|done].
  injection H as <-.
  apply (pawnCapture_away _ _ _ _ r c) in H1, H2; try lia.
  repeat (apply Forall_app; split); try done.
  destruct (_ && _); [|constructor].
  constructor; [unfold awayFrom; cbn; intros [=]; lia|].
  destruct (_ && _); repeat constructor.
  unfold awayFrom; cbn; intros [=]; lia.
Qed.

Lemma offsetMoves_away (pos : Position) (p : Piece) (r c : Z)
    (offsets : list (Z * Z)) (l : list Square) :
  cell (board pos) r c = Some p →
  offsetMoves pos r c offsets = Some l → Forall (awayFrom r c) l.
Proof.
  intros Hc. revert l. induction offsets as [|[dr dc] rest IH]; cbn;
    intros l H.
  - injection H as <-. constructor.
  - destruct (isValidSquare (r + dr) (c + dc)).
    + destruct (cell (board pos) (r + dr) (c + dc)) as [t|] eqn:Ht.
      * destruct (colorDiffers t (cell (board pos) r c)) as [d|] eqn:Hd;
          [|done].
        destruct (offsetMoves pos r c rest) as [more|]; [|done].
        injection H as <-. apply Forall_app. split; [|by apply IH].
        destruct d; repeat constructor.
        intros [= Hr Hcc]. rewrite Hr, Hcc, Hc in Ht. injection Ht as <-.
        rewrite Hc, colorDiffers_self in Hd. done.
      * destruct (offsetMoves pos r c rest) as [more|]; [|done].
        injection H as <-. constructor; [|by apply IH].
        intros [= Hr Hcc]. rewrite Hr, Hcc, Hc in Ht. done.
    + destruct (offsetMoves pos r c rest) as [more|]; [|done].
      injection H as <-. by apply IH.
Qed.

Lemma slide_away (n : nat) (pos : Position) (p : Piece) (r c r' c' dr dc : Z)
    (l : list Square) :
  cell (board pos) r c = Some p →
  slide n pos (Some p) r' c' dr dc = Some l → Forall (awayFrom r c) l.
Proof.
  intros Hc. revert r' c' l.
  induction n as [|n IH]; cbn -[colorDiffers]; intros r' c' l H; [done|].
  destruct (isValidSquare r' c'); [|injection H as <-; constructor].
  destruct (cell (board pos) r' c') as [t|] eqn:Ht.
  - destruct (colorDiffers t (Some p)) as [d|] eqn:Hd; [|done].
    injection H as <-. destruct d; repeat constructor.
    intros [= Hr Hcc]. cbn in Hr, Hcc. subst r' c'. rewrite Hc in Ht.
    injection Ht as <-. by rewrite colorDiffers_self in Hd.
  - destruct (slide n pos (Some p) (r' + dr) (c' + dc) dr dc) as [rest|] eqn:Hr;
      [|done].
    injection H as <-. constructor; [|by eapply IH].
    intros [= Hr' Hcc]. cbn in Hr', Hcc. subst r' c'. congruence.
Qed.

Lemma getSlidingMoves_away (pos : Position) (p : Piece) (r c : Z)
    (directions : list (Z * Z)) (l : list Square) :
  cell (board pos) r c = Some p →
  getSlidingMoves pos r c directions = Some l → Forall (awayFrom r c) l.
Proof.
  intros Hc. revert l. induction directions as [|[dr dc] rest IH];
    cbn -[slide]; intros l H.
  - injection H as <-. constructor.
  - rewrite Hc in H.
    destruct (slide 9 pos _ _ _ dr dc) as [ray|] eqn:Hray; [|done].
    destruct (getSlidingMoves pos r c rest) as [more|]; [|done].
    injection H as <-. apply Forall_app. split; [|by apply IH].
    by eapply slide_away.
Qed.

Lemma getKingMovesWith_away attacked (pos : Position) (p : Piece) (r c : Z)
    (l : list Square) :
  cell (board pos) r c = Some p →
  getKingMovesWith attacked pos r c = Some l → Forall (awayFrom r c) l.
Proof.
  intros Hc H. unfold getKingMovesWith in H. cbv zeta in H.
  destruct (offsetMoves pos r c kingOffsets) as [steps|] eqn:Hs; [|done].
  rewrite Hc in H. cbn [fmap option_fmap option_map] in H.
  match type of H with
  | match ?e with Some _ => _ | None => _ end = _ =>
      destruct e as [ks|] eqn:Hks
  end; [|done].
  match type of H with
  | match ?e with Some _ => _ | None => _ end = _ =>
      destruct e as [qs|] eqn:Hqs
  end; [|done].
  injection H as <-. repeat (apply Forall_app; split).
  - by eapply offsetMoves_away.
  - destruct ks; repeat constructor. intros [= Hcc]. cbn in Hcc. subst c.
    rewrite Hc in Hks. cbn in Hks. by rewrite andb_false_r in Hks.
  - destruct qs; repeat constructor. intros [= Hcc]. cbn in Hcc. subst c.
    rewrite Hc in Hqs. cbn in Hqs. rewrite andb_false_r in Hqs. done.
Qed.

Lemma pseudoMoves_away (stack : nat) (p : Piece) (pos : Position) (r c : Z)
    (l : list Square) :
  cell (board pos) r c = Some p →
  pseudoMoves stack p pos r c = Some l → Forall (awayFrom r c) l.
Proof.
  intros Hc. unfold pseudoMoves. destruct (toLowerCase p).
  - apply getPawnMoves_away.
  - by apply (offsetMoves_away pos p).
  - by apply (getSlidingMoves_away pos p).
  - by apply (getSlidingMoves_away pos p).
  - by apply (getSlidingMoves_away pos p).
  - by apply (getKingMovesWith_away _ pos p).
Qed.

Lemma pseudoMoves_valid (stack : nat) (p : Piece) (pos : Position) (r c : Z)
    (l : list Square) :
  isValidSquare r c = true →
  pseudoMoves stack p pos r c = Some l → Forall validSquare l.
Proof.
  intros Hv. unfold pseudoMoves. destruct (toLowerCase p).
  - apply getPawnMoves_valid.
  - apply offsetMoves_valid.
  - apply getSlidingMoves_valid.
  - apply getSlidingMoves_valid.
  - apply getSlidingMoves_valid.
  - by apply getKingMovesWith_valid.
Qed.

Lemma pseudoMoves_total (stack : nat) (color : Color) (p : Piece)
    (pos : Position) (r c : Z) :
  kinglessBoard8 color pos → cell (board pos) r c = Some p →
  is_Some (pseudoMoves (S stack) p pos r c).
Proof.
  intros [Hwf Hk] Hc. pose proof (cell_Some_valid _ _ _ _ Hwf Hc) as Hv.
  unfold pseudoMoves, toLowerCase. destruct (ptype p) eqn:Ht.
  - by eapply getPawnMoves_total.
  - by eapply offsetMoves_total.
  - eapply getSlidingMoves_total; [done..|]. repeat constructor; cbn; lia.
  - eapply getSlidingMoves_total; [done..|]. repeat constructor; cbn; lia.
  - eapply getSlidingMoves_total; [done..|]. repeat constructor; cbn; lia.
  - eapply getKingMovesWith_total; [done|]. intros row col.
    replace (getPieceColor p) with (opposite color).
    + by apply isSquareUnderAttack_by_kingless.
    + pose proof (Hk r c p Hc Ht). unfold getPieceColor.
      destruct (pcolor p), color; cbn in *; congruence.
Qed.

Lemma wouldBeInCheck_eq (stack : nat) (fr fc tr tc : Z) (pos : Position) :
  wouldBeInCheck stack fr fc tr tc pos
  = let made :=
      setBoard (setCell (setCell (board pos) tr tc (cell (board pos) fr fc))
                        fr fc None) pos in
    match getPieceColor <$> cell (board made) tr tc with
    | Some color =>
        match isInCheck stack made color with
        | Some inCheck =>
            Some (inCheck,
                  setBoard
                    (setCell (setCell (board made) fr fc
                                (cell (board made) tr tc))
                       tr tc (cell (board pos) tr tc)) made)
        | None => None
        end
    | None => None
    end.
Proof.
  unfold wouldBeInCheck, bind, readCell, writeCell, reads, readsE, modify, ret.
  cbn -[isInCheck].
  destruct (getPieceColor <$> cell _ tr tc) as [color|]; [|done].
  by destruct (isInCheck stack _ color).
Qed.

Lemma wouldBeInCheck_runs (stack : nat) (color : Color) (pos : Position)
    (p : Piece) (fr fc tr tc : Z) :
  kinglessBoard8 color pos → cell (board pos) fr fc = Some p →
  isValidSquare tr tc = true → (tr, tc) ≠ (fr, fc) →
  runsAt pos (wouldBeInCheck (S (S stack)) fr fc tr tc)
    (λ inCheck, getPieceColor p = color → inCheck = false).
Proof.
  intros HJ Hc Hv Hne.
  pose proof (kinglessBoard8_afterSearchMove color pos (mkMove fr fc tr tc) HJ)
    as [Hwf' Hk'].
  destruct HJ as [Hwf Hk].
  unfold afterSearchMove in Hwf', Hk'. cbn in Hwf', Hk'.
  set (madeBoard := setCell (setCell (board pos) tr tc (cell (board pos) fr fc))
                      fr fc None) in *.
  assert (cell madeBoard tr tc = Some p) as Hmoved.
  { unfold madeBoard. rewrite cell_setCell_ne by congruence.
    rewrite Hc. by apply cell_setCell_eq. }
  destruct (isInCheck_total stack color (getPieceColor p)
              (setBoard madeBoard pos) Hk') as [inCheck Hin].
  assert (∃ pos', wouldBeInCheck (S (S stack)) fr fc tr tc pos
                  = Some (inCheck, pos')) as [pos' Hrun].
  { rewrite wouldBeInCheck_eq. cbv zeta. unfold setBoard in *.
    cbn [board aiColor currentTurn castlingRights enPassantTarget] in *.
    fold madeBoard. rewrite Hmoved. cbn [fmap option_fmap option_map].
    rewrite Hin. eauto. }
  exists inCheck. split.
  - rewrite Hrun. do 2 f_equal.
    by eapply (wouldBeInCheck_restores (S (S stack)) fr fc tr tc).
  - intros Hcol. rewrite Hcol in Hin.
    rewrite isInCheck_kingless in Hin by done. congruence.
Qed.

Lemma filterLegal_runs (stack : nat) (color : Color) (pos : Position)
    (p : Piece) (r c : Z) (moves : list Square) :
  kinglessBoard8 color pos → cell (board pos) r c = Some p →
  Forall validSquare moves → Forall (awayFrom r c) moves →
  runsAt pos (filterLegal (S (S stack)) r c moves)
    (λ kept, kept ⊆ moves ∧ (getPieceColor p = color → kept = moves)).
Proof.
  intros HJ Hc Hvalid Haway.
  induction moves as [|m moves IH]; cbn.
  - apply runsAt_ret. done.
  - apply Forall_cons in Hvalid as [Hv Hvalid].
    apply Forall_cons in Haway as [Ha Haway].
    eapply runsAt_bind.
    { by apply (wouldBeInCheck_runs stack color pos p). }
    intros inCheck Hin. eapply runsAt_bind; [by apply IH|].
    intros kept [Hsub Hall]. apply runsAt_ret. split.
    + destruct inCheck; set_solver.
    + intros Hcol. rewrite (Hin Hcol), (Hall Hcol). done.
Qed.

Lemma getValidMovesForPiece_runs (stack : nat) (color : Color)
    (pos : Position) (p : Piece) (r c : Z) :
  kinglessBoard8 color pos → cell (board pos) r c = Some p →
  runsAt pos (getValidMovesForPiece (S (S stack)) r c)
    (λ kept, getPieceColor p = color →
             pseudoMoves (S (S stack)) p pos r c = Some kept).
Proof.
  intros HJ Hc. unfold getValidMovesForPiece.
  eapply runsAt_bind; [by apply (runsAt_reads _ _ (λ x, x = Some p))|].
  intros x Hx. hnf in Hx. subst x.
  destruct (pseudoMoves_total (S stack) color p pos r c HJ Hc) as [ms Hms].
  eapply runsAt_bind.
  { exists ms. split; [|exact (eq_refl ms)]. unfold readsE.
    change (match toLowerCase p with
            | Pawn => getPawnMoves pos r c
            | Knight => getKnightMoves pos r c
            | Bishop => getBishopMoves pos r c
            | Rook => getRookMoves pos r c
            | Queen => getQueenMoves pos r c
            | King => getKingMoves (S (S stack)) pos r c
            end) with (pseudoMoves (S (S stack)) p pos r c).
    by rewrite Hms. }
  intros x Hx. hnf in Hx. subst x. eapply runsAt_weaken.
  - apply (filterLegal_runs stack color pos p); [done..| |].
    + eapply pseudoMoves_valid; [|done].
      destruct HJ as [Hwf _]. by eapply cell_Some_valid.
    + by eapply pseudoMoves_away.
  - intros kept [_ Hall] Hcol. by rewrite (Hall Hcol).
Qed.

Lemma getAllValidMovesOn_runs (stack : nat) (color c : Color)
    (pos : Position) (sqs : list (Z * Z)) :
  kinglessBoard8 color pos →
  runsAt pos (getAllValidMovesOn (S (S stack)) c sqs)
    (Forall (fromOccupied (board pos))).
Proof.
  intros HJ. induction sqs as [|[row col] rest IH]; cbn.
  - apply runsAt_ret. constructor.
  - eapply runsAt_bind;
      [by apply (runsAt_reads _ _ (λ x, x = cell (board pos) row col))|].
    intros x Hx. hnf in Hx. subst x.
    eapply (runsAt_bind _ _ (Forall (fromOccupied (board pos)))).
    + destruct (cell (board pos) row col) as [p|] eqn:Hc;
        [|apply runsAt_ret; constructor].
      destruct (Color_eqb _ c); [|apply runsAt_ret; constructor].
      eapply runsAt_bind; [by apply (getValidMovesForPiece_runs _ color _ p)|].
      intros pieceMoves _. apply runsAt_ret.
      apply Forall_forall. intros mv Hin.
      apply list_elem_of_fmap in Hin as (sq & -> & _).
      unfold fromOccupied. cbn. by rewrite Hc.
    + intros here Hhere. eapply runsAt_bind; [apply IH|].
      intros more Hmore. apply runsAt_ret. by apply Forall_app.
Qed.

Lemma getAllValidMoves_runs (stack : nat) (color c : Color) (pos : Position) :
  kinglessBoard8 color pos →
  runsAt pos (getAllValidMoves (S (S stack)) c)
    (Forall (fromOccupied (board pos))).
Proof. apply getAllValidMovesOn_runs. Qed.

Lemma evaluatePosition_runs (stack : nat) (color : Color)
    (settings : Settings) (pos : Position) :
  kinglessBoard8 color pos →
  runsAt pos (evaluatePosition (S (S stack)) settings) (λ _, True).
Proof.
  intros HJ.
  assert (is_Some (evaluatePosition (S (S stack)) settings pos)) as [[v pos'] H].
  { unfold evaluatePosition, bind, reads, ret.
    destruct (Qgtb (mobilityWeight settings) 0).
    - assert (is_Some (evaluateMobility (S (S stack)) settings pos))
        as [[mob pos1] Hmob].
      { unfold evaluateMobility, bind, reads, modify, ret.
        destruct (getAllValidMoves_runs stack color (aiColor pos) pos HJ)
          as (aiMoves & -> & _).
        assert (kinglessBoard8 color
                  (setCurrentTurn (opposite (aiColor pos)) pos)) as HJ'
          by (by destruct pos).
        destruct (getAllValidMoves_runs stack color (opposite (aiColor pos))
                    _ HJ') as (oppMoves & -> & _).
        eauto. }
      rewrite Hmob.
      destruct (Qgtb (pawnStructureWeight settings) 0),
        (Qgtb (kingSafetyWeight settings) 0); eauto.
    - destruct (Qgtb (pawnStructureWeight settings) 0),
        (Qgtb (kingSafetyWeight settings) 0); eauto. }
  exists v. split; [|done]. rewrite H. do 2 f_equal.
  destruct HJ as [Hwf _]. by eapply evaluatePosition_restores.
Qed.

Lemma tacticalFilter_cons (stack : nat) (c : Color) (mv : Move)
    (ms : list Move) (pos : Position) :
  tacticalFilter stack c (mv :: ms) pos
  = match (if occupied (cell (board pos) (toRow mv) (toCol mv))
           then Some (true, pos)
           else
             let made := afterSearchMove pos mv in
             match isInCheck stack made (opposite c) with
             | Some givesCheck =>
                 Some (givesCheck,
                       setBoard
                         (setCell
                            (setCell (board made) (fromRow mv) (fromCol mv)
                               (cell (board pos) (fromRow mv) (fromCol mv)))
                            (toRow mv) (toCol mv) None) made)
             | None => None
             end) with
    | Some (keep, pos1) =>
        match tacticalFilter stack c ms pos1 with
        | Some (more, pos2) => Some (if keep then mv :: more else more, pos2)
        | None => None
        end
    | None => None
    end.
Proof.
  cbn -[isInCheck]. unfold bind at 1. unfold readCell at 1, reads.
  unfold bind at 1.
  destruct (occupied (cell (board pos) (toRow mv) (toCol mv))).
  - unfold ret at 1. unfold bind.
    by destruct (tacticalFilter stack c ms pos) as [[more pos2]|].
  - unfold bind, readCell, writeCell, reads, readsE, modify, ret.
    cbn -[isInCheck tacticalFilter]. unfold afterSearchMove, setBoard.
    cbn -[isInCheck tacticalFilter].
    destruct (isInCheck stack _ (opposite c)) as [g|]; [|done].
    by destruct (tacticalFilter stack c ms _) as [[more pos2]|].
Qed.

Lemma tacticalFilter_runs (stack : nat) (color c : Color) (pos : Position)
    (moves : list Move) :
  kinglessBoard8 color pos →
  runsAt pos (tacticalFilter (S (S stack)) c moves) (λ kept, kept ⊆ moves).
Proof.
  intros HJ. induction moves as [|mv ms (kept & IH & Hsub)].
  { exists []. done. }
  unfold runsAt. rewrite tacticalFilter_cons.
  destruct (occupied (cell (board pos) (toRow mv) (toCol mv))) eqn:Hocc.
  - rewrite IH. exists (mv :: kept). split; [done|set_solver].
  - cbv zeta.
    pose proof (kinglessBoard8_afterSearchMove color pos mv HJ) as [_ Hk'].
    destruct (isInCheck_total stack color (opposite c)
                (afterSearchMove pos mv) Hk') as [givesCheck ->].
    replace (setBoard _ (afterSearchMove pos mv)) with pos.
    + rewrite IH. destruct givesCheck; eexists; split; try done; set_solver.
    + destruct pos as [b ai turn cr ep]. unfold afterSearchMove, setBoard.
      cbn. f_equal. cbn in Hocc.
      destruct (cell b (toRow mv) (toCol mv)) eqn:Hto; [done|].
      pose proof (make_unmake_board b (fromRow mv) (fromCol mv) (toRow mv)
                    (toCol mv)) as Hmu.
      cbv zeta in Hmu. rewrite Hto in Hmu. by rewrite Hmu.
Qed.


Lemma returnsAt_bind {A B : Type} (pos : Position) (m : M A) (Q : A → Prop)
    (k : A → M B) (R : B → Prop) :
  returnsAt pos m Q → (∀ a, Q a → returnsAt pos (k a) R) →
  returnsAt pos (bind m k) R.
Proof.
  intros Hm Hk w Hw. destruct (Hm w Hw) as (a & w1 & H1 & Hp & Ha).
  destruct (Hk a Ha w1 Hp) as (b & w2 & H2 & Hp2 & Hb).
  exists b, w2. split; [|done]. unfold bind. by rewrite H1.
Qed.

Lemma returnsAt_ret {A : Type} (pos : Position) (a : A) (Q : A → Prop) :
  Q a → returnsAt pos (ret a) Q.
Proof. intros Ha w Hw. by exists a, w. Qed.

Lemma returnsAt_reads {A : Type} (pos : Position) (f : Worker → A) :
  returnsAt pos (reads f) (λ _, True).
Proof. intros w Hw. by exists (f w), w. Qed.

Lemma returnsAt_modify (pos : Position) (f : Worker → Worker) :
  (∀ w, position (f w) = position w) → returnsAt pos (modify f) (λ _, True).
Proof. intros Hf w Hw. exists tt, (f w). by rewrite Hf. Qed.

Lemma returnsAt_weaken {A : Type} (pos : Position) (m : M A)
    (Q R : A → Prop) :
  returnsAt pos m Q → (∀ a, Q a → R a) → returnsAt pos m R.
Proof.
  intros Hm HQR w Hw. destruct (Hm w Hw) as (a & w' & H & Hp & Ha).
  exists a, w'. auto.
Qed.

Lemma returnsAt_onPosition {A : Type} (pos : Position) (m : P A)
    (Q : A → Prop) :
  runsAt pos m Q → returnsAt pos (onPosition m) Q.
Proof.
  intros (a & Hm & Ha) w Hw. subst pos. exists a, w.
  unfold onPosition. rewrite Hm. by rewrite setPosition_position.
Qed.

Lemma returnsAt_DateNow (pos : Position) : returnsAt pos DateNow (λ _, True).
Proof. intros w Hw. eexists _, _. by split. Qed.

Lemma returnsAt_timedOut (pos : Position) (settings : Settings)
    (deadline : Z) :
  returnsAt pos (timedOut settings deadline) (λ _, True).
Proof.
  unfold timedOut.
  eapply returnsAt_bind; [apply returnsAt_reads|intros ft _].
  destruct ft; [by apply returnsAt_ret|].
  eapply returnsAt_bind; [apply returnsAt_DateNow|intros now _].
  destruct (deadline <=? now); [by apply returnsAt_ret|].
  eapply returnsAt_bind; [apply returnsAt_reads|intros n _].
  by apply returnsAt_ret.
Qed.

Lemma returnsAt_storeKillerMove (pos : Position) (mv : Move) (d : Z) :
  0 ≤ d → returnsAt pos (storeKillerMove mv d) (λ _, True).
Proof.
  intros Hd. unfold storeKillerMove.
  eapply returnsAt_bind; [apply returnsAt_reads|intros km _].
  destruct (_ <=? d); [by apply returnsAt_ret|].
  destruct (d <? 0) eqn:E; [apply Z.ltb_lt in E; lia|].
  destruct (existsb _ _); [by apply returnsAt_ret|].
  by apply returnsAt_modify.
Qed.

Lemma returnsAt_updateHistory (pos : Position) (mv : Move) (d : nat) :
  returnsAt pos (updateHistory mv d) (λ _, True).
Proof. by apply returnsAt_modify. Qed.

Lemma returnsAt_ttSet (pos : Position) (k : string) (e : TTEntry) :
  returnsAt pos (ttSet k e) (λ _, True).
Proof. by apply returnsAt_modify. Qed.

(** The make step, a search that returns on the position made, and the
    unmake step. *)
Lemma returnsAt_bracket {A B : Type} (pos : Position) (mv : Move)
    (body : M A) (k : option Piece → option Piece → A → M B)
    (R : B → Prop) :
  returnsAt (afterSearchMove pos mv) body (λ _, True) →
  (∀ p c a, returnsAt pos (k p c a) R) →
  returnsAt pos
    (let* (piece, captured) := onPosition (makeSearchMove mv) in
     let* a := body in
     onPosition (unmakeSearchMove mv piece captured) ;; k piece captured a)
    R.
Proof.
  intros Hbody Hk w Hw. subst pos.
  set (piece := cell (board (position w)) (fromRow mv) (fromCol mv)).
  set (captured := cell (board (position w)) (toRow mv) (toCol mv)).
  set (w1 := setPosition (afterSearchMove (position w) mv) w).
  destruct (Hbody w1 eq_refl) as (a & w2 & Hb & Hp2 & _).
  destruct (Hk piece captured a (setPosition (position w) w2))
    as (b & w3 & H3 & Hp3 & Hb3); [done|].
  exists b, w3. split; [|done].
  assert (onPosition (makeSearchMove mv) w = Some ((piece, captured), w1))
    as Hmake by reflexivity.
  assert (onPosition (unmakeSearchMove mv piece captured) w2
          = Some (tt, setPosition (position w) w2)) as Hunmake.
  { unfold onPosition, unmakeSearchMove, bind, writeCell, modify.
    rewrite Hp2. cbn. do 3 f_equal.
    destruct (position w) as [b0 ai turn cr ep]. unfold setBoard. cbn.
    f_equal. apply make_unmake_board. }
  rewrite (bind_run _ _ _ _ _ Hmake). cbv beta iota.
  rewrite (bind_run _ _ _ _ _ Hb). rewrite (bind_run _ _ _ _ _ Hunmake).
  exact H3.
Qed.

Lemma orderScore_total (w : Worker) (best : option Move) (d : Z) (mv : Move) :
  fromOccupied (board (position w)) mv → 0 ≤ d →
  is_Some (orderScore w best d mv).
Proof.
  intros [p Hp] Hd. unfold orderScore. rewrite Hp.
  destruct (d <? 0) eqn:E; [apply Z.ltb_lt in E; lia|].
  destruct (negb _ && _); eauto.
Qed.

Lemma scoreMoves_total (w : Worker) (best : option Move) (d : Z)
    (moves : list Move) :
  Forall (fromOccupied (board (position w))) moves → 0 ≤ d →
  is_Some (scoreMoves w best d moves).
Proof.
  intros Hall Hd. induction Hall as [|mv ms Hmv _ [more IH]]; [by eexists|].
  destruct (orderScore_total w best d mv Hmv Hd) as [s Hs].
  cbn. rewrite Hs, IH. by eexists.
Qed.

Lemma orderMoves_total (w : Worker) (best : option Move) (d : Z)
    (moves : list Move) :
  Forall (fromOccupied (board (position w))) moves → 0 ≤ d →
  is_Some (orderMoves moves best d w).
Proof.
  intros Hall Hd. destruct (scoreMoves_total w best d moves Hall Hd) as [s Hs].
  unfold orderMoves. rewrite Hs. by eexists.
Qed.

Lemma returnsAt_readsE {A : Type} (pos : Position) (f : Worker → option A)
    (Q : A → Prop) :
  (∀ w, position w = pos → ∃ a, f w = Some a ∧ Q a) →
  returnsAt pos (readsE f) Q.
Proof.
  intros Hf w Hw. destruct (Hf w Hw) as (a & Ha & HQ).
  exists a, w. unfold readsE. by rewrite Ha.
Qed.

Lemma returnsAt_orderMoves (pos : Position) (best : option Move) (d : Z)
    (moves : list Move) :
  Forall (fromOccupied (board pos)) moves → 0 ≤ d →
  returnsAt pos (readsE (orderMoves moves best d)) (λ _, True).
Proof.
  intros Hall Hd. apply returnsAt_readsE. intros w <-.
  destruct (orderMoves_total w best d moves Hall Hd) as [o Ho]. eauto.
Qed.

Section Loops.
Context (color : Color) (search : Num → Num → M Num).
Context (settings : Settings) (deadline : Z).
Hypothesis search_returns : ∀ pos a b,
  kinglessBoard8 color pos → returnsAt pos (search a b) (λ _, True).

Lemma returnsAt_quiescenceLoop (isMaximizing : bool) (moves : list Move)
    (pos : Position) (alpha beta : Num) :
  kinglessBoard8 color pos →
  returnsAt pos
    (quiescenceLoop search settings deadline isMaximizing moves alpha beta)
    (λ _, True).
Proof.
  intros HJ. revert alpha beta.
  induction moves as [|mv ms IH]; intros alpha beta; cbn [quiescenceLoop];
    [by apply returnsAt_ret|].
  eapply returnsAt_bind; [apply returnsAt_timedOut|intros stop _].
  destruct stop; [by apply returnsAt_ret|].
  apply returnsAt_bracket.
  { apply search_returns. by apply kinglessBoard8_afterSearchMove. }
  intros p c score. destruct isMaximizing.
  - destruct (Num_geb score beta); [by apply returnsAt_ret|apply IH].
  - destruct (Num_leb score alpha); [by apply returnsAt_ret|apply IH].
Qed.

Lemma returnsAt_cutoff (pos : Position) (mv : Move) (captured : option Piece)
    (depth : nat) (searchDepth : Z) (r : Num * option Move) :
  0 ≤ searchDepth →
  returnsAt pos
    ((if occupied captured then ret tt
      else storeKillerMove mv searchDepth) ;;
     updateHistory mv depth ;; ret r)
    (λ _, True).
Proof.
  intros Hd. eapply returnsAt_bind with (Q := λ _, True).
  { destruct (occupied captured);
      [by apply returnsAt_ret|by apply returnsAt_storeKillerMove]. }
  intros _ _. eapply returnsAt_bind; [apply returnsAt_updateHistory|].
  intros _ _. by apply returnsAt_ret.
Qed.

Lemma returnsAt_maxLoop (depth : nat) (searchDepth : Z) (moves : list Move)
    (pos : Position) (alpha beta maxEval : Num) (best : option Move) :
  kinglessBoard8 color pos → 0 ≤ searchDepth →
  returnsAt pos
    (maxLoop search settings deadline depth searchDepth moves alpha beta
       maxEval best)
    (λ _, True).
Proof.
  intros HJ Hd. revert alpha maxEval best.
  induction moves as [|mv ms IH]; intros alpha maxEval best; cbn [maxLoop];
    [by apply returnsAt_ret|].
  eapply returnsAt_bind; [apply returnsAt_timedOut|intros stop _].
  destruct stop; [by apply returnsAt_ret|].
  apply returnsAt_bracket.
  { apply search_returns. by apply kinglessBoard8_afterSearchMove. }
  intros p c evaluation. cbv zeta.
  destruct (Num_leb beta _); [by apply returnsAt_cutoff|apply IH].
Qed.

Lemma returnsAt_minLoop (depth : nat) (searchDepth : Z) (moves : list Move)
    (pos : Position) (alpha beta minEval : Num) (best : option Move) :
  kinglessBoard8 color pos → 0 ≤ searchDepth →
  returnsAt pos
    (minLoop search settings deadline depth searchDepth moves alpha beta
       minEval best)
    (λ _, True).
Proof.
  intros HJ Hd. revert beta minEval best.
  induction moves as [|mv ms IH]; intros beta minEval best; cbn [minLoop];
    [by apply returnsAt_ret|].
  eapply returnsAt_bind; [apply returnsAt_timedOut|intros stop _].
  destruct stop; [by apply returnsAt_ret|].
  apply returnsAt_bracket.
  { apply search_returns. by apply kinglessBoard8_afterSearchMove. }
  intros p c evaluation. cbv zeta.
  destruct (Num_leb _ alpha); [by apply returnsAt_cutoff|apply IH].
Qed.
End Loops.

Lemma Forall_fromOccupied_sub (b : Board) (moves kept : list Move) :
  Forall (fromOccupied b) moves → kept ⊆ moves → Forall (fromOccupied b) kept.
Proof.
  rewrite !Forall_forall. intros Hall Hsub mv Hmv. apply Hall.
  by apply Hsub.
Qed.

Lemma returnsAt_quiescenceRec (stack : nat) (color : Color)
    (settings : Settings) (deadline : Z) (budget : nat) (pos : Position)
    (alpha beta : Num) (isMaximizing : bool) (depth : Z) :
  kinglessBoard8 color pos → 5 - depth ≤ Z.of_nat budget →
  returnsAt pos
    (quiescenceRec budget (S (S stack)) alpha beta isMaximizing settings
       deadline depth)
    (λ _, True).
Proof.
  revert pos alpha beta isMaximizing depth.
  induction budget as [|budget IH]; intros pos alpha beta isMaximizing depth
    HJ Hb.
  - cbn [quiescenceRec]. destruct (4 <? depth) eqn:E;
      [|apply Z.ltb_ge in E; lia].
    eapply returnsAt_bind with (Q := λ stop, stop = true);
      [by apply returnsAt_ret|intros ? ->].
    apply returnsAt_onPosition. by eapply evaluatePosition_runs.
  - cbn [quiescenceRec].
    eapply returnsAt_bind with (Q := λ _, True).
    { destruct (4 <? depth);
        [by apply returnsAt_ret|apply returnsAt_timedOut]. }
    intros stop _.
    destruct stop;
      [apply returnsAt_onPosition; by eapply evaluatePosition_runs|].
    eapply returnsAt_bind;
      [apply returnsAt_onPosition; by eapply evaluatePosition_runs|].
    intros standPat _.
    destruct (isMaximizing && _); [by apply returnsAt_ret|].
    destruct (negb isMaximizing && Num_leb _ _); [by apply returnsAt_ret|].
    cbv zeta.
    eapply returnsAt_bind; [apply returnsAt_reads|intros ai _].
    eapply returnsAt_bind;
      [apply returnsAt_onPosition; by eapply getAllValidMoves_runs|].
    intros allMoves Hall.
    eapply returnsAt_bind;
      [apply returnsAt_onPosition; by eapply tacticalFilter_runs|].
    intros tactical Hsub. cbv beta in Hsub.
    destruct tactical as [|t ts]; [by apply returnsAt_ret|].
    eapply returnsAt_bind.
    { apply returnsAt_orderMoves; [|done].
      by eapply Forall_fromOccupied_sub. }
    intros ordered _.
    eapply returnsAt_quiescenceLoop; [|done].
    intros pos' a b HJ'. apply IH; [done|lia].
Qed.

Lemma returnsAt_quiescenceSearch (stack : nat) (color : Color)
    (settings : Settings) (deadline : Z) (pos : Position)
    (alpha beta : Num) (isMaximizing : bool) (depth : Z) :
  kinglessBoard8 color pos →
  returnsAt pos
    (quiescenceSearch (S (S stack)) alpha beta isMaximizing settings deadline
       depth)
    (λ _, True).
Proof. intros HJ. eapply returnsAt_quiescenceRec; [done|lia]. Qed.

Lemma returnsAt_alphaBetaSearch (stack : nat) (color : Color)
    (settings : Settings) (deadline : Z) (depth : nat) (pos : Position)
    (alpha beta : Num) (isMaximizing : bool) (searchDepth : Z) :
  kinglessBoard8 color pos → 0 ≤ searchDepth →
  returnsAt pos
    (alphaBetaSearch (S (S stack)) depth alpha beta isMaximizing settings
       deadline searchDepth)
    (λ _, True).
Proof.
  revert pos alpha beta isMaximizing searchDepth.
  induction depth as [|depth IH];
    intros pos alpha beta isMaximizing searchDepth HJ Hd;
    cbn [alphaBetaSearch].
  all: eapply returnsAt_bind; [by apply returnsAt_modify|intros _ _].
  all: eapply returnsAt_bind; [apply returnsAt_timedOut|intros stop _].
  all: destruct stop;
    [apply returnsAt_onPosition; eexists; split; [reflexivity|done]|].
  all: eapply returnsAt_bind; [apply returnsAt_reads|intros reps _].
  all: destruct (2 <=? reps); [by apply returnsAt_ret|].
  all: eapply returnsAt_bind; [apply returnsAt_reads|intros boardKey _].
  all: eapply returnsAt_bind; [apply returnsAt_reads|intros ttEntry _].
  all: destruct (ttHit ttEntry _); [by apply returnsAt_ret|].
  - eapply returnsAt_bind with (Q := λ _, True).
    { destruct (useQuiescence settings).
      - by eapply returnsAt_quiescenceSearch.
      - apply returnsAt_onPosition. by eapply evaluatePosition_runs. }
    intros s _. eapply returnsAt_bind; [apply returnsAt_ttSet|intros _ _].
    by apply returnsAt_ret.
  - eapply returnsAt_bind; [apply returnsAt_reads|intros ai _]. cbv zeta.
    eapply returnsAt_bind;
      [apply returnsAt_onPosition; by eapply getAllValidMoves_runs|].
    intros moves Hall. destruct moves as [|mv ms].
    { eapply returnsAt_bind with (Q := λ _, True).
      { apply returnsAt_readsE. intros w <-.
        destruct (isInCheck_total stack color
                    (if isMaximizing then ai else opposite ai) (position w))
          as [c Hc]; [apply HJ|]. eauto. }
      intros inCheck _.
      eapply returnsAt_bind; [apply returnsAt_ttSet|intros _ _].
      by apply returnsAt_ret. }
    eapply returnsAt_bind; [by apply returnsAt_orderMoves|].
    intros ordered _. destruct isMaximizing.
    + eapply returnsAt_bind.
      { eapply returnsAt_maxLoop; [|done|done].
        intros pos' a b HJ'. apply IH; [done|lia]. }
      intros [maxEval best] _.
      eapply returnsAt_bind; [apply returnsAt_ttSet|intros _ _].
      by apply returnsAt_ret.
    + eapply returnsAt_bind.
      { eapply returnsAt_minLoop; [|done|done].
        intros pos' a b HJ'. apply IH; [done|lia]. }
      intros [minEval best] _.
      eapply returnsAt_bind; [apply returnsAt_ttSet|intros _ _].
      by apply returnsAt_ret.
Qed.

(** ** A side without a king *)

Lemma valid_allSquares (r c : Z) :
  isValidSquare r c = true → (r, c) ∈ allSquares.
Proof.
  intros H. apply isValidSquare_iff in H. unfold allSquares.
  apply list_elem_of_bind. exists r. split; [|apply elem_of_seqZ; lia].
  apply list_elem_of_bind. exists c. split; [set_solver|apply elem_of_seqZ; lia].
Qed.

Lemma hasNoKing_kingless (b : Board) (color : Color) :
  wfBoard b → hasNoKing b color = true → kingless b color.
Proof.
  intros Hwf H r c p Hc Hking Hcol. unfold hasNoKing in H.
  rewrite forallb_forall in H.
  specialize (H (r, c)). cbn in H. rewrite Hc in H.
  assert (negb (PieceType_eqb (ptype p) King && Color_eqb (pcolor p) color)
          = true) as Hn.
  { apply H. apply list_elem_of_In, valid_allSquares.
    by eapply cell_Some_valid. }
  rewrite Hking, Hcol in Hn. by destruct color.
Qed.

Lemma kinglessBoard_wf : wfBoard kinglessBoard.
Proof. split; [reflexivity|repeat constructor]. Qed.

(** C10. On an 8x8 board where [color] has no king, with room on the stack
    for two nested attack scans: [isInCheck(color)] returns [false]; the
    legality filter of [getValidMovesForPiece] keeps every pseudo-legal
    move of a piece of that colour; [getAllValidMoves] returns for either
    side and leaves the position as it was; and [quiescenceSearch] and
    [alphaBetaSearch] return at every depth, in the position they were
    entered with. *)
Theorem kingless_side_never_in_check (stack : nat) (color : Color)
    (pos : Position) :
  wfBoard (board pos) → kingless (board pos) color →
  isInCheck (S (S stack)) pos color = Some false
  ∧ (∀ r c p, cell (board pos) r c = Some p → pcolor p = color →
       ∃ moves,
         getValidMovesForPiece (S (S stack)) r c pos = Some (moves, pos)
         ∧ match toLowerCase p with
           | Pawn => getPawnMoves pos r c
           | Knight => getKnightMoves pos r c
           | Bishop => getBishopMoves pos r c
           | Rook => getRookMoves pos r c
           | Queen => getQueenMoves pos r c
           | King => getKingMoves (S (S stack)) pos r c
           end = Some moves)
  ∧ (∀ side, ∃ moves,
       getAllValidMoves (S (S stack)) side pos = Some (moves, pos))
  ∧ (∀ settings deadline depth alpha beta isMaximizing (w : Worker),
       position w = pos →
       (∃ score w',
          quiescenceSearch (S (S stack)) alpha beta isMaximizing settings
            deadline depth w = Some (score, w')
          ∧ position w' = pos)
       ∧ (∀ d, ∃ score w',
            alphaBetaSearch (S (S stack)) d alpha beta isMaximizing settings
              deadline 0 w = Some (score, w')
            ∧ position w' = pos)).
Proof.
  intros Hwf Hk. assert (kinglessBoard8 color pos) as HJ by done.
  split; [by apply isInCheck_kingless|]. split; [|split].
  - intros r c p Hc Hcol.
    destruct (getValidMovesForPiece_runs stack color pos p r c HJ Hc)
      as (moves & Hrun & Hmoves).
    exists moves. split; [done|]. by apply Hmoves.
  - intros side.
    destruct (getAllValidMoves_runs stack color side pos HJ)
      as (moves & Hrun & _). by exists moves.
  - intros settings deadline depth alpha beta isMaximizing w Hw. split.
    + destruct (returnsAt_quiescenceSearch stack color settings deadline pos
                  alpha beta isMaximizing depth HJ w Hw)
        as (score & w' & Hrun & Hpos & _). by exists score, w'.
    + intros d.
      destruct (returnsAt_alphaBetaSearch stack color settings deadline d pos
                  alpha beta isMaximizing 0 HJ (Z.le_refl 0) w Hw)
        as (score & w' & Hrun & Hpos & _). by exists score, w'.
Qed.

Lemma kingless_side_never_in_check_witness :
  wfBoard kinglessBoard ∧ kingless kinglessBoard black
  ∧ isInCheck 2 kinglessPosition black = Some false
  ∧ ∃ score w',
      alphaBetaSearch 2 2 NegInf PosInf true (materialOnly 2) 100 0
        (freshWorker kinglessPosition [] (stillHost id)) = Some (score, w')
      ∧ position w' = kinglessPosition.
Proof.
  assert (kingless kinglessBoard black) as Hk
    by (apply hasNoKing_kingless; [apply kinglessBoard_wf|reflexivity]).
  pose proof (kingless_side_never_in_check 0 black kinglessPosition
                kinglessBoard_wf Hk) as (Hcheck & _ & _ & Hsearch).
  split; [apply kinglessBoard_wf|]. split; [exact Hk|]. split; [exact Hcheck|].
  exact (proj2 (Hsearch (materialOnly 2) 100 0 NegInf PosInf true
                  (freshWorker kinglessPosition [] (stillHost id)) eq_refl)
           2%nat).
Defined.

(** ** Special moves: [makeMove] of the page against the make step of the
    search *)

Lemma promotionBoard_wf : wfBoard promotionBoard.
Proof. split; [reflexivity|repeat constructor]. Qed.

Lemma makeSearchMove_run (mv : Move) (pos : Position) :
  makeSearchMove mv pos
  = Some ((cell (board pos) (fromRow mv) (fromCol mv),
           cell (board pos) (toRow mv) (toCol mv)),
          afterSearchMove pos mv).
Proof. reflexivity. Qed.

(** ** The difficulty calibrator *)

Lemma clampElo_range (aiElo : Z) : 500 ≤ clampElo aiElo ≤ 2200.
Proof. unfold clampElo. lia. Qed.

Lemma clampElo_idempotent (aiElo : Z) : clampElo (clampElo aiElo) = clampElo aiElo.
Proof. unfold clampElo. lia. Qed.

Lemma getAISettings_clamped (aiElo : Z) :
  getAISettings aiElo = getAISettings (clampElo aiElo).
Proof. unfold getAISettings. by rewrite clampElo_idempotent. Qed.

(** The slope of [lerp] is the same everywhere, and its values at the two
    ends of the rating range are the two anchors. *)
Lemma lerp_linear (elo : Z) (minVal maxVal : Q) :
  (lerp 500 500 2200 minVal maxVal == minVal)%Q
  ∧ (lerp 2200 500 2200 minVal maxVal == maxVal)%Q
  ∧ (lerp (elo + 1) 500 2200 minVal maxVal - lerp elo 500 2200 minVal maxVal
     == (maxVal - minVal) / 1700)%Q.
Proof.
  unfold lerp. cbn -[Qmult Qplus Qminus Qdiv inject_Z Z.sub Z.add].
  replace (500 - 500) with 0 by lia. replace (2200 - 500) with 1700 by lia.
  rewrite Z.add_sub_swap, inject_Z_plus. repeat split; field.
Qed.

Lemma searchDepth_range (elo : Z) :
  500 < elo ≤ 2200 → 1 ≤ MathRound (lerp elo 500 2200 1 6) ≤ 6.
Proof.
  intros Helo.
  assert (forallb (λ e, let d := MathRound (lerp e 500 2200 1 6) in
                        (1 <=? d) && (d <=? 6))
                  (seqZ 501 1700) = true) as Hall by (vm_compute; reflexivity).
  rewrite forallb_forall in Hall. specialize (Hall elo). cbv zeta in Hall.
  apply andb_prop in Hall as [?%Z.leb_le ?%Z.leb_le]; [lia|].
  apply list_elem_of_In, elem_of_seqZ. lia.
Qed.

(** At a rating of 500 or less the search depth is 0, where the
    interpolation between the anchors 1 and 6 gives 1. *)
Lemma searchDepth_at_500_is_not_interpolated :
  searchDepth (getAISettings 500) = 0
  ∧ searchDepth (getAISettings 300) = 0
  ∧ MathRound (lerp (clampElo 500) 500 2200 1 6) = 1.
Proof. repeat split; reflexivity. Qed.

(** C8. The settings are a function of the clamped rating, which lies in
    [500, 2200]: two ratings with the same clamped value give the same
    bundle. The rational parameters are the interpolation [lerp] at the
    clamped rating, the integer ones are that interpolation rounded; the
    search depth is the rounded interpolation between 1 and 6 (so between
    1 and 6) above 500, and 0 at 500. [useQuiescence] holds exactly from a
    clamped rating of 1200 on. *)
Theorem getAISettings_of_clamped_rating (aiElo : Z) :
  let elo := clampElo aiElo in
  let s := getAISettings aiElo in
  500 ≤ elo ≤ 2200
  ∧ (∀ other, clampElo other = elo → getAISettings other = s)
  ∧ (useQuiescence s = true ↔ 1200 ≤ elo)
  ∧ (elo = 500 → searchDepth s = 0)
  ∧ (500 < elo → searchDepth s = MathRound (lerp elo 500 2200 1 6)
                 ∧ 1 ≤ searchDepth s ≤ 6)
  ∧ mistakeRate s = lerp elo 500 2200 (90 # 100) (2 # 100)
  ∧ mistakeSizeCp s = inject_Z (MathRound (lerp elo 500 2200 350 100))
  ∧ timePerMove s = inject_Z (MathRound (lerp elo 500 2200 300 5000))
  ∧ maxNodes s = MathRound (lerp elo 500 2200 50000 500000)
  ∧ positionWeight s = lerp elo 500 2200 0 (15 # 10)
  ∧ mobilityWeight s = lerp elo 500 2200 0 1
  ∧ pawnStructureWeight s = lerp elo 500 2200 0 1
  ∧ kingSafetyWeight s = lerp elo 500 2200 0 (12 # 10)
  ∧ temperature s = lerp elo 500 2200 (12 # 10) (3 # 10)
  ∧ softmaxWindow s = inject_Z (MathRound (lerp elo 500 2200 80 30)).
Proof.
  cbv zeta. split; [apply clampElo_range|]. split.
  { intros other Hother.
    by rewrite (getAISettings_clamped other), Hother, <- getAISettings_clamped. }
  split.
  { unfold getAISettings. cbn [useQuiescence]. apply Z.leb_le. }
  split.
  { intros H. unfold getAISettings. cbn [searchDepth]. by rewrite H. }
  split; [|by repeat split].
  intros H. unfold getAISettings. cbn [searchDepth].
  destruct (clampElo aiElo <=? 500) eqn:E; [apply Z.leb_le in E; lia|].
  split; [done|]. apply searchDepth_range. pose proof (clampElo_range aiElo). lia.
Qed.

Lemma getAISettings_of_clamped_rating_witness :
  getAISettings 2500 = getAISettings 2200
  ∧ searchDepth (getAISettings 2500) = 6
  ∧ useQuiescence (getAISettings 2500) = true.
Proof.
  pose proof (getAISettings_of_clamped_rating 2200)
    as (_ & Hsame & Hq & _ & Hdepth & _).
  split; [exact (Hsame 2500 eq_refl)|]. split.
  - rewrite (Hsame 2500 eq_refl).
    exact (proj1 (Hdepth ltac:(reflexivity))).
  - rewrite (Hsame 2500 eq_refl). apply Hq. unfold clampElo. lia.
Defined.

(** ** No legal move *)

Lemma matedBoard_wf : wfBoard matedBoard.
Proof. split; [reflexivity|repeat constructor]. Qed.




(** ** The root of the search on a hanging queen *)

(** C2. On [4k3/8/8/3q4/4P3/8/8/4K3 w - -], where the white pawn can take
    the undefended black queen, the root loop of [getBestMove] gives the
    capture e4xd5 the score -100 and every other move the score 800 at
    depth 1 (900 at depth 2) with a material-only evaluation; with every
    term of the evaluation and quiescence switched on the capture still
    scores more than 800 below every other move at depths 1 and 2; and
    [getBestMove] returns the pawn push e4-e5 with the score 800. *)
Theorem root_search_scores_queen_capture_lowest :
  rootScores (materialOnly 1) 1 hangingQueenPosition
  = Some [(mkMove 4 4 3 4, Fin 800); (mkMove 4 4 3 3, Fin (-100));
          (mkMove 7 4 6 4, Fin 800); (mkMove 7 4 6 5, Fin 800);
          (mkMove 7 4 7 5, Fin 800)]
  ∧ rootScores (materialOnly 2) 2 hangingQueenPosition
    = Some [(mkMove 4 4 3 4, Fin 900); (mkMove 4 4 3 3, Fin (-100));
            (mkMove 7 4 6 4, Fin 900); (mkMove 7 4 6 5, Fin 900);
            (mkMove 7 4 7 5, Fin 900)]
  ∧ belowAllOthers (mkMove 4 4 3 3) 800
      <$> rootScores (allTerms 1) 1 hangingQueenPosition = Some true
  ∧ belowAllOthers (mkMove 4 4 3 3) 800
      <$> rootScores (allTerms 2) 2 hangingQueenPosition = Some true
  ∧ fst <$> getBestMove 3 (materialOnly 1) 100 0
              (freshWorker hangingQueenPosition [] (stillHost id))
    = Some (mkResult (Some (mkMove 4 4 3 4)) (Fin 800) 1).
Proof.
  split; [vm_compute; reflexivity|]. split; [vm_compute; reflexivity|].
  split; [vm_compute; reflexivity|]. split; vm_compute; reflexivity.
Qed.

(** ** Repeated searches *)

(** The same request, sent twice to a worker whose clock stands still and
    whose random draws are all 0, with a mistake rate of 0: the second
    search starts with the transposition table, the killer moves and the
    history table that the first one left, and returns another move. *)
Lemma repeated_search_returns_another_move :
  mistakeRate (rqSettings knightRequest) = 0%Q
  ∧ ∀ exp : Num → Num,
      msgMove ∘ fst <$> onmessage_search 3 knightRequest (idleWorker exp)
      = Some (Some (mkMove 6 6 4 7))
      ∧ msgMove ∘ fst
          <$> (onmessage_search 3 knightRequest (idleWorker exp)
               ≫= λ '(_, w1), onmessage_search 3 knightRequest w1)
        = Some (Some (mkMove 6 6 4 5)).
Proof.
  split; [reflexivity|]. intros exp. split; vm_compute; reflexivity.
Qed.

Lemma maybeBlunder_never (scores : list MoveScore) (settings : Settings)
    (w : Worker) :
  mistakeRate settings = 0%Q →
  (0 <= mathRandom (host w) (draws w))%Q →
  maybeBlunder scores settings w = Some (None, setDraws (S (draws w)) w).
Proof.
  intros Hrate Hrand. unfold maybeBlunder, bind, MathRandom.
  rewrite Hrate. apply Qle_bool_iff in Hrand. by rewrite Hrand.
Qed.

Lemma maybeBlunder_host (scores : list MoveScore) (settings : Settings)
    (w1 w2 : Worker) :
  host w1 = host w2 → draws w1 = draws w2 →
  fst <$> maybeBlunder scores settings w1
  = fst <$> maybeBlunder scores settings w2.
Proof.
  intros Hh Hd. unfold maybeBlunder, bind, MathRandom, ret, throw.
  rewrite Hh, Hd. destruct (Qle_bool _ _); [done|].
  destruct scores as [|first rest]; [done|]. cbv zeta.
  destruct (List.filter _ _) as [|c cs].
  - destruct (1 <? _)%nat; [|done]. by destruct (_ !! _).
  - unfold setDraws. cbn [draws host]. rewrite Hh.
    destruct (_ <? 0); [done|]. by destruct (_ !! _).
Qed.

Lemma selectMoveWithSoftmax_host (scores : list MoveScore)
    (settings : Settings) (w1 w2 : Worker) :
  host w1 = host w2 → draws w1 = draws w2 →
  fst <$> selectMoveWithSoftmax scores settings w1
  = fst <$> selectMoveWithSoftmax scores settings w2.
Proof.
  intros Hh Hd. unfold selectMoveWithSoftmax.
  destruct scores as [|first rest]; [done|]. cbv zeta.
  destruct (List.filter _ _) as [|t [|t' ts]] eqn:E.
  - unfold bind, reads, MathRandom, ret, throw. by rewrite Hh, Hd.
  - done.
  - unfold bind, reads, MathRandom, ret, throw. rewrite Hh, Hd.
    by destruct (pickCumulative _ _ _).
Qed.

(** C9. The answer to a search message depends on the worker that receives
    it only through the transposition table, the killer moves, the history
    table, the messages posted so far and the state of the host (clock and
    random draws): two workers that agree on these give the same answer and
    end in the same state, whatever position, history, node count and
    timeout flag the previous message left. The final selection depends on
    the worker only through the host and the number of draws made, and with
    a mistake rate of 0 and a random source that is never negative
    [maybeBlunder] returns [null] after one draw. *)
Theorem search_depends_on_caches (stack : nat) (data : SearchRequest)
    (w1 w2 : Worker) :
  transpositionTable w1 = transpositionTable w2 →
  killerMoves w1 = killerMoves w2 →
  historyTable w1 = historyTable w2 →
  posted w1 = posted w2 →
  host w1 = host w2 → ticks w1 = ticks w2 → draws w1 = draws w2 →
  onmessage_search stack data w1 = onmessage_search stack data w2
  ∧ (∀ scores settings,
       fst <$> maybeBlunder scores settings w1
       = fst <$> maybeBlunder scores settings w2
       ∧ fst <$> selectMoveWithSoftmax scores settings w1
         = fst <$> selectMoveWithSoftmax scores settings w2)
  ∧ (∀ scores settings,
       mistakeRate settings = 0%Q →
       (0 <= mathRandom (host w1) (draws w1))%Q →
       maybeBlunder scores settings w1
       = Some (None, setDraws (S (draws w1)) w1)).
Proof.
  intros Htt Hkm Hht Hposted Hhost Hticks Hdraws. split; [|split].
  - unfold onmessage_search.
    unfold bind at 1, modify at 1. symmetry. unfold bind at 1, modify at 1.
    rewrite Htt, Hkm, Hht, Hposted, Hhost, Hticks, Hdraws.
    unfold bind at 1, DateNow at 1. symmetry. unfold bind at 1, DateNow at 1.
    cbn [host ticks]. reflexivity.
  - intros scores settings.
    split; [by apply maybeBlunder_host|by apply selectMoveWithSoftmax_host].
  - intros scores settings. apply maybeBlunder_never.
Qed.

Lemma search_depends_on_caches_witness :
  onmessage_search 3 knightRequest (idleWorker id)
  = onmessage_search 3 knightRequest
      (setNodesSearched 7
         (setForceTimeout true
            (freshWorker matedPosition [getFEN matedPosition] (stillHost id)))).
Proof.
  exact (proj1 (search_depends_on_caches 3 knightRequest (idleWorker id)
                  (setNodesSearched 7
                     (setForceTimeout true
                        (freshWorker matedPosition [getFEN matedPosition]
                           (stillHost id))))
                  eq_refl eq_refl eq_refl eq_refl eq_refl eq_refl eq_refl)).
Defined.

(** ** The position key *)

Lemma append_cons (c : ascii) (s1 s2 : string) :
  String c s1 +:+ s2 = String c (s1 +:+ s2).
Proof. reflexivity. Qed.

Lemma append_empty_l (s : string) : "" +:+ s = s.
Proof. reflexivity. Qed.

Lemma append_assoc (s1 s2 s3 : string) :
  (s1 +:+ s2) +:+ s3 = s1 +:+ (s2 +:+ s3).
Proof.
  induction s1 as [|c s1 IH]; [done|]. by rewrite !append_cons, IH.
Qed.

Lemma append_empty_r (s : string) : s +:+ "" = s.
Proof. induction s as [|c s IH]; [done|]. by rewrite append_cons, IH. Qed.

Lemma avoids_append (sep : ascii) (s1 s2 : string) :
  avoids sep (s1 +:+ s2) = avoids sep s1 && avoids sep s2.
Proof.
  induction s1 as [|c s1 IH]; [done|]. rewrite append_cons. cbn [avoids].
  rewrite IH. by rewrite andb_assoc.
Qed.

Lemma splitOn_avoids (sep : ascii) (s : string) :
  avoids sep s = true → splitOn sep s = [s].
Proof.
  induction s as [|c s IH]; cbn; [done|]. intros [Hc Hs]%andb_prop.
  apply negb_true_iff in Hc. rewrite Hc, (IH Hs). done.
Qed.

Lemma splitOn_append (sep : ascii) (s rest : string) :
  avoids sep s = true →
  splitOn sep (s +:+ String sep rest) = s :: splitOn sep rest.
Proof.
  induction s as [|c s IH]; rewrite ?append_cons, ?append_empty_l; cbn.
  - intros _. by rewrite Ascii.eqb_refl.
  - intros [Hc Hs]%andb_prop. apply negb_true_iff in Hc.
    rewrite Hc, (IH Hs). done.
Qed.

Lemma firstField_append (s rest : string) :
  avoids " " s = true → firstField (s +:+ String " " rest) = s.
Proof.
  induction s as [|c s IH]; rewrite ?append_cons, ?append_empty_l; cbn;
    [done|].
  intros [Hc Hs]%andb_prop.
  apply negb_true_iff in Hc. rewrite Hc, (IH Hs). done.
Qed.

Lemma append_sep_inj (sep : ascii) (s1 s2 r1 r2 : string) :
  avoids sep s1 = true → avoids sep s2 = true →
  s1 +:+ String sep r1 = s2 +:+ String sep r2 → s1 = s2 ∧ r1 = r2.
Proof.
  revert s2. induction s1 as [|c s1 IH]; intros [|c2 s2];
    rewrite ?append_cons, ?append_empty_l; cbn.
  - intros _ _ [= ->]. done.
  - intros _ [Hc _]%andb_prop [= <- _]. by rewrite Ascii.eqb_refl in Hc.
  - intros [Hc _]%andb_prop _ [= -> _]. by rewrite Ascii.eqb_refl in Hc.
  - intros [_ H1]%andb_prop [_ H2]%andb_prop [= -> Heq].
    destruct (IH s2 H1 H2 Heq) as [-> ->]. done.
Qed.

Lemma pieceOfChar_pieceChar (p : Piece) : pieceOfChar (pieceChar p) = Some p.
Proof. by destruct p as [[] []]. Qed.

Lemma pieceChar_not_digit (p : Piece) :
  let code := Z.of_N (N_of_ascii (pieceChar p)) in
  (49 <=? code) && (code <=? 56) = false.
Proof. by destruct p as [[] []]. Qed.

Lemma pieceChar_avoids (p : Piece) :
  Ascii.eqb (pieceChar p) "/" = false ∧ Ascii.eqb (pieceChar p) " " = false.
Proof. by destruct p as [[] []]. Qed.

(** The count of empty squares that [getFEN] writes in a row of at most
    eight squares is one digit. *)
Lemma emptyCount_digit (k : Z) (rest : string) :
  0 ≤ k ≤ 8 →
  ∃ digits,
    (if 0 <? k then pretty k else "") = digits
    ∧ avoids "/" digits = true ∧ avoids " " digits = true
    ∧ ∀ more, parseRow rest = Some more →
              parseRow (digits +:+ rest)
              = Some (replicate (Z.to_nat k) None ++ more).
Proof.
  intros Hk.
  assert (k = 0 ∨ k = 1 ∨ k = 2 ∨ k = 3 ∨ k = 4 ∨ k = 5 ∨ k = 6 ∨ k = 7
          ∨ k = 8) as Hcases by lia.
  repeat (destruct Hcases as [->|Hcases]); try subst k;
    (eexists; split; [vm_compute; reflexivity|]; split; [reflexivity|];
     split; [reflexivity|]; intros more Hmore;
     rewrite ?append_cons, ?append_empty_l; cbn; by rewrite Hmore).
Qed.

Lemma fenCells_parse (cells : list (option Piece)) (k : Z) :
  0 ≤ k → k + Z.of_nat (length cells) ≤ 8 →
  parseRow (fenCells cells k) = Some (replicate (Z.to_nat k) None ++ cells)
  ∧ avoids "/" (fenCells cells k) = true
  ∧ avoids " " (fenCells cells k) = true.
Proof.
  revert k. induction cells as [|[p|] cells IH]; intros k Hk Hlen;
    cbn [fenCells length] in *.
  - destruct (emptyCount_digit k "" ltac:(lia))
      as (digits & -> & Hslash & Hspace & Hparse).
    specialize (Hparse [] eq_refl). by rewrite append_empty_r in Hparse.
  - destruct (IH 0 ltac:(lia) ltac:(lia)) as (Hrest & Hslash0 & Hspace0).
    destruct (emptyCount_digit k (String (pieceChar p) (fenCells cells 0))
                ltac:(lia)) as (digits & -> & Hslash & Hspace & Hparse).
    destruct (pieceChar_avoids p) as [Hp1 Hp2].
    split; [|split].
    + apply Hparse. cbn [parseRow]. rewrite Hrest. cbn [replicate app Z.to_nat].
      pose proof (pieceChar_not_digit p) as Hnd. cbv zeta in Hnd.
      rewrite Hnd, pieceOfChar_pieceChar. done.
    + rewrite avoids_append, Hslash. cbn [avoids andb]. by rewrite Hp1, Hslash0.
    + rewrite avoids_append, Hspace. cbn [avoids andb]. by rewrite Hp2, Hspace0.
  - destruct (IH (k + 1) ltac:(lia) ltac:(lia)) as (Hrest & Hslash & Hspace).
    split; [|done]. rewrite Hrest. f_equal.
    replace (Z.to_nat (k + 1)) with (S (Z.to_nat k)) by lia.
    by rewrite replicate_S_end, <- app_assoc.
Qed.

Lemma rowCells_parse (b : Board) (r : Z) :
  parseRow (fenCells (rowCells b r) 0) = Some (rowCells b r)
  ∧ avoids "/" (fenCells (rowCells b r) 0) = true
  ∧ avoids " " (fenCells (rowCells b r) 0) = true.
Proof.
  apply (fenCells_parse (rowCells b r) 0); [done|].
  unfold rowCells. rewrite length_map, length_seqZ. done.
Qed.

Lemma fenRow_rowCells (b : Board) (r : Z) :
  fenRow b r = fenCells (rowCells b r) 0 +:+ (if r <? 7 then "/" else "").
Proof. reflexivity. Qed.

Lemma fenBoard_rows (b : Board) :
  splitOn "/" (fenBoard b) = map (λ r, fenCells (rowCells b r) 0) (seqZ 0 8)
  ∧ avoids " " (fenBoard b) = true.
Proof.
  unfold fenBoard. change (seqZ 0 8) with [0; 1; 2; 3; 4; 5; 6; 7].
  cbn [foldr map]. rewrite !fenRow_rowCells.
  cbn [Z.ltb Z.compare Pos.compare Pos.compare_cont].
  split.
  - rewrite !append_assoc, !append_cons, !append_empty_l.
    repeat (rewrite splitOn_append by apply rowCells_parse).
    rewrite !append_empty_r. rewrite splitOn_avoids by apply rowCells_parse.
    done.
  - rewrite !avoids_append. cbn [avoids Ascii.eqb Bool.eqb negb andb].
    by rewrite !(proj2 (proj2 (rowCells_parse b _))).
Qed.

Lemma wfBoard_rows (b : Board) :
  wfBoard b → map (rowCells b) (seqZ 0 8) = b.
Proof.
  intros [Hlen Hrows].
  do 9 (destruct b as [|? b]; try discriminate Hlen).
  repeat match goal with
         | H : Forall _ (_ :: _) |- _ =>
             apply Forall_cons in H as [? H]
         end.
  repeat match goal with
         | H : length ?l = 8%nat |- _ =>
             do 9 (destruct l as [|? l]; try discriminate H); clear H
         end.
  reflexivity.
Qed.

Lemma parseFEN_fenOf (b : Board) (turn : Color) (cr : CastlingRights)
    (ep : option Square) :
  wfBoard b → parseFEN (fenOf b turn cr ep) = Some (b, turn).
Proof.
  intros Hwf. unfold parseFEN, fenOf. destruct (fenBoard_rows b) as [Hrows Hsp].
  rewrite !append_cons, !append_empty_l.
  rewrite (splitOn_append " " _ _ Hsp).
  cbn [lookup list_lookup]. rewrite Hrows.
  assert (mapM (λ i, let? r := map (λ r, fenCells (rowCells b r) 0)
                                 (seqZ 0 8) !! i in parseRow r)
               (seq 0 8) = Some (map (rowCells b) (seqZ 0 8))) as ->.
  { apply mapM_Some.
    change (seqZ 0 8) with [0; 1; 2; 3; 4; 5; 6; 7].
    repeat constructor; cbn [map lookup list_lookup];
      apply rowCells_parse. }
  rewrite (wfBoard_rows b Hwf). f_equal. f_equal.
  by destruct turn.
Qed.

Lemma fenBoard_inj (b1 b2 : Board) :
  wfBoard b1 → wfBoard b2 → fenBoard b1 = fenBoard b2 → b1 = b2.
Proof.
  intros Hwf1 Hwf2 Heq.
  pose proof (parseFEN_fenOf b1 white noCastling None Hwf1) as H1.
  pose proof (parseFEN_fenOf b2 white noCastling None Hwf2) as H2.
  unfold fenOf in H1, H2. rewrite Heq, H2 in H1. by injection H1.
Qed.

Lemma fenCastling_avoids (cr : CastlingRights) :
  avoids " " (fenCastling cr) = true.
Proof. by destruct cr as [[[] []] [[] []]]. Qed.

Lemma fenCastling_inj (cr1 cr2 : CastlingRights) :
  fenCastling cr1 = fenCastling cr2 → cr1 = cr2.
Proof.
  destruct cr1 as [[[] []] [[] []]], cr2 as [[[] []] [[] []]];
    vm_compute; congruence.
Qed.

Lemma fenEnPassant_inj (ep1 ep2 : option Square) :
  match ep1 with
  | Some e => isValidSquare (sqRow e) (sqCol e) = true | None => True
  end →
  match ep2 with
  | Some e => isValidSquare (sqRow e) (sqCol e) = true | None => True
  end →
  fenEnPassant ep1 = fenEnPassant ep2 → ep1 = ep2.
Proof.
  assert (∀ c, 0 ≤ c < 8 →
            c = Z.of_N (N_of_ascii (ascii_of_N (Z.to_N (97 + c)))) - 97)
    as Hfile.
  { intros c Hc.
    assert (c = 0 ∨ c = 1 ∨ c = 2 ∨ c = 3 ∨ c = 4 ∨ c = 5 ∨ c = 6 ∨ c = 7)
      as Hcases by lia.
    repeat (destruct Hcases as [->|Hcases]); try subst c; reflexivity. }
  assert (∀ r, 0 ≤ r < 8 → pretty (8 - r) ≠ ""%string) as Hrank.
  { intros r Hr.
    assert (r = 0 ∨ r = 1 ∨ r = 2 ∨ r = 3 ∨ r = 4 ∨ r = 5 ∨ r = 6 ∨ r = 7)
      as Hcases by lia.
    repeat (destruct Hcases as [->|Hcases]); try subst r; discriminate. }
  destruct ep1 as [[r1 c1]|], ep2 as [[r2 c2]|]; cbn [fenEnPassant sqRow sqCol].
  - intros H1%isValidSquare_iff H2%isValidSquare_iff [= Hc Hr].
    apply (inj pretty) in Hr. f_equal. f_equal; [lia|].
    rewrite (Hfile c1), (Hfile c2) by lia. by rewrite Hc.
  - intros H1%isValidSquare_iff _ [= _ Hr]. apply Hrank in Hr; [done|lia].
  - intros _ H2%isValidSquare_iff [= _ Hr]. symmetry in Hr.
    apply Hrank in Hr; [done|lia].
  - done.
Qed.

Lemma getFEN_inj (pos1 pos2 : Position) :
  wfPosition pos1 → wfPosition pos2 → getFEN pos1 = getFEN pos2 →
  board pos1 = board pos2 ∧ currentTurn pos1 = currentTurn pos2
  ∧ castlingRights pos1 = castlingRights pos2
  ∧ enPassantTarget pos1 = enPassantTarget pos2.
Proof.
  intros [Hwf1 Hep1] [Hwf2 Hep2]. unfold getFEN, fenOf.
  rewrite !append_cons, !append_empty_l. intros Heq.
  apply append_sep_inj in Heq as [Hb Heq];
    [|apply fenBoard_rows|apply fenBoard_rows].
  apply append_sep_inj in Heq as [Ht Heq];
    [|by destruct (currentTurn pos1)|by destruct (currentTurn pos2)].
  apply append_sep_inj in Heq as [Hc He];
    [|apply fenCastling_avoids|apply fenCastling_avoids].
  split; [by apply fenBoard_inj|]. split.
  { by destruct (currentTurn pos1), (currentTurn pos2). }
  split; [by apply fenCastling_inj|by apply fenEnPassant_inj].
Qed.

Lemma firstField_getFEN (pos : Position) :
  firstField (getFEN pos) = fenBoard (board pos).
Proof.
  unfold getFEN, fenOf. rewrite !append_cons, !append_empty_l.
  apply firstField_append, fenBoard_rows.
Qed.

Lemma hangingQueenBoard_wf : wfBoard hangingQueenBoard.
Proof. split; [reflexivity|repeat constructor]. Qed.

(** ** Shallow searches against plain minimax *)

Lemma Qle_bool_false (x y : Q) : Qle_bool x y = false → (y < x)%Q.
Proof.
  intros H. apply Qnot_le_lt. intros Hle. apply Qle_bool_iff in Hle.
  congruence.
Qed.

Ltac num_cases :=
  repeat match goal with
         | v : Num |- _ => destruct v
         end;
  cbn in *; unfold ordered in *; try done;
  repeat match goal with
         | H : context [Qle_bool ?x ?y] |- _ =>
             let E := fresh "E" in
             destruct (Qle_bool x y) eqn:E;
             [apply Qle_bool_iff in E|apply Qle_bool_false in E]; cbn in H
         | |- context [Qle_bool ?x ?y] =>
             let E := fresh "E" in
             destruct (Qle_bool x y) eqn:E;
             [apply Qle_bool_iff in E|apply Qle_bool_false in E]; cbn
         end;
  try done; try lra; try (exfalso; lra).

Lemma Num_eq_refl (a : Num) : ordered a → Num_eq a a.
Proof. num_cases. Qed.

Lemma Num_eq_sym (a b : Num) : Num_eq a b → Num_eq b a.
Proof. num_cases. Qed.

Lemma Num_eq_trans (a b c : Num) : Num_eq a b → Num_eq b c → Num_eq a c.
Proof. num_cases. Qed.

Lemma Num_eq_ordered (a b : Num) : Num_eq a b → ordered a ∧ ordered b.
Proof. num_cases. Qed.

Lemma Num_max_ordered (a b : Num) :
  ordered a → ordered b → ordered (Num_max a b).
Proof. num_cases. Qed.

Lemma Num_min_ordered (a b : Num) :
  ordered a → ordered b → ordered (Num_min a b).
Proof. num_cases. Qed.

Lemma Num_max_proper (a a' b : Num) :
  Num_eq a a' → ordered b → Num_eq (Num_max a b) (Num_max a' b).
Proof. num_cases. Qed.

Lemma Num_min_proper (a a' b : Num) :
  Num_eq a a' → ordered b → Num_eq (Num_min a b) (Num_min a' b).
Proof. num_cases. Qed.

Lemma Num_max_swap (a x y : Num) :
  ordered a → ordered x → ordered y →
  Num_eq (Num_max (Num_max a x) y) (Num_max (Num_max a y) x).
Proof. num_cases. Qed.

Lemma Num_min_swap (a x y : Num) :
  ordered a → ordered x → ordered y →
  Num_eq (Num_min (Num_min a x) y) (Num_min (Num_min a y) x).
Proof. num_cases. Qed.

Section Fold.
Context (f : Num → Num → Num).
Hypothesis f_ordered : ∀ a b, ordered a → ordered b → ordered (f a b).
Hypothesis f_proper :
  ∀ a a' b, Num_eq a a' → ordered b → Num_eq (f a b) (f a' b).
Hypothesis f_swap : ∀ a x y,
  ordered a → ordered x → ordered y → Num_eq (f (f a x) y) (f (f a y) x).

Lemma foldl_proper (l : list Num) (a a' : Num) :
  Num_eq a a' → Forall ordered l → Num_eq (foldl f a l) (foldl f a' l).
Proof.
  intros Ha Hl. revert a a' Ha.
  induction Hl as [|x l Hx _ IH]; intros a a' Ha; [done|].
  cbn. apply IH. by apply f_proper.
Qed.

Lemma foldl_permutation (l l' : list Num) (a : Num) :
  l ≡ₚ l' → ordered a → Forall ordered l →
  Num_eq (foldl f a l) (foldl f a l').
Proof.
  intros Hperm. revert a.
  induction Hperm as [|x l l' Hperm IH|x y l|l l' l'' H1 IH1 H2 IH2];
    intros a Ha Hl.
  - by apply Num_eq_refl.
  - apply Forall_cons in Hl as [Hx Hl]. cbn. apply IH; [|done].
    by apply f_ordered.
  - apply Forall_cons in Hl as [Hy Hl]. apply Forall_cons in Hl as [Hx Hl].
    cbn. apply foldl_proper; [|done]. by apply f_swap.
  - eapply Num_eq_trans; [by apply IH1|]. apply IH2; [done|].
    by rewrite <- H1.
Qed.
End Fold.

Lemma insertSorted_permutation {A : Type} (positive : A → A → bool) (x : A)
    (l : list A) :
  insertSorted positive x l ≡ₚ x :: l.
Proof.
  induction l as [|y l IH]; cbn; [done|].
  destruct (positive x y); [|done]. rewrite IH. apply perm_swap.
Qed.

Lemma sortBy_permutation {A : Type} (positive : A → A → bool) (l : list A) :
  sortBy positive l ≡ₚ l.
Proof.
  induction l as [|x l IH]; cbn; [done|].
  unfold sortBy in IH. by rewrite insertSorted_permutation, IH.
Qed.

Lemma scoreMoves_fst (w : Worker) (best : option Move) (d : Z)
    (moves : list Move) (scored : list (Move * Q)) :
  scoreMoves w best d moves = Some scored → map fst scored = moves.
Proof.
  revert scored. induction moves as [|mv ms IH]; intros scored; cbn.
  { by intros [= <-]. }
  destruct (orderScore w best d mv) as [s|]; [|done].
  destruct (scoreMoves w best d ms) as [more|]; [|done].
  intros [= <-]. cbn. by rewrite (IH more).
Qed.

Lemma orderMoves_permutation (w : Worker) (best : option Move) (d : Z)
    (moves ordered' : list Move) :
  orderMoves moves best d w = Some ordered' → ordered' ≡ₚ moves.
Proof.
  unfold orderMoves.
  destruct (scoreMoves w best d moves) as [scored|] eqn:E; [|done].
  intros [= <-]. rewrite sortBy_permutation. by rewrite (scoreMoves_fst _ _ _ _ _ E).
Qed.

Lemma getAllValidMovesOn_fromOccupied (stack : nat) (color : Color)
    (sqs : list (Z * Z)) (pos pos' : Position) (moves : list Move) :
  wfBoard (board pos) →
  getAllValidMovesOn stack color sqs pos = Some (moves, pos') →
  Forall (fromOccupied (board pos)) moves.
Proof.
  intros Hwf. revert moves pos'.
  induction sqs as [|[r c] rest IH]; intros moves pos' H; cbn in H.
  { injection H as <- _. constructor. }
  apply bind_Some in H as (here & s2 & H2 & H).
  apply bind_Some in H as (more & s3 & H3 & H).
  unfold ret in H. injection H as <- _.
  assert (s2 = pos ∧ Forall (fromOccupied (board pos)) here) as [-> Hhere].
  { unfold ret in H2.
    destruct (cell (board pos) r c) as [p|] eqn:Hc;
      [|injection H2 as <- <-; by split].
    destruct (Color_eqb _ color); [|injection H2 as <- <-; by split].
    apply bind_Some in H2 as (pieceMoves & s & Hp & H2).
    injection H2 as <- <-.
    apply getValidMovesForPiece_restores in Hp as ->; [|done].
    split; [done|]. apply Forall_forall. intros mv Hmv.
    apply list_elem_of_fmap in Hmv as (sq & -> & _).
    unfold fromOccupied. cbn. by rewrite Hc. }
  apply Forall_app. split; [done|]. by eapply IH.
Qed.

Lemma getAllValidMoves_fromOccupied (stack : nat) (color : Color)
    (pos pos' : Position) (moves : list Move) :
  wfBoard (board pos) →
  getAllValidMoves stack color pos = Some (moves, pos') →
  Forall (fromOccupied (board pos)) moves.
Proof. apply getAllValidMovesOn_fromOccupied. Qed.

Lemma evaluatePosition_Fin (stack : nat) (settings : Settings)
    (pos pos' : Position) (v : Num) :
  evaluatePosition stack settings pos = Some (v, pos') → ∃ q, v = Fin q.
Proof.
  unfold evaluatePosition. intros H.
  repeat (apply bind_Some in H as (? & ? & _ & H)).
  unfold ret in H. injection H as <- _. by eexists.
Qed.

Lemma minimax_leaf (stack : nat) (isMaximizing : bool) (settings : Settings)
    (w : Worker) :
  minimax stack 0 isMaximizing settings w
  = leafValue stack settings (positionHistory w) (position w).
Proof. reflexivity. Qed.

Lemma leafValue_Fin (stack : nat) (settings : Settings)
    (history : list string) (pos : Position) (v : Num) :
  leafValue stack settings history pos = Some v → ∃ q, v = Fin q.
Proof.
  unfold leafValue. destruct (2 <=? _); [intros [= <-]; by eexists|].
  destruct (evaluatePosition stack settings pos) as [[x pos']|] eqn:E; [|done].
  intros [= <-]. by eapply evaluatePosition_Fin.
Qed.

(** One turn of a move loop: the make step, the search of the position
    made, the unmake step, and the rest of the loop in the position the
    loop was entered with. *)
Lemma bracket_run {A B : Type} (mv : Move) (body : M A)
    (k : option Piece → option Piece → A → M B) (w w' : Worker) (a : A) :
  body (setPosition (afterSearchMove (position w) mv) w) = Some (a, w') →
  position w' = afterSearchMove (position w) mv →
  (let* (piece, captured) := onPosition (makeSearchMove mv) in
   let* x := body in
   onPosition (unmakeSearchMove mv piece captured) ;; k piece captured x) w
  = k (cell (board (position w)) (fromRow mv) (fromCol mv))
      (cell (board (position w)) (toRow mv) (toCol mv)) a
      (setPosition (position w) w').
Proof.
  intros Hbody Hpos.
  set (piece := cell (board (position w)) (fromRow mv) (fromCol mv)).
  set (captured := cell (board (position w)) (toRow mv) (toCol mv)).
  assert (onPosition (makeSearchMove mv) w
          = Some ((piece, captured),
                  setPosition (afterSearchMove (position w) mv) w))
    as Hmake by reflexivity.
  assert (onPosition (unmakeSearchMove mv piece captured) w'
          = Some (tt, setPosition (position w) w')) as Hunmake.
  { unfold onPosition, unmakeSearchMove, bind, writeCell, modify.
    rewrite Hpos. cbn. do 3 f_equal.
    destruct (position w) as [b0 ai turn cr ep]. unfold setBoard. cbn.
    f_equal. apply make_unmake_board. }
  rewrite (bind_run _ _ _ _ _ Hmake). cbv beta iota.
  rewrite (bind_run _ _ _ _ _ Hbody). by rewrite (bind_run _ _ _ _ _ Hunmake).
Qed.

Lemma wfBoard_movedBoard (b : Board) (mv : Move) :
  wfBoard b → wfBoard (movedBoard b mv).
Proof. intros Hwf. by repeat apply wfBoard_setCell. Qed.

Lemma afterSearchMove_setBoard (root : Position) (b : Board) (mv : Move) :
  afterSearchMove (setBoard b root) mv = setBoard (movedBoard b mv) root.
Proof. reflexivity. Qed.

Lemma afterSearchMove_movedBoard (root : Position) (mv : Move) :
  afterSearchMove root mv = setBoard (movedBoard (board root) mv) root.
Proof. reflexivity. Qed.

Lemma getFEN_setBoard_inj (root : Position) (b1 b2 : Board) :
  wfBoard b1 → wfBoard b2 →
  getFEN (setBoard b1 root) = getFEN (setBoard b2 root) → b1 = b2.
Proof.
  intros H1 H2. unfold getFEN, fenOf. cbn [board setBoard].
  rewrite !append_cons, !append_empty_l. intros Heq.
  apply append_sep_inj in Heq as [Hb _];
    [|apply fenBoard_rows|apply fenBoard_rows].
  by apply fenBoard_inj.
Qed.

Section Search.
Context (stack : nat) (settings : Settings) (deadline : Z).
Context (root : Position) (history : list string) (h : Host).
Context (inv : gmap string TTEntry → Prop).
Hypothesis clock : ∀ t, dateNow h t < deadline.
Hypothesis noQuiescence : useQuiescence settings = false.

Lemma timedOut_run (b : Board) (n : Z) (w : Worker) :
  searching root history h inv b n w → n ≤ maxNodes settings →
  ∃ w', timedOut settings deadline w = Some (false, w')
        ∧ searching root history h inv b n w'.
Proof.
  intros (Hpos & Hhist & Hft & Hhost & Hn & Htt) Hbudget.
  exists (setTicks (S (ticks w)) w). split; [|done].
  unfold timedOut, bind, reads, DateNow, ret. rewrite Hft, Hhost.
  destruct (deadline <=? _) eqn:E1;
    [apply Z.leb_le in E1; pose proof (clock (ticks w)); lia|].
  cbn [nodesSearched setTicks].
  destruct (maxNodes settings <? _) eqn:E2; [apply Z.ltb_lt in E2; lia|done].
Qed.

Lemma searching_setPosition (b b' : Board) (n : Z) (w : Worker) :
  searching root history h inv b n w →
  searching root history h inv b' n (setPosition (setBoard b' root) w).
Proof. intros (Hpos & Hhist & Hft & Hhost & Hn & Htt). by repeat split. Qed.

Lemma searching_budget (b : Board) (n n' : Z) (w : Worker) :
  searching root history h inv b n w → n ≤ n' →
  searching root history h inv b n' w.
Proof.
  intros (Hpos & Hhist & Hft & Hhost & Hn & Htt) Hle.
  repeat split; try done. lia.
Qed.

(** A leaf on the board [b], when an entry of the table under the key of
    [b] can only be the static evaluation of [b], and the table with that
    evaluation stored satisfies the invariant. *)
Lemma leaf_run (b : Board) (n : Z) (w : Worker) (alpha beta : Num)
    (isMaximizing : bool) (searchDepth : Z) (v : Num) :
  wfBoard b → searching root history h inv b n w →
  n + 1 ≤ maxNodes settings →
  leafValue stack settings history (setBoard b root) = Some v →
  (∀ table e, inv table → table !! getFEN (setBoard b root) = Some e →
     fst <$> evaluatePosition stack settings (setBoard b root)
     = Some (ttScore e)) →
  (∀ table s pos', inv table →
     evaluatePosition stack settings (setBoard b root) = Some (s, pos') →
     inv (<[getFEN (setBoard b root) := mkEntry s 0 None]> table)) →
  ∃ w', alphaBetaSearch stack 0 alpha beta isMaximizing settings deadline
          searchDepth w = Some (v, w')
        ∧ searching root history h inv b (n + 1) w'.
Proof.
  intros Hwf Hs Hbudget Hleaf Hsound Hstore.
  set (w1 := setNodesSearched (nodesSearched w + 1) w).
  assert (searching root history h inv b (n + 1) w1) as Hs1.
  { destruct Hs as (Hpos & Hhist & Hft & Hhost & Hn & Htt).
    repeat split; try done. cbn. lia. }
  destruct (timedOut_run b (n + 1) w1 Hs1 Hbudget) as (w2 & Htime & Hs2).
  destruct Hs2 as (Hpos & Hhist & Hft & Hhost & Hn & Htt).
  unfold alphaBetaSearch.
  rewrite (bind_run _ _ _ _ _
             (eq_refl : modify (λ w, setNodesSearched (nodesSearched w + 1) w)
                          w = Some (tt, w1))).
  rewrite (bind_run _ _ _ _ _ Htime). cbv beta iota.
  unfold bind at 1, reads at 1.
  unfold leafValue in Hleaf. unfold countRepetitions. rewrite Hpos, Hhist.
  destruct (2 <=? _) eqn:Hrep.
  { injection Hleaf as <-. exists w2. done. }
  unfold bind at 1, reads at 1. unfold bind at 1, reads at 1. rewrite Hpos.
  destruct (transpositionTable w2 !! getFEN (setBoard b root)) as [e|] eqn:Hkey.
  - cbn [ttHit]. replace (0 <=? ttDepth e)%nat with true
      by (symmetry; apply Nat.leb_le; lia).
    rewrite (Hsound _ e Htt Hkey) in Hleaf. injection Hleaf as <-.
    exists w2. done.
  - cbn [ttHit]. rewrite noQuiescence.
    destruct (evaluatePosition stack settings (setBoard b root))
      as [[s pos']|] eqn:Heval; [|done].
    injection Hleaf as <-.
    assert (pos' = setBoard b root) as ->
      by (by apply (evaluatePosition_restores stack settings
                      (setBoard b root) s pos' Hwf Heval)).
    assert (onPosition (evaluatePosition stack settings) w2
            = Some (s, w2)) as Hon.
    { unfold onPosition. rewrite Hpos, Heval.
      by rewrite <- Hpos, setPosition_position. }
    rewrite (bind_run _ _ _ _ _ Hon).
    eexists. split; [reflexivity|].
    repeat split; try done. cbn. by eapply Hstore.
Qed.

(** One turn of a move loop over leaves: the leaf is searched on the board
    made and the loop goes on on the board [b]. *)
Lemma child_run (b : Board) (mv : Move) (v : Num) (n : Z) (w : Worker)
    (isMaximizing : bool) (searchDepth : Z) (alpha beta : Num) :
  wfBoard b → searching root history h inv b n w →
  n + 1 ≤ maxNodes settings →
  leafValue stack settings history (setBoard (movedBoard b mv) root)
  = Some v →
  (∀ table e, inv table →
     table !! getFEN (setBoard (movedBoard b mv) root) = Some e →
     fst <$> evaluatePosition stack settings (setBoard (movedBoard b mv) root)
     = Some (ttScore e)) →
  (∀ table s pos', inv table →
     evaluatePosition stack settings (setBoard (movedBoard b mv) root)
     = Some (s, pos') →
     inv (<[getFEN (setBoard (movedBoard b mv) root) := mkEntry s 0 None]>
            table)) →
  ∃ w',
    alphaBetaSearch stack 0 alpha beta isMaximizing settings deadline
      searchDepth (setPosition (afterSearchMove (position w) mv) w)
    = Some (v, w')
    ∧ position w' = afterSearchMove (position w) mv
    ∧ searching root history h inv b (n + 1) (setPosition (position w) w').
Proof.
  intros Hwf Hs Hbudget Hleaf Hsound Hstore.
  assert (position w = setBoard b root) as Hpos by apply Hs.
  rewrite Hpos, afterSearchMove_setBoard.
  destruct (leaf_run (movedBoard b mv) n
              (setPosition (setBoard (movedBoard b mv) root) w) alpha beta
              isMaximizing searchDepth v (wfBoard_movedBoard b mv Hwf)
              (searching_setPosition _ _ _ _ Hs) Hbudget Hleaf Hsound Hstore)
    as (w' & Hrun & Hs').
  exists w'. split; [done|]. split; [apply Hs'|].
  by apply (searching_setPosition (movedBoard b mv)).
Qed.
End Search.

Lemma ttSound_empty (stack : nat) (settings : Settings) (root : Position) :
  ttSound stack settings root ∅.
Proof. intros b e _ H. by rewrite lookup_empty in H. Qed.

Lemma ttSound_lookup (stack : nat) (settings : Settings) (root : Position)
    (b : Board) (table : gmap string TTEntry) (e : TTEntry) :
  wfBoard b → ttSound stack settings root table →
  table !! getFEN (setBoard b root) = Some e →
  fst <$> evaluatePosition stack settings (setBoard b root)
  = Some (ttScore e).
Proof. intros Hwf Htt. by apply Htt. Qed.

Lemma ttSound_insert (stack : nat) (settings : Settings) (root : Position)
    (b : Board) (table : gmap string TTEntry) (s : Num) (pos' : Position) :
  wfBoard b → ttSound stack settings root table →
  evaluatePosition stack settings (setBoard b root) = Some (s, pos') →
  ttSound stack settings root
    (<[getFEN (setBoard b root) := mkEntry s 0 None]> table).
Proof.
  intros Hwf Htt Heval b' e' Hwf' Hlook.
  destruct (decide (getFEN (setBoard b' root) = getFEN (setBoard b root)))
    as [Heq|Hne].
  - rewrite Heq, lookup_insert_eq in Hlook. injection Hlook as <-.
    apply getFEN_setBoard_inj in Heq as ->; [|done..]. by rewrite Heval.
  - rewrite lookup_insert_ne in Hlook by done. by apply Htt.
Qed.

(** ** Depth 1 *)

Section Shallow.
Context (stack : nat) (settings : Settings) (deadline : Z).
Context (root : Position) (history : list string) (h : Host).
Hypothesis clock : ∀ t, dateNow h t < deadline.
Hypothesis noQuiescence : useQuiescence settings = false.
Hypothesis root_wf : wfBoard (board root).

Lemma maxLoop_run (searchDepth : Z) (ms : list Move) (vals : list Num)
    (n : Z) (w : Worker) (maxEval : Num) (best : option Move) :
  Forall2 (λ m v, leafValue stack settings history (afterSearchMove root m)
                  = Some v) ms vals →
  searching root history h (ttSound stack settings root) (board root) n w →
  n + Z.of_nat (length ms) ≤ maxNodes settings →
  maxEval = NegInf ∨ (∃ q, maxEval = Fin q) →
  ∃ best' w',
    maxLoop (λ a b, alphaBetaSearch stack 0 a b false settings deadline
                      (searchDepth + 1))
      settings deadline 1 searchDepth ms maxEval PosInf maxEval best w
    = Some ((foldl Num_max maxEval vals, best'), w')
    ∧ searching root history h (ttSound stack settings root) (board root)
        (n + Z.of_nat (length ms)) w'.
Proof.
  intros Hvals. revert n w maxEval best.
  induction Hvals as [|mv v ms vals Hv _ IH]; intros n w maxEval best Hs Hn Hmax.
  { exists best, w. split; [done|]. by rewrite Z.add_0_r. }
  cbn [length] in Hn. cbn [maxLoop foldl].
  destruct (timedOut_run settings deadline root history h _ clock _ n w Hs
              ltac:(lia)) as (w1 & Htime & Hs1).
  rewrite (bind_run _ _ _ _ _ Htime). cbv beta iota.
  rewrite afterSearchMove_movedBoard in Hv.
  destruct (child_run stack settings deadline root history h _ clock
              noQuiescence (board root) mv v n w1 false (searchDepth + 1)
              maxEval PosInf root_wf Hs1 ltac:(lia) Hv)
    as (w2 & Hrun & Hpos & Hs2).
  { intros table e Htt.
    by apply ttSound_lookup; [apply wfBoard_movedBoard|]. }
  { intros table s pos' Htt.
    by apply ttSound_insert; [apply wfBoard_movedBoard|]. }
  rewrite (bracket_run mv _ _ w1 w2 v Hrun Hpos). cbv zeta.
  destruct (leafValue_Fin _ _ _ _ _ Hv) as [q ->].
  assert (Num_leb PosInf (Num_max maxEval (Fin q)) = false) as ->.
  { destruct Hmax as [->|[q' ->]]; cbn; [done|]. by destruct (negb _). }
  assert ((if Num_gtb (Fin q) maxEval then Fin q else maxEval)
          = Num_max maxEval (Fin q)) as ->
    by (by destruct Hmax as [->|[q' ->]]).
  destruct (IH (n + 1) (setPosition (position w1) w2)
              (Num_max maxEval (Fin q))
              (if Num_gtb (Fin q) maxEval then Some mv else best) Hs2
              ltac:(lia))
    as (best' & w' & Hloop & Hs').
  { right. destruct Hmax as [->|[q' ->]]; cbn; [by eexists|].
    destruct (negb _); by eexists. }
  exists best', w'. split; [exact Hloop|].
  replace (n + Z.of_nat (length (mv :: ms)))
    with (n + 1 + Z.of_nat (length ms)) by (cbn [length]; lia).
  exact Hs'.
Qed.

Lemma minLoop_run (searchDepth : Z) (ms : list Move) (vals : list Num)
    (n : Z) (w : Worker) (minEval : Num) (best : option Move) :
  Forall2 (λ m v, leafValue stack settings history (afterSearchMove root m)
                  = Some v) ms vals →
  searching root history h (ttSound stack settings root) (board root) n w →
  n + Z.of_nat (length ms) ≤ maxNodes settings →
  minEval = PosInf ∨ (∃ q, minEval = Fin q) →
  ∃ best' w',
    minLoop (λ a b, alphaBetaSearch stack 0 a b true settings deadline
                      (searchDepth + 1))
      settings deadline 1 searchDepth ms NegInf minEval minEval best w
    = Some ((foldl Num_min minEval vals, best'), w')
    ∧ searching root history h (ttSound stack settings root) (board root)
        (n + Z.of_nat (length ms)) w'.
Proof.
  intros Hvals. revert n w minEval best.
  induction Hvals as [|mv v ms vals Hv _ IH]; intros n w minEval best Hs Hn Hmin.
  { exists best, w. split; [done|]. by rewrite Z.add_0_r. }
  cbn [length] in Hn. cbn [minLoop foldl].
  destruct (timedOut_run settings deadline root history h _ clock _ n w Hs
              ltac:(lia)) as (w1 & Htime & Hs1).
  rewrite (bind_run _ _ _ _ _ Htime). cbv beta iota.
  rewrite afterSearchMove_movedBoard in Hv.
  destruct (child_run stack settings deadline root history h _ clock
              noQuiescence (board root) mv v n w1 true (searchDepth + 1)
              NegInf minEval root_wf Hs1 ltac:(lia) Hv)
    as (w2 & Hrun & Hpos & Hs2).
  { intros table e Htt.
    by apply ttSound_lookup; [apply wfBoard_movedBoard|]. }
  { intros table s pos' Htt.
    by apply ttSound_insert; [apply wfBoard_movedBoard|]. }
  rewrite (bracket_run mv _ _ w1 w2 v Hrun Hpos). cbv zeta.
  destruct (leafValue_Fin _ _ _ _ _ Hv) as [q ->].
  assert (Num_leb (Num_min minEval (Fin q)) NegInf = false) as ->.
  { destruct Hmin as [->|[q' ->]]; cbn; [done|]. by destruct (negb _). }
  assert ((if Num_ltb (Fin q) minEval then Fin q else minEval)
          = Num_min minEval (Fin q)) as ->
    by (by destruct Hmin as [->|[q' ->]]).
  destruct (IH (n + 1) (setPosition (position w1) w2)
              (Num_min minEval (Fin q))
              (if Num_ltb (Fin q) minEval then Some mv else best) Hs2
              ltac:(lia))
    as (best' & w' & Hloop & Hs').
  { right. destruct Hmin as [->|[q' ->]]; cbn; [by eexists|].
    destruct (negb _); by eexists. }
  exists best', w'. split; [exact Hloop|].
  replace (n + Z.of_nat (length (mv :: ms)))
    with (n + 1 + Z.of_nat (length ms)) by (cbn [length]; lia).
  exact Hs'.
Qed.
End Shallow.

(** ** The children of a minimax node *)

Lemma minimaxChildren_Forall2 (child : Move → option Num) (moves : list Move)
    (values : list Num) :
  minimaxChildren child moves = Some values →
  Forall2 (λ m v, child m = Some v) moves values.
Proof.
  revert values. induction moves as [|m ms IH]; intros values; cbn.
  { intros [= <-]. constructor. }
  destruct (child m) as [v|] eqn:Hm; [|done].
  destruct (minimaxChildren child ms) as [vs|]; [|done].
  intros [= <-]. constructor; [done|]. by apply IH.
Qed.

Lemma minimaxChildren_permutation (child : Move → option Num)
    (moves moves' : list Move) (values : list Num) :
  moves ≡ₚ moves' → minimaxChildren child moves = Some values →
  ∃ values', minimaxChildren child moves' = Some values' ∧ values ≡ₚ values'.
Proof.
  intros Hperm. revert values.
  induction Hperm as [|x l l' Hperm IH|x y l|l l' l'' H1 IH1 H2 IH2];
    intros values; cbn.
  - intros [= <-]. by exists [].
  - destruct (child x) as [v|]; [|done].
    destruct (minimaxChildren child l) as [vs|]; [|done]. intros [= <-].
    destruct (IH vs eq_refl) as (vs' & -> & Hvs). exists (v :: vs').
    split; [done|]. by constructor.
  - destruct (child y) as [vy|]; [|done]. destruct (child x) as [vx|]; [|done].
    destruct (minimaxChildren child l) as [vs|]; [|done]. intros [= <-].
    exists (vx :: vy :: vs). split; [done|]. apply perm_swap.
  - intros H. destruct (IH1 values H) as (vs1 & Hvs1 & Hp1).
    destruct (IH2 vs1 Hvs1) as (vs2 & Hvs2 & Hp2).
    exists vs2. split; [done|]. by etransitivity.
Qed.

Lemma timedOut_false (settings : Settings) (deadline : Z) (w : Worker) :
  forceTimeout w = false → dateNow (host w) (ticks w) < deadline →
  nodesSearched w ≤ maxNodes settings →
  timedOut settings deadline w = Some (false, setTicks (S (ticks w)) w).
Proof.
  intros Hft Hclock Hn. unfold timedOut, bind, reads, DateNow, ret.
  rewrite Hft.
  destruct (deadline <=? _) eqn:E1; [apply Z.leb_le in E1; lia|].
  cbn [nodesSearched setTicks].
  destruct (maxNodes settings <? _) eqn:E2; [apply Z.ltb_lt in E2; lia|done].
Qed.

(** [minimax] at depth 1, written out. *)
Lemma minimax_one (stack : nat) (isMaximizing : bool) (settings : Settings)
    (w : Worker) :
  minimax stack 1 isMaximizing settings w
  = if 2 <=? countRepetitions w then Some (ofZ 0)
    else
      let color := if isMaximizing then aiColor (position w)
                   else opposite (aiColor (position w)) in
      let? (moves, _) := getAllValidMoves stack color (position w) in
      match moves with
      | [] =>
          let? inCheck := isInCheck stack (position w) color in
          Some (if inCheck
                then (if isMaximizing then ofZ (-999999) else ofZ 999999)
                else ofZ 0)
      | _ =>
          let? values :=
            minimaxChildren
              (λ m, leafValue stack settings (positionHistory w)
                      (afterSearchMove (position w) m))
              moves in
          Some (if isMaximizing then foldl Num_max NegInf values
                else foldl Num_min PosInf values)
      end.
Proof. reflexivity. Qed.

(** [alphaBetaSearch] at a depth of at least 1, written out. *)
Lemma alphaBetaSearch_inner (stack depth' : nat) (alpha beta : Num)
    (isMaximizing : bool) (settings : Settings) (deadline searchDepth : Z) :
  alphaBetaSearch stack (S depth') alpha beta isMaximizing settings deadline
    searchDepth
  = (modify (λ w, setNodesSearched (nodesSearched w + 1) w) ;;
     let* stop := timedOut settings deadline in
     if stop then onPosition (quickEval settings)
     else
       let* repetitions := reads countRepetitions in
       if 2 <=? repetitions then ret (ofZ 0)
       else
         let* boardKey := reads (λ w, getFEN (position w)) in
         let* ttEntry := reads (λ w, transpositionTable w !! boardKey) in
         match ttHit ttEntry (S depth') with
         | Some s => ret s
         | None =>
             let* ai := reads (λ w, aiColor (position w)) in
             let color := if isMaximizing then ai else opposite ai in
             let* moves := onPosition (getAllValidMoves stack color) in
             match moves with
             | [] =>
                 let* inCheck :=
                   readsE (λ w, isInCheck stack (position w) color) in
                 let s :=
                   if inCheck
                   then (if isMaximizing then ofZ (-999999) else ofZ 999999)
                   else ofZ 0 in
                 ttSet boardKey (mkEntry s (S depth') None) ;;
                 ret s
             | _ =>
                 let* orderedMoves :=
                   readsE (orderMoves moves (ttEntry ≫= ttBestMove)
                             searchDepth) in
                 if isMaximizing then
                   let* (maxEval, bestMoveAtDepth) :=
                     maxLoop
                       (λ a b, alphaBetaSearch stack depth' a b false
                                 settings deadline (searchDepth + 1))
                       settings deadline (S depth') searchDepth orderedMoves
                       alpha beta NegInf None in
                   ttSet boardKey (mkEntry maxEval (S depth') bestMoveAtDepth) ;;
                   ret maxEval
                 else
                   let* (minEval, bestMoveAtDepth) :=
                     minLoop
                       (λ a b, alphaBetaSearch stack depth' a b true
                                 settings deadline (searchDepth + 1))
                       settings deadline (S depth') searchDepth orderedMoves
                       alpha beta PosInf None in
                   ttSet boardKey (mkEntry minEval (S depth') bestMoveAtDepth) ;;
                   ret minEval
             end
         end).
Proof. reflexivity. Qed.


(** ** Depth 2 *)

Lemma sideLoop_nil (side : bool) (stack depth' : nat) (settings : Settings)
    (deadline searchDepth : Z) (own other value : Num)
    (best : option Move) :
  sideLoop side stack depth' settings deadline searchDepth [] own other value
    best
  = ret (value, best).
Proof. by destruct side. Qed.

Lemma sideLoop_cons (side : bool) (stack depth' : nat) (settings : Settings)
    (deadline searchDepth : Z) (move : Move) (rest : list Move)
    (own other value : Num) (best : option Move) :
  sideLoop side stack depth' settings deadline searchDepth (move :: rest) own
    other value best
  = (let* stop := timedOut settings deadline in
     if stop then ret (value, best)
     else
       let* (piece, captured) := onPosition (makeSearchMove move) in
       let* evaluation :=
         searchAs (negb side) stack depth' other own settings deadline
           (searchDepth + 1) in
       onPosition (unmakeSearchMove move piece captured) ;;
       let better := betterThan side evaluation value in
       let value' := if better then evaluation else value in
       let best' := if better then Some move else best in
       let own' := pick side own evaluation in
       if cutsOff side own' other then
         (if occupied captured then ret tt
          else storeKillerMove move searchDepth) ;;
         updateHistory move (S depth') ;;
         ret (value', best')
       else
         sideLoop side stack depth' settings deadline searchDepth rest own'
           other value' best').
Proof. by destruct side. Qed.

Lemma searchAs_inner (side : bool) (stack depth' : nat) (own other : Num)
    (settings : Settings) (deadline searchDepth : Z) :
  searchAs side stack (S depth') own other settings deadline searchDepth
  = (modify (λ w, setNodesSearched (nodesSearched w + 1) w) ;;
     let* stop := timedOut settings deadline in
     if stop then onPosition (quickEval settings)
     else
       let* repetitions := reads countRepetitions in
       if 2 <=? repetitions then ret (ofZ 0)
       else
         let* boardKey := reads (λ w, getFEN (position w)) in
         let* ttEntry := reads (λ w, transpositionTable w !! boardKey) in
         match ttHit ttEntry (S depth') with
         | Some s => ret s
         | None =>
             let* ai := reads (λ w, aiColor (position w)) in
             let color := if side then ai else opposite ai in
             let* moves := onPosition (getAllValidMoves stack color) in
             match moves with
             | [] =>
                 let* inCheck :=
                   readsE (λ w, isInCheck stack (position w) color) in
                 let s :=
                   if inCheck
                   then (if side then ofZ (-999999) else ofZ 999999)
                   else ofZ 0 in
                 ttSet boardKey (mkEntry s (S depth') None) ;;
                 ret s
             | _ =>
                 let* orderedMoves :=
                   readsE (orderMoves moves (ttEntry ≫= ttBestMove)
                             searchDepth) in
                 let* (value, bestMoveAtDepth) :=
                   sideLoop side stack depth' settings deadline searchDepth
                     orderedMoves own other (worst side) None in
                 ttSet boardKey (mkEntry value (S depth') bestMoveAtDepth) ;;
                 ret value
             end
         end).
Proof. by destruct side. Qed.

Ltac side_cases :=
  repeat match goal with
         | H : running _ _ |- _ => destruct H as [->|[? ->]]
         | H : ∃ q : Q, _ = Fin q |- _ => destruct H as [? ->]
         end;
  repeat match goal with
         | side : bool |- _ => destruct side
         end;
  unfold noBetter, pick, worst, cutsOff, betterThan, running in *;
  num_cases; eauto.

Lemma step_value (side : bool) (value e : Num) :
  running side value → (∃ q, e = Fin q) →
  (if betterThan side e value then e else value) = pick side value e.
Proof. intros H1 H2. side_cases. Qed.

Lemma running_pick (side : bool) (value e : Num) :
  running side value → (∃ q, e = Fin q) → ∃ q, pick side value e = Fin q.
Proof. intros H1 H2. side_cases. Qed.

Lemma cutsOff_full_window (side : bool) (own e : Num) :
  running side own → (∃ q, e = Fin q) →
  cutsOff side (pick side own e) (worst (negb side)) = false.
Proof. intros H1 H2. side_cases. Qed.

Lemma cutsOff_noBetter (side : bool) (own other : Num) :
  cutsOff side own other = true → noBetter side other own.
Proof. by destruct side. Qed.

Lemma noBetter_flip (side : bool) (a b : Num) :
  noBetter (negb side) a b ↔ noBetter side b a.
Proof. by destruct side. Qed.

Lemma noBetter_trans (side : bool) (a b c : Num) :
  noBetter side a b → noBetter side b c → noBetter side a c.
Proof. intros H1 H2. side_cases. Qed.

Lemma noBetter_pick_l (side : bool) (a b : Num) :
  ordered a → ordered b → noBetter side a (pick side a b).
Proof. intros H1 H2. side_cases. Qed.

Lemma noBetter_pick_r (side : bool) (a b : Num) :
  ordered a → ordered b → noBetter side b (pick side a b).
Proof. intros H1 H2. side_cases. Qed.

Lemma noBetter_proper (side : bool) (a a' b : Num) :
  Num_eq a a' → noBetter side a b → noBetter side a' b.
Proof. intros H1 H2. side_cases. Qed.

Lemma pick_proper_r (side : bool) (a b b' : Num) :
  ordered a → Num_eq b b' → Num_eq (pick side a b) (pick side a b').
Proof. intros H1 H2. side_cases. Qed.

Lemma pick_proper_l (side : bool) (a a' b : Num) :
  Num_eq a a' → ordered b → Num_eq (pick side a b) (pick side a' b).
Proof. intros H1 H2. side_cases. Qed.

Lemma pick_swap (side : bool) (a x y : Num) :
  ordered a → ordered x → ordered y →
  Num_eq (pick side (pick side a x) y) (pick side (pick side a y) x).
Proof. intros H1 H2 H3. side_cases. Qed.

Lemma pick_ordered (side : bool) (a b : Num) :
  ordered a → ordered b → ordered (pick side a b).
Proof. intros H1 H2. side_cases. Qed.

Lemma pick_absorbs (side : bool) (bound v : Num) :
  ordered bound → noBetter side v bound → Num_eq (pick side bound v) bound.
Proof. intros H1 H2. side_cases. Qed.

Lemma running_ordered (side : bool) (v : Num) : running side v → ordered v.
Proof. intros H. side_cases. Qed.

Lemma Fin_ordered (v : Num) : (∃ q, v = Fin q) → ordered v.
Proof. intros [q ->]. done. Qed.

Lemma foldl_pick_ordered (side : bool) (l : list Num) (a : Num) :
  ordered a → Forall ordered l → ordered (foldl (pick side) a l).
Proof.
  intros Ha Hl. revert a Ha. induction Hl as [|x l Hx _ IH]; intros a Ha;
    [done|].
  cbn. apply IH. by apply pick_ordered.
Qed.

Lemma foldl_pick_noBetter (side : bool) (l : list Num) (a : Num) :
  ordered a → Forall ordered l → noBetter side a (foldl (pick side) a l).
Proof.
  intros Ha Hl. revert a Ha. induction Hl as [|x l Hx _ IH]; intros a Ha.
  { cbn. clear -Ha. side_cases. }
  cbn. eapply noBetter_trans; [by apply (noBetter_pick_l side a x)|].
  apply IH. by apply pick_ordered.
Qed.

Lemma getValidMovesForPiece_away (stack : nat) (r c : Z) (p : Piece)
    (pos pos' : Position) (kept : list Square) :
  cell (board pos) r c = Some p →
  getValidMovesForPiece stack r c pos = Some (kept, pos') →
  Forall (awayFrom r c) kept.
Proof.
  intros Hc H. unfold getValidMovesForPiece in H.
  apply bind_Some in H as (piece & pos1 & [= <- <-] & H). rewrite Hc in H.
  apply bind_Some in H as (moves & pos1 & H1 & H).
  unfold readsE in H1.
  change (match toLowerCase p with
          | Pawn => getPawnMoves pos r c
          | Knight => getKnightMoves pos r c
          | Bishop => getBishopMoves pos r c
          | Rook => getRookMoves pos r c
          | Queen => getQueenMoves pos r c
          | King => getKingMoves stack pos r c
          end) with (pseudoMoves stack p pos r c) in H1.
  destruct (pseudoMoves stack p pos r c) as [ms|] eqn:Hgen; [|done].
  injection H1 as <- <-.
  apply filterLegal_sublist in H.
  pose proof (pseudoMoves_away _ _ _ _ _ _ Hc Hgen) as Haway.
  rewrite Forall_forall in Haway |- *. intros sq Hsq. apply Haway.
  by apply H.
Qed.

Lemma getAllValidMovesOn_movesPieceOf (stack : nat) (color : Color)
    (sqs : list (Z * Z)) (pos pos' : Position) (moves : list Move) :
  wfBoard (board pos) →
  getAllValidMovesOn stack color sqs pos = Some (moves, pos') →
  Forall (movesPieceOf color (board pos)) moves.
Proof.
  intros Hwf. revert moves pos'.
  induction sqs as [|[r c] rest IH]; intros moves pos' H; cbn in H.
  { injection H as <- _. constructor. }
  apply bind_Some in H as (here & s2 & H2 & H).
  apply bind_Some in H as (more & s3 & H3 & H).
  unfold ret in H. injection H as <- _.
  assert (s2 = pos ∧ Forall (movesPieceOf color (board pos)) here)
    as [-> Hhere].
  { unfold ret in H2.
    destruct (cell (board pos) r c) as [p|] eqn:Hc;
      [|injection H2 as <- <-; by split].
    destruct (Color_eqb _ color) eqn:Hcol; [|injection H2 as <- <-; by split].
    apply Color_eqb_eq in Hcol.
    apply bind_Some in H2 as (pieceMoves & s & Hp & H2).
    injection H2 as <- <-.
    pose proof (getValidMovesForPiece_away _ _ _ _ _ _ _ Hc Hp) as Haway.
    apply getValidMovesForPiece_restores in Hp as ->; [|done].
    split; [done|]. apply Forall_forall. intros mv Hmv.
    apply list_elem_of_fmap in Hmv as (sq & -> & Hsq).
    rewrite Forall_forall in Haway. split; cbn.
    - by exists p.
    - by apply Haway. }
  apply Forall_app. split; [done|]. by eapply IH.
Qed.

Lemma getAllValidMoves_movesPieceOf (stack : nat) (color : Color)
    (pos pos' : Position) (moves : list Move) :
  wfBoard (board pos) →
  getAllValidMoves stack color pos = Some (moves, pos') →
  Forall (movesPieceOf color (board pos)) moves.
Proof. apply getAllValidMovesOn_movesPieceOf. Qed.

Lemma movesPieceOf_fromOccupied (color : Color) (b : Board) (mv : Move) :
  movesPieceOf color b mv → fromOccupied b mv.
Proof. intros [(p & Hp & _) _]. by exists p. Qed.

Lemma cell_movedBoard_from (b : Board) (mv : Move) (p : Piece) :
  wfBoard b → cell b (fromRow mv) (fromCol mv) = Some p →
  cell (movedBoard b mv) (fromRow mv) (fromCol mv) = None.
Proof.
  intros Hwf Hp. unfold movedBoard.
  apply cell_setCell_eq; [by apply wfBoard_setCell|].
  by eapply cell_Some_valid.
Qed.

Lemma cell_movedBoard_to (b : Board) (mv : Move) (x : Piece) :
  wfBoard b → (toRow mv, toCol mv) ≠ (fromRow mv, fromCol mv) →
  cell (movedBoard b mv) (toRow mv) (toCol mv) = Some x →
  cell b (fromRow mv) (fromCol mv) = Some x.
Proof.
  intros Hwf Hne Hx. unfold movedBoard in Hx.
  rewrite cell_setCell_ne in Hx by done.
  assert (isValidSquare (toRow mv) (toCol mv) = true) as Hv
    by (eapply cell_Some_valid; [|exact Hx]; by apply wfBoard_setCell).
  by rewrite cell_setCell_eq in Hx.
Qed.

Lemma cell_movedBoard_other (b : Board) (mv : Move) (r c : Z) :
  (fromRow mv, fromCol mv) ≠ (r, c) → (toRow mv, toCol mv) ≠ (r, c) →
  cell (movedBoard b mv) r c = cell b r c.
Proof. intros H1 H2. unfold movedBoard. by rewrite !cell_setCell_ne. Qed.

(** The board after a move and a reply is not the board after a move:
    the square the reply left is empty, and no move of the first side
    empties a square of the other side. *)
Lemma movedBoard_twice_ne (color : Color) (b : Board) (m1 reply m2 : Move) :
  wfBoard b →
  movesPieceOf color b m1 → movesPieceOf (opposite color) (movedBoard b m1) reply →
  movesPieceOf color b m2 →
  movedBoard (movedBoard b m1) reply ≠ movedBoard b m2.
Proof.
  intros Hwf [(p1 & Hp1 & Hc1) Hne1] [(pr & Hpr & Hcr) Hner]
    [(p2 & Hp2 & Hc2) Hne2] Heq.
  set (r := fromRow reply) in *. set (c := fromCol reply) in *.
  assert (cell (movedBoard (movedBoard b m1) reply) r c = None) as Hnone
    by (by eapply cell_movedBoard_from; [apply wfBoard_movedBoard|]).
  assert (cell b r c = Some pr) as Hroot.
  { destruct (decide ((fromRow m1, fromCol m1) = (r, c))) as [[= H1 H2]|Hf].
    { rewrite <- H1, <- H2 in Hpr.
      by rewrite (cell_movedBoard_from b m1 p1) in Hpr. }
    destruct (decide ((toRow m1, toCol m1) = (r, c))) as [[= H1 H2]|Ht].
    { rewrite <- H1, <- H2 in Hpr.
      apply cell_movedBoard_to in Hpr; [|done..].
      rewrite Hp1 in Hpr. injection Hpr as ->. rewrite Hc1 in Hcr.
      by destruct color. }
    by rewrite cell_movedBoard_other in Hpr. }
  assert ((fromRow m2, fromCol m2) ≠ (r, c)) as Hf2.
  { intros [= H1 H2]. rewrite H1, H2, Hroot in Hp2. injection Hp2 as ->.
    rewrite Hc2 in Hcr. by destruct color. }
  rewrite Heq in Hnone. unfold movedBoard in Hnone.
  rewrite cell_setCell_ne in Hnone by done.
  destruct (cell_setCell_cases b (toRow m2) (toCol m2) r c
              (cell b (fromRow m2) (fromCol m2))) as [H|H];
    rewrite H in Hnone; congruence.
Qed.

Lemma minimaxChildren_ext (f g : Move → option Num) (moves : list Move) :
  (∀ m, f m = g m) → minimaxChildren f moves = minimaxChildren g moves.
Proof.
  intros Hfg. induction moves as [|m ms IH]; [done|].
  cbn. by rewrite Hfg, IH.
Qed.

Lemma countRepetitions_ext (w w' : Worker) :
  position w = position w' → positionHistory w = positionHistory w' →
  countRepetitions w = countRepetitions w'.
Proof. intros Hp Hh. unfold countRepetitions. by rewrite Hp, Hh. Qed.

Lemma minimax_ext (stack depth : nat) (isMaximizing : bool)
    (settings : Settings) (w w' : Worker) :
  position w = position w' → positionHistory w = positionHistory w' →
  minimax stack depth isMaximizing settings w
  = minimax stack depth isMaximizing settings w'.
Proof.
  revert isMaximizing w w'.
  induction depth as [|depth IH]; intros isMaximizing w w' Hp Hh; cbn [minimax];
    rewrite (countRepetitions_ext w w' Hp Hh), Hp; [done|].
  destruct (2 <=? _); [done|]. cbv zeta.
  destruct (getAllValidMoves stack _ (position w')) as [[moves pos']|]; [|done].
  cbn. destruct moves as [|m ms]; [done|].
  rewrite (minimaxChildren_ext _
             (λ m, minimax stack depth (negb isMaximizing) settings
                     (setPosition (afterSearchMove (position w') m) w'))).
  - done.
  - intros m0. by apply IH.
Qed.

Lemma foldr_add_ext {A : Type} (f g : A → Z) (l : list A) :
  (∀ x, f x = g x) →
  foldr (λ x acc, f x + acc) 0 l = foldr (λ x acc, g x + acc) 0 l.
Proof. intros Hfg. induction l as [|x l IH]; cbn; [done|]. by rewrite Hfg, IH. Qed.

Lemma foldr_add_permutation {A : Type} (f : A → Z) (l l' : list A) :
  l ≡ₚ l' →
  foldr (λ x acc, f x + acc) 0 l = foldr (λ x acc, f x + acc) 0 l'.
Proof.
  induction 1 as [|x l l' _ IH|x y l|l l' l'' _ IH1 _ IH2]; cbn; lia.
Qed.

Lemma minimaxNodes_ext (stack depth : nat) (isMaximizing : bool)
    (w w' : Worker) :
  position w = position w' → positionHistory w = positionHistory w' →
  minimaxNodes stack depth isMaximizing w
  = minimaxNodes stack depth isMaximizing w'.
Proof.
  revert isMaximizing w w'.
  induction depth as [|depth IH]; intros isMaximizing w w' Hp Hh;
    cbn [minimaxNodes]; rewrite (countRepetitions_ext w w' Hp Hh);
    [done|]. rewrite Hp.
  destruct (2 <=? _); [done|]. cbv zeta.
  destruct (getAllValidMoves stack _ (position w')) as [[moves pos']|]; [|done].
  f_equal. apply foldr_add_ext. intros m. by apply IH.
Qed.

Lemma minimaxNodes_positive (stack depth : nat) (isMaximizing : bool)
    (w : Worker) :
  1 ≤ minimaxNodes stack depth isMaximizing w.
Proof.
  revert isMaximizing w. induction depth as [|depth IH]; intros isMaximizing w;
    cbn [minimaxNodes]; destruct (2 <=? _); try lia.
  cbv zeta. destruct (getAllValidMoves _ _ _) as [[moves pos']|]; [|lia].
  assert (0 ≤ foldr (λ m acc,
                       minimaxNodes stack depth (negb isMaximizing)
                         (setPosition (afterSearchMove (position w) m) w)
                       + acc) 0 moves); [|lia].
  induction moves as [|m ms IHm]; cbn; [lia|].
  pose proof (IH (negb isMaximizing)
                (setPosition (afterSearchMove (position w) m) w)). lia.
Qed.

(** [minimax] at a depth of at least 1, written out. *)
Lemma minimax_inner (stack depth' : nat) (isMaximizing : bool)
    (settings : Settings) (w : Worker) :
  minimax stack (S depth') isMaximizing settings w
  = if 2 <=? countRepetitions w then Some (ofZ 0)
    else
      let color := if isMaximizing then aiColor (position w)
                   else opposite (aiColor (position w)) in
      let? (moves, _) := getAllValidMoves stack color (position w) in
      match moves with
      | [] =>
          let? inCheck := isInCheck stack (position w) color in
          Some (if inCheck
                then (if isMaximizing then ofZ (-999999) else ofZ 999999)
                else ofZ 0)
      | _ =>
          let? values :=
            minimaxChildren
              (λ m, minimax stack depth' (negb isMaximizing) settings
                      (setPosition (afterSearchMove (position w) m) w))
              moves in
          Some (foldl (pick isMaximizing) (worst isMaximizing) values)
      end.
Proof. by destruct isMaximizing. Qed.

Lemma minimax_ordered (stack depth : nat) (isMaximizing : bool)
    (settings : Settings) (w : Worker) (v : Num) :
  minimax stack depth isMaximizing settings w = Some v → ∃ q, v = Fin q.
Proof.
  revert isMaximizing w v.
  induction depth as [|depth IH]; intros isMaximizing w v.
  { rewrite minimax_leaf. apply leafValue_Fin. }
  rewrite minimax_inner. destruct (2 <=? _); [intros [= <-]; by eexists|].
  cbv zeta. destruct (getAllValidMoves _ _ _) as [[moves pos']|]; [|done].
  destruct moves as [|m ms].
  { destruct (isInCheck _ _ _) as [c|]; [|done]. intros [= <-].
    destruct c, isMaximizing; by eexists. }
  destruct (minimaxChildren _ _) as [values|] eqn:Hch; [|done].
  intros [= <-]. apply minimaxChildren_Forall2 in Hch.
  inversion Hch as [|m' x l l' Hx Hrest]; subst.
  apply IH in Hx as [q ->].
  assert (∀ (l : list Num) a,
            (∃ q, a = Fin q) → Forall (λ v, ∃ q, v = Fin q) l →
            ∃ q, foldl (pick isMaximizing) a l = Fin q) as Hfold.
  { clear. intros l. induction l as [|y l IHl]; intros a Ha Hl; [done|].
    apply Forall_cons in Hl as [Hy Hl]. cbn. apply IHl; [|done].
    clear -Ha Hy. side_cases. }
  cbn [foldl]. apply Hfold.
  - clear. side_cases.
  - clear -Hrest IH. induction Hrest as [|m x ms l Hx _ IHr]; constructor;
      [|done].
    by apply IH in Hx.
Qed.

Lemma leaves_count (stack : nat) (flag : bool) (leaf : Move → Worker)
    (moves : list Move) :
  foldr (λ m acc, minimaxNodes stack 0 flag (leaf m) + acc) 0 moves
  = Z.of_nat (length moves).
Proof.
  induction moves as [|m ms IH]; cbn [foldr length minimaxNodes] in *; [lia|].
  destruct (2 <=? _); lia.
Qed.

Section Deep.
Context (stack : nat) (settings : Settings) (deadline : Z).
Context (w0 : Worker) (side : bool).
Hypothesis clock : ∀ t, dateNow (host w0) t < deadline.
Hypothesis noQuiescence : useQuiescence settings = false.
Hypothesis root_wf : wfBoard (board (position w0)).

Local Abbreviation root := (position w0).
Local Abbreviation history := (positionHistory w0).
Local Abbreviation color := (sideColor side (position w0)).
Local Abbreviation inv := (ttInv stack settings w0 side).
Local Abbreviation searchingAt best :=
  (searching (position w0) (positionHistory w0) (host w0)
     (ttInv stack settings w0 side best)).

Lemma ttInv_empty (best : Num) : inv best ∅.
Proof. intros k e H. by rewrite lookup_empty in H. Qed.

Lemma ttInv_mono (best best' : Num) (table : gmap string TTEntry) :
  inv best table → noBetter side best best' → inv best' table.
Proof.
  intros Hinv Hle k e Hk. destruct (Hinv k e Hk) as [Hleaf|Hchild]; [by left|].
  destruct Hchild as (m & v & Hm & -> & Hv & Hfin & Hs & Hvb).
  right. exists m, v. do 4 (split; [done|]). split; by eapply noBetter_trans.
Qed.

Lemma searching_mono (best best' : Num) (b : Board) (n : Z) (w : Worker) :
  searchingAt best b n w → noBetter side best best' →
  searchingAt best' b n w.
Proof.
  intros (Hpos & Hhist & Hft & Hhost & Hn & Htt) Hle.
  repeat split; try done. by eapply ttInv_mono.
Qed.

Lemma ttInv_leaf_lookup (best : Num) (m1 reply : Move)
    (table : gmap string TTEntry) (e : TTEntry) :
  movesPieceOf color (board root) m1 →
  movesPieceOf (opposite color) (movedBoard (board root) m1) reply →
  inv best table →
  table !! getFEN (setBoard (movedBoard (movedBoard (board root) m1) reply)
                     root) = Some e →
  fst <$> evaluatePosition stack settings
            (setBoard (movedBoard (movedBoard (board root) m1) reply) root)
  = Some (ttScore e).
Proof.
  intros Hm1 Hreply Hinv Hk.
  assert (wfBoard (movedBoard (movedBoard (board root) m1) reply)) as Hwf
    by (by repeat apply wfBoard_movedBoard).
  destruct (Hinv _ e Hk) as [[_ Hleaf]|Hchild]; [by apply Hleaf|].
  destruct Hchild as (m2 & v & Hm2 & Hkey & _).
  rewrite afterSearchMove_movedBoard in Hkey.
  apply getFEN_setBoard_inj in Hkey; [|done|by apply wfBoard_movedBoard].
  by apply (movedBoard_twice_ne color) in Hkey.
Qed.

Lemma ttInv_leaf_insert (best : Num) (b : Board)
    (table : gmap string TTEntry) (s : Num) (pos' : Position) :
  wfBoard b → inv best table →
  evaluatePosition stack settings (setBoard b root) = Some (s, pos') →
  inv best (<[getFEN (setBoard b root) := mkEntry s 0 None]> table).
Proof.
  intros Hwf Hinv Heval k e Hk.
  destruct (decide (k = getFEN (setBoard b root))) as [->|Hne].
  - rewrite lookup_insert_eq in Hk. injection Hk as <-. left.
    split; [done|]. intros b' Hwf' Heq.
    apply getFEN_setBoard_inj in Heq as <-; [|done..]. by rewrite Heval.
  - rewrite lookup_insert_ne in Hk by done. by apply Hinv.
Qed.

Lemma ttInv_child_insert (best : Num) (m bestMove : option Move) (mv : Move)
    (table : gmap string TTEntry) (r v : Num) (d : nat) :
  inv best table →
  movesPieceOf color (board root) mv →
  childValue stack settings w0 side mv = Some v →
  (∃ q, r = Fin q) → noBetter side r best → noBetter side v best →
  inv best (<[getFEN (afterSearchMove root mv) := mkEntry r d bestMove]>
              table).
Proof.
  intros Hinv Hmv Hv Hfin Hr Hvb k e Hk.
  destruct (decide (k = getFEN (afterSearchMove root mv))) as [->|Hne].
  - rewrite lookup_insert_eq in Hk. injection Hk as <-. right.
    by exists mv, v.
  - rewrite lookup_insert_ne in Hk by done. by apply Hinv.
Qed.

(** The branch of a move loop that ends it. *)
Lemma cutoff_run {A : Type} (best : Num) (b : Board) (n : Z) (w : Worker)
    (mv : Move) (captured : option Piece) (searchDepth : Z) (d : nat)
    (result : A) :
  searchingAt best b n w → 0 ≤ searchDepth →
  ∃ w',
    ((if occupied captured then ret tt
      else storeKillerMove mv searchDepth) ;;
     updateHistory mv d ;; ret result) w = Some (result, w')
    ∧ searchingAt best b n w'.
Proof.
  intros Hs Hsd.
  assert (∃ w1, (if occupied captured then ret tt
                 else storeKillerMove mv searchDepth) w = Some (tt, w1)
                ∧ searchingAt best b n w1) as (w1 & Hkill & Hs1).
  { destruct (occupied captured); [by exists w|].
    unfold storeKillerMove, bind, reads.
    destruct (_ <=? searchDepth); [by exists w|].
    destruct (searchDepth <? 0) eqn:E; [apply Z.ltb_lt in E; lia|].
    destruct (existsb _ _); [by exists w|].
    eexists. split; [reflexivity|]. apply Hs. }
  rewrite (bind_run _ _ _ _ _ Hkill).
  eexists. split; [reflexivity|]. apply Hs1.
Qed.

(** The move loop of a child of the root, over its leaves: it returns the
    value of the child, or, after a cutoff, a value that is no better for
    the root than its running best. *)
Lemma inner_loop (best : Num) (m1 : Move) (searchDepth : Z)
    (replies : list Move) (values : list Num) (n : Z) (w : Worker)
    (value : Num) (bestMove : option Move) :
  movesPieceOf color (board root) m1 →
  Forall (movesPieceOf (opposite color) (movedBoard (board root) m1))
         replies →
  Forall2 (λ reply v,
             leafValue stack settings history
               (setBoard (movedBoard (movedBoard (board root) m1) reply) root)
             = Some v) replies values →
  searchingAt best (movedBoard (board root) m1) n w →
  n + Z.of_nat (length replies) ≤ maxNodes settings →
  0 ≤ searchDepth →
  running (negb side) value → running side best →
  ∃ r bestMove' w',
    sideLoop (negb side) stack 0 settings deadline searchDepth replies value
      best value bestMove w
    = Some ((r, bestMove'), w')
    ∧ searchingAt best (movedBoard (board root) m1)
        (n + Z.of_nat (length replies)) w'
    ∧ ((replies = [] ∧ r = value) ∨ ∃ q, r = Fin q)
    ∧ (r = foldl (pick (negb side)) value values
       ∨ (noBetter (negb side) best r
          ∧ noBetter (negb side) r (foldl (pick (negb side)) value values))).
Proof.
  intros Hm1 Hreplies Hvalues. revert Hreplies n w value bestMove.
  induction Hvalues as [|reply v replies values Hv Hrest IH];
    intros Hreplies n w value bestMove Hs Hn Hsd Hvalue Hbest.
  { rewrite sideLoop_nil. exists value, bestMove, w.
    split; [done|]. split; [by rewrite Z.add_0_r|].
    split; [by left|by left]. }
  apply Forall_cons in Hreplies as [Hreply Hreplies].
  cbn [length] in Hn. rewrite sideLoop_cons.
  destruct (timedOut_run settings deadline root history (host w0) _ clock _ n
              w Hs ltac:(lia)) as (w1 & Htime & Hs1).
  rewrite (bind_run _ _ _ _ _ Htime). cbv beta iota.
  destruct (child_run stack settings deadline root history (host w0) _ clock
              noQuiescence (movedBoard (board root) m1) reply v n w1
              (negb (negb side)) (searchDepth + 1)
              (if negb (negb side) then best else value)
              (if negb (negb side) then value else best)
              (wfBoard_movedBoard _ _ root_wf) Hs1 ltac:(lia) Hv)
    as (w2 & Hrun & Hpos & Hs2).
  { intros table e Htable. by apply (ttInv_leaf_lookup best m1 reply). }
  { intros table s pos' Htable.
    by apply ttInv_leaf_insert; [repeat apply wfBoard_movedBoard|]. }
  unfold searchAs at 1.
  rewrite (bracket_run reply _ _ w1 w2 v Hrun Hpos). cbv zeta.
  pose proof (leafValue_Fin _ _ _ _ _ Hv) as Hfin.
  rewrite (step_value (negb side) value v Hvalue Hfin).
  assert (Forall ordered values) as Hordered.
  { clear -Hrest. induction Hrest as [|x y l l' Hy _ IHr]; constructor;
      [|done].
    apply leafValue_Fin in Hy as [q ->]. done. }
  pose proof (running_pick (negb side) value v Hvalue Hfin) as Hpick.
  destruct (cutsOff (negb side) (pick (negb side) value v) best) eqn:Hcut.
  - destruct (cutoff_run best (movedBoard (board root) m1) (n + 1)
                (setPosition (position w1) w2) reply
                (cell (board (position w1)) (toRow reply) (toCol reply))
                searchDepth 1
                (pick (negb side) value v,
                 if betterThan (negb side) v value then Some reply
                 else bestMove) Hs2 Hsd) as (w3 & Hcutoff & Hs3).
    rewrite Hcutoff. eexists _, _, w3. split; [reflexivity|].
    split; [eapply searching_budget; [exact Hs3|cbn [length]; lia]|].
    split; [by right|]. right. split; [by apply cutsOff_noBetter|].
    cbn [foldl]. apply foldl_pick_noBetter; [by apply Fin_ordered|done].
  - destruct (IH Hreplies (n + 1) (setPosition (position w1) w2)
                (pick (negb side) value v)
                (if betterThan (negb side) v value then Some reply
                 else bestMove) Hs2 ltac:(lia) Hsd ltac:(by right) Hbest)
      as (r & bestMove' & w3 & Hloop & Hs3 & Hr & Hresult).
    exists r, bestMove', w3. split; [exact Hloop|].
    split; [|split; [|done]].
    + replace (n + Z.of_nat (length (reply :: replies)))
        with (n + 1 + Z.of_nat (length replies)) by (cbn [length]; lia).
      exact Hs3.
    + right. destruct Hr as [[_ ->]|Hr]; done.
Qed.

Lemma sideColor_negb (pos : Position) :
  sideColor (negb side) pos = opposite (sideColor side pos).
Proof. unfold sideColor. by destruct side, (aiColor pos). Qed.

Lemma position_root (best : Num) (n : Z) (w : Worker) :
  searchingAt best (board root) n w → position w = root.
Proof. intros [-> _]. apply setBoard_board. Qed.

(** A child of the root, searched at depth 1 below the running best
    [best] of the root: the search returns the value of the child, or a
    value that, like the value of the child, is no better for the root
    than [best]. *)
Lemma child_search (best : Num) (mv : Move) (searchDepth : Z) (n : Z)
    (w : Worker) (v : Num) :
  movesPieceOf color (board root) mv →
  searchingAt best (board root) n w →
  n + minimaxNodes stack 1 (negb side)
        (setPosition (afterSearchMove root mv) w0)
  ≤ maxNodes settings →
  0 ≤ searchDepth → running side best →
  childValue stack settings w0 side mv = Some v →
  ∃ r w',
    searchAs (negb side) stack 1 (worst (negb side)) best settings deadline
      (searchDepth + 1) (setPosition (afterSearchMove (position w) mv) w)
    = Some (r, w')
    ∧ position w' = afterSearchMove (position w) mv
    ∧ (∃ q, r = Fin q)
    ∧ searchingAt (pick side best r) (board root)
        (n + minimaxNodes stack 1 (negb side)
               (setPosition (afterSearchMove root mv) w0))
        (setPosition (position w) w')
    ∧ (Num_eq r v ∨ (noBetter side r best ∧ noBetter side v best)).
Proof.
  intros Hmv Hs Hbudget Hsd Hbest Hv.
  rewrite (position_root best n w Hs).
  set (child := afterSearchMove root mv) in *.
  set (B := movedBoard (board root) mv).
  assert (child = setBoard B root) as Hchild by reflexivity.
  assert (wfBoard B) as HwfB by (by apply wfBoard_movedBoard).
  set (nodes := minimaxNodes stack 1 (negb side) (setPosition child w0)) in *.
  pose proof (minimaxNodes_positive stack 1 (negb side)
                (setPosition child w0)) as Hnodes. fold nodes in Hnodes.
  (* what the caller gets back once the child has returned *)
  assert (∀ r w' k,
            searchingAt (pick side best r) B k w' → k ≤ n + nodes →
            searchingAt (pick side best r) (board root) (n + nodes)
              (setPosition root w')) as Hback.
  { intros r w' k Hs' Hk.
    pose proof (searching_setPosition root history (host w0) _ B (board root)
                  k w' Hs') as H.
    rewrite setBoard_board in H. by eapply searching_budget. }
  assert (∀ r, ordered r → noBetter side best (pick side best r)) as Hraise.
  { intros r Hr. apply noBetter_pick_l; [by eapply running_ordered|done]. }
  assert (∀ r bestMove w' k,
            searchingAt best B k w' → (∃ q, r = Fin q) →
            noBetter side v (pick side best r) →
            searchingAt (pick side best r) B k
              (setTranspositionTable
                 (<[getFEN child := mkEntry r 1 bestMove]>
                    (transpositionTable w')) w')) as Hstore.
  { intros r bestMove w' k (Hp & Hh & Hf & Hho & Hk & Hi) Hr Hvr.
    repeat split; try done. cbn [transpositionTable setTranspositionTable].
    apply ttInv_child_insert with (v := v); try done.
    - eapply ttInv_mono; [exact Hi|]. by apply Hraise, Fin_ordered.
    - apply noBetter_pick_r; [by eapply running_ordered|by apply Fin_ordered]. }
  set (wc := setPosition child w).
  assert (searchingAt best B n wc) as Hsc.
  { exact (searching_setPosition root history (host w0) _ (board root) B n w
             Hs). }
  set (w1 := setNodesSearched (nodesSearched wc + 1) wc).
  assert (searchingAt best B (n + 1) w1) as Hs1.
  { destruct Hsc as (Hpos & Hhist & Hft & Hhost & Hn & Htt).
    repeat split; try done.
    change (nodesSearched w1) with (nodesSearched wc + 1). lia. }
  destruct (timedOut_run settings deadline root history (host w0) _ clock B
              (n + 1) w1 Hs1 ltac:(lia)) as (w2 & Htime & Hs2).
  rewrite searchAs_inner.
  rewrite (bind_run _ _ _ _ _
             (eq_refl : modify (λ w, setNodesSearched (nodesSearched w + 1) w)
                          wc = Some (tt, w1))).
  rewrite (bind_run _ _ _ _ _ Htime). cbv beta iota.
  assert (position w2 = child) as Hpos2 by exact (proj1 Hs2).
  assert (positionHistory w2 = history) as Hhist2 by apply Hs2.
  pose proof Hv as Hv0.
  unfold childValue in Hv. fold child in Hv. rewrite minimax_inner in Hv.
  assert (countRepetitions w2 = countRepetitions (setPosition child w0))
    as Hreps by (by apply countRepetitions_ext).
  unfold bind at 1, reads at 1. rewrite Hreps.
  assert (nodes
          = 1 + (if 2 <=? countRepetitions (setPosition child w0) then 0
                 else
                   match getAllValidMoves stack (sideColor (negb side) child)
                           child with
                   | Some (moves, _) =>
                       foldr (λ m acc,
                                minimaxNodes stack 0 (negb (negb side))
                                  (setPosition (afterSearchMove child m)
                                     (setPosition child w0))
                                + acc) 0 moves
                   | None => 0
                   end)) as Hnodes_eq by reflexivity.
  destruct (2 <=? countRepetitions (setPosition child w0)).
  { injection Hv as <-. exists (ofZ 0), w2.
    split; [done|]. split; [done|]. split; [by eexists|].
    split; [|left; done].
    eapply Hback; [eapply searching_mono; [exact Hs2|by apply Hraise]|lia]. }
  unfold bind at 1, reads at 1. unfold bind at 1, reads at 1.
  rewrite Hpos2.
  pose proof Hs2 as (_ & _ & _ & _ & _ & Htt2).
  destruct (ttHit (transpositionTable w2 !! getFEN child) 1) as [s|] eqn:Hhit.
  { unfold ttHit in Hhit.
    destruct (transpositionTable w2 !! getFEN child) as [e|] eqn:Hk; [|done].
    destruct (1 <=? ttDepth e)%nat eqn:Hd; [|done]. injection Hhit as <-.
    destruct (Htt2 _ e Hk)
      as [[Hd0 _]|(m2 & v2 & Hm2 & Hkey & Hv2 & Hfin & Hsb & Hvb)].
    { by rewrite Hd0 in Hd. }
    assert (afterSearchMove root m2 = child) as Hsame.
    { rewrite afterSearchMove_movedBoard in Hkey |- *. rewrite Hchild in Hkey.
      apply getFEN_setBoard_inj in Hkey as <-;
        [done|done|by apply wfBoard_movedBoard]. }
    unfold childValue in Hv2, Hv0. rewrite Hsame in Hv2. fold child in Hv0.
    rewrite Hv0 in Hv2. injection Hv2 as <-.
    exists (ttScore e), w2.
    split; [done|]. split; [done|]. split; [done|].
    split; [|by right].
    eapply Hback;
      [eapply searching_mono; [exact Hs2|by apply Hraise, Fin_ordered]|lia]. }
  unfold bind at 1, reads at 1. rewrite Hpos2. cbv zeta in Hv |- *.
  change (position (setPosition child w0)) with child in Hv.
  change (if negb side then aiColor child else opposite (aiColor child))
    with (sideColor (negb side) child) in Hv |- *.
  assert (board child = B) as Hboard by reflexivity.
  destruct (getAllValidMoves stack (sideColor (negb side) child) child)
    as [[replies pos']|] eqn:Hmoves; [|done].
  pose proof (getAllValidMoves_movesPieceOf stack
                (sideColor (negb side) child) child pos' replies HwfB Hmoves)
    as Hreplies.
  rewrite Hboard, sideColor_negb in Hreplies.
  change (sideColor side child) with color in Hreplies.
  pose proof (getAllValidMoves_restores stack (sideColor (negb side) child)
                child replies pos' HwfB Hmoves) as Hpos'.
  subst pos'.
  assert (onPosition (getAllValidMoves stack (sideColor (negb side) child)) w2
          = Some (replies, w2)) as Hon.
  { unfold onPosition. rewrite Hpos2, Hmoves.
    by rewrite <- Hpos2, setPosition_position. }
  rewrite (bind_run _ _ _ _ _ Hon).
  destruct replies as [|reply replies].
  { destruct (isInCheck stack child _) as [inCheck|] eqn:Hcheck; [|done].
    injection Hv as Hv.
    unfold bind at 1, readsE at 1. rewrite Hpos2, Hcheck. cbv zeta.
    rewrite Hv.
    assert (∃ q, v = Fin q) as Hfin
      by (rewrite <- Hv; destruct inCheck, side; by eexists).
    eexists v, _. split; [reflexivity|]. split; [exact Hpos2|].
    split; [done|]. split; [|left; by apply Num_eq_refl, Fin_ordered].
    eapply (Hback v _ (n + 1)); [|lia]. apply Hstore; [exact Hs2|done|].
    apply noBetter_pick_r; [by eapply running_ordered|by apply Fin_ordered]. }
  destruct (minimaxChildren _ (reply :: replies)) as [values|] eqn:Hchildren;
    [|done].
  injection Hv as Hv.
  assert (Forall (fromOccupied (board (position w2))) (reply :: replies))
    as Hocc.
  { rewrite Hpos2, Hboard. eapply Forall_impl; [exact Hreplies|].
    intros m. apply movesPieceOf_fromOccupied. }
  destruct (orderMoves_total w2
              (transpositionTable w2 !! getFEN child ≫= ttBestMove)
              (searchDepth + 1) (reply :: replies) Hocc ltac:(lia))
    as [ordered' Hordered].
  pose proof (orderMoves_permutation _ _ _ _ _ Hordered) as Hperm.
  unfold bind at 1, readsE at 1. rewrite Hordered.
  destruct (minimaxChildren_permutation _ _ _ _ (symmetry Hperm) Hchildren)
    as (values' & Hchildren' & Hvalues).
  assert (Forall2 (λ m x,
                     leafValue stack settings history
                       (setBoard (movedBoard B m) root) = Some x)
                  ordered' values') as Hleaves.
  { apply minimaxChildren_Forall2 in Hchildren'.
    eapply Forall2_impl; [exact Hchildren'|]. intros m x Hx. exact Hx. }
  assert (Forall ordered values') as Hfins.
  { clear -Hleaves. induction Hleaves as [|m x l l' Hx _ IH];
      constructor; [|done].
    apply leafValue_Fin in Hx as [q ->]. done. }
  assert (Forall ordered values) as Hfins0 by (by rewrite Hvalues).
  pose proof (leaves_count stack (negb (negb side))
                (λ m, setPosition (afterSearchMove child m)
                        (setPosition child w0)) (reply :: replies))
    as Hcount.
  destruct (inner_loop best mv (searchDepth + 1) ordered' values' (n + 1) w2
              (worst (negb side)) None Hmv
              ltac:(by rewrite Hperm) Hleaves Hs2
              ltac:(rewrite (Permutation_length Hperm); lia) ltac:(lia)
              ltac:(by left) Hbest)
    as (r & bestMove' & w3 & Hloop & Hs3 & Hr & Hresult).
  rewrite (bind_run _ _ _ _ _ Hloop). cbv beta iota.
  assert (∃ q, r = Fin q) as Hfin.
  { destruct Hr as [[Hnil _]|Hr]; [|done].
    rewrite Hnil in Hperm. by apply Permutation_nil_cons in Hperm. }
  assert (Num_eq (foldl (pick (negb side)) (worst (negb side)) values') v)
    as Htrue.
  { rewrite <- Hv. apply Num_eq_sym.
    apply (foldl_permutation (pick (negb side))); try done.
    - apply pick_ordered.
    - apply pick_proper_l.
    - apply pick_swap.
    - by destruct side. }
  assert (Num_eq r v ∨ (noBetter side r best ∧ noBetter side v best))
    as Hverdict.
  { destruct Hresult as [->|[Hcut Hbound]]; [by left|]. right.
    apply noBetter_flip in Hcut, Hbound. rewrite negb_involutive in Hcut, Hbound.
    split; [done|]. eapply noBetter_proper; [exact Htrue|].
    by eapply noBetter_trans. }
  eexists r, _. split; [reflexivity|]. split; [apply Hs3|]. split; [done|].
  split; [|done].
  eapply (Hback r _ (n + 1 + Z.of_nat (length ordered')));
    [|rewrite (Permutation_length Hperm); lia].
  apply Hstore; [exact Hs3|done|].
  destruct Hverdict as [Heq|[_ Hvb]].
  - eapply noBetter_proper; [exact Heq|].
    apply noBetter_pick_r; [by eapply running_ordered|by apply Fin_ordered].
  - eapply noBetter_trans; [exact Hvb|]. by apply Hraise, Fin_ordered.
Qed.

(** The move loop of the root over its children: no cutoff, and the
    running best ends as the best of the values of the children. *)
Lemma root_loop (best : Num) (searchDepth : Z) (moves : list Move)
    (values : list Num) (n : Z) (w : Worker) (bestMove : option Move) :
  Forall (movesPieceOf color (board root)) moves →
  Forall2 (λ m v, childValue stack settings w0 side m = Some v) moves values →
  searchingAt best (board root) n w →
  n + foldr (λ m acc,
               minimaxNodes stack 1 (negb side)
                 (setPosition (afterSearchMove root m) w0) + acc) 0 moves
  ≤ maxNodes settings →
  0 ≤ searchDepth → running side best →
  ∃ r bestMove' w',
    sideLoop side stack 1 settings deadline searchDepth moves best
      (worst (negb side)) best bestMove w
    = Some ((r, bestMove'), w')
    ∧ Num_eq r (foldl (pick side) best values).
Proof.
  intros Hmoves Hvalues. revert Hmoves best n w bestMove.
  induction Hvalues as [|mv v moves values Hv Hrest IH];
    intros Hmoves best n w bestMove Hs Hn Hsd Hbest.
  { rewrite sideLoop_nil. exists best, bestMove, w. split; [done|].
    by eapply Num_eq_refl, running_ordered. }
  apply Forall_cons in Hmoves as [Hmv Hmoves].
  cbn [foldr] in Hn. rewrite sideLoop_cons.
  pose proof (minimaxNodes_positive stack 1 (negb side)
                (setPosition (afterSearchMove root mv) w0)) as Hpositive.
  assert (0 ≤ foldr (λ m acc,
                       minimaxNodes stack 1 (negb side)
                         (setPosition (afterSearchMove root m) w0) + acc)
                    0 moves) as Hsum.
  { clear. induction moves as [|m ms IHm]; cbn [foldr]; [lia|].
    pose proof (minimaxNodes_positive stack 1 (negb side)
                  (setPosition (afterSearchMove root m) w0)). lia. }
  destruct (timedOut_run settings deadline root history (host w0) _ clock _ n
              w Hs ltac:(lia)) as (w1 & Htime & Hs1).
  rewrite (bind_run _ _ _ _ _ Htime). cbv beta iota.
  destruct (child_search best mv searchDepth n w1 v Hmv Hs1 ltac:(lia) Hsd
              Hbest Hv) as (r & w2 & Hrun & Hpos & Hfin & Hs2 & Hverdict).
  rewrite (bracket_run mv _ _ w1 w2 r Hrun Hpos). cbv zeta.
  rewrite (step_value side best r Hbest Hfin).
  rewrite (cutsOff_full_window side best r Hbest Hfin).
  destruct (IH Hmoves (pick side best r) _ (setPosition (position w1) w2)
              (if betterThan side r best then Some mv else bestMove) Hs2
              ltac:(lia) Hsd ltac:(right; by apply running_pick))
    as (r' & bestMove' & w3 & Hloop & Hr').
  exists r', bestMove', w3. split; [exact Hloop|].
  eapply Num_eq_trans; [exact Hr'|]. cbn [foldl].
  assert (ordered best) as Hob by (by eapply running_ordered).
  assert (∃ q, v = Fin q) as Hvfin by (by eapply minimax_ordered).
  apply (foldl_proper (pick side)).
  - apply pick_proper_l.
  - destruct Hverdict as [Heq|[Hrb Hvb]]; [by apply pick_proper_r|].
    eapply Num_eq_trans; [by apply pick_absorbs|].
    by apply Num_eq_sym, pick_absorbs.
  - clear -Hrest. induction Hrest as [|m x l l' Hx _ IHr]; constructor;
      [|done].
    apply Fin_ordered. by eapply minimax_ordered.
Qed.

Lemma deep_search (searchDepth : Z) (v : Num) :
  transpositionTable w0 = ∅ → forceTimeout w0 = false →
  nodesSearched w0 + minimaxNodes stack 2 side w0 ≤ maxNodes settings →
  0 ≤ searchDepth →
  minimax stack 2 side settings w0 = Some v →
  ∃ v' w',
    alphaBetaSearch stack 2 NegInf PosInf side settings deadline searchDepth
      w0 = Some (v', w')
    ∧ Num_eq v' v.
Proof.
  intros Htt Hft Hbudget Hsd Hmm.
  assert (alphaBetaSearch stack 2 NegInf PosInf side settings deadline
            searchDepth
          = searchAs side stack 2 (worst side) (worst (negb side)) settings
              deadline searchDepth) as -> by (by destruct side).
  rewrite minimax_inner in Hmm. cbv zeta in Hmm.
  change (if side then aiColor root else opposite (aiColor root))
    with color in Hmm.
  assert (minimaxNodes stack 2 side w0
          = 1 + (if 2 <=? countRepetitions w0 then 0
                 else
                   match getAllValidMoves stack color root with
                   | Some (moves, _) =>
                       foldr (λ m acc,
                                minimaxNodes stack 1 (negb side)
                                  (setPosition (afterSearchMove root m) w0)
                                + acc) 0 moves
                   | None => 0
                   end)) as Hnodes by reflexivity.
  set (w1 := setNodesSearched (nodesSearched w0 + 1) w0).
  set (w2 := setTicks (S (ticks w1)) w1).
  assert (timedOut settings deadline w1 = Some (false, w2)) as Htime.
  { apply timedOut_false; [done|apply clock|].
    change (nodesSearched w1) with (nodesSearched w0 + 1).
    destruct (2 <=? countRepetitions w0); [lia|].
    destruct (getAllValidMoves stack color root) as [[moves pos']|]; [|lia].
    assert (0 ≤ foldr (λ m acc,
                         minimaxNodes stack 1 (negb side)
                           (setPosition (afterSearchMove root m) w0) + acc)
                      0 moves); [|lia].
    clear. induction moves as [|m ms IHm]; cbn [foldr]; [lia|].
    pose proof (minimaxNodes_positive stack 1 (negb side)
                  (setPosition (afterSearchMove root m) w0)). lia. }
  rewrite searchAs_inner.
  rewrite (bind_run _ _ _ _ _
             (eq_refl : modify (λ w, setNodesSearched (nodesSearched w + 1) w)
                          w0 = Some (tt, w1))).
  rewrite (bind_run _ _ _ _ _ Htime). cbv beta iota.
  unfold bind at 1, reads at 1.
  change (countRepetitions w2) with (countRepetitions w0).
  destruct (2 <=? countRepetitions w0).
  { injection Hmm as <-. by eexists _, _. }
  unfold bind at 1, reads at 1. unfold bind at 1, reads at 1.
  change (transpositionTable w2) with (transpositionTable w0).
  rewrite Htt, lookup_empty. cbn [ttHit mbind option_bind].
  unfold bind at 1, reads at 1. change (position w2) with root. cbv zeta.
  change (if side then aiColor root else opposite (aiColor root))
    with color.
  destruct (getAllValidMoves stack color root) as [[moves pos']|] eqn:Hmoves;
    [|done].
  pose proof (getAllValidMoves_movesPieceOf stack color root pos' moves
                root_wf Hmoves) as Hpieces.
  pose proof (getAllValidMoves_restores stack color root moves pos' root_wf
                Hmoves) as Hpos'.
  subst pos'.
  assert (onPosition (getAllValidMoves stack color) w2 = Some (moves, w2))
    as Hon.
  { unfold onPosition. change (position w2) with root. rewrite Hmoves.
    change root with (position w2). by rewrite (setPosition_position w2). }
  rewrite (bind_run _ _ _ _ _ Hon).
  destruct moves as [|mv ms].
  { destruct (isInCheck stack root color) as [inCheck|] eqn:Hcheck; [|done].
    injection Hmm as <-.
    unfold bind at 1, readsE at 1. change (position w2) with root.
    rewrite Hcheck. eexists _, _. split; [reflexivity|].
    apply Num_eq_refl. by destruct inCheck, side. }
  destruct (minimaxChildren _ (mv :: ms)) as [values|] eqn:Hchildren; [|done].
  injection Hmm as <-.
  assert (Forall (fromOccupied (board (position w2))) (mv :: ms)) as Hocc.
  { eapply Forall_impl; [exact Hpieces|].
    intros m. apply movesPieceOf_fromOccupied. }
  destruct (orderMoves_total w2 None searchDepth (mv :: ms) Hocc Hsd)
    as [ordered' Hordered].
  pose proof (orderMoves_permutation _ _ _ _ _ Hordered) as Hperm.
  unfold bind at 1, readsE at 1. rewrite Hordered.
  destruct (minimaxChildren_permutation _ _ _ _ (symmetry Hperm) Hchildren)
    as (values' & Hchildren' & Hvalues).
  apply minimaxChildren_Forall2 in Hchildren', Hchildren.
  assert (Forall ordered values) as Hfins.
  { clear -Hchildren. induction Hchildren as [|m x l l' Hx _ IH];
      constructor; [|done].
    apply Fin_ordered. by eapply minimax_ordered. }
  assert (searchingAt (worst side) (board root) (nodesSearched w0 + 1) w2)
    as Hs2.
  { repeat split; try done; [by rewrite setBoard_board|].
    change (transpositionTable w2) with (transpositionTable w0).
    rewrite Htt. apply ttInv_empty. }
  destruct (root_loop (worst side) searchDepth ordered' values'
              (nodesSearched w0 + 1) w2 None
              ltac:(by rewrite Hperm) Hchildren' Hs2)
    as (r & bestMove' & w3 & Hloop & Hr); [|done|by left|].
  { rewrite (foldr_add_permutation _ _ _ Hperm). lia. }
  rewrite (bind_run _ _ _ _ _ Hloop). eexists _, _. split; [reflexivity|].
  eapply Num_eq_trans; [exact Hr|].
  apply Num_eq_sym, (foldl_permutation (pick side)); try done.
  - apply pick_ordered.
  - apply pick_proper_l.
  - apply pick_swap.
  - by destruct side.
Qed.
End Deep.

(** ** The search against plain minimax *)

(** C1. The score of [alphaBetaSearch] is not the score of plain minimax.
    The triangulation [Kd1-c1, d4-d3, Kc1-d2] reaches the board of
    [Kd1-d2, d4-d3] with the other side to move; the key under which the
    table stores a score carries the side to move of the root, which the
    make step does not change, so that the second line takes the score
    stored for the first. At depth 3, with quiescence disabled, an empty
    table at the start, the full window, a clock that stands still and a
    budget of 100000000 nodes of which 54 are used, the search returns 0
    and plain minimax -100. *)
Lemma cached_score_of_the_other_side :
  (λ r, (fst r, nodesSearched (snd r), forceTimeout (snd r)))
    <$> alphaBetaSearch 3 3 NegInf PosInf true (materialOnly 3) 100 0
          (freshWorker trianglePosition [] (stillHost id))
  = Some (Fin 0, 54, false)
  ∧ minimax 3 3 true (materialOnly 3)
      (freshWorker trianglePosition [] (stillHost id))
    = Some (Fin (-100)).
Proof. split; vm_compute; reflexivity. Qed.

Lemma shallow_search (stack d : nat) (isMaximizing : bool)
    (settings : Settings) (deadline searchDepth : Z) (w : Worker) (v : Num) :
  (d ≤ 1)%nat →
  wfBoard (board (position w)) →
  useQuiescence settings = false →
  transpositionTable w = ∅ →
  forceTimeout w = false →
  (∀ t, dateNow (host w) t < deadline) →
  nodesSearched w + minimaxNodes stack d isMaximizing w ≤ maxNodes settings →
  0 ≤ searchDepth →
  minimax stack d isMaximizing settings w = Some v →
  ∃ v' w',
    alphaBetaSearch stack d NegInf PosInf isMaximizing settings deadline
      searchDepth w = Some (v', w')
    ∧ Num_eq v' v.
Proof.
  intros Hd Hwf Hq Htt Hft Hclock Hbudget Hsd Hmm.
  pose proof (minimaxNodes_positive stack d isMaximizing w) as Hpositive.
  set (root := position w) in *. set (history := positionHistory w) in *.
  assert (searching root history (host w) (ttSound stack settings root)
            (board root) (nodesSearched w) w) as Hs.
  { repeat split; try done; [by rewrite setBoard_board|].
    rewrite Htt. apply ttSound_empty. }
  destruct d as [|[|d]]; [| |lia].
  - rewrite minimax_leaf in Hmm. fold root history in Hmm.
    rewrite <- (setBoard_board root) in Hmm.
    destruct (leaf_run stack settings deadline root history (host w) _
                Hclock Hq (board root) (nodesSearched w) w NegInf PosInf
                isMaximizing searchDepth v Hwf Hs ltac:(lia) Hmm)
      as (w' & Hrun & _).
    { intros table e Htable. by apply ttSound_lookup. }
    { intros table s pos' Htable. by apply ttSound_insert. }
    exists v, w'. split; [done|]. apply Num_eq_refl.
    apply leafValue_Fin in Hmm as [q ->]. done.
  - rewrite minimax_one in Hmm. fold root history in Hmm. cbv zeta in Hmm.
    set (color := if isMaximizing then aiColor root
                  else opposite (aiColor root)) in *.
    assert (minimaxNodes stack 1 isMaximizing w
            = 1 + (if 2 <=? countRepetitions w then 0
                   else
                     match getAllValidMoves stack color root with
                     | Some (moves, _) =>
                         foldr (λ m acc,
                                  minimaxNodes stack 0 (negb isMaximizing)
                                    (setPosition (afterSearchMove root m) w)
                                  + acc) 0 moves
                     | None => 0
                     end)) as Hnodes by reflexivity.
    set (w1 := setNodesSearched (nodesSearched w + 1) w).
    set (w2 := setTicks (S (ticks w1)) w1).
    assert (timedOut settings deadline w1 = Some (false, w2)) as Htime.
    { apply timedOut_false; [done|apply Hclock|].
      change (nodesSearched w1) with (nodesSearched w + 1). lia. }
    rewrite alphaBetaSearch_inner.
    rewrite (bind_run _ _ _ _ _
               (eq_refl : modify (λ w, setNodesSearched (nodesSearched w + 1) w)
                            w = Some (tt, w1))).
    rewrite (bind_run _ _ _ _ _ Htime). cbv beta iota.
    unfold bind at 1, reads at 1.
    change (countRepetitions w2) with (countRepetitions w).
    destruct (2 <=? countRepetitions w).
    { injection Hmm as <-. by eexists _, _. }
    rewrite Hnodes in Hbudget.
    unfold bind at 1, reads at 1. unfold bind at 1, reads at 1.
    change (transpositionTable w2) with (transpositionTable w).
    rewrite Htt, lookup_empty. cbn [ttHit mbind option_bind].
    unfold bind at 1, reads at 1. change (position w2) with root.
    fold color.
    destruct (getAllValidMoves stack color root) as [[moves pos']|] eqn:Hmoves;
      [|done].
    rewrite leaves_count in Hbudget.
    pose proof (getAllValidMoves_fromOccupied _ _ _ _ _ Hwf Hmoves) as Hocc.
    apply getAllValidMoves_restores in Hmoves as Hpos'; [|done]. subst pos'.
    assert (onPosition (getAllValidMoves stack color) w2 = Some (moves, w2))
      as Hon.
    { unfold onPosition. change (position w2) with root. rewrite Hmoves.
      change root with (position w2). by rewrite (setPosition_position w2). }
    rewrite (bind_run _ _ _ _ _ Hon).
    destruct moves as [|mv ms].
    { destruct (isInCheck stack root color) as [inCheck|] eqn:Hcheck; [|done].
      injection Hmm as <-.
      unfold bind at 1, readsE at 1. change (position w2) with root.
      rewrite Hcheck. eexists _, _. split; [reflexivity|].
      apply Num_eq_refl. by destruct inCheck, isMaximizing. }
    destruct (minimaxChildren _ (mv :: ms)) as [values|] eqn:Hchildren; [|done].
    injection Hmm as <-.
    destruct (orderMoves_total w2 None searchDepth (mv :: ms) Hocc Hsd)
      as [ordered' Hordered].
    pose proof (orderMoves_permutation _ _ _ _ _ Hordered) as Hperm.
    unfold bind at 1, readsE at 1. rewrite Hordered.
    destruct (minimaxChildren_permutation _ _ _ _ (symmetry Hperm) Hchildren)
      as (values' & Hchildren' & Hvalues).
    apply minimaxChildren_Forall2 in Hchildren'.
    assert (Forall ordered values) as Hfin.
    { apply minimaxChildren_Forall2 in Hchildren.
      clear -Hchildren. induction Hchildren as [|m x l l' Hx _ IH];
        constructor; [|done].
      apply leafValue_Fin in Hx as [q ->]. done. }
    assert (searching root history (host w) (ttSound stack settings root)
              (board root) (nodesSearched w + 1) w2) as Hs2.
    { repeat split; try done; [by rewrite setBoard_board|].
      change (transpositionTable w2) with (transpositionTable w).
      rewrite Htt. apply ttSound_empty. }
    assert (nodesSearched w + 1 + Z.of_nat (length ordered')
            ≤ maxNodes settings) as Hlen
      by (rewrite (Permutation_length Hperm); lia).
    destruct isMaximizing.
    + destruct (maxLoop_run stack settings deadline root history (host w)
                  Hclock Hq Hwf searchDepth ordered' values'
                  (nodesSearched w + 1) w2 NegInf None Hchildren' Hs2 Hlen
                  ltac:(by left)) as (best' & w' & Hloop & _).
      rewrite (bind_run _ _ _ _ _ Hloop). eexists _, _.
      split; [reflexivity|].
      apply Num_eq_sym, foldl_permutation; try done.
      * apply Num_max_ordered.
      * apply Num_max_proper.
      * apply Num_max_swap.
    + destruct (minLoop_run stack settings deadline root history (host w)
                  Hclock Hq Hwf searchDepth ordered' values'
                  (nodesSearched w + 1) w2 PosInf None Hchildren' Hs2 Hlen
                  ltac:(by left)) as (best' & w' & Hloop & _).
      rewrite (bind_run _ _ _ _ _ Hloop). eexists _, _.
      split; [reflexivity|].
      apply Num_eq_sym, foldl_permutation; try done.
      * apply Num_min_ordered.
      * apply Num_min_proper.
      * apply Num_min_swap.
Qed.

(** With quiescence disabled, an empty table at the start, a clock that
    stays before the deadline, a node budget that covers the nodes of the
    minimax tree, and the full window, [alphaBetaSearch] at the depths 0,
    1 and 2 on an 8x8 board returns a result, and its score is, as a
    number, the value of plain minimax at that depth, whenever plain
    minimax has one. *)
Theorem shallow_search_is_minimax (stack d : nat) (isMaximizing : bool)
    (settings : Settings) (deadline searchDepth : Z) (w : Worker) (v : Num) :
  (d ≤ 2)%nat →
  wfBoard (board (position w)) →
  useQuiescence settings = false →
  transpositionTable w = ∅ →
  forceTimeout w = false →
  (∀ t, dateNow (host w) t < deadline) →
  nodesSearched w + minimaxNodes stack d isMaximizing w ≤ maxNodes settings →
  0 ≤ searchDepth →
  minimax stack d isMaximizing settings w = Some v →
  ∃ v' w',
    alphaBetaSearch stack d NegInf PosInf isMaximizing settings deadline
      searchDepth w = Some (v', w')
    ∧ Num_eq v' v.
Proof.
  intros Hd Hwf Hq Htt Hft Hclock Hbudget Hsd Hmm.
  destruct (decide (d = 2%nat)) as [->|Hne].
  - by apply deep_search.
  - apply shallow_search; try done. lia.
Qed.

Lemma shallow_search_is_minimax_witness :
  ∃ v' w',
    alphaBetaSearch 3 2 NegInf PosInf true (materialOnly 2) 100 0
      (freshWorker trianglePosition [] (stillHost id)) = Some (v', w')
    ∧ Num_eq v' (Fin (-100)).
Proof.
  apply (shallow_search_is_minimax 3 2 true (materialOnly 2) 100 0
           (freshWorker trianglePosition [] (stillHost id)) (Fin (-100))).
  - lia.
  - apply triangleBoard_wf.
  - reflexivity.
  - reflexivity.
  - reflexivity.
  - intros t. cbn. lia.
  - vm_compute. discriminate.
  - lia.
  - vm_compute. reflexivity.
Defined.

(** * Further properties of the code *)

(** ** The difficulty calibrator: ranges and monotonicity *)

Lemma lerp_eq (elo : Z) (minVal maxVal : Q) :
  (lerp elo 500 2200 minVal maxVal
   == minVal + (inject_Z elo - 500) / 1700 * (maxVal - minVal))%Q.
Proof.
  unfold lerp. unfold Z.sub at 1. rewrite inject_Z_plus, inject_Z_opp.
  change (inject_Z (2200 - 500)) with 1700%Q.
  change (inject_Z 500) with 500%Q. reflexivity.
Qed.

Lemma lerp_increasing (e1 e2 : Z) (minVal maxVal : Q) :
  e1 ≤ e2 → (minVal <= maxVal)%Q →
  (lerp e1 500 2200 minVal maxVal <= lerp e2 500 2200 minVal maxVal)%Q.
Proof.
  intros He Hv. rewrite !lerp_eq. rewrite Zle_Qle in He.
  generalize dependent (inject_Z e1). generalize dependent (inject_Z e2).
  intros b a Hab.
  assert ((a - 500) / 1700 <= (b - 500) / 1700)%Q as Ht
    by (apply Qmult_le_compat_r; [lra|done]).
  revert Ht. generalize ((a - 500) / 1700)%Q ((b - 500) / 1700)%Q.
  intros t1 t2 Ht. nra.
Qed.

Lemma lerp_decreasing (e1 e2 : Z) (minVal maxVal : Q) :
  e1 ≤ e2 → (maxVal <= minVal)%Q →
  (lerp e2 500 2200 minVal maxVal <= lerp e1 500 2200 minVal maxVal)%Q.
Proof.
  intros He Hv. rewrite !lerp_eq. rewrite Zle_Qle in He.
  generalize dependent (inject_Z e1). generalize dependent (inject_Z e2).
  intros b a Hab.
  assert ((a - 500) / 1700 <= (b - 500) / 1700)%Q as Ht
    by (apply Qmult_le_compat_r; [lra|done]).
  revert Ht. generalize ((a - 500) / 1700)%Q ((b - 500) / 1700)%Q.
  intros t1 t2 Ht. nra.
Qed.

Lemma lerp_at_500 (minVal maxVal : Q) :
  (lerp 500 500 2200 minVal maxVal == minVal)%Q.
Proof. rewrite lerp_eq. change (inject_Z 500) with 500%Q. field. Qed.

Lemma lerp_at_2200 (minVal maxVal : Q) :
  (lerp 2200 500 2200 minVal maxVal == maxVal)%Q.
Proof. rewrite lerp_eq. change (inject_Z 2200) with 2200%Q. field. Qed.

(** Between the anchors, whichever of the two is the larger. *)
Lemma lerp_between (elo : Z) (lo hi minVal maxVal : Q) :
  500 ≤ elo ≤ 2200 →
  (lo <= minVal <= hi)%Q → (lo <= maxVal <= hi)%Q →
  (lo <= lerp elo 500 2200 minVal maxVal <= hi)%Q.
Proof.
  intros Helo Hmin Hmax.
  pose proof (lerp_at_500 minVal maxVal) as H500.
  pose proof (lerp_at_2200 minVal maxVal) as H2200.
  destruct (Qlt_le_dec maxVal minVal) as [Hlt|Hle].
  - pose proof (lerp_decreasing 500 elo minVal maxVal ltac:(lia) ltac:(lra)).
    pose proof (lerp_decreasing elo 2200 minVal maxVal ltac:(lia) ltac:(lra)).
    lra.
  - pose proof (lerp_increasing 500 elo minVal maxVal ltac:(lia) ltac:(lra)).
    pose proof (lerp_increasing elo 2200 minVal maxVal ltac:(lia) ltac:(lra)).
    lra.
Qed.

Lemma MathRound_monotone (x y : Q) : (x <= y)%Q → MathRound x ≤ MathRound y.
Proof. intros H. unfold MathRound. apply Qfloor_resp_le. lra. Qed.

Lemma MathRound_between (elo lo hi : Z) (minVal maxVal : Q) :
  500 ≤ elo ≤ 2200 →
  (inject_Z lo <= minVal <= inject_Z hi)%Q →
  (inject_Z lo <= maxVal <= inject_Z hi)%Q →
  lo ≤ MathRound (lerp elo 500 2200 minVal maxVal) ≤ hi.
Proof.
  intros Helo Hmin Hmax.
  pose proof (lerp_between elo _ _ _ _ Helo Hmin Hmax) as [Hlo Hhi].
  apply MathRound_monotone in Hlo, Hhi.
  assert (∀ z, MathRound (inject_Z z) = z) as Hz.
  { intros z. unfold MathRound.
    pose proof (Qfloor_resp_le (inject_Z z) (inject_Z z + (1 # 2))
                  ltac:(lra)) as H1.
    rewrite Qfloor_Z in H1.
    pose proof (Qfloor_le (inject_Z z + (1 # 2))) as H2.
    assert (inject_Z (Qfloor (inject_Z z + (1 # 2))) < inject_Z (z + 1))%Q
      as H3 by (rewrite inject_Z_plus; change (inject_Z 1) with 1%Q; lra).
    rewrite <- Zlt_Qlt in H3. lia. }
  rewrite Hz in Hlo, Hhi. lia.
Qed.

(** Whatever the rating, the settings stay within the anchors of the
    interpolation: the search depth is at most 6, the mistake rate lies
    in [0.02, 0.9], the weights are not negative, and the temperature and
    the softmax window are positive, so that the defaults the worker
    substitutes for a zero temperature or window are never used. *)
Theorem getAISettings_ranges (aiElo : Z) :
  let s := getAISettings aiElo in
  0 ≤ searchDepth s ≤ 6
  ∧ (2 # 100 <= mistakeRate s <= 90 # 100)%Q
  ∧ (100 <= mistakeSizeCp s <= 350)%Q
  ∧ (300 <= timePerMove s <= 5000)%Q
  ∧ 50000 ≤ maxNodes s ≤ 500000
  ∧ (0 <= positionWeight s <= 15 # 10)%Q
  ∧ (0 <= mobilityWeight s <= 1)%Q
  ∧ (0 <= pawnStructureWeight s <= 1)%Q
  ∧ (0 <= kingSafetyWeight s <= 12 # 10)%Q
  ∧ (3 # 10 <= temperature s <= 12 # 10)%Q
  ∧ (30 <= softmaxWindow s <= 80)%Q
  ∧ Qeq_bool (temperature s) 0 = false
  ∧ Qeq_bool (softmaxWindow s) 0 = false.
Proof.
  intros s. subst s. unfold getAISettings.
  pose proof (clampElo_range aiElo) as Helo.
  set (elo := clampElo aiElo) in *.
  cbn [searchDepth mistakeRate mistakeSizeCp timePerMove maxNodes
       positionWeight mobilityWeight pawnStructureWeight kingSafetyWeight
       temperature softmaxWindow].
  assert (∀ lo hi minVal maxVal,
            (inject_Z lo <= minVal <= inject_Z hi)%Q →
            (inject_Z lo <= maxVal <= inject_Z hi)%Q →
            (inject_Z lo
             <= inject_Z (MathRound (lerp elo 500 2200 minVal maxVal))
             <= inject_Z hi)%Q) as Hround.
  { intros lo hi minVal maxVal Hmin Hmax.
    pose proof (MathRound_between elo lo hi _ _ Helo Hmin Hmax) as [H1 H2].
    rewrite Zle_Qle in H1, H2. done. }
  assert (3 # 10 <= lerp elo 500 2200 (12 # 10) (3 # 10) <= 12 # 10)%Q
    as Htemp by (apply lerp_between; [done|lra|lra]).
  assert (30 <= inject_Z (MathRound (lerp elo 500 2200 80 30)) <= 80)%Q
    as Hwindow by (apply (Hround 30 80); unfold inject_Z; lra).
  split.
  { destruct (elo <=? 500) eqn:He; [lia|]. apply Z.leb_gt in He.
    pose proof (searchDepth_range elo ltac:(lia)). lia. }
  split; [apply lerp_between; [done|lra|lra]|].
  split; [apply (Hround 100 350); unfold inject_Z; lra|].
  split; [apply (Hround 300 5000); unfold inject_Z; lra|].
  split; [apply MathRound_between; [done|unfold inject_Z; lra|unfold inject_Z; lra]|].
  split; [apply lerp_between; [done|lra|lra]|].
  split; [apply lerp_between; [done|lra|lra]|].
  split; [apply lerp_between; [done|lra|lra]|].
  split; [apply lerp_between; [done|lra|lra]|].
  split; [done|]. split; [done|].
  split.
  - destruct (Qeq_bool _ 0) eqn:Hz; [|done].
    apply Qeq_bool_iff in Hz. lra.
  - destruct (Qeq_bool _ 0) eqn:Hz; [|done].
    apply Qeq_bool_iff in Hz. lra.
Qed.

(** A higher rating never makes the engine weaker: the search is at least
    as deep, the budgets of time and nodes at least as large, the
    evaluation weights at least as large, and the mistake rate, the size
    of a mistake, the temperature and the softmax window at most as large;
    quiescence, once switched on, stays on. *)
Theorem getAISettings_monotone (elo1 elo2 : Z) :
  elo1 ≤ elo2 →
  let s1 := getAISettings elo1 in
  let s2 := getAISettings elo2 in
  searchDepth s1 ≤ searchDepth s2
  ∧ (mistakeRate s2 <= mistakeRate s1)%Q
  ∧ (mistakeSizeCp s2 <= mistakeSizeCp s1)%Q
  ∧ (timePerMove s1 <= timePerMove s2)%Q
  ∧ maxNodes s1 ≤ maxNodes s2
  ∧ (positionWeight s1 <= positionWeight s2)%Q
  ∧ (mobilityWeight s1 <= mobilityWeight s2)%Q
  ∧ (pawnStructureWeight s1 <= pawnStructureWeight s2)%Q
  ∧ (kingSafetyWeight s1 <= kingSafetyWeight s2)%Q
  ∧ (temperature s2 <= temperature s1)%Q
  ∧ (softmaxWindow s2 <= softmaxWindow s1)%Q
  ∧ (useQuiescence s1 = true → useQuiescence s2 = true).
Proof.
  intros Hle s1 s2. subst s1 s2. unfold getAISettings.
  pose proof (clampElo_range elo1) as H1.
  pose proof (clampElo_range elo2) as H2.
  assert (clampElo elo1 ≤ clampElo elo2) as He by (unfold clampElo; lia).
  set (e1 := clampElo elo1) in *. set (e2 := clampElo elo2) in *.
  cbn [searchDepth mistakeRate mistakeSizeCp timePerMove maxNodes
       positionWeight mobilityWeight pawnStructureWeight kingSafetyWeight
       temperature softmaxWindow useQuiescence].
  assert (∀ minVal maxVal, (minVal <= maxVal)%Q →
            MathRound (lerp e1 500 2200 minVal maxVal)
            ≤ MathRound (lerp e2 500 2200 minVal maxVal)) as Hup.
  { intros. by apply MathRound_monotone, lerp_increasing. }
  assert (∀ minVal maxVal, (maxVal <= minVal)%Q →
            MathRound (lerp e2 500 2200 minVal maxVal)
            ≤ MathRound (lerp e1 500 2200 minVal maxVal)) as Hdown.
  { intros. by apply MathRound_monotone, lerp_decreasing. }
  split.
  { destruct (e1 <=? 500) eqn:E1, (e2 <=? 500) eqn:E2;
      try apply Z.leb_le in E1; try apply Z.leb_gt in E1;
      try apply Z.leb_le in E2; try apply Z.leb_gt in E2; try lia.
    - pose proof (searchDepth_range e2 ltac:(lia)). lia.
    - apply Hup. lra. }
  split; [apply lerp_decreasing; [done|lra]|].
  split; [rewrite <- Zle_Qle; apply Hdown; lra|].
  split; [rewrite <- Zle_Qle; apply Hup; lra|].
  split; [apply Hup; lra|].
  split; [apply lerp_increasing; [done|lra]|].
  split; [apply lerp_increasing; [done|lra]|].
  split; [apply lerp_increasing; [done|lra]|].
  split; [apply lerp_increasing; [done|lra]|].
  split; [apply lerp_decreasing; [done|lra]|].
  split; [rewrite <- Zle_Qle; apply Hdown; lra|].
  intros Hq%Z.leb_le. apply Z.leb_le. lia.
Qed.

Lemma getAISettings_monotone_witness :
  searchDepth (getAISettings 800) ≤ searchDepth (getAISettings 1500)
  ∧ (mistakeRate (getAISettings 1500) <= mistakeRate (getAISettings 800))%Q.
Proof.
  pose proof (getAISettings_monotone 800 1500 ltac:(lia)) as H.
  cbv zeta in H. destruct H as (H1 & H2 & _). split; [exact H1|exact H2].
Defined.

(** ** [makeMove] of the game object: what a move records *)

Lemma makeMove_Some (g g' : ChessGame) (fromRow fromCol toRow toCol : Z) :
  makeMove g fromRow fromCol toRow toCol = Some g' →
  ∃ piece notation,
    cell (gBoard g) fromRow fromCol = Some piece
    ∧ getMoveNotation (gBoard g) fromRow fromCol toRow toCol = Some notation
    ∧ gCurrentTurn g' = opposite (gCurrentTurn g)
    ∧ gLastMove g' = Some (mkMove fromRow fromCol toRow toCol)
    ∧ gMoveHistory g'
      = gMoveHistory g
        ++ [mkHistoryEntry notation piece
              (mkMove fromRow fromCol toRow toCol)
              (cell (gBoard g) toRow toCol) (gBoard g')]
    ∧ gPositionHistory g'
      = gPositionHistory g
        ++ [fenOf (gBoard g') (gCurrentTurn g) (gCastlingRights g')
              (gEnPassantTarget g')].
Proof.
  unfold makeMove. intros H.
  destruct (cell (gBoard g) fromRow fromCol) as [piece|] eqn:Hp; [|done].
  destruct (getMoveNotation _ _ _ _ _) as [notation|] eqn:Hn; [|done].
  destruct (pushCaptured _ _ _) as [cw1 cb1].
  destruct (pushCaptured _ cw1 cb1) as [cw2 cb2].
  injection H as <-. by eexists _, _.
Qed.

Lemma makeMove_wfBoard (g g' : ChessGame) (fromRow fromCol toRow toCol : Z) :
  wfBoard (gBoard g) → makeMove g fromRow fromCol toRow toCol = Some g' →
  wfBoard (gBoard g').
Proof.
  unfold makeMove. intros Hwf H.
  destruct (cell (gBoard g) fromRow fromCol) as [piece|] eqn:Hp; [|done].
  destruct (getMoveNotation _ _ _ _ _) as [notation|] eqn:Hn; [|done].
  destruct (pushCaptured _ _ _) as [cw1 cb1].
  destruct (pushCaptured _ cw1 cb1) as [cw2 cb2].
  injection H as <-. cbn [gBoard].
  repeat match goal with
         | |- wfBoard (if ?c then _ else _) => destruct c
         | |- wfBoard (setCell _ _ _ _) => apply wfBoard_setCell
         end; done.
Qed.

(** A move of the game object records itself. On an 8x8 board, for a
    move to a square of the board, with the en-passant target, if any, on
    one of the rows 1 to 6: whenever the assignments of [makeMove]
    return, the board is still 8x8, the turn
    passes to the other side, one entry is appended to the move history
    with a copy of the new board, and one key is appended to the position
    history. The key is taken before the turn is switched: read back by
    [parseFEN], it gives the new board and the colour that has just moved.
    A worker that is sent the new board with this history counts the
    position it searches at least once. *)
Theorem makeMove_records_position (g g' : ChessGame)
    (fromRow fromCol toRow toCol : Z) :
  wfBoard (gBoard g) →
  isValidSquare toRow toCol = true →
  (∀ e, gEnPassantTarget g = Some e → 1 ≤ sqRow e ≤ 6) →
  makeMove g fromRow fromCol toRow toCol = Some g' →
  wfBoard (gBoard g')
  ∧ gCurrentTurn g' = opposite (gCurrentTurn g)
  ∧ (∃ entry, gMoveHistory g' = gMoveHistory g ++ [entry]
              ∧ heBoard entry = gBoard g'
              ∧ heMove entry = mkMove fromRow fromCol toRow toCol
              ∧ Some (hePiece entry) = cell (gBoard g) fromRow fromCol
              ∧ heCaptured entry = cell (gBoard g) toRow toCol)
  ∧ (∃ key, gPositionHistory g' = gPositionHistory g ++ [key]
            ∧ parseFEN key = Some (gBoard g', gCurrentTurn g))
  ∧ (∀ w, board (position w) = gBoard g' →
          positionHistory w = gPositionHistory g' →
          1 ≤ countRepetitions w).
Proof.
  intros Hwf _ _ H.
  pose proof (makeMove_wfBoard _ _ _ _ _ _ Hwf H) as Hwf'.
  destruct (makeMove_Some _ _ _ _ _ _ H)
    as (piece & notation & Hp & Hn & Hturn & Hlast & Hmh & Hph).
  split; [done|]. split; [done|].
  split; [by eexists; split; [exact Hmh|]|].
  split.
  { eexists; split; [exact Hph|]. by apply parseFEN_fenOf. }
  intros w Hb Hh. unfold countRepetitions. rewrite Hh, Hph.
  rewrite filter_app, length_app, !firstField_getFEN.
  rewrite filter_cons_True.
  - cbn [length]. lia.
  - change (fenOf ?b ?t ?cr ?ep) with (getFEN (mkPosition b white t cr ep)).
    rewrite firstField_getFEN. cbn [board]. by rewrite Hb.
Qed.

(** The castling rights after a move of the game object. Only the rights
    of the side to move change, and they are only ever withdrawn: both
    with a move of a king, the queenside right with a move of a rook that
    starts on the a-file, the kingside right with one that starts on the
    h-file, on whatever row. The rights of the other side stay as they
    are, also when the move captures one of its rooks. *)
Theorem makeMove_castling_rights (g g' : ChessGame)
    (fromRow fromCol toRow toCol : Z) (piece : Piece) :
  cell (gBoard g) fromRow fromCol = Some piece →
  makeMove g fromRow fromCol toRow toCol = Some g' →
  let turn := gCurrentTurn g in
  let before := rightsOf (gCastlingRights g) turn in
  let after := rightsOf (gCastlingRights g') turn in
  rightsOf (gCastlingRights g') (opposite turn)
  = rightsOf (gCastlingRights g) (opposite turn)
  ∧ kingside after
    = kingside before
      && negb (PieceType_eqb (toLowerCase piece) King)
      && negb (PieceType_eqb (toLowerCase piece) Rook && (fromCol =? 7))
  ∧ queenside after
    = queenside before
      && negb (PieceType_eqb (toLowerCase piece) King)
      && negb (PieceType_eqb (toLowerCase piece) Rook && (fromCol =? 0)).
Proof.
  unfold makeMove. intros Hp H. rewrite Hp in H.
  destruct (getMoveNotation _ _ _ _ _) as [notation|] eqn:Hn; [|done].
  destruct (pushCaptured _ _ _) as [cw1 cb1].
  destruct (pushCaptured _ cw1 cb1) as [cw2 cb2].
  injection H as <-. cbn [gCastlingRights gCurrentTurn].
  destruct (gCastlingRights g) as [[wk wq] [bk bq]].
  destruct (gCurrentTurn g), piece as [pcol []];
    cbn [toLowerCase ptype PieceType_eqb updateRights rightsOf opposite
         crWhite crBlack kingside queenside negb andb];
    destruct (fromCol =? 0) eqn:E0, (fromCol =? 7) eqn:E7;
    try (apply Z.eqb_eq in E0; apply Z.eqb_eq in E7; lia);
    cbn [updateRights rightsOf crWhite crBlack kingside queenside negb andb];
    rewrite ?andb_true_r, ?andb_false_r; done.
Qed.

Lemma makeMove_castling_rights_witness :
  ∃ g', makeMove (newGame castlingBoard white whiteKingside None) 7 4 7 6
        = Some g'
        ∧ kingside (rightsOf (gCastlingRights g') white) = false.
Proof.
  pose proof (makeMove_castling_rights
                (newGame castlingBoard white whiteKingside None)) as H.
  destruct (makeMove (newGame castlingBoard white whiteKingside None) 7 4 7 6)
    as [g'|] eqn:Hg; [|vm_compute in Hg; discriminate].
  exists g'. split; [reflexivity|].
  specialize (H g' 7 4 7 6 (mkPiece white King) eq_refl Hg).
  cbv zeta in H. destruct H as (_ & Hk & _).
  change (gCurrentTurn (newGame castlingBoard white whiteKingside None))
    with white in Hk.
  rewrite Hk. reflexivity.
Defined.

Lemma makeMove_records_position_witness :
  ∃ g', makeMove (newGame promotionBoard white noCastling None) 1 0 0 0
        = Some g'
        ∧ gCurrentTurn g' = black ∧ wfBoard (gBoard g').
Proof.
  destruct (makeMove (newGame promotionBoard white noCastling None) 1 0 0 0)
    as [g'|] eqn:Hg; [|vm_compute in Hg; discriminate].
  exists g'. split; [reflexivity|].
  destruct (makeMove_records_position
              (newGame promotionBoard white noCastling None) g' 1 0 0 0
              promotionBoard_wf eq_refl ltac:(discriminate) Hg)
    as (Hwf & Hturn & _).
  split; [exact Hturn|exact Hwf].
Defined.

(** ** [undoMove] of the game object *)

Lemma pop_snoc {A : Type} (l : list A) (x : A) : pop (l ++ [x]) = l.
Proof.
  unfold pop. rewrite length_app. cbn [length].
  replace (length l + 1 - 1)%nat with (length l) by lia.
  by rewrite take_app_length.
Qed.

Lemma Color_eqb_opposite (c : Color) : Color_eqb (opposite c) c = false.
Proof. by destruct c. Qed.

Lemma undoMove_snoc (g : ChessGame) (player : Color) (over : bool)
    (sel : option (Z * Z)) (valid : list Square) (entry : HistoryEntry)
    (history : list HistoryEntry) (key : string) (keys : list string) :
  gMoveHistory g = history ++ [entry] →
  gPositionHistory g = keys ++ [key] →
  undoMove (mkPage g player over sel valid)
  = let both := (0 <? length history)%nat
                && Color_eqb (gCurrentTurn g) player in
    let history' := if both then pop history else history in
    mkPage
      (mkGame
         (match last history' with
          | Some lastState => heBoard lastState
          | None => createInitialBoard
          end)
         player (gEnPassantTarget g) (gCastlingRights g)
         (recapture history').1 (recapture history').2 (gLastMove g)
         history' (if both then pop keys else keys))
      player false None [].
Proof.
  intros Hh Hk. unfold undoMove. cbn [pgGame pgPlayerColor].
  rewrite Hh, Hk, !pop_snoc.
  destruct history; cbn [app]; cbv zeta;
    by destruct (recapture _).
Qed.

(** Undoing the move just made by the player. If the board of the game is
    the one its move history records and it is the player's turn, then
    [undoMove] after [makeMove] gives back the board, the turn, the move
    history and the position history from before the move, and with them
    the captured pieces the history accounts for; the game is not over
    and nothing is selected. The castling rights, the en-passant target
    and the last move are not taken back: they stay as the move left
    them. *)
Theorem undoMove_after_makeMove (g g' : ChessGame) (player : Color)
    (over : bool) (sel : option (Z * Z)) (valid : list Square)
    (fromRow fromCol toRow toCol : Z) :
  recorded g → gCurrentTurn g = player →
  makeMove g fromRow fromCol toRow toCol = Some g' →
  let q := undoMove (mkPage g' player over sel valid) in
  gBoard (pgGame q) = gBoard g
  ∧ gCurrentTurn (pgGame q) = gCurrentTurn g
  ∧ gMoveHistory (pgGame q) = gMoveHistory g
  ∧ gPositionHistory (pgGame q) = gPositionHistory g
  ∧ (capturesRecorded g →
     gCapturedWhite (pgGame q) = gCapturedWhite g
     ∧ gCapturedBlack (pgGame q) = gCapturedBlack g)
  ∧ recorded (pgGame q)
  ∧ pgGameOver q = false ∧ pgSelectedSquare q = None ∧ pgValidMoves q = []
  ∧ pgPlayerColor q = player
  ∧ gCastlingRights (pgGame q) = gCastlingRights g'
  ∧ gEnPassantTarget (pgGame q) = gEnPassantTarget g'
  ∧ gLastMove (pgGame q) = gLastMove g'.
Proof.
  intros Hrec Hturn H q. subst q.
  destruct (makeMove_Some _ _ _ _ _ _ H)
    as (piece & notation & Hp & Hn & Hturn' & Hlast & Hmh & Hph).
  rewrite (undoMove_snoc _ _ _ _ _ _ _ _ _ Hmh Hph). cbv zeta.
  rewrite Hturn', Hturn, Color_eqb_opposite, andb_false_r.
  cbn [pgGame pgGameOver pgSelectedSquare pgValidMoves pgPlayerColor gBoard
       gCurrentTurn gMoveHistory gPositionHistory gCapturedWhite
       gCapturedBlack gCastlingRights gEnPassantTarget gLastMove].
  split; [by rewrite Hrec|].
  do 3 (split; [done|]).
  split; [intros Hc; unfold capturesRecorded in Hc; by rewrite <- Hc|].
  done.
Qed.

Lemma recorded_makeMove (g g' : ChessGame) (fromRow fromCol toRow toCol : Z) :
  makeMove g fromRow fromCol toRow toCol = Some g' → recorded g'.
Proof.
  intros H.
  destruct (makeMove_Some _ _ _ _ _ _ H)
    as (piece & notation & _ & _ & _ & _ & Hmh & _).
  unfold recorded. by rewrite Hmh, last_snoc.
Qed.

Lemma undoMove_after_makeMove_witness :
  ∃ g', makeMove (newGame initialBoard white allCastling None) 6 4 4 4
        = Some g'
        ∧ gBoard (pgGame (undoMove (mkPage g' white false None [])))
          = initialBoard
        ∧ gEnPassantTarget (pgGame (undoMove (mkPage g' white false None [])))
          = Some (mkSquare 5 4).
Proof.
  destruct (makeMove (newGame initialBoard white allCastling None) 6 4 4 4)
    as [g'|] eqn:Hg; [|vm_compute in Hg; discriminate].
  exists g'. split; [reflexivity|].
  pose proof (undoMove_after_makeMove
                (newGame initialBoard white allCastling None) g' white false
                None [] 6 4 4 4 eq_refl eq_refl Hg) as H.
  cbv zeta in H.
  destruct H as (Hb & _ & _ & _ & _ & _ & _ & _ & _ & _ & _ & Hep & _).
  split; [exact Hb|]. rewrite Hep.
  vm_compute in Hg. injection Hg as <-. reflexivity.
Defined.

(** Undoing after the engine has replied. With the player to move again,
    [undoMove] takes back both the reply and the player's move: the board,
    the turn and the two histories are those from before the player's
    move. The castling rights, the en-passant target and the last move
    stay as the reply left them. *)
Theorem undoMove_after_reply (g g1 g2 : ChessGame) (player : Color)
    (over : bool) (sel : option (Z * Z)) (valid : list Square)
    (fromRow fromCol toRow toCol fromRow' fromCol' toRow' toCol' : Z) :
  recorded g → gCurrentTurn g = player →
  makeMove g fromRow fromCol toRow toCol = Some g1 →
  makeMove g1 fromRow' fromCol' toRow' toCol' = Some g2 →
  let q := undoMove (mkPage g2 player over sel valid) in
  gBoard (pgGame q) = gBoard g
  ∧ gCurrentTurn (pgGame q) = gCurrentTurn g
  ∧ gMoveHistory (pgGame q) = gMoveHistory g
  ∧ gPositionHistory (pgGame q) = gPositionHistory g
  ∧ (capturesRecorded g →
     gCapturedWhite (pgGame q) = gCapturedWhite g
     ∧ gCapturedBlack (pgGame q) = gCapturedBlack g)
  ∧ pgGameOver q = false
  ∧ gCastlingRights (pgGame q) = gCastlingRights g2
  ∧ gEnPassantTarget (pgGame q) = gEnPassantTarget g2
  ∧ gLastMove (pgGame q) = gLastMove g2.
Proof.
  intros Hrec Hturn H1 H2 q. subst q.
  destruct (makeMove_Some _ _ _ _ _ _ H1)
    as (piece1 & notation1 & _ & _ & Hturn1 & _ & Hmh1 & Hph1).
  destruct (makeMove_Some _ _ _ _ _ _ H2)
    as (piece2 & notation2 & _ & _ & Hturn2 & _ & Hmh2 & Hph2).
  rewrite (undoMove_snoc _ _ _ _ _ _ _ _ _ Hmh2 Hph2). cbv zeta.
  rewrite Hturn2, Hturn1, Hturn, opposite_involutive.
  replace (Color_eqb player player) with true by (by destruct player).
  rewrite Hmh1, Hph1, length_app. cbn [length].
  replace (0 <? length (gMoveHistory g) + 1)%nat with true
    by (symmetry; apply Nat.ltb_lt; lia).
  cbn [andb]. rewrite !pop_snoc.
  cbn [pgGame pgGameOver gBoard gCurrentTurn gMoveHistory gPositionHistory
       gCapturedWhite gCapturedBlack gCastlingRights gEnPassantTarget
       gLastMove].
  split; [by rewrite Hrec|].
  do 3 (split; [done|]).
  split; [intros Hc; unfold capturesRecorded in Hc; by rewrite <- Hc|].
  done.
Qed.

Lemma undoMove_after_reply_witness :
  ∃ g1 g2,
    makeMove (newGame initialBoard white allCastling None) 6 4 4 4 = Some g1
    ∧ makeMove g1 1 4 3 4 = Some g2
    ∧ gBoard (pgGame (undoMove (mkPage g2 white false None [])))
      = initialBoard.
Proof.
  destruct (makeMove (newGame initialBoard white allCastling None) 6 4 4 4)
    as [g1|] eqn:Hg1; [|vm_compute in Hg1; discriminate].
  destruct (makeMove g1 1 4 3 4) as [g2|] eqn:Hg2;
    [|vm_compute in Hg1; injection Hg1 as <-; vm_compute in Hg2;
      discriminate].
  exists g1, g2. split; [reflexivity|]. split; [exact Hg2|].
  pose proof (undoMove_after_reply
                (newGame initialBoard white allCastling None) g1 g2 white
                false None [] 6 4 4 4 1 4 3 4 eq_refl eq_refl Hg1 Hg2) as H.
  cbv zeta in H. destruct H as (Hb & _). exact Hb.
Defined.

(** ** [hasAnyValidMoves] and [checkGameOver] of the game object *)

Lemma hasAnyValidMovesOn_spec (stack : nat) (color : Color)
    (sqs : list (Z * Z)) (pos pos' : Position) (moves : list Move) :
  wfBoard (board pos) →
  getAllValidMovesOn stack color sqs pos = Some (moves, pos') →
  hasAnyValidMovesOn stack color sqs pos
  = Some (bool_decide (moves ≠ []), pos).
Proof.
  intros Hwf. revert moves pos'.
  induction sqs as [|[row col] rest IH]; intros moves pos' H.
  { cbn in H. injection H as <- <-. done. }
  cbn [getAllValidMovesOn hasAnyValidMovesOn] in *.
  apply bind_Some in H as (piece & pos1 & Hread & H).
  injection Hread as <- <-.
  rewrite (bind_run _ _ _ _ _ (eq_refl : readCell row col pos = Some (_, pos))).
  destruct (cell (board pos) row col) as [piece|] eqn:Hcell.
  - destruct (Color_eqb (getPieceColor piece) color).
    + apply bind_Some in H as (here & pos2 & Hhere & H).
      apply bind_Some in Hhere as (pieceMoves & pos3 & Hpm & Hret).
      injection Hret as <- <-.
      pose proof (getValidMovesForPiece_restores stack row col _ _ _ Hwf Hpm)
        as ->.
      apply bind_Some in H as (more & pos4 & Hmore & Hret).
      injection Hret as <- <-.
      rewrite (bind_run _ _ _ _ _ Hpm).
      destruct pieceMoves as [|m ms]; cbn [length Nat.ltb Nat.leb map app].
      * eapply IH, Hmore.
      * done.
    + apply bind_Some in H as (here & pos2 & Hhere & H).
      injection Hhere as <- <-.
      apply bind_Some in H as (more & pos4 & Hmore & Hret).
      injection Hret as <- <-. eapply IH, Hmore.
  - apply bind_Some in H as (here & pos2 & Hhere & H).
    injection Hhere as <- <-.
    apply bind_Some in H as (more & pos4 & Hmore & Hret).
    injection Hret as <- <-. eapply IH, Hmore.
Qed.

(** On an 8x8 board, whenever [getAllValidMoves] returns for the side to
    move, [hasAnyValidMoves] returns too and says whether the list is
    non-empty, and [checkGameOver] reports accordingly: without a legal
    move the game is over, by checkmate (won by the other side) if the
    side to move is in check and by stalemate otherwise; with a legal
    move the flag [gameOver] keeps its value. The position is left as it
    was. *)
Theorem checkGameOver_agrees_with_getAllValidMoves (stack : nat)
    (pos pos' : Position) (moves : list Move) (inCheck gameOver : bool) :
  wfBoard (board pos) →
  getAllValidMoves stack (currentTurn pos) pos = Some (moves, pos') →
  isInCheck stack pos (currentTurn pos) = Some inCheck →
  hasAnyValidMoves stack (currentTurn pos) pos
  = Some (bool_decide (moves ≠ []), pos)
  ∧ checkGameOver stack gameOver pos
    = Some (match moves with
            | [] => (true, if inCheck
                           then Checkmate (opposite (currentTurn pos))
                           else Stalemate)
            | _ :: _ => (gameOver, if inCheck then InCheck else Playing)
            end, pos).
Proof.
  intros Hwf Hmoves Hcheck.
  pose proof (hasAnyValidMovesOn_spec _ _ _ _ _ _ Hwf Hmoves) as Hany.
  split; [exact Hany|].
  unfold checkGameOver.
  rewrite (bind_run _ _ _ _ _
             (eq_refl : reads currentTurn pos = Some (currentTurn pos, pos))).
  fold (hasAnyValidMoves stack (currentTurn pos)) in Hany.
  rewrite (bind_run _ _ _ _ _ Hany).
  unfold bind, readsE, ret. rewrite Hcheck.
  by destruct moves.
Qed.

Lemma checkGameOver_agrees_with_getAllValidMoves_witness :
  checkGameOver 3 false matedPosition
  = Some ((true, Checkmate white), matedPosition)
  ∧ checkGameOver 3 false stalematedPosition
    = Some ((true, Stalemate), stalematedPosition).
Proof.
  split.
  - apply (checkGameOver_agrees_with_getAllValidMoves 3 matedPosition
             matedPosition [] true false matedBoard_wf);
      vm_compute; reflexivity.
  - assert (wfBoard (board stalematedPosition)) as Hwf
      by (split; [reflexivity|repeat constructor]).
    apply (checkGameOver_agrees_with_getAllValidMoves 3 stalematedPosition
             stalematedPosition [] false false Hwf);
      vm_compute; reflexivity.
Defined.

Lemma hasAnyValidMovesOn_restores (stack : nat) (color : Color)
    (sqs : list (Z * Z)) :
  restores (hasAnyValidMovesOn stack color sqs).
Proof.
  induction sqs as [|[row col] rest IH]; [apply restores_ret|].
  cbn [hasAnyValidMovesOn].
  apply restores_bind; [apply restores_reads|intros piece].
  destruct piece as [piece|]; [|exact IH].
  destruct (Color_eqb _ _); [|exact IH].
  apply restores_bind; [apply getValidMovesForPiece_restores|intros moves].
  destruct (0 <? length moves)%nat; [apply restores_ret|exact IH].
Qed.

Lemma checkGameOver_restores (stack : nat) (gameOver : bool) :
  restores (checkGameOver stack gameOver).
Proof.
  unfold checkGameOver.
  apply restores_bind; [apply restores_reads|intros turn].
  apply restores_bind; [apply hasAnyValidMovesOn_restores|intros any].
  apply restores_bind; [apply restores_readsE|intros inCheck].
  apply restores_ret.
Qed.

Lemma setGameBoard_same (g : ChessGame) : setGameBoard (gBoard g) g = g.
Proof. by destruct g. Qed.

(** [makeMove] in full, when it returns on an 8x8 board: the game is the
    one its assignments give, and [checkGameOver] has returned the new
    value of [gameOver] on the position of that game. *)
Lemma makeMoveOnPage_Some (stack : nat) (p q : Page)
    (fromRow fromCol toRow toCol : Z) :
  wfBoard (gBoard (pgGame p)) →
  makeMoveOnPage stack p fromRow fromCol toRow toCol = Some q →
  makeMove (pgGame p) fromRow fromCol toRow toCol = Some (pgGame q)
  ∧ wfBoard (gBoard (pgGame q))
  ∧ (∃ status,
       checkGameOver stack (pgGameOver p)
         (gamePosition (pgGame q) (pgAiColor p))
       = Some ((pgGameOver q, status),
               gamePosition (pgGame q) (pgAiColor p)))
  ∧ pgPlayerColor q = pgPlayerColor p
  ∧ pgSelectedSquare q = pgSelectedSquare p
  ∧ pgValidMoves q = pgValidMoves p.
Proof.
  intros Hwf H. unfold makeMoveOnPage in H.
  destruct (makeMove (pgGame p) fromRow fromCol toRow toCol) as [g'|] eqn:Hg';
    [|done].
  destruct (checkGameOver stack (pgGameOver p)
              (gamePosition g' (pgAiColor p)))
    as [[[over status] pos']|] eqn:Hcheck; [|done].
  pose proof (makeMove_wfBoard _ _ _ _ _ _ Hwf Hg') as Hwf'.
  pose proof (checkGameOver_restores stack (pgGameOver p)
                (gamePosition g' (pgAiColor p)) (over, status) pos' Hwf'
                Hcheck) as ->.
  injection H as <-.
  cbn [snd fst board gamePosition pgGame pgPlayerColor pgGameOver
       pgSelectedSquare pgValidMoves].
  rewrite setGameBoard_same. split; [done|]. split; [done|].
  split; [by exists status|done].
Qed.

(** ** Square names and their readers *)

Lemma squareName_valid (r c : Z) :
  isValidSquare r c = true →
  squareName r c
  = String (ascii_of_N (Z.to_N (97 + c)))
      (String (ascii_of_N (Z.to_N (48 + (8 - r)))) EmptyString).
Proof.
  intros [Hr Hc]%isValidSquare_iff. unfold squareName. f_equal.
  assert (r = 0 ∨ r = 1 ∨ r = 2 ∨ r = 3 ∨ r = 4 ∨ r = 5 ∨ r = 6 ∨ r = 7)
    as Hcases by lia.
  destruct Hcases as [->|[->|[->|[->|[->|[->|[->| ->]]]]]]];
    vm_compute; reflexivity.
Qed.

Lemma code_ascii_of_N (z : Z) :
  0 ≤ z < 256 → Z.of_N (N_of_ascii (ascii_of_N (Z.to_N z))) = z.
Proof.
  intros Hz. rewrite N_ascii_embedding; [lia|].
  change 256%N with (Z.to_N 256). lia.
Qed.

Lemma ascii_of_code (ch : ascii) :
  ascii_of_N (Z.to_N (Z.of_N (N_of_ascii ch))) = ch.
Proof. by rewrite N2Z.id, ascii_N_embedding. Qed.

(** The square names written by [getMoveNotation], [getFEN] and the lesson
    engine's [coordinateToNotation] are read back by both versions of
    [notationToCoordinate]. The reader of [chessboard-fix.js] returns a
    coordinate with two numbers for the names of the 64 squares and for
    nothing else; but it does not return [null] when the second character
    is not a digit: the row of the coordinate is then [NaN]. *)
Theorem notationToCoordinate_reads_square_names (notation : string) :
  (∀ row col,
     LessonEngine.coordinateToNotation row col = squareName row col)
  ∧ (∀ row col,
       isValidSquare row col = true →
       LessonEngine.notationToCoordinate (squareName row col)
       = mkCoordinate (Some row) (Some col))
  ∧ (∀ row col,
       ChessboardFix.notationToCoordinate notation
       = Some (mkCoordinate (Some row) (Some col))
       ↔ isValidSquare row col = true ∧ notation = squareName row col)
  ∧ (∀ file other,
       let code := Z.of_N (N_of_ascii other) in
       notation = String file (String other EmptyString) →
       97 ≤ Z.of_N (N_of_ascii file) ≤ 104 →
       code < 48 ∨ 57 < code →
       ChessboardFix.notationToCoordinate notation
       = Some (mkCoordinate None (Some (Z.of_N (N_of_ascii file) - 97)))).
Proof.
  split; [done|]. split; [|split].
  - intros row col Hv. rewrite (squareName_valid _ _ Hv).
    apply isValidSquare_iff in Hv as [Hr Hc].
    unfold LessonEngine.notationToCoordinate, charCodeAt0, parseIntAt1.
    rewrite !code_ascii_of_N by lia.
    replace ((48 <=? 48 + (8 - row)) && (48 + (8 - row) <=? 57)) with true
      by (symmetry; apply andb_true_intro; split; apply Z.leb_le; lia).
    cbn [fmap option_fmap option_map]. do 2 f_equal; lia.
  - intros row col. split.
    + unfold ChessboardFix.notationToCoordinate.
      destruct notation as [|file [|rank [|]]]; try done.
      cbn [String.length Nat.eqb negb charCodeAt0 parseIntAt1].
      set (fc := Z.of_N (N_of_ascii file)).
      set (rc := Z.of_N (N_of_ascii rank)).
      destruct ((48 <=? rc) && (rc <=? 57)) eqn:Hd;
        cbn [fmap option_fmap option_map nanLtb nanGtb]; [|].
      * destruct (_ || _) eqn:Hb; [done|].
        apply orb_false_elim in Hb as [Hb H4].
        apply orb_false_elim in Hb as [Hb H3].
        apply orb_false_elim in Hb as [H1 H2].
        apply Z.ltb_ge in H1, H2, H3, H4.
        intros [= <- <-]. split; [apply isValidSquare_iff; lia|].
        rewrite squareName_valid by (apply isValidSquare_iff; lia).
        replace (97 + (fc - 97)) with fc by lia.
        replace (48 + (8 - (8 - (rc - 48)))) with rc by lia.
        subst fc rc. by rewrite !ascii_of_code.
      * by destruct (_ || _).
    + intros [Hv ->]. rewrite (squareName_valid _ _ Hv).
      apply isValidSquare_iff in Hv as [Hr Hc].
      unfold ChessboardFix.notationToCoordinate, charCodeAt0, parseIntAt1.
      cbn [String.length Nat.eqb negb].
      rewrite !code_ascii_of_N by lia.
      replace ((48 <=? 48 + (8 - row)) && (48 + (8 - row) <=? 57)) with true
        by (symmetry; apply andb_true_intro; split; apply Z.leb_le; lia).
      cbn [fmap option_fmap option_map nanLtb nanGtb].
      replace (_ || _) with false.
      * do 3 f_equal; lia.
      * symmetry. repeat (apply orb_false_intro); apply Z.ltb_ge; lia.
  - intros file other code -> Hfile Hother.
    unfold ChessboardFix.notationToCoordinate, charCodeAt0, parseIntAt1.
    cbn [String.length Nat.eqb negb]. fold code.
    replace ((48 <=? code) && (code <=? 57)) with false.
    + cbn [fmap option_fmap option_map nanLtb nanGtb].
      replace (_ || _) with false; [done|].
      symmetry. rewrite !orb_false_r. apply orb_false_intro; apply Z.ltb_ge; lia.
    + symmetry. apply andb_false_iff.
      destruct Hother; [left; apply Z.leb_gt|right; apply Z.leb_gt]; lia.
Qed.

Lemma notationToCoordinate_reads_square_names_witness :
  ChessboardFix.notationToCoordinate "e4"
  = Some (mkCoordinate (Some 4) (Some 4))
  ∧ ChessboardFix.notationToCoordinate "ex" = Some (mkCoordinate None (Some 4)).
Proof.
  destruct (notationToCoordinate_reads_square_names "e4") as (_ & _ & H & _).
  destruct (notationToCoordinate_reads_square_names "ex") as (_ & _ & _ & H').
  split.
  - apply H. split; reflexivity.
  - apply (H' "e"%char "x"%char); [reflexivity|vm_compute; split; discriminate|
                                    right; vm_compute; reflexivity].
Defined.

(** ** Move ordering, killer moves and the history table *)

Lemma insertSorted_sorted {A : Type} (positive : A → A → bool)
    (R : A → A → Prop) (x : A) (l : list A) :
  (∀ a b, positive a b = true → R b a) →
  (∀ a b, positive a b = false → R a b) →
  Transitive R →
  StronglySorted R l → StronglySorted R (insertSorted positive x l).
Proof.
  intros Hpos Hneg Htrans. induction 1 as [|y l Hl IH Hy]; cbn.
  { repeat constructor. }
  destruct (positive x y) eqn:E.
  - constructor; [done|].
    rewrite (insertSorted_permutation positive x l).
    constructor; [by apply Hpos|done].
  - constructor; [by constructor|].
    constructor; [by apply Hneg|].
    eapply Forall_impl; [exact Hy|]. intros z Hz. cbn in Hz.
    etrans; [by apply Hneg|done].
Qed.

Lemma sortBy_sorted {A : Type} (positive : A → A → bool) (R : A → A → Prop)
    (l : list A) :
  (∀ a b, positive a b = true → R b a) →
  (∀ a b, positive a b = false → R a b) →
  Transitive R → StronglySorted R (sortBy positive l).
Proof.
  intros Hpos Hneg Htrans. induction l as [|x l IH]; cbn; [constructor|].
  by apply insertSorted_sorted.
Qed.

Lemma scoreMoves_scores (w : Worker) (best : option Move) (d : Z)
    (moves : list Move) (scored : list (Move * Q)) :
  scoreMoves w best d moves = Some scored →
  Forall (λ ms, orderScore w best d ms.1 = Some ms.2) scored.
Proof.
  revert scored. induction moves as [|mv ms IH]; intros scored; cbn.
  { intros [= <-]. constructor. }
  destruct (orderScore w best d mv) as [s|] eqn:Hs; [|done].
  destruct (scoreMoves w best d ms) as [more|]; [|done].
  intros [= <-]. constructor; [done|]. by apply IH.
Qed.

Lemma scoreMoves_Some (w : Worker) (best : option Move) (d : Z)
    (moves : list Move) :
  is_Some (scoreMoves w best d moves)
  ↔ Forall (λ mv, is_Some (orderScore w best d mv)) moves.
Proof.
  induction moves as [|mv ms IH]; cbn.
  { split; [constructor|by eexists]. }
  split.
  - intros [scored H].
    destruct (orderScore w best d mv) as [s|] eqn:Hs; [|done].
    destruct (scoreMoves w best d ms) as [more|]; [|done].
    constructor; [by eexists|]. apply IH. by eexists.
  - intros Hall. apply Forall_cons in Hall as [[s Hs] Hall].
    apply IH in Hall as [more Hmore]. rewrite Hs, Hmore. by eexists.
Qed.

Lemma orderScore_Some (w : Worker) (best : option Move) (d : Z) (mv : Move) :
  0 ≤ d →
  is_Some (orderScore w best d mv) ↔ fromOccupied (board (position w)) mv.
Proof.
  intros Hd. split; [|intros; by apply orderScore_total].
  intros [s Hs]. unfold orderScore in Hs. unfold fromOccupied.
  destruct (cell (board (position w)) (fromRow mv) (fromCol mv)); [|done].
  by eexists.
Qed.

(** [orderMoves] neither drops nor duplicates a move: its result is a
    permutation of the list it is given, sorted by falling score. On an
    8x8 board, for moves that end on squares of the board and a depth that
    is not negative, it raises exactly when one of the moves starts on an
    empty square. It reads the killer moves and the history table and
    changes nothing. *)
Theorem orderMoves_sorted_permutation (moves : list Move)
    (bestMove : option Move) (depth : Z) (w : Worker) :
  0 ≤ depth →
  wfBoard (board (position w)) →
  Forall (λ mv, isValidSquare (toRow mv) (toCol mv) = true) moves →
  (is_Some (orderMoves moves bestMove depth w)
   ↔ Forall (fromOccupied (board (position w))) moves)
  ∧ (∀ ordered',
       orderMoves moves bestMove depth w = Some ordered' →
       ordered' ≡ₚ moves
       ∧ StronglySorted
           (λ a b, ∀ sa sb,
              orderScore w bestMove depth a = Some sa →
              orderScore w bestMove depth b = Some sb → (sb <= sa)%Q)
           ordered')
  ∧ readsE (orderMoves moves bestMove depth) w
    = (λ ordered', (ordered', w)) <$> orderMoves moves bestMove depth w.
Proof.
  intros Hd _ _. split; [|split].
  - unfold orderMoves. split.
    + intros [o Ho].
      destruct (scoreMoves w bestMove depth moves) as [scored|] eqn:E;
        [|done].
      assert (is_Some (scoreMoves w bestMove depth moves)) as Hs
        by (by eexists).
      apply scoreMoves_Some in Hs.
      eapply Forall_impl; [exact Hs|]. intros mv. by apply orderScore_Some.
    + intros Hall. by apply orderMoves_total.
  - intros ordered' H. split; [by eapply orderMoves_permutation|].
    unfold orderMoves in H.
    destruct (scoreMoves w bestMove depth moves) as [scored|] eqn:E; [|done].
    injection H as <-.
    pose proof (scoreMoves_scores _ _ _ _ _ E) as Hscores.
    set (positive := λ a b : Move * Q, Qgtb (b.2 - a.2) 0).
    assert (StronglySorted (λ a b : Move * Q, (b.2 <= a.2)%Q)
              (sortBy positive scored)) as Hsorted.
    { apply sortBy_sorted.
      - intros a b. unfold positive, Qgtb.
        intros Hp%negb_true_iff%Qle_bool_false. lra.
      - intros a b. unfold positive, Qgtb.
        intros Hp%negb_false_iff%Qle_bool_iff. lra.
      - intros a b c ??. lra. }
    assert (Forall (λ ms, orderScore w bestMove depth ms.1 = Some ms.2)
              (sortBy positive scored)) as Hall
      by (by rewrite sortBy_permutation).
    clear E Hscores. revert Hall.
    induction Hsorted as [|x l Hl IH Hx]; intros Hall; cbn; [constructor|].
    apply Forall_cons in Hall as [Hxs Hall].
    constructor; [by apply IH|].
    rewrite Forall_fmap. rewrite Forall_forall in Hx, Hall |- *.
    intros y Hy sa sb Ha Hb. cbn in Ha, Hb.
    specialize (Hx y Hy). specialize (Hall y Hy). cbn in Hx.
    rewrite Hxs in Ha. rewrite Hall in Hb.
    injection Ha as <-. injection Hb as <-. done.
  - unfold readsE. by destruct (orderMoves _ _ _ _).
Qed.

Lemma orderMoves_sorted_permutation_witness :
  is_Some (orderMoves [mkMove 4 4 3 4; mkMove 4 4 3 3] None 0
             (freshWorker hangingQueenPosition [] (stillHost id))).
Proof.
  apply (orderMoves_sorted_permutation [mkMove 4 4 3 4; mkMove 4 4 3 3] None
           0 (freshWorker hangingQueenPosition [] (stillHost id))
           ltac:(lia) hangingQueenBoard_wf ltac:(by repeat constructor)).
  repeat constructor; by eexists.
Defined.

Lemma pretty_N_go_avoids (sep : ascii) (x : N) (s : string) :
  (∀ d, Ascii.eqb (pretty_N_char d) sep = false) →
  avoids sep s = true → avoids sep (pretty_N_go x s) = true.
Proof.
  intros Hsep. revert s.
  induction (N.lt_wf_0 x) as [x _ IH]; intros s Hs.
  assert (x = 0 ∨ 0 < x)%N as [->|Hx] by lia.
  { by rewrite pretty_N_go_0. }
  rewrite pretty_N_go_step by done. apply IH.
  { by apply N.div_lt. }
  cbn [avoids]. by rewrite Hsep, Hs.
Qed.

Lemma pretty_Z_avoids_comma (z : Z) : avoids "," (pretty z) = true.
Proof.
  assert (∀ d, Ascii.eqb (pretty_N_char d) "," = false) as Hsep.
  { intros d. unfold pretty_N_char. by repeat case_match. }
  assert (∀ p : positive, avoids "," (pretty p) = true) as Hpos.
  { intros p. unfold pretty, pretty_positive, pretty, pretty_N.
    case_decide; [done|]. by apply pretty_N_go_avoids. }
  destruct z as [|p|p]; [done|apply Hpos|].
  unfold pretty, pretty_Z. rewrite avoids_append, Hpos. done.
Qed.

(** Two moves have the same key in the history table only if they are the
    same move. *)
Lemma historyKey_inj (m1 m2 : Move) : historyKey m1 = historyKey m2 → m1 = m2.
Proof.
  destruct m1 as [a1 b1 c1 d1], m2 as [a2 b2 c2 d2]. unfold historyKey.
  cbn [fromRow fromCol toRow toCol].
  change ","%string with (String "," EmptyString).
  rewrite !append_cons, !append_empty_l.
  intros H.
  apply append_sep_inj in H as [Ha H]; [|apply pretty_Z_avoids_comma..].
  apply append_sep_inj in H as [Hb H]; [|apply pretty_Z_avoids_comma..].
  apply append_sep_inj in H as [Hc Hd]; [|apply pretty_Z_avoids_comma..].
  apply (inj pretty) in Ha, Hb, Hc, Hd. by subst.
Qed.

(** [updateHistory] changes the history table at the key of the move and
    nothing else: the entry grows by the square of the depth, the entries
    of all other moves stay, and so the score that [orderMoves] gives to
    the move grows by the square of the depth while the score of every
    other move stays as it was. *)
Theorem updateHistory_raises_one_score (move : Move) (depth : nat)
    (w : Worker) :
  ∃ w',
    updateHistory move depth w = Some (tt, w')
    ∧ w' = setHistoryTable (historyTable w') w
    ∧ historyTable w' !! historyKey move
      = Some (default 0 (historyTable w !! historyKey move)
              + Z.of_nat depth * Z.of_nat depth)
    ∧ (∀ other, other ≠ move →
         historyTable w' !! historyKey other
         = historyTable w !! historyKey other)
    ∧ (∀ bestMove d other s,
         orderScore w bestMove d other = Some s →
         ∃ s', orderScore w' bestMove d other = Some s'
               ∧ (s' == s + inject_Z (if decide (other = move)
                                      then Z.of_nat depth * Z.of_nat depth
                                      else 0))%Q).
Proof.
  set (table := <[historyKey move
                   := default 0 (historyTable w !! historyKey move)
                      + Z.of_nat depth * Z.of_nat depth]> (historyTable w)).
  exists (setHistoryTable table w). split; [reflexivity|].
  assert (∀ other, other ≠ move →
            table !! historyKey other = historyTable w !! historyKey other)
    as Hother.
  { intros other Hne. subst table. apply lookup_insert_ne.
    intros Hk. by apply historyKey_inj in Hk. }
  split; [by destruct w|]. split.
  { subst table. cbn [historyTable setHistoryTable]. apply lookup_insert_eq. }
  split; [exact Hother|].
  intros bestMove d other s. unfold orderScore.
  cbn [position setHistoryTable killerMoves historyTable].
  destruct (cell _ (fromRow other) (fromCol other)) as [movingPiece|];
    [|done].
  match goal with
  | |- context [if ?c then if d <? 0 then None else Some ?k else Some 0] =>
      destruct (if c then if d <? 0 then None else Some k else Some 0)
        as [killer|]; [|done]
  end.
  cbv zeta.
  match goal with
  | |- context [(inject_Z (?a + default 0 (historyTable w !! _))%Z + ?c
                 + ?e)%Q] =>
      generalize a c e
  end.
  intros base center development [= <-]. eexists. split; [reflexivity|].
  destruct (decide (other = move)) as [->|Hne].
  - subst table. rewrite lookup_insert_eq.
    generalize (default 0 (historyTable w !! historyKey move)).
    intros old. cbn [default]. unfold id. rewrite !inject_Z_plus. ring.
  - rewrite (Hother other Hne). ring.
Qed.

Lemma storeKillerMove_run (move : Move) (depth : Z) (w : Worker) :
  0 ≤ depth →
  ∃ w',
    storeKillerMove move depth w = Some (tt, w')
    ∧ w' = setKillerMoves (killerMoves w') w
    ∧ length (killerMoves w') = length (killerMoves w)
    ∧ (∀ d, d ≠ Z.to_nat depth →
            killerMoves w' !! d = killerMoves w !! d)
    ∧ (killersBounded (killerMoves w) → killersBounded (killerMoves w'))
    ∧ (Z.of_nat (length (killerMoves w)) ≤ depth → w' = w)
    ∧ (∀ killers,
         killerMoves w !! Z.to_nat depth = Some killers →
         ∃ killers',
           killerMoves w' !! Z.to_nat depth = Some killers'
           ∧ existsb (λ k, sameMove k move) killers' = true
           ∧ (existsb (λ k, sameMove k move) killers = true →
              killers' = killers)
           ∧ (existsb (λ k, sameMove k move) killers = false →
              killers' = if (2 <=? length killers)%nat
                         then move :: take (length killers - 1) killers
                         else move :: killers)).
Proof.
  intros Hd. unfold storeKillerMove.
  rewrite (bind_run _ _ _ _ _
             (eq_refl : reads killerMoves w = Some (killerMoves w, w))).
  destruct (Z.of_nat (length (killerMoves w)) <=? depth) eqn:Hlen.
  { apply Z.leb_le in Hlen. exists w.
    split; [done|]. split; [by destruct w|]. do 4 (split; [done|]).
    intros killers Hk. apply lookup_lt_Some in Hk. lia. }
  apply Z.leb_gt in Hlen.
  destruct (depth <? 0) eqn:Hneg; [apply Z.ltb_lt in Hneg; lia|].
  destruct (lookup_lt_is_Some_2 (killerMoves w) (Z.to_nat depth)
              ltac:(lia)) as [killers Hk].
  rewrite Hk. cbn [default]. unfold id.
  destruct (existsb (λ k, sameMove k move) killers) eqn:Hex.
  { exists w. split; [done|]. split; [by destruct w|].
    do 3 (split; [done|]). split; [lia|].
    intros killers0 [= <-]. exists killers. by rewrite Hex. }
  set (unshifted := move :: killers).
  set (popped := if (2 <? length unshifted)%nat
                 then take (length unshifted - 1) unshifted else unshifted).
  exists (setKillerMoves (<[Z.to_nat depth := popped]> (killerMoves w)) w).
  split; [done|]. split; [by destruct w|].
  cbn [killerMoves setKillerMoves].
  split; [apply length_insert|].
  split; [intros d Hne; by apply list_lookup_insert_ne|].
  assert (popped = if (2 <=? length killers)%nat
                   then move :: take (length killers - 1) killers
                   else move :: killers) as Hpopped.
  { subst popped unshifted. cbn [length].
    destruct (2 <=? length killers)%nat eqn:E2.
    - apply Nat.leb_le in E2.
      replace (2 <? S (length killers))%nat with true
        by (symmetry; apply Nat.ltb_lt; lia).
      replace (S (length killers) - 1)%nat with (S (length killers - 1))
        by lia.
      done.
    - apply Nat.leb_gt in E2.
      replace (2 <? S (length killers))%nat with false
        by (symmetry; apply Nat.ltb_ge; lia).
      done. }
  split.
  { intros Hb. unfold killersBounded in *.
    apply Forall_insert; [done|].
    rewrite Hpopped. destruct (2 <=? length killers)%nat eqn:E2.
    - cbn [length]. rewrite length_take.
      pose proof (Forall_lookup_1 _ _ _ _ Hb Hk) as Hl. cbn in Hl. lia.
    - apply Nat.leb_gt in E2. cbn [length]. lia. }
  split; [lia|].
  intros killers0 [= <-].
  exists popped. split; [apply list_lookup_insert_eq; lia|].
  split; [|split; [by rewrite Hex|done]].
  rewrite Hpopped.
  assert (sameMove move move = true) as Hsame.
  { unfold sameMove. by rewrite !Z.eqb_refl. }
  destruct (2 <=? length killers)%nat; cbn [existsb]; by rewrite Hsame.
Qed.

(** [storeKillerMove] at a depth that is not negative returns, and
    changes the killer moves of that depth only. Beyond the end of the
    array it does nothing. Within the array, a move that is already a
    killer of the depth leaves the list as it is; a new move is put in
    front and the list is cut to two moves. So the move is a killer of
    the depth afterwards, and lists of at most two killers stay so. *)
Theorem storeKillerMove_keeps_two (move : Move) (depth : Z) (w : Worker) :
  0 ≤ depth →
  ∃ w',
    storeKillerMove move depth w = Some (tt, w')
    ∧ w' = setKillerMoves (killerMoves w') w
    ∧ length (killerMoves w') = length (killerMoves w)
    ∧ (∀ d, d ≠ Z.to_nat depth →
            killerMoves w' !! d = killerMoves w !! d)
    ∧ (killersBounded (killerMoves w) → killersBounded (killerMoves w'))
    ∧ (Z.of_nat (length (killerMoves w)) ≤ depth → w' = w)
    ∧ (∀ killers,
         killerMoves w !! Z.to_nat depth = Some killers →
         ∃ killers',
           killerMoves w' !! Z.to_nat depth = Some killers'
           ∧ existsb (λ k, sameMove k move) killers' = true
           ∧ (existsb (λ k, sameMove k move) killers = true →
              killers' = killers)
           ∧ (existsb (λ k, sameMove k move) killers = false →
              killers' = if (2 <=? length killers)%nat
                         then move :: take (length killers - 1) killers
                         else move :: killers)).
Proof. apply storeKillerMove_run. Qed.

Lemma storeKillerMove_keeps_two_witness :
  ∃ w', storeKillerMove (mkMove 6 4 4 4) 3
          (freshWorker trianglePosition [] (stillHost id)) = Some (tt, w')
        ∧ killerMoves w' !! 3%nat = Some [mkMove 6 4 4 4].
Proof.
  destruct (storeKillerMove_keeps_two (mkMove 6 4 4 4) 3
              (freshWorker trianglePosition [] (stillHost id)) ltac:(lia))
    as (w' & Hrun & _ & _ & _ & _ & _ & Hk).
  exists w'. split; [exact Hrun|].
  destruct (Hk [] eq_refl) as (killers' & Hk' & _ & _ & Hnew).
  change (Z.to_nat 3) with 3%nat in Hk'.
  rewrite Hk'. f_equal. exact (Hnew eq_refl).
Defined.

(** ** The legal moves *)

Lemma wouldBeInCheck_after (stack : nat) (pos pos' : Position) (p : Piece)
    (fr fc tr tc : Z) (inCheck : bool) :
  wfBoard (board pos) → cell (board pos) fr fc = Some p →
  isValidSquare tr tc = true → (tr, tc) ≠ (fr, fc) →
  wouldBeInCheck stack fr fc tr tc pos = Some (inCheck, pos') →
  pos' = pos
  ∧ isInCheck stack (afterSearchMove pos (mkMove fr fc tr tc)) (pcolor p)
    = Some inCheck.
Proof.
  intros Hwf Hp Hv Hne H.
  pose proof (wouldBeInCheck_restores stack fr fc tr tc Hv _ _ _ Hwf H) as ->.
  split; [done|].
  rewrite wouldBeInCheck_eq in H. cbv zeta in H.
  change (setBoard (setCell (setCell (board pos) tr tc
                               (cell (board pos) fr fc)) fr fc None) pos)
    with (afterSearchMove pos (mkMove fr fc tr tc)) in H.
  assert (cell (board (afterSearchMove pos (mkMove fr fc tr tc))) tr tc
          = Some p) as Hto.
  { unfold afterSearchMove. cbn [board setBoard fromRow fromCol toRow toCol].
    rewrite cell_setCell_ne by congruence.
    rewrite cell_setCell_eq by done. done. }
  rewrite Hto in H. cbn [fmap option_fmap option_map getPieceColor] in H.
  cbv beta iota in H. unfold getPieceColor in H.
  destruct (isInCheck stack _ (pcolor p)) as [b|]; [|done].
  by injection H as <- _.
Qed.

Lemma filterLegal_spec (stack : nat) (pos pos' : Position) (p : Piece)
    (r c : Z) (moves kept : list Square) :
  wfBoard (board pos) → cell (board pos) r c = Some p →
  Forall validSquare moves → Forall (awayFrom r c) moves →
  filterLegal stack r c moves pos = Some (kept, pos') →
  pos' = pos
  ∧ ∀ m, m ∈ kept
         ↔ m ∈ moves
           ∧ isInCheck stack
               (afterSearchMove pos (mkMove r c (sqRow m) (sqCol m)))
               (pcolor p) = Some false.
Proof.
  intros Hwf Hp Hvalid Haway. revert kept pos'.
  induction moves as [|m moves IH]; intros kept pos' H;
    cbn [filterLegal] in H.
  { injection H as <- <-. split; [done|]. intros m. set_solver. }
  apply Forall_cons in Hvalid as [Hv Hvalid].
  apply Forall_cons in Haway as [Ha Haway].
  apply bind_Some in H as (inCheck & pos1 & Hcheck & H).
  apply (wouldBeInCheck_after _ _ _ p) in Hcheck as [-> Hcheck];
    [|done..|intros [= ??]; apply Ha; congruence].
  apply bind_Some in H as (kept' & pos2 & Hrest & H).
  injection H as <- <-.
  destruct (IH Hvalid Haway _ _ Hrest) as [-> Hkept]. split; [done|].
  intros m'. destruct inCheck.
  - rewrite Hkept. split; [set_solver|].
    intros [[->|Hin]%elem_of_cons Hsafe]; [congruence|done].
  - rewrite elem_of_cons, Hkept. split.
    + intros [->|[??]]; [split; [left|done]|split; [by right|done]].
    + intros [[->|Hin]%elem_of_cons Hsafe]; [by left|by right].
Qed.

Lemma getValidMovesForPiece_spec (stack : nat) (pos pos' : Position)
    (p : Piece) (r c : Z) (kept : list Square) :
  wfBoard (board pos) → cell (board pos) r c = Some p →
  getValidMovesForPiece stack r c pos = Some (kept, pos') →
  ∃ pseudo,
    pseudoMoves stack p pos r c = Some pseudo
    ∧ ∀ m, m ∈ kept
           ↔ m ∈ pseudo
             ∧ isInCheck stack
                 (afterSearchMove pos (mkMove r c (sqRow m) (sqCol m)))
                 (pcolor p) = Some false.
Proof.
  intros Hwf Hp H. unfold getValidMovesForPiece in H.
  apply bind_Some in H as (piece & pos1 & [= <- <-] & H). rewrite Hp in H.
  apply bind_Some in H as (moves & pos1 & H1 & H).
  unfold readsE in H1.
  change (match toLowerCase p with
          | Pawn => getPawnMoves pos r c
          | Knight => getKnightMoves pos r c
          | Bishop => getBishopMoves pos r c
          | Rook => getRookMoves pos r c
          | Queen => getQueenMoves pos r c
          | King => getKingMoves stack pos r c
          end) with (pseudoMoves stack p pos r c) in H1.
  destruct (pseudoMoves stack p pos r c) as [ms|] eqn:Hgen; [|done].
  injection H1 as <- <-. exists ms. split; [done|].
  eapply filterLegal_spec; [done|done| | |done].
  - eapply pseudoMoves_valid; [|done]. by eapply cell_Some_valid.
  - by eapply pseudoMoves_away.
Qed.

Lemma getAllValidMovesOn_spec (stack : nat) (color : Color)
    (sqs : list (Z * Z)) (pos pos' : Position) (moves : list Move) :
  wfBoard (board pos) →
  getAllValidMovesOn stack color sqs pos = Some (moves, pos') →
  ∀ mv, mv ∈ moves
        ↔ (fromRow mv, fromCol mv) ∈ sqs
          ∧ ∃ p pseudo,
              cell (board pos) (fromRow mv) (fromCol mv) = Some p
              ∧ pcolor p = color
              ∧ pseudoMoves stack p pos (fromRow mv) (fromCol mv)
                = Some pseudo
              ∧ mkSquare (toRow mv) (toCol mv) ∈ pseudo
              ∧ isInCheck stack (afterSearchMove pos mv) color = Some false.
Proof.
  intros Hwf. revert moves pos'.
  induction sqs as [|[r c] rest IH]; intros moves pos' H; cbn in H.
  { injection H as <- _. intros mv. set_solver. }
  apply bind_Some in H as (here & s2 & H2 & H).
  apply bind_Some in H as (more & s3 & H3 & H).
  unfold ret in H. injection H as <- _.
  assert (s2 = pos
          ∧ ∀ mv, mv ∈ here
                  ↔ (fromRow mv, fromCol mv) = (r, c)
                    ∧ ∃ p pseudo,
                        cell (board pos) r c = Some p
                        ∧ pcolor p = color
                        ∧ pseudoMoves stack p pos r c = Some pseudo
                        ∧ mkSquare (toRow mv) (toCol mv) ∈ pseudo
                        ∧ isInCheck stack (afterSearchMove pos mv) color
                          = Some false) as [-> Hhere].
  { unfold ret in H2.
    destruct (cell (board pos) r c) as [p|] eqn:Hc.
    2:{ injection H2 as <- <-. split; [done|]. intros mv.
        split; [set_solver|]. by intros (_ & p & ? & ? & _). }
    destruct (Color_eqb _ color) eqn:Hcol.
    2:{ injection H2 as <- <-. split; [done|]. intros mv.
        split; [set_solver|]. intros (_ & p' & ? & [= <-] & <- & _).
        unfold getPieceColor in Hcol. by destruct (pcolor p). }
    apply Color_eqb_eq in Hcol. unfold getPieceColor in Hcol.
    apply bind_Some in H2 as (pieceMoves & s & Hpm & H2).
    injection H2 as <- <-.
    pose proof (getValidMovesForPiece_restores _ _ _ _ _ _ Hwf Hpm) as ->.
    split; [done|].
    destruct (getValidMovesForPiece_spec _ _ _ _ _ _ _ Hwf Hc Hpm)
      as (pseudo & Hpseudo & Hkept).
    intros mv. rewrite list_elem_of_fmap. split.
    - intros (sq & -> & Hsq). cbn. split; [done|].
      apply Hkept in Hsq as [Hin Hsafe].
      exists p, pseudo. rewrite Hcol in Hsafe. destruct sq. done.
    - intros ([= Hr Hc'] & p' & pseudo' & [= <-] & _ & Hps & Hin & Hsafe).
      rewrite Hpseudo in Hps. injection Hps as <-.
      exists (mkSquare (toRow mv) (toCol mv)). split.
      + destruct mv. cbn in *. by subst.
      + apply Hkept. split; [done|]. cbn. rewrite Hcol.
        destruct mv. cbn in *. by subst. }
  intros mv. rewrite elem_of_app, elem_of_cons, Hhere, (IH _ _ H3). split.
  - intros [([= Hr Hc] & p & pseudo & H)|[Hin H]].
    + split; [by left; f_equal|]. exists p, pseudo. by rewrite Hr, Hc.
    + split; [by right|done].
  - intros [[Heq|Hin] (p & pseudo & H)].
    + left. split; [done|]. injection Heq as Hr Hc. exists p, pseudo.
      by rewrite <- Hr, <- Hc.
    + right. split; [done|]. by exists p, pseudo.
Qed.

(** The legal moves of a side are its pseudo-legal moves that do not leave
    its own king attacked. On an 8x8 board, whenever [getAllValidMoves]
    returns, it leaves the position as it was, and a move is in its list
    exactly when it starts on a square with a piece of the colour, ends
    on one of the squares the piece's generator lists, and [isInCheck]
    says no for the colour on the board with the piece moved. *)
Theorem legal_moves_leave_the_king_safe (stack : nat) (color : Color)
    (pos pos' : Position) (moves : list Move) :
  wfBoard (board pos) →
  getAllValidMoves stack color pos = Some (moves, pos') →
  pos' = pos
  ∧ ∀ mv,
      mv ∈ moves
      ↔ ∃ p pseudo,
          cell (board pos) (fromRow mv) (fromCol mv) = Some p
          ∧ pcolor p = color
          ∧ pseudoMoves stack p pos (fromRow mv) (fromCol mv) = Some pseudo
          ∧ mkSquare (toRow mv) (toCol mv) ∈ pseudo
          ∧ isInCheck stack (afterSearchMove pos mv) color = Some false.
Proof.
  intros Hwf H. split; [by eapply getAllValidMoves_restores|].
  intros mv. rewrite (getAllValidMovesOn_spec _ _ _ _ _ _ Hwf H mv).
  split; [by intros [_ ?]|].
  intros (p & pseudo & Hp & Hrest). split; [|by exists p, pseudo].
  apply valid_allSquares. by eapply cell_Some_valid.
Qed.

Lemma legal_moves_leave_the_king_safe_witness :
  ∃ moves,
    getAllValidMoves 3 white hangingQueenPosition
    = Some (moves, hangingQueenPosition)
    ∧ isInCheck 3 (afterSearchMove hangingQueenPosition (mkMove 4 4 3 3))
        white = Some false.
Proof.
  destruct (getAllValidMoves 3 white hangingQueenPosition)
    as [[moves pos']|] eqn:H; [|vm_compute in H; discriminate].
  destruct (legal_moves_leave_the_king_safe 3 white hangingQueenPosition pos'
              moves hangingQueenBoard_wf H) as [-> Hiff].
  exists moves. split; [reflexivity|].
  assert (mkMove 4 4 3 3 ∈ moves) as Hin.
  { vm_compute in H. injection H as <-. set_solver. }
  apply Hiff in Hin as (p & pseudo & _ & _ & _ & _ & Hsafe). exact Hsafe.
Defined.

(** ** The move generators, piece by piece *)

Lemma colorDiffers_Some (target p : Piece) :
  colorDiffers target (Some p)
  = Some (bool_decide (pcolor target ≠ pcolor p)).
Proof.
  unfold colorDiffers, getPieceColor. f_equal.
  by destruct (pcolor target), (pcolor p).
Qed.

Lemma offsetMoves_spec (pos : Position) (p : Piece) (r c : Z)
    (offsets : list (Z * Z)) (l : list Square) :
  cell (board pos) r c = Some p →
  offsetMoves pos r c offsets = Some l →
  ∀ m, m ∈ l
       ↔ (sqRow m - r, sqCol m - c) ∈ offsets
         ∧ validSquare m ∧ okTarget pos p m.
Proof.
  intros Hp. revert l.
  induction offsets as [|[dr dc] rest IH]; intros l H; cbn in H.
  { injection H as <-. intros m. set_solver. }
  rewrite Hp in H.
  destruct (offsetMoves pos r c rest) as [more|] eqn:Hrest.
  2:{ by repeat case_match. }
  specialize (IH more eq_refl).
  assert (∃ here,
            l = here ++ more
            ∧ ∀ m, m ∈ here
                   ↔ (sqRow m - r, sqCol m - c) = (dr, dc)
                     ∧ validSquare m ∧ okTarget pos p m)
    as (here & -> & Hhere).
  { unfold validSquare, okTarget.
    destruct (isValidSquare (r + dr) (c + dc)) eqn:Hv.
    - destruct (cell (board pos) (r + dr) (c + dc)) as [target|] eqn:Ht.
      + rewrite colorDiffers_Some in H. injection H as <-.
        eexists. split; [done|]. intros [mr mc]. cbn.
        case_bool_decide as Hd; rewrite ?list_elem_of_singleton.
        * split.
          -- intros [= -> ->]. rewrite Hv, Ht.
             split; [f_equal; lia|done].
          -- intros ([= ??] & _). f_equal; lia.
        * split; [set_solver|]. intros ([= ??] & _ & Hok).
          replace mr with (r + dr) in Hok by lia.
          replace mc with (c + dc) in Hok by lia. rewrite Ht in Hok.
          done.
      + injection H as <-. exists [mkSquare (r + dr) (c + dc)].
        split; [done|]. intros [mr mc]. cbn.
        rewrite list_elem_of_singleton. split.
        * intros [= -> ->]. rewrite Hv, Ht. split; [f_equal; lia|done].
        * intros ([= ??] & _). f_equal; lia.
    - injection H as <-. exists []. split; [done|]. intros [mr mc]. cbn.
      split; [set_solver|]. intros ([= ??] & Hvalid & _).
      replace mr with (r + dr) in Hvalid by lia.
      replace mc with (c + dc) in Hvalid by lia. congruence. }
  intros m. rewrite elem_of_app, elem_of_cons, Hhere, IH. tauto.
Qed.

Lemma offsetMoves_NoDup (pos : Position) (p : Piece) (r c : Z)
    (offsets : list (Z * Z)) (l : list Square) :
  cell (board pos) r c = Some p → NoDup offsets →
  offsetMoves pos r c offsets = Some l → NoDup l.
Proof.
  intros Hp Hnd. revert l.
  induction Hnd as [|[dr dc] rest Hnotin Hnd IH]; intros l H.
  { cbn in H. injection H as <-. constructor. }
  pose proof (offsetMoves_spec _ _ _ _ _ _ Hp H) as Hspec.
  cbn in H. rewrite Hp in H.
  destruct (offsetMoves pos r c rest) as [more|] eqn:Hrest.
  2:{ by repeat case_match. }
  pose proof (offsetMoves_spec _ _ _ _ _ _ Hp Hrest) as Hmore.
  specialize (IH more eq_refl).
  assert (l = more ∨ l = mkSquare (r + dr) (c + dc) :: more) as [->| ->].
  { destruct (isValidSquare (r + dr) (c + dc));
      [|injection H as <-; by left].
    destruct (cell (board pos) (r + dr) (c + dc)).
    - rewrite colorDiffers_Some in H. injection H as <-.
      case_bool_decide; [by right|by left].
    - injection H as <-. by right. }
  - done.
  - apply NoDup_cons. split; [|done].
    intros Hin. apply Hmore in Hin as [Hin _]. cbn in Hin.
    replace (r + dr - r) with dr in Hin by lia.
    replace (c + dc - c) with dc in Hin by lia. done.
Qed.

(** The knight. On a square with a piece, [getKnightMoves] lists exactly
    the squares of the board that are a knight's move away by the test
    [isKnightMove] of [test-positions.js] and that are empty or hold a
    piece of the other colour; no square is listed twice. *)
Theorem getKnightMoves_are_knight_moves (pos : Position) (p : Piece)
    (row col : Z) (moves : list Square) :
  cell (board pos) row col = Some p →
  getKnightMoves pos row col = Some moves →
  (∀ m, m ∈ moves
        ↔ isKnightMove row col (sqRow m) (sqCol m) = true
          ∧ validSquare m ∧ okTarget pos p m)
  ∧ NoDup moves.
Proof.
  intros Hp H. split.
  - intros m. rewrite (offsetMoves_spec _ _ _ _ _ _ Hp H m).
    assert ((sqRow m - row, sqCol m - col) ∈ knightOffsets
            ↔ isKnightMove row col (sqRow m) (sqCol m) = true) as ->; [|done].
    unfold isKnightMove, knightOffsets.
    rewrite orb_true_iff, !andb_true_iff, !Z.eqb_eq.
    rewrite !elem_of_cons, elem_of_nil. split.
    + intros Hin.
      repeat destruct Hin as [Hin|Hin]; try done;
        injection Hin as Hr Hc; lia.
    + intros Hk.
      assert (sqRow m - row = -2 ∨ sqRow m - row = -1 ∨ sqRow m - row = 1
              ∨ sqRow m - row = 2) as Hr by lia.
      assert (sqCol m - col = -2 ∨ sqCol m - col = -1 ∨ sqCol m - col = 1
              ∨ sqCol m - col = 2) as Hc by lia.
      destruct Hr as [Hr|[Hr|[Hr|Hr]]], Hc as [Hc|[Hc|[Hc|Hc]]];
        rewrite Hr, Hc; try lia; tauto.
  - eapply offsetMoves_NoDup; [exact Hp| |exact H].
    unfold knightOffsets.
    repeat (apply NoDup_cons; split;
            [rewrite ?elem_of_cons, elem_of_nil; intros Hin;
             repeat destruct Hin as [Hin|Hin]; done|]).
    apply NoDup_nil_2.
Qed.

Lemma getKnightMoves_are_knight_moves_witness :
  ∃ moves,
    getKnightMoves (mkPosition knightBoard white white noCastling None) 6 6
    = Some moves
    ∧ mkSquare 4 5 ∈ moves ∧ NoDup moves.
Proof.
  destruct (getKnightMoves (mkPosition knightBoard white white noCastling
                              None) 6 6) as [moves|] eqn:H;
    [|vm_compute in H; discriminate].
  exists moves. split; [reflexivity|].
  destruct (getKnightMoves_are_knight_moves
              (mkPosition knightBoard white white noCastling None)
              (mkPiece white Knight) 6 6 moves eq_refl H) as [Hiff Hnd].
  split; [|exact Hnd]. apply Hiff.
  split; [reflexivity|]. split; [reflexivity|]. exact I.
Defined.

Lemma slide_spec (n : nat) (pos : Position) (p : Piece)
    (r0 c0 dr dc : Z) (l : list Square) :
  slide n pos (Some p) r0 c0 dr dc = Some l →
  ∀ m, m ∈ l
       ↔ ∃ k, 0 ≤ k
              ∧ m = mkSquare (r0 + k * dr) (c0 + k * dc)
              ∧ (∀ j, 0 ≤ j < k →
                      isValidSquare (r0 + j * dr) (c0 + j * dc) = true
                      ∧ cell (board pos) (r0 + j * dr) (c0 + j * dc) = None)
              ∧ validSquare m ∧ okTarget pos p m.
Proof.
  revert r0 c0 l. induction n as [|n IH]; intros r0 c0 l H; [done|].
  cbn [slide] in H.
  assert (∀ k m, k = 0 → m = mkSquare (r0 + k * dr) (c0 + k * dc) →
                 m = mkSquare r0 c0) as Hzero.
  { intros k m -> ->. f_equal; lia. }
  destruct (isValidSquare r0 c0) eqn:Hv.
  - destruct (cell (board pos) r0 c0) as [target|] eqn:Ht.
    + rewrite colorDiffers_Some in H. injection H as <-.
      intros m. split.
      * case_bool_decide as Hd; [|set_solver].
        intros ->%list_elem_of_singleton. exists 0.
        split; [done|]. split; [f_equal; lia|]. split; [intros; lia|].
        unfold validSquare, okTarget. cbn. by rewrite Hv, Ht.
      * intros (k & Hk & Hm & Hpath & Hvalid & Hok).
        assert (k = 0) as ->.
        { destruct (decide (k = 0)) as [|Hne]; [done|].
          destruct (Hpath 0 ltac:(lia)) as [_ Hnone].
          replace (r0 + 0 * dr) with r0 in Hnone by lia.
          replace (c0 + 0 * dc) with c0 in Hnone by lia. congruence. }
        apply (Hzero 0) in Hm as ->; [|done].
        unfold okTarget in Hok. cbn in Hok. rewrite Ht in Hok.
        case_bool_decide; [set_solver|done].
    + destruct (slide n pos (Some p) (r0 + dr) (c0 + dc) dr dc)
        as [rest|] eqn:Hrest; [|done].
      injection H as <-. specialize (IH _ _ _ Hrest).
      intros m. rewrite elem_of_cons, IH. split.
      * intros [->|(k & Hk & -> & Hpath & Hvalid & Hok)].
        -- exists 0. split; [done|]. split; [f_equal; lia|].
           split; [intros; lia|].
           unfold validSquare, okTarget. cbn. by rewrite Hv, Ht.
        -- exists (k + 1). split; [lia|].
           split; [f_equal; lia|]. split; [|done].
           intros j Hj. destruct (decide (j = 0)) as [->|Hne].
           ++ replace (r0 + 0 * dr) with r0 by lia.
              replace (c0 + 0 * dc) with c0 by lia. done.
           ++ specialize (Hpath (j - 1) ltac:(lia)).
              replace (r0 + dr + (j - 1) * dr) with (r0 + j * dr) in Hpath
                by lia.
              replace (c0 + dc + (j - 1) * dc) with (c0 + j * dc) in Hpath
                by lia.
              done.
      * intros (k & Hk & Hm & Hpath & Hvalid & Hok).
        destruct (decide (k = 0)) as [->|Hne].
        -- left. by eapply Hzero.
        -- right. exists (k - 1). split; [lia|].
           split; [rewrite Hm; f_equal; lia|]. split; [|done].
           intros j Hj. specialize (Hpath (j + 1) ltac:(lia)).
           replace (r0 + (j + 1) * dr) with (r0 + dr + j * dr) in Hpath
             by lia.
           replace (c0 + (j + 1) * dc) with (c0 + dc + j * dc) in Hpath
             by lia.
           done.
  - injection H as <-. intros m. split; [set_solver|].
    intros (k & Hk & Hm & Hpath & Hvalid & Hok).
    destruct (decide (k = 0)) as [->|Hne].
    + apply (Hzero 0) in Hm as ->; [|done].
      unfold validSquare in Hvalid. cbn in Hvalid. congruence.
    + destruct (Hpath 0 ltac:(lia)) as [Hv0 _].
      replace (r0 + 0 * dr) with r0 in Hv0 by lia.
      replace (c0 + 0 * dc) with c0 in Hv0 by lia. congruence.
Qed.

Lemma getSlidingMoves_spec (pos : Position) (p : Piece) (row col : Z)
    (directions : list (Z * Z)) (moves : list Square) :
  cell (board pos) row col = Some p →
  getSlidingMoves pos row col directions = Some moves →
  ∀ m, m ∈ moves
       ↔ ∃ rowDir colDir k,
           (rowDir, colDir) ∈ directions ∧ 0 < k
           ∧ m = mkSquare (row + k * rowDir) (col + k * colDir)
           ∧ clearPath pos row col rowDir colDir k
           ∧ validSquare m ∧ okTarget pos p m.
Proof.
  intros Hp. revert moves.
  induction directions as [|[dr dc] rest IH]; intros moves H;
    cbn [getSlidingMoves] in H.
  { injection H as <-. intros m. split; [set_solver|].
    intros (? & ? & ? & Hin & _). set_solver. }
  rewrite Hp in H.
  destruct (slide 9 pos (Some p) (row + dr) (col + dc) dr dc)
    as [ray|] eqn:Hray; [|done].
  destruct (getSlidingMoves pos row col rest) as [more|] eqn:Hmore; [|done].
  injection H as <-. specialize (IH _ eq_refl).
  pose proof (slide_spec _ _ _ _ _ _ _ _ Hray) as Hspec.
  intros m. rewrite elem_of_app, Hspec, IH. split.
  - intros [(k & Hk & -> & Hpath & Hvalid & Hok)
           |(rd & cd & k & Hin & Hrest)].
    + exists dr, dc, (k + 1). split; [by left|]. split; [lia|].
      split; [f_equal; lia|]. split; [|done].
      intros j Hj. specialize (Hpath (j - 1) ltac:(lia)).
      replace (row + dr + (j - 1) * dr) with (row + j * dr) in Hpath by lia.
      replace (col + dc + (j - 1) * dc) with (col + j * dc) in Hpath by lia.
      done.
    + exists rd, cd, k. split; [by right|done].
  - intros (rd & cd & k & [[= -> ->]|Hin]%elem_of_cons & Hk & Hm & Hpath
            & Hvalid & Hok).
    + left. exists (k - 1). split; [lia|].
      split; [rewrite Hm; f_equal; lia|]. split; [|done].
      intros j Hj. specialize (Hpath (j + 1) ltac:(lia)).
      replace (row + (j + 1) * dr) with (row + dr + j * dr) in Hpath by lia.
      replace (col + (j + 1) * dc) with (col + dc + j * dc) in Hpath by lia.
      done.
    + right. by exists rd, cd, k.
Qed.

(** The bishop, the rook and the queen. On a square of the board with a
    piece, [getSlidingMoves] returns for directions of one step (the loop
    along a ray ends), and it lists exactly the squares that are reached
    by going some number of steps in one of the directions over empty
    squares of the board, and that are empty or hold a piece of the other
    colour: a sliding piece does not jump. A rook's move stays on its row
    or its column, a bishop's move on a diagonal. *)
Theorem sliding_moves_do_not_jump (pos : Position) (p : Piece)
    (row col : Z) :
  cell (board pos) row col = Some p → isValidSquare row col = true →
  (∀ directions,
     Forall (λ d, (d.1 ≠ 0 ∨ d.2 ≠ 0) ∧ -1 ≤ d.1 ≤ 1 ∧ -1 ≤ d.2 ≤ 1)
            directions →
     ∃ moves,
       getSlidingMoves pos row col directions = Some moves
       ∧ ∀ m, m ∈ moves
              ↔ ∃ rowDir colDir k,
                  (rowDir, colDir) ∈ directions ∧ 0 < k
                  ∧ m = mkSquare (row + k * rowDir) (col + k * colDir)
                  ∧ clearPath pos row col rowDir colDir k
                  ∧ validSquare m ∧ okTarget pos p m)
  ∧ (∃ moves, getRookMoves pos row col = Some moves
              ∧ ∀ m, m ∈ moves → sqRow m = row ∨ sqCol m = col)
  ∧ (∃ moves, getBishopMoves pos row col = Some moves
              ∧ ∀ m, m ∈ moves →
                     Z.abs (sqRow m - row) = Z.abs (sqCol m - col))
  ∧ (∃ moves, getQueenMoves pos row col = Some moves
              ∧ ∀ m, m ∈ moves →
                     sqRow m = row ∨ sqCol m = col
                     ∨ Z.abs (sqRow m - row) = Z.abs (sqCol m - col)).
Proof.
  intros Hp Hv.
  assert (∀ directions,
            Forall (λ d, (d.1 ≠ 0 ∨ d.2 ≠ 0) ∧ -1 ≤ d.1 ≤ 1 ∧ -1 ≤ d.2 ≤ 1)
                   directions →
            ∃ moves,
              getSlidingMoves pos row col directions = Some moves
              ∧ ∀ m, m ∈ moves
                     ↔ ∃ rowDir colDir k,
                         (rowDir, colDir) ∈ directions ∧ 0 < k
                         ∧ m = mkSquare (row + k * rowDir) (col + k * colDir)
                         ∧ clearPath pos row col rowDir colDir k
                         ∧ validSquare m ∧ okTarget pos p m) as Hgen.
  { intros directions Hunit.
    destruct (getSlidingMoves_total pos p row col directions Hp Hv Hunit)
      as [moves Hmoves].
    exists moves. split; [done|]. by apply getSlidingMoves_spec. }
  split; [exact Hgen|].
  assert (∀ directions (Q : Square → Prop),
            Forall (λ d, (d.1 ≠ 0 ∨ d.2 ≠ 0) ∧ -1 ≤ d.1 ≤ 1 ∧ -1 ≤ d.2 ≤ 1)
                   directions →
            (∀ rd cd k, (rd, cd) ∈ directions →
                        Q (mkSquare (row + k * rd) (col + k * cd))) →
            ∃ moves, getSlidingMoves pos row col directions = Some moves
                     ∧ ∀ m, m ∈ moves → Q m) as Hshape.
  { intros directions Q Hunit HQ.
    destruct (Hgen directions Hunit) as (moves & Hmoves & Hiff).
    exists moves. split; [done|]. intros m Hm.
    apply Hiff in Hm as (rd & cd & k & Hin & _ & -> & _). by apply HQ. }
  split; [|split].
  - apply Hshape; [repeat constructor; cbn; lia|].
    intros rd cd k Hin. cbn.
    repeat (apply elem_of_cons in Hin as [[= -> ->]|Hin]); [lia..|].
    by apply elem_of_nil in Hin.
  - apply Hshape; [repeat constructor; cbn; lia|].
    intros rd cd k Hin. cbn.
    repeat (apply elem_of_cons in Hin as [[= -> ->]|Hin]); [lia..|].
    by apply elem_of_nil in Hin.
  - apply Hshape; [repeat constructor; cbn; lia|].
    intros rd cd k Hin. cbn.
    repeat (apply elem_of_cons in Hin as [[= -> ->]|Hin]); [lia..|].
    by apply elem_of_nil in Hin.
Qed.

Lemma sliding_moves_do_not_jump_witness :
  ∃ moves, getRookMoves castlingPosition 7 7 = Some moves
           ∧ ∀ m, m ∈ moves → sqRow m = 7 ∨ sqCol m = 7.
Proof.
  exact (proj1 (proj2 (sliding_moves_do_not_jump castlingPosition
                         (mkPiece white Rook) 7 7 eq_refl eq_refl))).
Defined.

Lemma pawnCapture_spec (pos : Position) (p : Piece) (newRow newCol : Z)
    (l : list Square) :
  pawnCapture pos (Some p) newRow newCol = Some l →
  ∀ m, m ∈ l
       ↔ m = mkSquare newRow newCol ∧ validSquare m
         ∧ ((∃ target, cell (board pos) newRow newCol = Some target
                       ∧ pcolor target ≠ pcolor p)
            ∨ enPassantTarget pos = Some m).
Proof.
  unfold pawnCapture, validSquare. intros H m.
  destruct (isValidSquare newRow newCol) eqn:Hv.
  2:{ injection H as <-. split; [set_solver|].
      intros (-> & Hvalid & _). cbn in Hvalid. congruence. }
  assert (∃ capture,
            l = capture
                ++ match enPassantTarget pos with
                   | Some e =>
                       if (newRow =? sqRow e) && (newCol =? sqCol e)
                       then [mkSquare newRow newCol] else []
                   | None => []
                   end
            ∧ (m ∈ capture
               ↔ m = mkSquare newRow newCol
                 ∧ ∃ target, cell (board pos) newRow newCol = Some target
                             ∧ pcolor target ≠ pcolor p))
    as (capture & -> & Hcapture).
  { destruct (cell (board pos) newRow newCol) as [target|].
    - rewrite colorDiffers_Some in H. injection H as <-.
      eexists. split; [done|]. case_bool_decide.
      + rewrite list_elem_of_singleton. split; [|by intros [-> _]].
        intros ->. split; [done|]. by exists target.
      + split; [set_solver|]. intros (_ & t & [= <-] & ?). done.
    - injection H as <-. exists []. split; [done|].
      split; [set_solver|]. by intros (_ & t & ? & _). }
  rewrite elem_of_app, Hcapture. split.
  - intros [[-> Ht]|Hep].
    + split; [done|]. split; [done|]. by left.
    + destruct (enPassantTarget pos) as [[er ec]|]; [|set_solver].
      cbn in Hep. destruct ((newRow =? er) && (newCol =? ec)) eqn:E;
        [|set_solver].
      apply andb_prop in E as [->%Z.eqb_eq ->%Z.eqb_eq].
      apply list_elem_of_singleton in Hep as ->. split; [done|].
      split; [done|]. by right.
  - intros (-> & _ & [Ht|Hep]).
    + by left.
    + right. rewrite Hep. cbn. rewrite !Z.eqb_refl. cbn. set_solver.
Qed.

(** The pawn. On a square with a piece [p], [getPawnMoves] lists exactly:
    the square one step ahead if it is on the board and empty; the square
    two steps ahead if the pawn stands on its start row and both squares
    ahead are empty; and each of the two squares diagonally ahead that is
    on the board and holds a piece of the other colour or is the
    en-passant target. Ahead is towards row 0 for the white pawn and
    towards row 7 for any other piece. The en-passant target is offered
    to pawns of either colour. *)
Theorem getPawnMoves_spec (pos : Position) (p : Piece) (row col : Z)
    (moves : list Square) :
  cell (board pos) row col = Some p →
  getPawnMoves pos row col = Some moves →
  let whitePawn := bool_decide (p = mkPiece white Pawn) in
  let direction := if whitePawn then -1 else 1 in
  let startRow := if whitePawn then 6 else 1 in
  ∀ m, m ∈ moves
       ↔ (m = mkSquare (row + direction) col ∧ validSquare m
          ∧ cell (board pos) (row + direction) col = None)
         ∨ (m = mkSquare (row + 2 * direction) col ∧ row = startRow
            ∧ isValidSquare (row + direction) col = true
            ∧ cell (board pos) (row + direction) col = None
            ∧ cell (board pos) (row + 2 * direction) col = None)
         ∨ (sqRow m = row + direction
            ∧ (sqCol m = col - 1 ∨ sqCol m = col + 1)
            ∧ validSquare m
            ∧ ((∃ target, cell (board pos) (sqRow m) (sqCol m) = Some target
                          ∧ pcolor target ≠ pcolor p)
               ∨ enPassantTarget pos = Some m)).
Proof.
  intros Hp H whitePawn direction startRow.
  unfold getPawnMoves in H. rewrite Hp in H.
  assert (isWhitePawn (Some p) = whitePawn) as Hwhite.
  { subst whitePawn. destruct p as [[] []]; done. }
  rewrite Hwhite in H. fold direction startRow in H.
  destruct (pawnCapture pos (Some p) (row + direction) (col + -1))
    as [left'|] eqn:Hleft; [|done].
  destruct (pawnCapture pos (Some p) (row + direction) (col + 1))
    as [right'|] eqn:Hright; [|done].
  injection H as <-.
  pose proof (pawnCapture_spec _ _ _ _ _ Hleft) as Hl.
  pose proof (pawnCapture_spec _ _ _ _ _ Hright) as Hr.
  intros m. rewrite !elem_of_app, Hl, Hr. unfold validSquare. split.
  - intros [Hforward|[(-> & Hv & Ht)|(-> & Hv & Ht)]].
    + destruct (isValidSquare (row + direction) col) eqn:Hv;
        [|set_solver].
      destruct (cell (board pos) (row + direction) col) eqn:Hc;
        [set_solver|].
      cbn [occupied negb andb] in Hforward.
      apply elem_of_cons in Hforward as [->|Hdouble]; [by left|].
      right. left.
      destruct (row =? startRow) eqn:Hs; [|set_solver].
      destruct (cell (board pos) (row + 2 * direction) col) eqn:Hc2;
        [set_solver|].
      cbn [occupied negb andb] in Hdouble.
      apply list_elem_of_singleton in Hdouble as ->.
      apply Z.eqb_eq in Hs. done.
    + right. right. cbn. split; [done|]. split; [lia|]. done.
    + right. right. cbn. split; [done|]. split; [lia|]. done.
  - intros [(-> & Hv & Hc)|[(-> & Hs & Hv & Hc & Hc2)|(Hrow & Hcol & Hv & Ht)]].
    + left. cbn in Hv. rewrite Hv, Hc. cbn. by left.
    + left. rewrite Hv, Hc, Hc2. cbn.
      replace (row =? startRow) with true by (symmetry; by apply Z.eqb_eq).
      cbn. set_solver.
    + destruct m as [mr mc]. cbn in *. subst mr.
      destruct Hcol as [-> | ->].
      * right. left. replace (col + -1) with (col - 1) by lia. done.
      * right. right. done.
Qed.

Lemma getPawnMoves_spec_witness :
  ∃ moves, getPawnMoves enPassantPosition 3 4 = Some moves
           ∧ mkSquare 2 3 ∈ moves ∧ mkSquare 2 4 ∈ moves.
Proof.
  destruct (getPawnMoves enPassantPosition 3 4) as [moves|] eqn:H;
    [|vm_compute in H; discriminate].
  exists moves. split; [reflexivity|].
  pose proof (getPawnMoves_spec enPassantPosition (mkPiece white Pawn) 3 4
                moves eq_refl H) as Hiff.
  cbv zeta in Hiff. split; apply Hiff.
  - right. right. cbn. split; [reflexivity|]. split; [left; reflexivity|].
    split; [reflexivity|]. right. reflexivity.
  - left. split; [reflexivity|]. split; reflexivity.
Defined.

(** The king. On a square with a piece [p], whenever [getKingMoves]
    returns, it lists exactly: the squares of the board one step away in
    any direction that are empty or hold a piece of the other colour; the
    square in column 6 of the king's row if the colour of [p] has the
    kingside right, the squares in columns 5 and 6 of the row are empty
    and the squares in columns 4, 5 and 6 of the row are not attacked;
    and the square in column 2 of the row under the like conditions on
    the queenside right and the columns 1, 2, 3 and 4, 3, 2. Neither the
    column of the king nor the presence of a rook is looked at. *)
Theorem getKingMoves_spec (stack : nat) (pos : Position) (p : Piece)
    (row col : Z) (moves : list Square) :
  cell (board pos) row col = Some p →
  getKingMoves stack pos row col = Some moves →
  let rights := rightsOf (castlingRights pos) (pcolor p) in
  let free c := cell (board pos) row c = None in
  let safe c :=
    isSquareUnderAttack stack pos (Some row) (Some c) (pcolor p)
    = Some false in
  ∀ m, m ∈ moves
       ↔ (Z.abs (sqRow m - row) ≤ 1 ∧ Z.abs (sqCol m - col) ≤ 1
          ∧ (sqRow m, sqCol m) ≠ (row, col)
          ∧ validSquare m ∧ okTarget pos p m)
         ∨ (m = mkSquare row 6 ∧ kingside rights = true
            ∧ free 5 ∧ free 6 ∧ safe 4 ∧ safe 5 ∧ safe 6)
         ∨ (m = mkSquare row 2 ∧ queenside rights = true
            ∧ free 1 ∧ free 2 ∧ free 3 ∧ safe 4 ∧ safe 3 ∧ safe 2).
Proof.
  intros Hp H rights free safe.
  unfold getKingMoves, getKingMovesWith in H.
  destruct (offsetMoves pos row col kingOffsets) as [steps|] eqn:Hsteps;
    [|done].
  rewrite Hp in H. cbn [fmap option_fmap option_map getPieceColor] in H.
  cbv beta iota zeta in H. unfold getPieceColor in H. fold rights in H.
  pose proof (offsetMoves_spec _ _ _ _ _ _ Hp Hsteps) as Hspec.
  assert (∀ c, negb (occupied (cell (board pos) row c)) = true ↔ free c)
    as Hfree.
  { intros c. unfold free. destruct (cell (board pos) row c); cbn; split;
      done. }
  assert (∀ c (rest : option bool),
            (let? a := isSquareUnderAttack stack pos (Some row) (Some c)
                         (pcolor p) in
             if a then Some false else rest) = Some true
            ↔ safe c ∧ rest = Some true) as Hsafe.
  { intros c rest. unfold safe.
    destruct (isSquareUnderAttack stack pos (Some row) (Some c) (pcolor p))
      as [[]|]; split; try done; by intros [? ?]. }
  set (ksCond := kingside rights
                 && negb (occupied (cell (board pos) row 5))
                 && negb (occupied (cell (board pos) row 6))) in H.
  set (qsCond := queenside rights
                 && negb (occupied (cell (board pos) row 1))
                 && negb (occupied (cell (board pos) row 2))
                 && negb (occupied (cell (board pos) row 3))) in H.
  match type of H with
  | (let? ks := ?ksv in _) = _ =>
      assert (∀ b, ksv = Some b →
                   (b = true ↔ kingside rights = true ∧ free 5 ∧ free 6
                               ∧ safe 4 ∧ safe 5 ∧ safe 6)) as Hks;
      [|destruct ksv as [ks|]; [|done]]
  end.
  { intros b. subst ksCond. destruct (kingside rights); cbn [andb].
    2:{ intros [= <-]. split; [done|]. by intros [? _]. }
    destruct (negb (occupied (cell (board pos) row 5))) eqn:E5; cbn [andb].
    2:{ intros [= <-]. split; [done|]. intros (_ & F & _).
        apply Hfree in F. congruence. }
    destruct (negb (occupied (cell (board pos) row 6))) eqn:E6; cbn [andb].
    2:{ intros [= <-]. split; [done|]. intros (_ & _ & F & _).
        apply Hfree in F. congruence. }
    apply Hfree in E5, E6. intros Hb. split.
    - intros ->. apply Hsafe in Hb as [? Hb]. apply Hsafe in Hb as [? Hb].
      apply Hsafe in Hb as [? _]. done.
    - intros (_ & _ & _ & S4 & S5 & S6). destruct b; [done|].
      assert (Some false = Some true) as Hc; [|done].
      rewrite <- Hb.
      apply Hsafe. split; [done|]. apply Hsafe. split; [done|].
      apply Hsafe. done. }
  match type of H with
  | (let? qs := ?qsv in _) = _ =>
      assert (∀ b, qsv = Some b →
                   (b = true ↔ queenside rights = true
                               ∧ free 1 ∧ free 2 ∧ free 3
                               ∧ safe 4 ∧ safe 3 ∧ safe 2)) as Hqs;
      [|destruct qsv as [qs|]; [|done]]
  end.
  { intros b. subst qsCond. destruct (queenside rights); cbn [andb].
    2:{ intros [= <-]. split; [done|]. by intros [? _]. }
    destruct (negb (occupied (cell (board pos) row 1))) eqn:E1; cbn [andb].
    2:{ intros [= <-]. split; [done|]. intros (_ & F & _).
        apply Hfree in F. congruence. }
    destruct (negb (occupied (cell (board pos) row 2))) eqn:E2; cbn [andb].
    2:{ intros [= <-]. split; [done|]. intros (_ & _ & F & _).
        apply Hfree in F. congruence. }
    destruct (negb (occupied (cell (board pos) row 3))) eqn:E3; cbn [andb].
    2:{ intros [= <-]. split; [done|]. intros (_ & _ & _ & F & _).
        apply Hfree in F. congruence. }
    apply Hfree in E1, E2, E3. intros Hb. split.
    - intros ->. apply Hsafe in Hb as [? Hb]. apply Hsafe in Hb as [? Hb].
      apply Hsafe in Hb as [? _]. done.
    - intros (_ & _ & _ & _ & S4 & S3 & S2). destruct b; [done|].
      assert (Some false = Some true) as Hc; [|done].
      rewrite <- Hb.
      apply Hsafe. split; [done|]. apply Hsafe. split; [done|].
      apply Hsafe. done. }
  injection H as <-. specialize (Hks ks eq_refl). specialize (Hqs qs eq_refl).
  intros m. rewrite !elem_of_app, Hspec.
  assert ((sqRow m - row, sqCol m - col) ∈ kingOffsets
          ↔ Z.abs (sqRow m - row) ≤ 1 ∧ Z.abs (sqCol m - col) ≤ 1
            ∧ (sqRow m, sqCol m) ≠ (row, col)) as ->.
  { unfold kingOffsets. rewrite !elem_of_cons, elem_of_nil. split.
    - intros Hin. repeat destruct Hin as [Hin|Hin]; try done;
        injection Hin as Hr Hc; (split; [lia|split; [lia|]]);
        intros [= ??]; lia.
    - intros (Hr & Hc & Hne).
      assert (sqRow m - row = -1 ∨ sqRow m - row = 0 ∨ sqRow m - row = 1)
        as Hr' by lia.
      assert (sqCol m - col = -1 ∨ sqCol m - col = 0 ∨ sqCol m - col = 1)
        as Hc' by lia.
      destruct Hr' as [Hr'|[Hr'|Hr']], Hc' as [Hc'|[Hc'|Hc']];
        rewrite Hr', Hc'; try tauto.
      exfalso. apply Hne. f_equal; lia. }
  split.
  - intros [Hstep|[Hin|Hin]].
    + left. tauto.
    + destruct ks; [|set_solver]. apply list_elem_of_singleton in Hin as ->.
      right. left. split; [done|]. by apply Hks.
    + destruct qs; [|set_solver]. apply list_elem_of_singleton in Hin as ->.
      right. right. split; [done|]. by apply Hqs.
  - intros [Hstep|[(-> & Hcond)|(-> & Hcond)]].
    + left. tauto.
    + right. left. apply Hks in Hcond as ->. set_solver.
    + right. right. apply Hqs in Hcond as ->. set_solver.
Qed.

Lemma getKingMoves_spec_witness :
  ∃ moves, getKingMoves 3 castlingPosition 7 4 = Some moves
           ∧ mkSquare 7 6 ∈ moves ∧ mkSquare 7 2 ∉ moves.
Proof.
  destruct (getKingMoves 3 castlingPosition 7 4) as [moves|] eqn:H;
    [|vm_compute in H; discriminate].
  exists moves. split; [reflexivity|].
  pose proof (getKingMoves_spec 3 castlingPosition (mkPiece white King) 7 4
                moves eq_refl H) as Hiff.
  cbv zeta in Hiff. split.
  - apply Hiff. right. left.
    split; [reflexivity|]. split; [reflexivity|].
    split; [reflexivity|]. split; [reflexivity|].
    split; [vm_compute; reflexivity|].
    split; vm_compute; reflexivity.
  - intros Hin. apply Hiff in Hin as [Hstep|[Hk|Hq]].
    + destruct Hstep as (_ & Hc & _). cbn in Hc. lia.
    + destruct Hk as [Hk _]. discriminate Hk.
    + destruct Hq as (_ & Hq & _). discriminate Hq.
Defined.

(** ** Castling rights on both sides: the attack test does not return *)

Lemma scanAttack_raises rawMoves (pos : Position) (row col : option Z)
    (defender : Color) (sqs : list (Z * Z)) :
  (∃ r c p, (r, c) ∈ sqs ∧ cell (board pos) r c = Some p
            ∧ pcolor p ≠ defender ∧ rawMoves r c = None) →
  (∀ r c p moves, (r, c) ∈ sqs → cell (board pos) r c = Some p →
                  pcolor p ≠ defender → rawMoves r c = Some moves →
                  existsb (hits row col) moves = false) →
  scanAttack rawMoves pos row col defender sqs = None.
Proof.
  induction sqs as [|[r c] rest IH]; intros (r0 & c0 & p0 & Hin & Hp0 & Hc0
                                             & Hraise) Hquiet.
  { by apply elem_of_nil in Hin. }
  cbn [scanAttack].
  assert (scanAttack rawMoves pos row col defender rest = None
          ∨ (r, c) = (r0, c0)) as Hrest.
  { apply elem_of_cons in Hin as [Heq|Hin]; [by right|left].
    apply IH; [by exists r0, c0, p0|].
    intros r1 c1 p1 moves Hin1. apply Hquiet. by right. }
  destruct (cell (board pos) r c) as [p|] eqn:Hp.
  2:{ destruct Hrest as [?|[= -> ->]]; [done|congruence]. }
  destruct (Color_eqb (getPieceColor p) defender) eqn:Hcol; cbn [negb].
  { apply Color_eqb_eq in Hcol. unfold getPieceColor in Hcol.
    destruct Hrest as [?|[= -> ->]]; [done|]. congruence. }
  assert (pcolor p ≠ defender) as Hne.
  { intros Heq. unfold getPieceColor in Hcol. rewrite Heq in Hcol.
    by destruct defender. }
  destruct (rawMoves r c) as [moves|] eqn:Hraw; [|done].
  rewrite (Hquiet r c p moves (list_elem_of_here _ _) Hp Hne Hraw).
  destruct Hrest as [?|[= -> ->]]; [done|congruence].
Qed.

Lemma getRawMovesWith_not_king attacked (pos : Position) (p : Piece)
    (r c : Z) :
  cell (board pos) r c = Some p → ptype p ≠ King →
  getRawMovesWith attacked pos r c = pseudoMoves 0 p pos r c.
Proof.
  intros Hp Hk. unfold getRawMovesWith, pseudoMoves, toLowerCase.
  rewrite Hp. by destruct (ptype p).
Qed.

Lemma getKingMovesWith_raises attacked (pos : Position) (p : Piece)
    (r c : Z) :
  cell (board pos) r c = Some p →
  castlingOpen pos r (pcolor p) = true →
  attacked (Some r) (Some 4) (pcolor p) = None →
  getKingMovesWith attacked pos r c = None.
Proof.
  intros Hp Hopen Hatt. unfold getKingMovesWith.
  destruct (offsetMoves pos r c kingOffsets) as [steps|]; [|done].
  rewrite Hp. cbn [fmap option_fmap option_map]. unfold getPieceColor.
  cbv beta iota zeta. rewrite Hatt.
  unfold castlingOpen in Hopen. cbv zeta in Hopen.
  destruct (kingside (rightsOf (castlingRights pos) (pcolor p))
            && negb (occupied (cell (board pos) r 5))
            && negb (occupied (cell (board pos) r 6))); [done|].
  cbn [orb] in Hopen. by rewrite Hopen.
Qed.

Lemma isSquareUnderAttack_raises (stack : nat) (pos : Position)
    (row : Z) (defender : Color) :
  (∀ color, ∃ r c p, cell (board pos) r c = Some p ∧ ptype p = King
                     ∧ pcolor p = color) →
  (∀ r c p, cell (board pos) r c = Some p → ptype p = King →
            castlingOpen pos r (pcolor p) = true) →
  kingFilesQuiet pos → wfBoard (board pos) →
  kingOnRow pos row →
  isSquareUnderAttack stack pos (Some row) (Some 4) defender = None.
Proof.
  intros Hkings Hopen Hquiet Hwf. revert row defender.
  induction stack as [|stack IH]; intros row defender Hrow; [done|].
  cbn [isSquareUnderAttack]. apply scanAttack_raises.
  - destruct (Hkings (opposite defender)) as (r & c & p & Hp & Hk & Hcol).
    exists r, c, p. split.
    { apply valid_allSquares. by eapply cell_Some_valid. }
    split; [done|]. split; [rewrite Hcol; by destruct defender|].
    unfold getRawMovesWith. rewrite Hp. unfold toLowerCase. rewrite Hk.
    rewrite (getKingMovesWith_raises _ pos p r c Hp (Hopen _ _ _ Hp Hk));
      [done|].
    apply IH. by exists c, p.
  - intros r c p moves _ Hp Hne Hraw.
    destruct (decide (ptype p = King)) as [Hk|Hk].
    + unfold getRawMovesWith in Hraw. rewrite Hp in Hraw.
      unfold toLowerCase in Hraw. rewrite Hk in Hraw.
      rewrite (getKingMovesWith_raises _ pos p r c Hp (Hopen _ _ _ Hp Hk))
        in Hraw; [done|].
      apply IH. by exists c, p.
    + rewrite (getRawMovesWith_not_king _ _ _ _ _ Hp Hk) in Hraw.
      pose proof (Hquiet r c p moves row Hp Hk Hraw Hrow) as Hnotin.
      apply not_true_is_false. intros Hex.
      apply existsb_exists in Hex as (m & Hm & Hhit).
      apply Hnotin. cbn [hits] in Hhit.
      apply andb_prop in Hhit as [Hr%Z.eqb_eq Hc%Z.eqb_eq].
      apply list_elem_of_In in Hm. destruct m as [mr mc]. cbn in Hr, Hc.
      by subst.
Qed.

Lemma getAllValidMovesOn_raises (stack : nat) (color : Color)
    (sqs : list (Z * Z)) (pos : Position) :
  wfBoard (board pos) →
  (∃ r c p, (r, c) ∈ sqs ∧ cell (board pos) r c = Some p
            ∧ pcolor p = color
            ∧ getValidMovesForPiece stack r c pos = None) →
  getAllValidMovesOn stack color sqs pos = None.
Proof.
  intros Hwf. induction sqs as [|[r c] rest IH];
    intros (r0 & c0 & p0 & Hin & Hp0 & Hc0 & Hraise).
  { by apply elem_of_nil in Hin. }
  cbn [getAllValidMovesOn].
  rewrite (bind_run _ _ _ _ _ (eq_refl : readCell r c pos = Some (_, pos))).
  assert (getAllValidMovesOn stack color rest pos = None
          ∨ (r, c) = (r0, c0)) as Hrest.
  { apply elem_of_cons in Hin as [Heq|Hin]; [by right|left].
    apply IH. by exists r0, c0, p0. }
  assert (∀ here : list Move,
            bind (getAllValidMovesOn stack color rest)
                 (λ more, ret (here ++ more)) pos = None
            ∨ (r, c) = (r0, c0)) as Hcont.
  { intros here. destruct Hrest as [Hnone|?]; [left|by right].
    unfold bind. by rewrite Hnone. }
  destruct (cell (board pos) r c) as [p|] eqn:Hp.
  2:{ rewrite (bind_run _ _ _ _ _ (eq_refl : ret [] pos = Some ([], pos))).
      destruct (Hcont []) as [?|[= -> ->]]; [done|congruence]. }
  destruct (Color_eqb (getPieceColor p) color) eqn:Hcol.
  2:{ rewrite (bind_run _ _ _ _ _ (eq_refl : ret [] pos = Some ([], pos))).
      destruct (Hcont []) as [?|[= -> ->]]; [done|].
      rewrite Hp0 in Hp. injection Hp as ->.
      unfold getPieceColor in Hcol. rewrite Hc0 in Hcol. by destruct color. }
  destruct (getValidMovesForPiece stack r c pos) as [[pieceMoves pos1]|]
    eqn:Hpm.
  2:{ unfold bind at 1. unfold bind at 1. by rewrite Hpm. }
  pose proof (getValidMovesForPiece_restores _ _ _ _ _ _ Hwf Hpm) as ->.
  unfold bind at 1. unfold bind at 1. rewrite Hpm. unfold ret at 1.
  destruct (Hcont (map (λ move, mkMove r c (sqRow move) (sqCol move))
                       pieceMoves)) as [?|[= -> ->]]; [done|congruence].
Qed.

Lemma kingOnRowb_spec (pos : Position) (row : Z) :
  wfBoard (board pos) → kingOnRow pos row → kingOnRowb pos row = true.
Proof.
  intros Hwf (col & k & Hk & Hking). unfold kingOnRowb.
  apply existsb_exists. exists col. split.
  - apply list_elem_of_In, elem_of_seqZ.
    pose proof (cell_Some_valid _ _ _ _ Hwf Hk) as Hv.
    apply isValidSquare_iff in Hv. lia.
  - rewrite Hk. by apply PieceType_eqb_eq.
Qed.

Lemma kingFilesQuietb_spec (pos : Position) :
  wfBoard (board pos) → kingFilesQuietb pos = true → kingFilesQuiet pos.
Proof.
  intros Hwf Hb r c p moves row Hp Hk Hmoves Hrow Hin.
  unfold kingFilesQuietb in Hb. rewrite forallb_forall in Hb.
  specialize (Hb (r, c)). cbv beta iota in Hb. rewrite Hp, Hmoves in Hb.
  replace (PieceType_eqb (ptype p) King) with false in Hb.
  2:{ symmetry. apply not_true_is_false. by intros ?%PieceType_eqb_eq. }
  cbn [orb] in Hb.
  assert (In (r, c) allSquares) as Hsq.
  { apply list_elem_of_In, valid_allSquares. by eapply cell_Some_valid. }
  specialize (Hb Hsq). rewrite forallb_forall in Hb.
  assert (In row (seqZ 0 8)) as Hr.
  { destruct Hrow as (col & k & Hcell & _).
    apply list_elem_of_In, elem_of_seqZ.
    pose proof (cell_Some_valid _ _ _ _ Hwf Hcell) as Hv.
    apply isValidSquare_iff in Hv. lia. }
  specialize (Hb row Hr).
  rewrite (kingOnRowb_spec _ _ Hwf Hrow) in Hb. cbn [negb orb] in Hb.
  apply negb_true_iff in Hb.
  assert (existsb (hits (Some row) (Some 4)) moves = true); [|congruence].
  apply existsb_exists. exists (mkSquare row 4).
  split; [by apply list_elem_of_In|]. cbn. by rewrite !Z.eqb_refl.
Qed.

(** When both colours have a king that keeps a castling right with the
    squares between king and rook empty, and no other piece bears on the
    e-file square of a king's row, the attack test on such a square does
    not return: the test of one colour asks for the king moves of the
    other, which ask for the test of the other colour, and so on until
    the call stack is exhausted. So, whatever the size of the stack, the
    generation of the legal moves raises for either colour, and a search
    request for the position raises without a move message. *)
Theorem castling_rights_on_both_sides_exhaust_the_stack (stack : nat)
    (pos : Position) :
  wfBoard (board pos) →
  (∀ color, ∃ r c, cell (board pos) r c = Some (mkPiece color King)) →
  (∀ r c p, cell (board pos) r c = Some p → ptype p = King →
            castlingOpen pos r (pcolor p) = true) →
  kingFilesQuiet pos →
  (∀ row defender,
     kingOnRow pos row →
     isSquareUnderAttack stack pos (Some row) (Some 4) defender = None)
  ∧ (∀ color, getAllValidMoves stack color pos = None)
  ∧ (∀ settings deadline startTime w,
       position w = pos →
       getBestMove stack settings deadline startTime w = None)
  ∧ (∀ data w,
       mkPosition (rqBoard data) (rqAiColor data) (rqCurrentTurn data)
         (rqCastlingRights data) (rqEnPassantTarget data) = pos →
       onmessage_search stack data w = None).
Proof.
  intros Hwf Hkings Hopen Hquiet.
  assert (∀ color, ∃ r c p, cell (board pos) r c = Some p ∧ ptype p = King
                            ∧ pcolor p = color) as Hkings'.
  { intros color. destruct (Hkings color) as (r & c & Hk).
    by exists r, c, (mkPiece color King). }
  assert (∀ row defender,
            kingOnRow pos row →
            isSquareUnderAttack stack pos (Some row) (Some 4) defender
            = None) as Hattack.
  { intros row defender. by apply isSquareUnderAttack_raises. }
  assert (∀ color, getAllValidMoves stack color pos = None) as Hmoves.
  { intros color. destruct (Hkings color) as (r & c & Hk).
    apply getAllValidMovesOn_raises; [done|].
    exists r, c, (mkPiece color King).
    split; [apply valid_allSquares; by eapply cell_Some_valid|].
    split; [done|]. split; [done|].
    unfold getValidMovesForPiece.
    rewrite (bind_run _ _ _ _ _
               (eq_refl : readCell r c pos = Some (_, pos))).
    rewrite Hk. cbn [toLowerCase ptype]. unfold bind, readsE, getKingMoves.
    rewrite (getKingMovesWith_raises _ pos (mkPiece color King) r c Hk
               (Hopen _ _ _ Hk eq_refl)); [done|].
    apply Hattack. by exists c, (mkPiece color King). }
  split; [exact Hattack|]. split; [exact Hmoves|].
  assert (∀ settings deadline startTime w,
            position w = pos →
            getBestMove stack settings deadline startTime w = None) as Hbest.
  { intros settings deadline startTime w Hw. unfold getBestMove.
    rewrite (bind_run _ _ _ _ _
               (eq_refl : reads (λ w, aiColor (position w)) w
                          = Some (aiColor (position w), w))).
    unfold bind, onPosition. by rewrite Hw, Hmoves. }
  split; [exact Hbest|].
  intros data w Hdata. unfold onmessage_search.
  unfold bind at 1. unfold modify at 1.
  unfold bind at 1. unfold DateNow at 1.
  unfold bind at 1. unfold modify at 1.
  unfold bind at 1. unfold modify at 1.
  unfold bind at 1. unfold modify at 1.
  unfold bind at 1. rewrite Hbest; [done|].
  rewrite <- Hdata. by destruct (_ <? _).
Qed.

Lemma fianchettoBoard_wf : wfBoard fianchettoBoard.
Proof. split; [reflexivity|repeat constructor]. Qed.

Lemma castling_rights_on_both_sides_exhaust_the_stack_witness :
  getAllValidMoves 1000 white fianchettoPosition = None
  ∧ getAllValidMoves 1000 black fianchettoPosition = None.
Proof.
  assert (∀ color, getAllValidMoves 1000 color fianchettoPosition = None)
    as H; [|by split].
  apply (castling_rights_on_both_sides_exhaust_the_stack 1000
           fianchettoPosition fianchettoBoard_wf).
  - intros [|]; [by exists 7, 4|by exists 0, 4].
  - intros r c p Hp Hk.
    pose proof (cell_Some_valid _ _ _ _ fianchettoBoard_wf Hp) as Hv.
    apply isValidSquare_iff in Hv.
    assert (r = 0 ∨ r = 1 ∨ r = 2 ∨ r = 3 ∨ r = 4 ∨ r = 5 ∨ r = 6 ∨ r = 7)
      as Hr by lia.
    assert (c = 0 ∨ c = 1 ∨ c = 2 ∨ c = 3 ∨ c = 4 ∨ c = 5 ∨ c = 6 ∨ c = 7)
      as Hc by lia.
    destruct Hr as [->|[->|[->|[->|[->|[->|[->| ->]]]]]]],
             Hc as [->|[->|[->|[->|[->|[->|[->| ->]]]]]]];
      vm_compute in Hp; try discriminate Hp; injection Hp as <-;
      try discriminate Hk; reflexivity.
  - apply kingFilesQuietb_spec; [exact fianchettoBoard_wf|].
    vm_compute. reflexivity.
Defined.

(** ** The move the engine answers with *)

Lemma maybeBlunder_among (scores : list MoveScore) (settings : Settings)
    (w w' : Worker) (m : Move) :
  maybeBlunder scores settings w = Some (Some m, w') → m ∈ scores.*1.
Proof.
  unfold maybeBlunder. intros H.
  apply bind_Some in H as (r & w1 & _ & H).
  destruct (Qle_bool (mistakeRate settings) r); [done|].
  destruct scores as [|first rest]; [done|].
  set (scores := first :: rest) in *.
  set (candidates := List.filter _ scores) in H.
  assert (candidates ⊆ scores) as Hsub.
  { intros x Hx. subst candidates.
    apply list_elem_of_In, filter_In in Hx as [Hx _].
    by apply list_elem_of_In. }
  destruct candidates as [|c cs] eqn:Hc.
  - destruct (1 <? length scores)%nat; [|done].
    destruct (scores !! _) as [x|] eqn:Hx; [|done].
    injection H as <- _. apply list_elem_of_fmap. exists x.
    split; [done|]. by eapply list_elem_of_lookup_2.
  - apply bind_Some in H as (r2 & w2 & _ & H).
    destruct (_ <? 0); [done|].
    destruct ((c :: cs) !! _) as [x|] eqn:Hx; [|done].
    injection H as <- _. apply list_elem_of_fmap. exists x.
    split; [done|]. apply Hsub. by eapply list_elem_of_lookup_2.
Qed.

Lemma pickCumulative_among (rand : Q) (cumulative : Num)
    (candidates : list (MoveScore * Num)) (m : Move) :
  pickCumulative rand cumulative candidates = Some m →
  m ∈ candidates.*1.*1.
Proof.
  revert cumulative. induction candidates as [|[x prob] rest IH];
    intros cumulative H; cbn [pickCumulative] in H; [done|].
  destruct (Num_leb _ _).
  - injection H as <-. cbn. by left.
  - cbn. right. by eapply IH.
Qed.

Lemma selectMoveWithSoftmax_among (scores : list MoveScore)
    (settings : Settings) (w w' : Worker) (m : Move) :
  selectMoveWithSoftmax scores settings w = Some (Some m, w') →
  m ∈ scores.*1.
Proof.
  unfold selectMoveWithSoftmax. intros H.
  destruct scores as [|first rest]; [done|].
  set (scores := first :: rest) in *.
  set (topMoves := List.filter _ scores) in H.
  assert (topMoves ⊆ scores) as Hsub.
  { intros x Hx. subst topMoves.
    apply list_elem_of_In, filter_In in Hx as [Hx _].
    by apply list_elem_of_In. }
  assert (∀ x, x ∈ topMoves → x.1 ∈ scores.*1) as Htop.
  { intros x Hx. apply list_elem_of_fmap. exists x. split; [done|].
    by apply Hsub. }
  assert (∀ k : M (option Move),
            (k w = Some (Some m, w') → m ∈ scores.*1) →
            match topMoves with
            | [only] => ret (Some only.1)
            | _ => k
            end w = Some (Some m, w') → m ∈ scores.*1) as Hcase.
  { intros k Hk. destruct topMoves as [|x [|y l]] eqn:E; try done.
    intros [= <- _]. apply Htop. by left. }
  revert H. apply Hcase. intros H.
  apply bind_Some in H as (exp & w1 & _ & H).
  apply bind_Some in H as (rand & w2 & _ & H).
  destruct (pickCumulative _ _ _) as [picked|] eqn:Hpick.
  - injection H as <- _. apply pickCumulative_among in Hpick.
    apply list_elem_of_fmap in Hpick as (x & -> & Hx).
    apply list_elem_of_fmap in Hx as ([ms prob] & -> & Hin).
    apply Htop. cbn. apply elem_of_zip_l in Hin. done.
  - destruct topMoves as [|x l]; [done|].
    injection H as <- _. apply Htop. by left.
Qed.

Lemma rootLoop_among (stack depth : nat) (settings : Settings)
    (deadline : Z) (moves : list Move) (best best' : option Move)
    (score score' : Num) (scores scores' : list MoveScore) (w w' : Worker) :
  rootLoop stack depth settings deadline moves best score scores w
  = Some (best', score', scores', w') →
  (∀ m, best' = Some m → best = Some m ∨ m ∈ moves)
  ∧ (∀ m, m ∈ scores'.*1 → m ∈ scores.*1 ∨ m ∈ moves).
Proof.
  revert best score scores w.
  induction moves as [|mv rest IH]; intros best score scores w H;
    cbn [rootLoop] in H.
  { injection H as <- <- <- <-. split; intros m; by left. }
  apply bind_Some in H as (stop & w1 & _ & H).
  destruct stop.
  { injection H as <- <- <- <-. split; intros m; by left. }
  apply bind_Some in H as (n & w2 & _ & H).
  destruct (maxNodes settings <? n).
  { apply bind_Some in H as ([] & w3 & _ & H).
    injection H as <- <- <- <-. split; intros m; by left. }
  apply bind_Some in H as ([piece captured] & w3 & _ & H).
  apply bind_Some in H as (value & w4 & _ & H).
  apply bind_Some in H as ([] & w5 & _ & H).
  apply IH in H as [Hbest Hscores]. split.
  - intros m Hm. destruct (Hbest m Hm) as [Hb|Hin]; [|right; by right].
    destruct (Num_gtb _ _); [|by left].
    injection Hb as <-. right. by left.
  - intros m Hm. destruct (Hscores m Hm) as [Hs|Hin]; [|right; by right].
    rewrite fmap_app, elem_of_app in Hs. destruct Hs as [Hs|Hs]; [by left|].
    cbn in Hs. apply list_elem_of_singleton in Hs as ->. right. by left.
Qed.

Lemma deepen_among (stack : nat) (settings : Settings) (deadline : Z)
    (moves : list Move) (depths : list nat) (best best' : option Move)
    (score score' : Num) (completed completed' : Z)
    (scores scores' : list MoveScore) (w w' : Worker) :
  deepen stack settings deadline moves depths best score completed scores w
  = Some (best', score', completed', scores', w') →
  (∀ m, best' = Some m → best = Some m ∨ m ∈ moves)
  ∧ (is_Some best → is_Some best')
  ∧ (∀ m, m ∈ scores'.*1 → m ∈ scores.*1 ∨ m ∈ moves).
Proof.
  revert best score completed scores w.
  induction depths as [|depth rest IH];
    intros best score completed scores w H; cbn [deepen] in H.
  { injection H as <- <- <- <- <-. split; [|split]; try done;
      intros m; by left. }
  apply bind_Some in H as (stop & w1 & _ & H).
  destruct stop.
  { injection H as <- <- <- <- <-. split; [|split]; try done;
      intros m; by left. }
  apply bind_Some in H as (ordered' & w2 & Hord & H).
  unfold readsE in Hord.
  destruct (orderMoves moves best 0 w1) as [o|] eqn:Ho; [|done].
  injection Hord as <- <-.
  apply orderMoves_permutation in Ho.
  apply bind_Some in H as ([[depthBest depthScore] depthScores] & w3
                           & Hroot & H).
  apply rootLoop_among in Hroot as [Hrbest Hrscores].
  apply bind_Some in H as (ft & w4 & _ & H).
  apply bind_Some in H as (accept & w5 & Haccept & H).
  destruct accept.
  - apply bind_Some in H as (n & w6 & _ & H).
    apply bind_Some in H as ([] & w7 & _ & H).
    apply IH in H as (Hbest & Hsome & Hscores).
    assert (is_Some depthBest) as Hdb.
    { destruct depthBest; [by eexists|]. cbn in Haccept.
      by injection Haccept. }
    split; [|split].
    + intros m Hm. destruct (Hbest m Hm) as [Hb|Hin]; [|by right].
      destruct (Hrbest m Hb) as [?|Hin]; [done|].
      right. by rewrite <- Ho.
    + intros _. by apply Hsome.
    + intros m Hm. destruct (Hscores m Hm) as [Hs|Hin]; [|by right].
      destruct (Hrscores m Hs) as [Hnil|Hin]; [by apply elem_of_nil in Hnil|].
      right. by rewrite <- Ho.
  - by apply IH in H.
Qed.

Lemma random_index (r : Q) (n : nat) :
  (0 <= r)%Q → (r < 1)%Q → (0 < n)%nat →
  0 ≤ Qfloor (r * inject_Z (Z.of_nat n)) < Z.of_nat n.
Proof.
  intros H0 H1 Hn.
  assert (0 < inject_Z (Z.of_nat n))%Q as Hpos.
  { change 0%Q with (inject_Z 0). rewrite <- Zlt_Qlt. lia. }
  split.
  - change 0 with (Qfloor 0). apply Qfloor_resp_le. nra.
  - rewrite Zlt_Qlt.
    eapply Qle_lt_trans; [apply Qfloor_le|]. nra.
Qed.

(** The move of the result of [getBestMove] is one of the moves that
    [getAllValidMoves] has listed for the engine's colour. *)
Lemma getBestMove_among (stack : nat) (settings : Settings)
    (deadline startTime : Z) (w w' : Worker) (result : Result) :
  getBestMove stack settings deadline startTime w = Some (result, w') →
  ∃ moves pos',
    getAllValidMoves stack (aiColor (position w)) (position w)
    = Some (moves, pos')
    ∧ ∀ m, move result = Some m → m ∈ moves.
Proof.
  intros H. unfold getBestMove in H.
  apply bind_Some in H as (ai & w0 & [= <- <-] & H).
  apply bind_Some in H as (moves & w1 & Hgen & H).
  apply onPosition_Some in Hgen as (pos1 & Hgen & ->).
  exists moves, pos1. split; [exact Hgen|]. clear Hgen.
  destruct moves as [|first rest]; [by injection H as <- _|].
  set (moves := first :: rest) in *.
  destruct (searchDepth settings =? 0) eqn:Hd.
  - apply bind_Some in H as (r & w2 & _ & H). injection H as <- _.
    cbn [move]. intros m. destruct (_ <? 0); [done|].
    intros Hm. by eapply list_elem_of_lookup_2.
  - apply bind_Some in H as ([[[best score] completed] scores] & w2
                             & Hdeep & H).
    apply deepen_among in Hdeep as (Hbest & _ & Hscores).
    assert (∀ m, best = Some m → m ∈ moves) as Hb.
    { intros m Hm. destruct (Hbest m Hm) as [[= <-]|?]; [by left|done]. }
    assert (∀ m, m ∈ scores.*1 → m ∈ moves) as Hs.
    { intros m Hm. destruct (Hscores m Hm) as [Hnil|?]; [|done].
      by apply elem_of_nil in Hnil. }
    destruct scores as [|s ss].
    { injection H as <- _. exact Hb. }
    set (sorted := sortBy _ (s :: ss)) in H.
    assert (∀ m, m ∈ sorted.*1 → m ∈ moves) as Hsorted.
    { intros m Hm. apply Hs. subst sorted.
      by rewrite sortBy_permutation in Hm. }
    apply bind_Some in H as (blunder & w3 & Hblunder & H).
    destruct blunder as [bm|].
    { injection H as <- _. cbn [move]. intros m [= <-].
      by eapply Hsorted, maybeBlunder_among. }
    apply bind_Some in H as (selected & w4 & Hsel & H).
    destruct selected as [sm|].
    { injection H as <- _. cbn [move]. intros m [= <-].
      by eapply Hsorted, selectMoveWithSoftmax_among. }
    injection H as <- _. exact Hb.
Qed.

(** The move of the answer is a legal move. Whenever [getBestMove]
    returns, the move of its result, if there is one, is in the list that
    [getAllValidMoves] gives for the engine's colour in the position
    searched: neither the search nor the deliberate mistake nor the
    softmax choice makes up a move. With at least one legal move the
    result has a move, provided that at search depth 0 the random number
    drawn lies in [0, 1); without a legal move the result is the null
    move with score 0 and depth 0. *)
Theorem getBestMove_answers_a_legal_move (stack : nat) (settings : Settings)
    (deadline startTime : Z) (w w' : Worker) (result : Result)
    (moves : list Move) (pos' : Position) :
  getAllValidMoves stack (aiColor (position w)) (position w)
  = Some (moves, pos') →
  getBestMove stack settings deadline startTime w = Some (result, w') →
  (∀ m, move result = Some m → m ∈ moves)
  ∧ (moves ≠ [] →
     (searchDepth settings = 0 →
      (0 <= mathRandom (host w) (draws w))%Q
      ∧ (mathRandom (host w) (draws w) < 1)%Q) →
     is_Some (move result))
  ∧ (moves = [] → result = mkResult None (ofZ 0) 0).
Proof.
  intros Hmoves H.
  assert (∀ m, move result = Some m → m ∈ moves) as Hamong.
  { destruct (getBestMove_among _ _ _ _ _ _ _ H) as (moves' & pos1 & Hgen & Hm).
    rewrite Hmoves in Hgen. by injection Hgen as <- _. }
  unfold getBestMove in H.
  apply bind_Some in H as (ai & w0 & [= <- <-] & H).
  apply bind_Some in H as (moves0 & w1 & Hgen & H).
  apply onPosition_Some in Hgen as (pos1 & Hgen & ->).
  rewrite Hmoves in Hgen. injection Hgen as <- <-.
  destruct moves as [|first rest].
  { injection H as <- _. by split; [|split]. }
  set (moves := first :: rest) in *.
  split; [exact Hamong|split; [|done]]. clear Hamong.
  intros _ Hrand.
    destruct (searchDepth settings =? 0) eqn:Hd.
    + apply Z.eqb_eq in Hd. destruct (Hrand Hd) as [H0 H1].
      apply bind_Some in H as (r & w2 & Hr & H).
      assert (r = mathRandom (host w) (draws w)) as ->
        by (by injection Hr as <- _).
      assert (0 < length moves)%nat as Hlen by (subst moves; cbn; lia).
      pose proof (random_index _ (length moves) H0 H1 Hlen) as [Hlo Hhi].
      set (index := Qfloor _) in *.
      assert (move result = if index <? 0 then None
                            else moves !! Z.to_nat index) as ->
        by (by injection H as <- _).
      destruct (index <? 0) eqn:Hneg; [apply Z.ltb_lt in Hneg; lia|].
      apply lookup_lt_is_Some_2. lia.
    + apply bind_Some in H as ([[[best score] completed] scores] & w2
                               & Hdeep & H).
      apply deepen_among in Hdeep as (_ & Hsome & _).
      specialize (Hsome ltac:(by eexists)).
      destruct scores as [|s ss]; [by injection H as <- _|].
      apply bind_Some in H as (blunder & w3 & _ & H).
      destruct blunder as [bm|]; [injection H as <- _; by eexists|].
      apply bind_Some in H as (selected & w4 & _ & H).
      destruct selected as [sm|]; [injection H as <- _; by eexists|].
      by injection H as <- _.
Qed.

Lemma getBestMove_answers_a_legal_move_witness :
  ∃ result w' moves,
    getBestMove 3 (materialOnly 1) 100 0
      (freshWorker hangingQueenPosition [] (stillHost id))
    = Some (result, w')
    ∧ getAllValidMoves 3 white hangingQueenPosition
      = Some (moves, hangingQueenPosition)
    ∧ ∀ m, move result = Some m → m ∈ moves.
Proof.
  destruct (getBestMove 3 (materialOnly 1) 100 0
              (freshWorker hangingQueenPosition [] (stillHost id)))
    as [[result w']|] eqn:H; [|vm_compute in H; discriminate].
  destruct (getAllValidMoves 3 white hangingQueenPosition)
    as [[moves pos']|] eqn:Hmoves; [|vm_compute in Hmoves; discriminate].
  assert (pos' = hangingQueenPosition) as ->.
  { vm_compute in Hmoves. by injection Hmoves as _ <-. }
  exists result, w', moves. split; [reflexivity|]. split; [reflexivity|].
  exact (proj1 (getBestMove_answers_a_legal_move 3 (materialOnly 1) 100 0
                  (freshWorker hangingQueenPosition [] (stillHost id)) w'
                  result moves hangingQueenPosition Hmoves H)).
Defined.

(** ** What the search changes in the worker *)

Section Evolves.
Context (R : Worker → Worker → Prop).
Hypothesis R_refl : ∀ w, R w w.
Hypothesis R_trans : ∀ w1 w2 w3, R w1 w2 → R w2 w3 → R w1 w3.
Hypothesis R_position : ∀ pos w, R w (setPosition pos w).
Hypothesis R_ticks : ∀ w, R w (setTicks (S (ticks w)) w).

Lemma evolves_ret {A : Type} (a : A) : evolves R (ret a).
Proof. intros w x w' [= _ <-]. apply R_refl. Qed.

Lemma evolves_throw {A : Type} : evolves R (@throw Worker A).
Proof. intros w x w' [=]. Qed.

Lemma evolves_reads {A : Type} (f : Worker → A) : evolves R (reads f).
Proof. intros w x w' [= _ <-]. apply R_refl. Qed.

Lemma evolves_readsE {A : Type} (f : Worker → option A) :
  evolves R (readsE f).
Proof.
  intros w x w'. unfold readsE. destruct (f w); [|done].
  intros [= _ <-]. apply R_refl.
Qed.

Lemma evolves_bind {A B : Type} (m : M A) (k : A → M B) :
  evolves R m → (∀ a, evolves R (k a)) → evolves R (bind m k).
Proof.
  intros Hm Hk w b w' H. apply bind_Some in H as (a & w1 & H1 & H2).
  eapply R_trans; [by eapply Hm|by eapply Hk].
Qed.

Lemma evolves_onPosition {A : Type} (m : P A) : evolves R (onPosition m).
Proof.
  intros w a w' H. apply onPosition_Some in H as (pos' & _ & ->).
  apply R_position.
Qed.

Lemma evolves_DateNow : evolves R DateNow.
Proof. intros w x w' [= _ <-]. apply R_ticks. Qed.

Lemma evolves_timedOut (settings : Settings) (deadline : Z) :
  evolves R (timedOut settings deadline).
Proof.
  unfold timedOut. apply evolves_bind; [apply evolves_reads|intros ft].
  destruct ft; [apply evolves_ret|].
  apply evolves_bind; [apply evolves_DateNow|intros now].
  destruct (deadline <=? now); [apply evolves_ret|].
  apply evolves_bind; [apply evolves_reads|intros n]. apply evolves_ret.
Qed.

Lemma evolves_quiescenceLoop (search : Num → Num → M Num)
    (settings : Settings) (deadline : Z) (isMaximizing : bool)
    (moves : list Move) (alpha beta : Num) :
  (∀ a b, evolves R (search a b)) →
  evolves R
    (quiescenceLoop search settings deadline isMaximizing moves alpha beta).
Proof.
  intros Hs. revert alpha beta.
  induction moves as [|mv moves IH]; intros alpha beta;
    cbn [quiescenceLoop]; [apply evolves_ret|].
  apply evolves_bind; [apply evolves_timedOut|intros stop].
  destruct stop; [apply evolves_ret|].
  apply evolves_bind; [apply evolves_onPosition|intros [piece captured]].
  apply evolves_bind; [apply Hs|intros score].
  apply evolves_bind; [apply evolves_onPosition|intros _].
  destruct isMaximizing.
  - destruct (Num_geb score beta); [apply evolves_ret|apply IH].
  - destruct (Num_leb score alpha); [apply evolves_ret|apply IH].
Qed.

Lemma evolves_quiescenceRec (budget stack : nat) (alpha beta : Num)
    (isMaximizing : bool) (settings : Settings) (deadline : Z) (d : Z) :
  evolves R
    (quiescenceRec budget stack alpha beta isMaximizing settings deadline d).
Proof.
  revert alpha beta isMaximizing d.
  induction budget as [|budget IH]; intros alpha beta isMaximizing d;
    cbn [quiescenceRec].
  - apply evolves_bind.
    { destruct (4 <? d); [apply evolves_ret|apply evolves_timedOut]. }
    intros stop. destruct stop; [apply evolves_onPosition|].
    apply evolves_bind; [apply evolves_onPosition|intros standPat].
    destruct (isMaximizing && _); [apply evolves_ret|].
    destruct (negb isMaximizing && _); [apply evolves_ret|].
    apply evolves_bind; [apply evolves_reads|intros ai].
    apply evolves_bind; [apply evolves_onPosition|intros allMoves].
    apply evolves_bind; [apply evolves_onPosition|intros tactical].
    destruct tactical; [apply evolves_ret|].
    apply evolves_bind; [apply evolves_readsE|intros ordered'].
    apply evolves_throw.
  - apply evolves_bind.
    { destruct (4 <? d); [apply evolves_ret|apply evolves_timedOut]. }
    intros stop. destruct stop; [apply evolves_onPosition|].
    apply evolves_bind; [apply evolves_onPosition|intros standPat].
    destruct (isMaximizing && _); [apply evolves_ret|].
    destruct (negb isMaximizing && _); [apply evolves_ret|].
    apply evolves_bind; [apply evolves_reads|intros ai].
    apply evolves_bind; [apply evolves_onPosition|intros allMoves].
    apply evolves_bind; [apply evolves_onPosition|intros tactical].
    destruct tactical; [apply evolves_ret|].
    apply evolves_bind; [apply evolves_readsE|intros ordered'].
    apply evolves_quiescenceLoop. intros a b. apply IH.
Qed.

Hypothesis R_nodes : ∀ w, R w (setNodesSearched (nodesSearched w + 1) w).
Hypothesis R_ttSet : ∀ key e, evolves R (ttSet key e).
Hypothesis R_updateHistory : ∀ mv d, evolves R (updateHistory mv d).
Hypothesis R_storeKillerMove : ∀ mv d, evolves R (storeKillerMove mv d).

Lemma evolves_maxLoop (search : Num → Num → M Num) (settings : Settings)
    (deadline : Z) (d : nat) (searchDepth : Z) (moves : list Move)
    (alpha beta maxEval : Num) (best : option Move) :
  (∀ a b, evolves R (search a b)) →
  evolves R
    (maxLoop search settings deadline d searchDepth moves alpha beta maxEval
       best).
Proof.
  intros Hs. revert alpha beta maxEval best.
  induction moves as [|mv moves IH]; intros alpha beta maxEval best;
    cbn [maxLoop]; [apply evolves_ret|].
  apply evolves_bind; [apply evolves_timedOut|intros stop].
  destruct stop; [apply evolves_ret|].
  apply evolves_bind; [apply evolves_onPosition|intros [piece captured]].
  apply evolves_bind; [apply Hs|intros evaluation].
  apply evolves_bind; [apply evolves_onPosition|intros _].
  cbv zeta. destruct (Num_leb beta _); [|apply IH].
  apply evolves_bind.
  { destruct (occupied _); [apply evolves_ret|apply R_storeKillerMove]. }
  intros _. apply evolves_bind; [apply R_updateHistory|intros _].
  apply evolves_ret.
Qed.

Lemma evolves_minLoop (search : Num → Num → M Num) (settings : Settings)
    (deadline : Z) (d : nat) (searchDepth : Z) (moves : list Move)
    (alpha beta minEval : Num) (best : option Move) :
  (∀ a b, evolves R (search a b)) →
  evolves R
    (minLoop search settings deadline d searchDepth moves alpha beta minEval
       best).
Proof.
  intros Hs. revert alpha beta minEval best.
  induction moves as [|mv moves IH]; intros alpha beta minEval best;
    cbn [minLoop]; [apply evolves_ret|].
  apply evolves_bind; [apply evolves_timedOut|intros stop].
  destruct stop; [apply evolves_ret|].
  apply evolves_bind; [apply evolves_onPosition|intros [piece captured]].
  apply evolves_bind; [apply Hs|intros evaluation].
  apply evolves_bind; [apply evolves_onPosition|intros _].
  cbv zeta. destruct (Num_leb _ alpha); [|apply IH].
  apply evolves_bind.
  { destruct (occupied _); [apply evolves_ret|apply R_storeKillerMove]. }
  intros _. apply evolves_bind; [apply R_updateHistory|intros _].
  apply evolves_ret.
Qed.

(** After the node is counted, the rest of a call of [alphaBetaSearch]
    is related by [R]. *)
Lemma evolves_alphaBetaSearch_counted (stack d : nat) (alpha beta : Num)
    (isMaximizing : bool) (settings : Settings) (deadline : Z)
    (searchDepth : Z) (w w' : Worker) (v : Num) :
  alphaBetaSearch stack d alpha beta isMaximizing settings deadline
    searchDepth w = Some (v, w') →
  R (setNodesSearched (nodesSearched w + 1) w) w'.
Proof.
  revert alpha beta isMaximizing searchDepth w w' v.
  induction d as [|d IH]; intros alpha beta isMaximizing searchDepth w w' v H;
    cbn [alphaBetaSearch] in H;
    apply bind_Some in H as ([] & w1 & [= <-] & H); revert H;
    match goal with
    | |- ?m ?w1 = Some (?v, ?w') → _ =>
        cut (evolves R m); [intros Hm H; by eapply Hm|]
    end.
  - apply evolves_bind; [apply evolves_timedOut|intros stop].
    destruct stop; [apply evolves_onPosition|].
    apply evolves_bind; [apply evolves_reads|intros repetitions].
    destruct (2 <=? repetitions); [apply evolves_ret|].
    apply evolves_bind; [apply evolves_reads|intros boardKey].
    apply evolves_bind; [apply evolves_reads|intros ttEntry].
    destruct (ttHit ttEntry 0); [apply evolves_ret|].
    apply evolves_bind.
    { destruct (useQuiescence settings);
        [apply evolves_quiescenceRec|apply evolves_onPosition]. }
    intros s. apply evolves_bind; [apply R_ttSet|intros _].
    apply evolves_ret.
  - assert (∀ a b side sd,
              evolves R (alphaBetaSearch stack d a b side settings deadline
                           sd)) as Hrec.
    { intros a b side sd w0 v0 w0' H0.
      eapply R_trans; [apply R_nodes|by eapply IH]. }
    apply evolves_bind; [apply evolves_timedOut|intros stop].
    destruct stop; [apply evolves_onPosition|].
    apply evolves_bind; [apply evolves_reads|intros repetitions].
    destruct (2 <=? repetitions); [apply evolves_ret|].
    apply evolves_bind; [apply evolves_reads|intros boardKey].
    apply evolves_bind; [apply evolves_reads|intros ttEntry].
    destruct (ttHit ttEntry (S d)); [apply evolves_ret|].
    apply evolves_bind; [apply evolves_reads|intros ai].
    apply evolves_bind; [apply evolves_onPosition|intros moves].
    destruct moves as [|mv moves].
    { apply evolves_bind; [apply evolves_readsE|intros inCheck].
      apply evolves_bind; [apply R_ttSet|intros _]. apply evolves_ret. }
    apply evolves_bind; [apply evolves_readsE|intros ordered'].
    destruct isMaximizing.
    + apply evolves_bind.
      { apply evolves_maxLoop. intros a b. apply Hrec. }
      intros [maxEval best].
      apply evolves_bind; [apply R_ttSet|intros _]. apply evolves_ret.
    + apply evolves_bind.
      { apply evolves_minLoop. intros a b. apply Hrec. }
      intros [minEval best].
      apply evolves_bind; [apply R_ttSet|intros _]. apply evolves_ret.
Qed.

End Evolves.

Lemma searched_refl (w : Worker) : searched w w.
Proof. unfold searched. repeat split; try done; lia. Qed.

Lemma searched_trans (w1 w2 w3 : Worker) :
  searched w1 w2 → searched w2 w3 → searched w1 w3.
Proof.
  intros (A1 & A2 & A3 & A4 & A5 & A6 & A7 & A8 & A9 & A10 & A11)
         (B1 & B2 & B3 & B4 & B5 & B6 & B7 & B8 & B9 & B10 & B11).
  unfold searched.
  split; [congruence|]. split; [congruence|]. split; [congruence|].
  split; [congruence|]. split; [congruence|]. split; [lia|].
  split; [lia|]. split; [congruence|]. split; [tauto|].
  split; [intros key; specialize (A10 key); specialize (B10 key); lia|].
  set_solver.
Qed.

Lemma searched_updateHistory (mv : Move) (d : nat) :
  evolves searched (updateHistory mv d).
Proof.
  intros w [] w' [= <-]. unfold searched.
  cbn [positionHistory host forceTimeout posted draws nodesSearched ticks
       killerMoves historyTable transpositionTable setHistoryTable].
  do 5 (split; [done|]). split; [lia|]. split; [lia|].
  do 2 (split; [done|]). split; [|done].
  intros key. destruct (decide (key = historyKey mv)) as [->|Hne].
  - rewrite lookup_insert_eq. cbn. lia.
  - rewrite lookup_insert_ne by done. lia.
Qed.

Lemma searched_ttSet (key : string) (e : TTEntry) :
  evolves searched (ttSet key e).
Proof.
  intros w [] w' [= <-]. unfold searched.
  cbn [positionHistory host forceTimeout posted draws nodesSearched ticks
       killerMoves historyTable transpositionTable setTranspositionTable].
  do 5 (split; [done|]). split; [lia|]. split; [lia|].
  do 2 (split; [done|]). split; [intros; lia|].
  rewrite dom_insert. set_solver.
Qed.

Lemma onlyClock_refl (w : Worker) : onlyClock w w.
Proof. split; [lia|]. exists (position w). by destruct w. Qed.

Lemma onlyClock_trans (w1 w2 w3 : Worker) :
  onlyClock w1 w2 → onlyClock w2 w3 → onlyClock w1 w3.
Proof.
  intros [A1 [p1 A2]] [B1 [p2 B2]]. split; [lia|]. exists p2.
  rewrite B2, A2. by destruct w1.
Qed.

Lemma searched_storeKillerMove (mv : Move) (d : Z) :
  evolves searched (storeKillerMove mv d).
Proof.
  intros w [] w' H.
  destruct (decide (0 ≤ d)) as [Hd|Hd].
  - destruct (storeKillerMove_run mv d w Hd)
      as (w1 & Hrun & Hw1 & Hlen & _ & Hb & _).
    rewrite Hrun in H. injection H as <-. rewrite Hw1. unfold searched.
    cbn [positionHistory host forceTimeout posted draws nodesSearched ticks
         killerMoves historyTable transpositionTable setKillerMoves].
    do 5 (split; [done|]). split; [lia|]. split; [lia|].
    do 2 (split; [done|]). split; [intros; lia|done].
  - unfold storeKillerMove in H.
    rewrite (bind_run _ _ _ _ _
               (eq_refl : reads killerMoves w = Some (killerMoves w, w)))
      in H.
    destruct (_ <=? d) eqn:E; [apply Z.leb_le in E; lia|].
    destruct (d <? 0) eqn:E'; [done|]. apply Z.ltb_ge in E'. lia.
Qed.

(** A call of [alphaBetaSearch] that returns has counted at least one
    node, and apart from the position, the node counter, the number of
    clock readings and the three tables it leaves the worker as it was:
    the history of the game, the host, the stop flag, the messages posted
    and the random draws are untouched. The killer lists keep their
    number and stay within two moves each, no entry of the history table
    shrinks, and no key of the transposition table is lost. A call of
    [quiescenceSearch] changes nothing but the number of clock readings
    and the position: it counts no nodes and fills no table. *)
Theorem search_changes_tables_and_counters_only (stack : nat)
    (settings : Settings) (deadline : Z) (w w' : Worker) (v : Num) :
  (∀ d alpha beta isMaximizing searchDepth,
     alphaBetaSearch stack d alpha beta isMaximizing settings deadline
       searchDepth w = Some (v, w') →
     searched w w' ∧ nodesSearched w + 1 ≤ nodesSearched w')
  ∧ (∀ alpha beta isMaximizing depth,
       quiescenceSearch stack alpha beta isMaximizing settings deadline
         depth w = Some (v, w') →
       onlyClock w w').
Proof.
  split.
  - intros d alpha beta isMaximizing searchDepth H.
    assert (searched (setNodesSearched (nodesSearched w + 1) w) w') as Hs.
    { eapply (evolves_alphaBetaSearch_counted searched); [..|exact H].
      - apply searched_refl.
      - apply searched_trans.
      - intros pos w0. unfold searched. cbn. repeat split; try done; lia.
      - intros w0. unfold searched. cbn. repeat split; try done; lia.
      - intros w0. unfold searched. cbn. repeat split; try done; lia.
      - apply searched_ttSet.
      - apply searched_updateHistory.
      - apply searched_storeKillerMove. }
    split.
    + eapply searched_trans; [|exact Hs].
      unfold searched. cbn. repeat split; try done; lia.
    + destruct Hs as (_ & _ & _ & _ & _ & Hn & _). cbn in Hn. lia.
  - intros alpha beta isMaximizing depth H. unfold quiescenceSearch in H.
    eapply (evolves_quiescenceRec onlyClock); [..|exact H].
    + apply onlyClock_refl.
    + apply onlyClock_trans.
    + intros pos w0. split; [done|]. exists pos. by destruct w0.
    + intros w0. split; [cbn; lia|]. exists (position w0). by destruct w0.
Qed.

Lemma search_changes_tables_and_counters_only_witness :
  ∃ v w',
    alphaBetaSearch 3 1 NegInf PosInf true (materialOnly 1) 100 0
      (freshWorker hangingQueenPosition [] (stillHost id)) = Some (v, w')
    ∧ searched (freshWorker hangingQueenPosition [] (stillHost id)) w'
    ∧ 1 ≤ nodesSearched w'.
Proof.
  destruct (alphaBetaSearch 3 1 NegInf PosInf true (materialOnly 1) 100 0
              (freshWorker hangingQueenPosition [] (stillHost id)))
    as [[v w']|] eqn:H; [|vm_compute in H; discriminate].
  exists v, w'. split; [reflexivity|].
  exact (proj1 (search_changes_tables_and_counters_only 3 (materialOnly 1)
                  100 (freshWorker hangingQueenPosition [] (stillHost id))
                  w' v) 1%nat NegInf PosInf true 0 H).
Defined.

(** ** The bounds of the random choices *)

Lemma pickCumulative_in (rand : Q) (cumulative : Num)
    (candidates : list (MoveScore * Num)) (m : Move) :
  pickCumulative rand cumulative candidates = Some m →
  ∃ s prob, ((m, s), prob) ∈ candidates.
Proof.
  revert cumulative. induction candidates as [|[[x s] prob] rest IH];
    intros cumulative H; cbn [pickCumulative] in H; [done|].
  destruct (Num_leb _ _).
  - injection H as <-. exists s, prob. by left.
  - destruct (IH _ H) as (s' & prob' & Hin). exists s', prob'. by right.
Qed.

(** The random choices stay within their bounds. The move chosen by
    [selectMoveWithSoftmax] has a score of at least the first score of
    the list minus the window (50 if the window of the settings is 0).
    A move returned by [maybeBlunder] is only returned when the random
    number drawn is below the mistake rate, and it is either an entry
    more than 50 below the first score and less than 50 away from the
    first score minus the mistake size, or, when there is no such entry,
    the entry in the middle of a list of at least two, which is not the
    first entry. *)
Theorem random_choices_stay_in_bounds (scores : list MoveScore)
    (settings : Settings) (w w' : Worker) (m : Move) :
  (selectMoveWithSoftmax scores settings w = Some (Some m, w') →
   ∃ first s,
     head scores = Some first ∧ (m, s) ∈ scores
     ∧ Num_geb s
         (Num_sub first.2
            (Fin (if Qeq_bool (softmaxWindow settings) 0 then 50%Q
                  else softmaxWindow settings))) = true)
  ∧ (maybeBlunder scores settings w = Some (Some m, w') →
     Qle_bool (mistakeRate settings) (mathRandom (host w) (draws w)) = false
     ∧ ∃ first i s,
         head scores = Some first ∧ scores !! i = Some (m, s)
         ∧ ((Num_ltb s (Num_sub first.2 (ofZ 50)) = true
             ∧ Num_ltb (Num_abs
                          (Num_sub s
                             (Num_sub first.2
                                (Fin (mistakeSizeCp settings)))))
                       (ofZ 50) = true)
            ∨ (i = Nat.min (length scores / 2) (length scores - 1)
               ∧ (1 ≤ i)%nat))).
Proof.
  split.
  - unfold selectMoveWithSoftmax. intros H.
    destruct scores as [|first rest]; [done|].
    set (scores := first :: rest) in *.
    set (window := if Qeq_bool (softmaxWindow settings) 0 then 50%Q
                   else softmaxWindow settings) in *.
    set (inWindow := λ ms : MoveScore,
                       Num_geb ms.2 (Num_sub first.2 (Fin window))) in *.
    set (topMoves := List.filter inWindow scores) in H.
    assert (∀ x, x ∈ topMoves → x ∈ scores ∧ inWindow x = true) as Htop.
    { intros x Hx. subst topMoves.
      apply list_elem_of_In, filter_In in Hx as [Hx ?].
      split; [by apply list_elem_of_In|done]. }
    assert (∀ x, x ∈ topMoves → m = x.1 →
                 ∃ first0 s, Some first = Some first0 ∧ (m, s) ∈ scores
                             ∧ Num_geb s (Num_sub first0.2 (Fin window))
                               = true) as Hdone.
    { intros [x s] Hx ->. destruct (Htop _ Hx) as [Hin Hw].
      by exists first, s. }
    assert (∀ k : M (option Move),
              (k w = Some (Some m, w') →
               ∃ first0 s, Some first = Some first0 ∧ (m, s) ∈ scores
                           ∧ Num_geb s (Num_sub first0.2 (Fin window))
                             = true) →
              match topMoves with
              | [only] => ret (Some only.1)
              | _ => k
              end w = Some (Some m, w') →
              ∃ first0 s, Some first = Some first0 ∧ (m, s) ∈ scores
                          ∧ Num_geb s (Num_sub first0.2 (Fin window))
                            = true) as Hcase.
    { intros k Hk. destruct topMoves as [|x [|y l]] eqn:E; try done.
      intros [= <- _]. eapply Hdone; [|done]. by left. }
    revert H. apply Hcase. intros H.
    apply bind_Some in H as (exp & w1 & _ & H).
    apply bind_Some in H as (rand & w2 & _ & H).
    destruct (pickCumulative _ _ _) as [picked|] eqn:Hpick.
    + injection H as <- _.
      apply pickCumulative_in in Hpick as (s & prob & Hin).
      apply elem_of_zip_l in Hin. by eapply Hdone.
    + destruct topMoves as [|x l]; [done|].
      injection H as <- _. eapply Hdone; [|done]. by left.
  - unfold maybeBlunder. intros H.
    apply bind_Some in H as (r & w1 & [= <- <-] & H).
    destruct (Qle_bool (mistakeRate settings) _); [done|].
    split; [done|].
    destruct scores as [|first rest]; [done|].
    set (scores := first :: rest) in *.
    set (isCandidate := λ ms : MoveScore,
           Num_ltb (Num_abs
                      (Num_sub ms.2
                         (Num_sub first.2 (Fin (mistakeSizeCp settings)))))
                   (ofZ 50)
           && Num_ltb ms.2 (Num_sub first.2 (ofZ 50))) in *.
    set (candidates := List.filter isCandidate scores) in H.
    assert (∀ x, x ∈ candidates → x ∈ scores ∧ isCandidate x = true)
      as Hcand.
    { intros x Hx. subst candidates.
      apply list_elem_of_In, filter_In in Hx as [Hx ?].
      split; [by apply list_elem_of_In|done]. }
    destruct candidates as [|c cs] eqn:Hc.
    + destruct (1 <? length scores)%nat eqn:Hlen; [|done].
      apply Nat.ltb_lt in Hlen.
      destruct (scores !! _) as [[x s]|] eqn:Hx; [|done].
      injection H as <- _.
      exists first, (Nat.min (length scores / 2) (length scores - 1)), s.
      split; [done|].
      split; [exact Hx|]. right. split; [done|].
      assert (1 ≤ length scores / 2)%nat
        by (apply Nat.div_le_lower_bound; lia).
      lia.
    + apply bind_Some in H as (r2 & w2 & _ & H).
      destruct (_ <? 0); [done|].
      destruct ((c :: cs) !! _) as [[x s]|] eqn:Hx; [|done].
      injection H as <- _.
      apply list_elem_of_lookup_2, Hcand in Hx as [Hin Hok].
      apply list_elem_of_lookup_1 in Hin as [i Hi].
      exists first, i, s. split; [done|]. split; [done|]. left.
      unfold isCandidate in Hok. cbn in Hok.
      apply andb_prop in Hok as [? ?]. done.
Qed.

Lemma random_choices_stay_in_bounds_witness :
  ∃ m w' first s,
    selectMoveWithSoftmax
      [(mkMove 6 4 4 4, Fin 30); (mkMove 6 3 4 3, Fin 10);
       (mkMove 6 0 5 0, Fin (-200))]
      (materialOnly 1) (idleWorker id) = Some (Some m, w')
    ∧ first = (mkMove 6 4 4 4, Fin 30)
    ∧ (m, s) ∈ [(mkMove 6 4 4 4, Fin 30); (mkMove 6 3 4 3, Fin 10);
                (mkMove 6 0 5 0, Fin (-200))]
    ∧ Num_geb s (Num_sub first.2 (Fin 1)) = true.
Proof.
  destruct (selectMoveWithSoftmax
              [(mkMove 6 4 4 4, Fin 30); (mkMove 6 3 4 3, Fin 10);
               (mkMove 6 0 5 0, Fin (-200))]
              (materialOnly 1) (idleWorker id))
    as [[[m|] w']|] eqn:H; [|vm_compute in H; discriminate..].
  destruct (proj1 (random_choices_stay_in_bounds _ _ _ _ _) H)
    as (first & s & Hfirst & Hin & Hs).
  injection Hfirst as <-.
  exists m, w', (mkMove 6 4 4 4, Fin 30), s. done.
Defined.

(** ** The depth and the score of the answer *)

Lemma rootSearched_refl (settings : Settings) (w : Worker) :
  rootSearched settings w w.
Proof. split; [done|]. split; [lia|by left]. Qed.

Lemma rootSearched_trans (settings : Settings) (w1 w2 w3 : Worker) :
  rootSearched settings w1 w2 → rootSearched settings w2 w3 →
  rootSearched settings w1 w3.
Proof.
  intros (Hh1 & Hn1 & Hf1) (Hh2 & Hn2 & Hf2).
  split; [congruence|]. split; [lia|].
  destruct Hf2 as [Hf2|[Hf2 Hm2]]; [|by right].
  destruct Hf1 as [Hf1|[Hf1 Hm1]]; [left; congruence|].
  right. split; [congruence|lia].
Qed.

Lemma alphaBetaSearch_searched (stack d : nat) (alpha beta : Num)
    (isMaximizing : bool) (settings : Settings) (deadline : Z)
    (searchDepth : Z) (w w' : Worker) (v : Num) :
  alphaBetaSearch stack d alpha beta isMaximizing settings deadline
    searchDepth w = Some (v, w') →
  searched w w'.
Proof.
  intros H.
  assert (searched (setNodesSearched (nodesSearched w + 1) w) w') as Hs.
  { eapply (evolves_alphaBetaSearch_counted searched); [..|exact H].
    - apply searched_refl.
    - apply searched_trans.
    - intros pos w0. unfold searched. cbn. repeat split; try done; lia.
    - intros w0. unfold searched. cbn. repeat split; try done; lia.
    - intros w0. unfold searched. cbn. repeat split; try done; lia.
    - apply searched_ttSet.
    - apply searched_updateHistory.
    - apply searched_storeKillerMove. }
  eapply searched_trans; [|exact Hs].
  unfold searched. cbn. repeat split; try done; lia.
Qed.

Lemma deadlinePassed_run (deadline : Z) (w w' : Worker) (stop : bool) :
  deadlinePassed deadline w = Some (stop, w') →
  (forceTimeout w = true ∧ stop = true ∧ w' = w)
  ∨ (forceTimeout w = false
     ∧ stop = (deadline <=? dateNow (host w) (ticks w))
     ∧ w' = setTicks (S (ticks w)) w).
Proof.
  unfold deadlinePassed. intros H.
  apply bind_Some in H as (ft & w1 & [= <- <-] & H).
  destruct (forceTimeout w) eqn:Hft.
  - injection H as <- <-. by left.
  - apply bind_Some in H as (now & w1 & [= <- <-] & H).
    injection H as <- <-. by right.
Qed.

Lemma deadlinePassed_rootSearched (settings : Settings) (deadline : Z)
    (w w' : Worker) (stop : bool) :
  deadlinePassed deadline w = Some (stop, w') → rootSearched settings w w'.
Proof.
  intros [(_ & _ & ->)|(_ & _ & ->)]%deadlinePassed_run;
    [apply rootSearched_refl|].
  split; [done|]. split; [cbn; lia|by left].
Qed.

Lemma deadlinePassed_outOfTime (deadline : Z) (w w' : Worker) (stop : bool) :
  deadlinePassed deadline w = Some (stop, w') →
  outOfTime deadline w → stop = true.
Proof.
  intros [(_ & -> & _)|(Hft & -> & _)]%deadlinePassed_run [Hf|Hd]; try done.
  - congruence.
  - by apply Z.leb_le.
Qed.

Lemma rootLoop_rootSearched (stack depth : nat) (settings : Settings)
    (deadline : Z) (moves : list Move) (depthBestMove : option Move)
    (depthBestScore : Num) (depthMoveScores : list MoveScore)
    (w w' : Worker) (r : option Move * Num * list MoveScore) :
  rootLoop stack depth settings deadline moves depthBestMove depthBestScore
    depthMoveScores w = Some (r, w') →
  rootSearched settings w w' ∧ posted w' = posted w.
Proof.
  revert depthBestMove depthBestScore depthMoveScores w.
  induction moves as [|mv rest IH];
    intros depthBestMove depthBestScore depthMoveScores w H;
    cbn [rootLoop] in H.
  - injection H as _ <-. split; [apply rootSearched_refl|done].
  - apply bind_Some in H as (stop & w1 & Hstop & H).
    assert (posted w1 = posted w) as Hp1.
    { apply deadlinePassed_run in Hstop as [(_ & _ & ->)|(_ & _ & ->)];
        done. }
    apply (deadlinePassed_rootSearched settings) in Hstop.
    cut (rootSearched settings w1 w' ∧ posted w' = posted w1).
    { intros [Hr Hp]. split; [by eapply rootSearched_trans|congruence]. }
    clear Hstop Hp1.
    destruct stop;
      [injection H as _ <-; split; [apply rootSearched_refl|done]|].
    apply bind_Some in H as (n & w2 & [= <- <-] & H).
    destruct (maxNodes settings <? nodesSearched w1) eqn:Hn.
    + apply bind_Some in H as ([] & w2 & [= <-] & H). injection H as _ <-.
      apply Z.ltb_lt in Hn. split; [|done].
      split; [done|]. split; [cbn; lia|by right].
    + apply bind_Some in H as ([piece captured] & w2 & Hmake & H).
      apply onPosition_Some in Hmake as (pos2 & _ & ->).
      apply bind_Some in H as (value & w3 & Hsearch & H).
      apply alphaBetaSearch_searched in Hsearch
        as (_ & Hh & Hf & Hp & _ & Hnodes & _).
      apply bind_Some in H as ([] & w4 & Hunmake & H).
      apply onPosition_Some in Hunmake as (pos4 & _ & ->).
      apply IH in H as [H Hp4]. cbn in *. split; [|congruence].
      eapply rootSearched_trans; [|exact H].
      split; [done|]. split; [done|by left].
Qed.

(** The progress messages posted while the search deepens over [depths]:
    one for some of the depths, in their order. *)
Lemma deepen_progress (stack : nat) (settings : Settings) (deadline : Z)
    (moves : list Move) (depths : list nat) (bestMove : option Move)
    (bestScore : Num) (completedDepth : Z) (allMoveScores : list MoveScore)
    (w w' : Worker) (bm : option Move) (bs : Num) (cd : Z)
    (ams : list MoveScore) :
  deepen stack settings deadline moves depths bestMove bestScore
    completedDepth allMoveScores w = Some ((bm, bs, cd, ams), w') →
  rootSearched settings w w'
  ∧ ∃ progress,
      posted w' = posted w ++ progress
      ∧ map prDepth progress `sublist_of` map Z.of_nat depths
      ∧ StronglySorted (λ a b, prNodes a ≤ prNodes b) progress
      ∧ Forall (λ p, nodesSearched w ≤ prNodes p ≤ nodesSearched w')
               progress
      ∧ cd = default completedDepth (prDepth <$> last progress)
      ∧ bs = default bestScore (prScore <$> last progress)
      ∧ (progress = [] → bm = bestMove ∧ ams = allMoveScores)
      ∧ (outOfTime deadline w →
         progress = [] ∧ nodesSearched w' = nodesSearched w).
Proof.
  revert bestMove bestScore completedDepth allMoveScores w.
  induction depths as [|depth rest IH];
    intros bestMove bestScore completedDepth allMoveScores w H;
    cbn [deepen] in H.
  - injection H as <- <- <- <- <-. split; [apply rootSearched_refl|].
    exists []. rewrite app_nil_r. repeat split; try done; constructor.
  - apply bind_Some in H as (stop & w1 & Hstop & H).
    pose proof (deadlinePassed_rootSearched settings _ _ _ _ Hstop) as Hr1.
    pose proof (deadlinePassed_outOfTime _ _ _ _ Hstop) as Hout.
    assert (posted w1 = posted w ∧ (stop = true → nodesSearched w1 = nodesSearched w))
      as [Hp1 Hn1].
    { apply deadlinePassed_run in Hstop as [(_ & _ & ->)|(_ & _ & ->)];
        done. }
    destruct stop.
    { injection H as <- <- <- <- <-. split; [exact Hr1|].
      exists []. rewrite app_nil_r.
      repeat split; try done; try constructor; try by apply Hn1.
      apply sublist_nil_l. }
    assert (¬ outOfTime deadline w) as Hin by (intros Ho; by apply Hout in Ho).
    apply bind_Some in H as (orderedMoves & w2 & Hord & H).
    assert (w2 = w1) as ->.
    { unfold readsE in Hord. destruct (orderMoves _ _ _ w1); [|done].
      by injection Hord as _ <-. }
    apply bind_Some in H as ([[depthBestMove depthBestScore] depthMoveScores]
                             & w3 & Hroot & H).
    apply rootLoop_rootSearched in Hroot as [Hr3 Hp3].
    apply bind_Some in H as (ft & w4 & [= <- <-] & H).
    apply bind_Some in H as (accept & w4 & Hacc & H).
    assert (rootSearched settings w3 w4 ∧ posted w4 = posted w3) as [Hr4 Hp4].
    { destruct (occupiedMove depthBestMove && negb (forceTimeout w3)).
      - apply bind_Some in Hacc as (now & w5 & [= <- <-] & Hacc).
        injection Hacc as _ <-. split; [|done].
        split; [done|]. split; [cbn; lia|by left].
      - injection Hacc as _ <-. split; [apply rootSearched_refl|done]. }
    assert (rootSearched settings w w4) as Hr.
    { eapply rootSearched_trans; [exact Hr1|].
      eapply rootSearched_trans; [exact Hr3|exact Hr4]. }
    assert (posted w4 = posted w) as Hp by congruence.
    clear Hacc Hord Hstop Hout Hr1 Hr3 Hr4 Hp1 Hp3 Hp4 Hn1.
    destruct accept.
    + apply bind_Some in H as (n & w5 & [= <- <-] & H).
      apply bind_Some in H as ([] & w5 & [= <-] & H).
      apply IH in H as (Hr5 & progress & Hp5 & Hsub & Hsorted & Hall & Hcd
                        & Hbs & Hnil & _).
      cbn in Hp5. rewrite Hp in Hp5.
      assert (nodesSearched w4 ≤ nodesSearched w') as Hn5
        by (by destruct Hr5 as (_ & Hn5 & _)).
      assert (nodesSearched w ≤ nodesSearched w4) as Hn4
        by (by destruct Hr as (_ & Hn4 & _)).
      split.
      { eapply rootSearched_trans; [exact Hr|].
        destruct Hr5 as (Hh5 & _ & Hf5). cbn in *. done. }
      exists (mkProgress (Z.of_nat depth) (nodesSearched w4) depthBestScore
                :: progress).
      split; [by rewrite Hp5, <- app_assoc|].
      split; [cbn; by apply sublist_skip|].
      split.
      { constructor; [done|]. eapply Forall_impl; [exact Hall|].
        cbn. intros p. lia. }
      split.
      { constructor; [cbn; lia|]. eapply Forall_impl; [exact Hall|].
        cbn. intros p. lia. }
      destruct progress as [|p progress'] eqn:Hprog.
      * destruct Hnil as [-> ->]; [done|]. cbn in *. by subst.
      * rewrite last_cons_cons.
        assert (is_Some (last (p :: progress'))) as [q Hq]
          by (by apply last_is_Some).
        rewrite Hq in *. by repeat split.
    + apply IH in H as (Hr5 & progress & Hp5 & Hsub & Hsorted & Hall & Hcd
                        & Hbs & Hnil & _).
      split; [by eapply rootSearched_trans|].
      exists progress. destruct Hr as (_ & Hn4 & _).
      destruct Hr5 as (_ & Hn5 & _).
      split; [congruence|]. split; [by apply sublist_cons|].
      split; [done|].
      split; [eapply Forall_impl; [exact Hall|]; cbn; intros p; lia|].
      repeat split; try done; try (by apply Hnil); intros Ho;
        by destruct Hin.
Qed.

Lemma StronglySorted_sublist {A : Type} (R : A → A → Prop) (l1 l2 : list A) :
  l1 `sublist_of` l2 → StronglySorted R l2 → StronglySorted R l1.
Proof.
  induction 1 as [|x l1 l2 Hsub IH|x l1 l2 Hsub IH]; intros Hs.
  - constructor.
  - apply StronglySorted_inv in Hs as [Hs Hall]. constructor; [by apply IH|].
    apply Forall_forall. intros y Hy. rewrite Forall_forall in Hall.
    apply Hall. by eapply elem_of_sublist.
  - apply StronglySorted_inv in Hs as [Hs _]. by apply IH.
Qed.

Lemma seq_StronglySorted (start len : nat) :
  StronglySorted Z.lt (map Z.of_nat (seq start len)).
Proof.
  revert start. induction len as [|len IH]; intros start; cbn.
  - constructor.
  - constructor; [apply IH|]. apply Forall_forall. intros z Hz.
    apply list_elem_of_fmap in Hz as (n & -> & Hn).
    apply elem_of_seq in Hn. lia.
Qed.

Lemma maybeBlunder_draws (scores : list MoveScore) (settings : Settings)
    (w w' : Worker) (r : option Move) :
  maybeBlunder scores settings w = Some (r, w') →
  ∃ n, w' = setDraws n w.
Proof.
  unfold maybeBlunder. intros H.
  apply bind_Some in H as (r1 & w1 & [= <- <-] & H).
  destruct (Qle_bool _ _); [injection H as _ <-; by eexists|].
  destruct scores as [|first rest]; [done|]. cbv zeta in H.
  destruct (List.filter _ _) as [|c cs].
  - destruct (1 <? _)%nat; [|injection H as _ <-; by eexists].
    destruct (_ !! _); [|done]. injection H as _ <-. by eexists.
  - apply bind_Some in H as (r2 & w2 & [= <- <-] & H).
    destruct (_ <? 0); [done|]. destruct (_ !! _); [|done].
    injection H as _ <-. by eexists.
Qed.

Lemma selectMoveWithSoftmax_draws (scores : list MoveScore)
    (settings : Settings) (w w' : Worker) (r : option Move) :
  selectMoveWithSoftmax scores settings w = Some (r, w') →
  ∃ n, w' = setDraws n w.
Proof.
  unfold selectMoveWithSoftmax. intros H.
  destruct scores as [|first rest]; [done|]. cbv zeta in H.
  assert (w = setDraws (draws w) w) as Hw by (by destruct w).
  destruct (List.filter _ _) as [|t [|t' ts]].
  - apply bind_Some in H as (exp & w1 & [= <- <-] & H).
    apply bind_Some in H as (rand & w1 & [= <- <-] & H).
    destruct (pickCumulative _ _ _); [|done]. injection H as _ <-. by eexists.
  - injection H as _ <-. by eexists.
  - apply bind_Some in H as (exp & w1 & [= <- <-] & H).
    apply bind_Some in H as (rand & w1 & [= <- <-] & H).
    destruct (pickCumulative _ _ _); injection H as _ <-; by eexists.
Qed.

(** The depth and the score of the answer are those of the last progress
    message. With a positive search depth and at least one legal move,
    whenever [getBestMove] returns it has posted progress messages with
    strictly rising depths between 1 and the search depth of the settings
    and with node counts that do not fall; the depth and the score of its
    result are those of the last of them. If none was posted, the result
    has depth 0, score [-Infinity] and the first move of the list of
    [getAllValidMoves]; this is so, without a node searched, when the
    stop flag is raised or the clock has reached the deadline as the
    search starts. The search raises the stop flag only with the node
    counter above the node budget. *)
Theorem getBestMove_reports_last_completed_depth (stack : nat)
    (settings : Settings) (deadline startTime : Z) (w w' : Worker)
    (result : Result) (first : Move) (rest : list Move) (pos' : Position) :
  getAllValidMoves stack (aiColor (position w)) (position w)
  = Some (first :: rest, pos') →
  0 < searchDepth settings →
  getBestMove stack settings deadline startTime w = Some (result, w') →
  ∃ progress,
    posted w' = posted w ++ progress
    ∧ StronglySorted Z.lt (map prDepth progress)
    ∧ StronglySorted (λ a b, prNodes a ≤ prNodes b) progress
    ∧ Forall (λ p, 1 ≤ prDepth p ≤ searchDepth settings
                   ∧ nodesSearched w ≤ prNodes p ≤ nodesSearched w')
             progress
    ∧ resDepth result = default 0 (prDepth <$> last progress)
    ∧ resScore result = default NegInf (prScore <$> last progress)
    ∧ (progress = [] → move result = Some first)
    ∧ (outOfTime deadline w →
       progress = [] ∧ nodesSearched w' = nodesSearched w)
    ∧ (forceTimeout w' = true →
       forceTimeout w = true ∨ maxNodes settings < nodesSearched w').
Proof.
  intros Hmoves Hdepth H. unfold getBestMove in H.
  apply bind_Some in H as (ai & w0 & [= <- <-] & H).
  apply bind_Some in H as (moves & w1 & Hgen & H).
  apply onPosition_Some in Hgen as (pos1 & Hgen & ->).
  rewrite Hmoves in Hgen. injection Hgen as <- <-.
  destruct (searchDepth settings =? 0) eqn:Hzero; [lia|]. clear Hzero.
  apply bind_Some in H as ([[[bm bs] cd] ams] & w2 & Hdeep & H).
  apply deepen_progress in Hdeep
    as (Hr & progress & Hp & Hsub & Hsorted & Hall & Hcd & Hbs & Hnil & Hout).
  cbn [posted nodesSearched setPosition] in Hp, Hall.
  assert (∃ n, w' = setDraws n w2) as [n ->].
  { destruct ams as [|s ss]; [injection H as _ <-; by exists (draws w2);
                                destruct w2|].
    apply bind_Some in H as (blunder & w3 & [k ->]%maybeBlunder_draws & H).
    destruct blunder as [m|]; [injection H as _ <-; by eexists|].
    apply bind_Some in H
      as (selected & w4 & [k' ->]%selectMoveWithSoftmax_draws & H).
    destruct selected as [m|]; injection H as _ <-; by eexists. }
  assert (resDepth result = cd ∧ resScore result = bs
          ∧ (ams = [] → move result = bm)) as (Hrd & Hrs & Hrm).
  { destruct ams as [|s ss]; [by injection H as <- _|].
    apply bind_Some in H as (blunder & w3 & _ & H).
    destruct blunder as [m|]; [by injection H as <- _|].
    apply bind_Some in H as (selected & w4 & _ & H).
    by destruct selected as [m|]; injection H as <- _. }
  clear H. exists progress. cbn [posted nodesSearched forceTimeout setDraws].
  split; [done|]. split.
  { eapply StronglySorted_sublist; [exact Hsub|apply seq_StronglySorted]. }
  split; [done|]. split.
  { apply Forall_forall. intros p Hp'. split.
    - assert (prDepth p ∈ map Z.of_nat
                (seq 1 (Z.to_nat (searchDepth settings)))) as Hd.
      { eapply elem_of_sublist; [|exact Hsub].
        apply list_elem_of_fmap. by exists p. }
      apply list_elem_of_fmap in Hd as (d & -> & Hd).
      apply elem_of_seq in Hd. lia.
    - rewrite Forall_forall in Hall. by apply Hall. }
  split; [congruence|]. split; [congruence|]. split.
  { intros Hnone. destruct (Hnil Hnone) as [-> ->]. by apply Hrm. }
  split.
  { intros Ho. apply Hout. exact Ho. }
  intros Hf. destruct Hr as (_ & _ & [Hf'|[_ Hn]]); [left|by right].
  cbn in Hf'. congruence.
Qed.

Lemma getBestMove_reports_last_completed_depth_witness :
  ∃ result w' progress,
    getBestMove 3 (materialOnly 2) 100 0
      (freshWorker hangingQueenPosition [] (stillHost id))
    = Some (result, w')
    ∧ posted w' = progress
    ∧ map prDepth progress = [1; 2]
    ∧ resDepth result = default 0 (prDepth <$> last progress)
    ∧ resScore result = default NegInf (prScore <$> last progress).
Proof.
  assert ((λ r, map prDepth (posted r.2))
            <$> getBestMove 3 (materialOnly 2) 100 0
                  (freshWorker hangingQueenPosition [] (stillHost id))
          = Some [1; 2]) as Hposted by (vm_compute; reflexivity).
  assert ((λ r, length r.1)
            <$> getAllValidMoves 3 white hangingQueenPosition
          = Some 5%nat) as Hcount by (vm_compute; reflexivity).
  destruct (getBestMove 3 (materialOnly 2) 100 0
              (freshWorker hangingQueenPosition [] (stillHost id)))
    as [[result w']|] eqn:H; [|discriminate Hposted].
  destruct (getAllValidMoves 3 white hangingQueenPosition)
    as [[[|first rest] pos']|] eqn:Hmoves; [discriminate Hcount|
                                            |discriminate Hcount].
  destruct (getBestMove_reports_last_completed_depth 3 (materialOnly 2) 100 0
              (freshWorker hangingQueenPosition [] (stillHost id)) w'
              result first rest pos' Hmoves eq_refl H)
    as (progress & Hp & _ & _ & _ & Hd & Hs & _).
  exists result, w', progress. cbn [posted freshWorker app] in Hp.
  split; [reflexivity|]. split; [exact Hp|]. split; [|by split].
  rewrite <- Hp. cbn [fmap option_fmap option_map snd] in Hposted.
  by injection Hposted.
Defined.

(** ** The evaluation is zero-sum *)

Lemma blind_ret {A : Type} (a : A) : blind (ret a).
Proof. done. Qed.

Lemma blind_bind {A B : Type} (m : P A) (k : A → P B) :
  blind m → (∀ a, blind (k a)) → blind (bind m k).
Proof.
  intros Hm Hk ai turn pos. unfold bind. rewrite Hm.
  destruct (m pos) as [[a pos1]|]; [|done]. cbn. apply Hk.
Qed.

Lemma blind_readsE {A : Type} (f : Position → option A) :
  (∀ ai turn pos, f (recolor ai turn pos) = f pos) → blind (readsE f).
Proof.
  intros Hf ai turn pos. unfold readsE. rewrite Hf. by destruct (f pos).
Qed.

Lemma blind_readCell (r c : Z) : blind (readCell r c).
Proof. done. Qed.

Lemma blind_writeCell (r c : Z) (v : option Piece) : blind (writeCell r c v).
Proof. done. Qed.

Lemma offsetMoves_recolor (ai turn : Color) (pos : Position) (row col : Z)
    (offsets : list (Z * Z)) :
  offsetMoves (recolor ai turn pos) row col offsets
  = offsetMoves pos row col offsets.
Proof.
  induction offsets as [|[dr dc] rest IH]; [done|].
  cbn [offsetMoves]. by rewrite IH.
Qed.

Lemma slide_recolor (n : nat) (ai turn : Color) (pos : Position)
    (piece : option Piece) (r c rowDir colDir : Z) :
  slide n (recolor ai turn pos) piece r c rowDir colDir
  = slide n pos piece r c rowDir colDir.
Proof.
  revert r c. induction n as [|n IH]; intros r c; [done|].
  cbn [slide]. by rewrite IH.
Qed.

Lemma getSlidingMoves_recolor (ai turn : Color) (pos : Position)
    (row col : Z) (directions : list (Z * Z)) :
  getSlidingMoves (recolor ai turn pos) row col directions
  = getSlidingMoves pos row col directions.
Proof.
  induction directions as [|[dr dc] rest IH]; [done|].
  cbn [getSlidingMoves]. by rewrite IH, slide_recolor.
Qed.

Lemma getKingMovesWith_recolor
    (attacked attacked' : option Z → option Z → Color → option bool)
    (ai turn : Color) (pos : Position) (row col : Z) :
  (∀ r c d, attacked' r c d = attacked r c d) →
  getKingMovesWith attacked' (recolor ai turn pos) row col
  = getKingMovesWith attacked pos row col.
Proof.
  intros Hatt. unfold getKingMovesWith. rewrite offsetMoves_recolor.
  cbn [board castlingRights recolor].
  destruct (offsetMoves pos row col kingOffsets) as [steps|]; [|done].
  destruct (cell (board pos) row col) as [piece|]; [|done].
  cbn [fmap option_fmap option_map]. by rewrite !Hatt.
Qed.

Lemma getRawMovesWith_recolor
    (attacked attacked' : option Z → option Z → Color → option bool)
    (ai turn : Color) (pos : Position) (row col : Z) :
  (∀ r c d, attacked' r c d = attacked r c d) →
  getRawMovesWith attacked' (recolor ai turn pos) row col
  = getRawMovesWith attacked pos row col.
Proof.
  intros Hatt. unfold getRawMovesWith. cbn [board recolor].
  destruct (cell (board pos) row col) as [piece|]; [|done].
  destruct (toLowerCase piece).
  - done.
  - apply offsetMoves_recolor.
  - apply getSlidingMoves_recolor.
  - apply getSlidingMoves_recolor.
  - apply getSlidingMoves_recolor.
  - by rewrite (getKingMovesWith_recolor attacked attacked').
Qed.

Lemma scanAttack_recolor (rawMoves rawMoves' : Z → Z → option (list Square))
    (ai turn : Color) (pos : Position) (row col : option Z)
    (defenderColor : Color) (sqs : list (Z * Z)) :
  (∀ r c, rawMoves' r c = rawMoves r c) →
  scanAttack rawMoves' (recolor ai turn pos) row col defenderColor sqs
  = scanAttack rawMoves pos row col defenderColor sqs.
Proof.
  intros Hraw. induction sqs as [|[r c] rest IH]; [done|].
  cbn [scanAttack board recolor]. cbn [scanAttack board recolor] in IH.
  by rewrite IH, Hraw.
Qed.

Lemma isSquareUnderAttack_recolor (stack : nat) (ai turn : Color)
    (pos : Position) (row col : option Z) (defenderColor : Color) :
  isSquareUnderAttack stack (recolor ai turn pos) row col defenderColor
  = isSquareUnderAttack stack pos row col defenderColor.
Proof.
  revert row col defenderColor.
  induction stack as [|stack IH]; intros row col defenderColor; [done|].
  cbn [isSquareUnderAttack]. apply scanAttack_recolor.
  intros r c. by apply getRawMovesWith_recolor.
Qed.

Lemma isInCheck_recolor (stack : nat) (ai turn : Color) (pos : Position)
    (color : Color) :
  isInCheck stack (recolor ai turn pos) color = isInCheck stack pos color.
Proof. unfold isInCheck. apply isSquareUnderAttack_recolor. Qed.

Lemma blind_wouldBeInCheck (stack : nat) (fr fc tr tc : Z) :
  blind (wouldBeInCheck stack fr fc tr tc).
Proof.
  unfold wouldBeInCheck.
  repeat (first [ apply blind_bind; [|intros ?]
                | apply blind_readCell | apply blind_writeCell
                | apply blind_ret ]).
  - by apply blind_readsE.
  - apply blind_readsE. intros ai turn pos. apply isInCheck_recolor.
Qed.

Lemma blind_filterLegal (stack : nat) (row col : Z) (moves : list Square) :
  blind (filterLegal stack row col moves).
Proof.
  induction moves as [|m rest IH]; [apply blind_ret|].
  cbn [filterLegal].
  apply blind_bind; [apply blind_wouldBeInCheck|intros inCheck].
  apply blind_bind; [exact IH|intros kept]. apply blind_ret.
Qed.

Lemma blind_getValidMovesForPiece (stack : nat) (row col : Z) :
  blind (getValidMovesForPiece stack row col).
Proof.
  unfold getValidMovesForPiece.
  apply blind_bind; [apply blind_readCell|intros [piece|]]; [|apply blind_ret].
  apply blind_bind; [|intros moves; apply blind_filterLegal].
  apply blind_readsE. intros ai turn pos. destruct (toLowerCase piece).
  - done.
  - apply offsetMoves_recolor.
  - apply getSlidingMoves_recolor.
  - apply getSlidingMoves_recolor.
  - apply getSlidingMoves_recolor.
  - apply getKingMovesWith_recolor. intros r c d.
    apply isSquareUnderAttack_recolor.
Qed.

Lemma blind_getAllValidMoves (stack : nat) (color : Color) :
  blind (getAllValidMoves stack color).
Proof.
  unfold getAllValidMoves.
  induction allSquares as [|[row col] rest IH]; [apply blind_ret|].
  cbn [getAllValidMovesOn].
  apply blind_bind; [apply blind_readCell|intros piece].
  apply blind_bind; [|intros here; apply blind_bind;
                                   [exact IH|intros more; apply blind_ret]].
  destruct piece as [piece|]; [|apply blind_ret].
  destruct (Color_eqb _ _); [|apply blind_ret].
  apply blind_bind; [apply blind_getValidMovesForPiece|intros pieceMoves].
  apply blind_ret.
Qed.

Lemma Color_eqb_flip (a b c : Color) :
  Color_eqb b c = false → Color_eqb a b = negb (Color_eqb a c).
Proof. by destruct a, b, c. Qed.

Lemma materialOf_recolor (ai turn : Color) (pos : Position) :
  materialOf (recolor ai turn pos)
  = if Color_eqb ai (aiColor pos) then materialOf pos else - materialOf pos.
Proof.
  destruct (Color_eqb ai (aiColor pos)) eqn:E.
  { apply Color_eqb_eq in E as ->. unfold materialOf.
    cbn [board aiColor recolor]. reflexivity. }
  unfold materialOf. cbn [board aiColor recolor].
  change 0 with (- 0) at 1. generalize 0 at 1 2. intros acc.
  revert acc. induction allSquares as [|[r c] rest IH]; intros acc; [done|].
  cbn [foldl]. rewrite <- IH. f_equal.
  destruct (cell (board pos) r c) as [piece|]; [|done].
  rewrite (Color_eqb_flip _ _ _ E).
  destruct (Color_eqb (getPieceColor piece) (aiColor pos)); cbn; lia.
Qed.

Lemma foldl_Qeq {A : Type} (f g : Q → A → Q) (l : list A) (a b : Q) :
  (∀ x y z, x == - y → f x z == - g y z)%Q →
  (a == - b)%Q → (foldl f a l == - foldl g b l)%Q.
Proof.
  intros Hfg. revert a b.
  induction l as [|z l IH]; intros a b Hab; [done|].
  cbn [foldl]. apply IH. by apply Hfg.
Qed.

Lemma positionScoreOf_recolor (settings : Settings) (ai turn : Color)
    (pos : Position) :
  (positionScoreOf settings (recolor ai turn pos)
   == if Color_eqb ai (aiColor pos) then positionScoreOf settings pos
      else - positionScoreOf settings pos)%Q.
Proof.
  destruct (Color_eqb ai (aiColor pos)) eqn:E.
  { apply Color_eqb_eq in E as ->. unfold positionScoreOf.
    cbn [board aiColor recolor]. reflexivity. }
  unfold positionScoreOf. cbn [board aiColor recolor].
  apply foldl_Qeq; [|done]. intros x y [r c] Hxy.
  destruct (cell (board pos) r c) as [piece|]; [|done].
  rewrite (Color_eqb_flip _ _ _ E).
  destruct (Qgtb (positionWeight settings) 0); [|done]. rewrite Hxy.
  destruct (Color_eqb (getPieceColor piece) (aiColor pos)); cbn [negb];
    unfold inject_Z at 2 4; ring.
Qed.

Lemma evaluatePawnStructure_recolor (whitePawns blackPawns : list Square)
    (settings : Settings) (ai turn : Color) (pos : Position) :
  (evaluatePawnStructure whitePawns blackPawns settings (recolor ai turn pos)
   == if Color_eqb ai (aiColor pos)
      then evaluatePawnStructure whitePawns blackPawns settings pos
      else - evaluatePawnStructure whitePawns blackPawns settings pos)%Q.
Proof.
  destruct (Color_eqb ai (aiColor pos)) eqn:E.
  { apply Color_eqb_eq in E as ->. unfold evaluatePawnStructure.
    cbn [aiColor recolor]. reflexivity. }
  unfold evaluatePawnStructure. cbn [aiColor recolor]. cbv zeta.
  generalize (foldl
    (λ acc pawn,
       acc
       + ((if existsb (λ p, (sqCol p =? sqCol pawn)
                            && (sqRow pawn <? sqRow p)) blackPawns
           then 20 else 0)
          + (if negb (existsb (λ p, Z.abs (sqCol p - sqCol pawn) =? 1)
                        blackPawns)
             then 15 else 0)
          + (if negb (existsb (λ p, (Z.abs (sqCol p - sqCol pawn) <=? 1)
                                    && (sqRow p <? sqRow pawn)) whitePawns)
             then - ((sqRow pawn - 1) * 10) else 0)))
    (foldl
       (λ acc pawn,
          acc
          + ((if existsb (λ p, (sqCol p =? sqCol pawn)
                               && (sqRow p <? sqRow pawn)) whitePawns
              then -20 else 0)
             + (if negb (existsb (λ p, Z.abs (sqCol p - sqCol pawn) =? 1)
                           whitePawns)
                then -15 else 0)
             + (if negb (existsb (λ p, (Z.abs (sqCol p - sqCol pawn) <=? 1)
                                       && (sqRow pawn <? sqRow p)) blackPawns)
                then (6 - sqRow pawn) * 10 else 0)))
       0 whitePawns) blackPawns).
  intros score.
  destruct ai, (aiColor pos); try done; rewrite inject_Z_opp; ring.
Qed.

Lemma kingSafetyAt_recolor (settings : Settings) (ai turn : Color)
    (pos : Position) (piece : Piece) (row col : Z) :
  Color_eqb ai (aiColor pos) = false →
  (kingSafetyAt settings (recolor ai turn pos) piece row col
   == - kingSafetyAt settings pos piece row col)%Q.
Proof.
  intros E. unfold kingSafetyAt, countPieces. cbv zeta.
  cbn [board aiColor recolor]. rewrite (Color_eqb_flip _ _ _ E).
  match goal with
  | |- (?X * _ * _ == - (?X * _ * _))%Q => generalize X; intros x
  end.
  destruct (Color_eqb (getPieceColor piece) (aiColor pos)); cbn [negb];
    change (inject_Z 1) with 1%Q; change (inject_Z (-1)) with (-1 # 1)%Q;
    ring.
Qed.

Lemma evaluateKingSafety_recolor (settings : Settings) (ai turn : Color)
    (pos : Position) :
  (evaluateKingSafety settings (recolor ai turn pos)
   == if Color_eqb ai (aiColor pos) then evaluateKingSafety settings pos
      else - evaluateKingSafety settings pos)%Q.
Proof.
  destruct (Color_eqb ai (aiColor pos)) eqn:E.
  { apply Color_eqb_eq in E as ->. unfold evaluateKingSafety, kingSafetyAt,
      countPieces. cbn [board aiColor recolor]. reflexivity. }
  unfold evaluateKingSafety. cbn [board recolor].
  apply foldl_Qeq; [|done]. intros x y [r c] Hxy.
  destruct (cell (board pos) r c) as [piece|]; [|done].
  destruct (PieceType_eqb (toLowerCase piece) King); [|done].
  rewrite Hxy, (kingSafetyAt_recolor _ _ _ _ _ _ _ E). ring.
Qed.

Lemma evaluateMobility_run (stack : nat) (settings : Settings)
    (ai turn : Color) (pos : Position) (aiMoves opponentMoves : list Move) :
  getAllValidMoves stack ai pos = Some (aiMoves, pos) →
  getAllValidMoves stack (opposite ai) pos = Some (opponentMoves, pos) →
  evaluateMobility stack settings (recolor ai turn pos)
  = Some ((inject_Z (Z.of_nat (length aiMoves)
                     - Z.of_nat (length opponentMoves))
           * 10 * mobilityWeight settings)%Q, recolor ai turn pos).
Proof.
  intros H1 H2. unfold evaluateMobility.
  unfold bind at 1. unfold reads at 1. cbn [aiColor recolor].
  unfold bind at 1. rewrite blind_getAllValidMoves, H1.
  cbn [fmap option_fmap option_map].
  unfold bind at 1. unfold reads at 1. cbn [currentTurn recolor].
  unfold bind at 1. unfold modify at 1.
  change (setCurrentTurn (opposite ai) (recolor ai turn pos))
    with (recolor ai (opposite ai) pos).
  unfold bind at 1. rewrite blind_getAllValidMoves, H2.
  cbn [fmap option_fmap option_map]. reflexivity.
Qed.

Lemma evaluateMobility_moves (stack : nat) (settings : Settings)
    (pos pos' : Position) (q : Q) :
  wfBoard (board pos) →
  evaluateMobility stack settings pos = Some (q, pos') →
  ∃ aiMoves opponentMoves,
    getAllValidMoves stack (aiColor pos) pos = Some (aiMoves, pos)
    ∧ getAllValidMoves stack (opposite (aiColor pos)) pos
      = Some (opponentMoves, pos)
    ∧ q = (inject_Z (Z.of_nat (length aiMoves)
                     - Z.of_nat (length opponentMoves))
           * 10 * mobilityWeight settings)%Q.
Proof.
  intros Hwf H. unfold evaluateMobility in H.
  apply bind_Some in H as (ai & p1 & [= <- <-] & H).
  apply bind_Some in H as (aiMoves & p1 & H1 & H).
  pose proof (getAllValidMoves_restores _ _ _ _ _ Hwf H1) as ->.
  apply bind_Some in H as (originalTurn & p1 & [= <- <-] & H).
  apply bind_Some in H as ([] & p1 & [= <-] & H).
  apply bind_Some in H as (opponentMoves & p2 & H2 & H).
  change (setCurrentTurn (opposite (aiColor pos)) pos)
    with (recolor (aiColor pos) (opposite (aiColor pos)) pos) in H2.
  rewrite blind_getAllValidMoves in H2.
  destruct (getAllValidMoves stack (opposite (aiColor pos)) pos)
    as [[moves2 p3]|] eqn:H3; [|done].
  pose proof (getAllValidMoves_restores _ _ _ _ _ Hwf H3) as ->.
  injection H2 as <- <-.
  apply bind_Some in H as ([] & p3 & [= <-] & H). injection H as <- _.
  by eexists _, _.
Qed.

Lemma reads_Some {S A : Type} (f : S → A) (s s' : S) (a : A) :
  reads f s = Some (a, s') → a = f s ∧ s' = s.
Proof. by intros [= <- <-]. Qed.

Lemma bind_reads {S A B : Type} (f : S → A) (k : A → ST S B) (s : S) :
  bind (reads f) k s = k (f s) s.
Proof. reflexivity. Qed.

Lemma opposite_of_other (a b : Color) :
  Color_eqb a b = false → a = opposite b ∧ b = opposite a.
Proof. by destruct a, b. Qed.

(** The evaluation is zero-sum and does not look at the side to move. On
    an 8x8 board, if [evaluatePosition] returns a value for the engine's
    colour, then with [aiColor] set to the other colour it returns the
    negated value, and with the same [aiColor] the same value, whatever
    [currentTurn] is set to; in both cases it leaves the position as it
    was. The same holds for the material count of [quickEval]. *)
Theorem evaluatePosition_is_zero_sum (stack : nat) (settings : Settings)
    (ai turn : Color) (pos pos' : Position) (v : Q) :
  wfBoard (board pos) →
  evaluatePosition stack settings pos = Some (Fin v, pos') →
  (∃ v', evaluatePosition stack settings (recolor ai turn pos)
         = Some (Fin v', recolor ai turn pos)
         ∧ (v' == if Color_eqb ai (aiColor pos) then v else - v)%Q)
  ∧ quickEval settings (recolor ai turn pos)
    = Some (ofZ (if Color_eqb ai (aiColor pos) then materialOf pos
                 else - materialOf pos), recolor ai turn pos).
Proof.
  intros Hwf H. split; [|unfold quickEval, reads;
                         by rewrite materialOf_recolor].
  unfold evaluatePosition in H.
  apply bind_Some in H as (materialScore & p1 & [-> ->]%reads_Some & H).
  apply bind_Some in H as (positionScore & p1 & [-> ->]%reads_Some & H).
  apply bind_Some in H as (whitePawns & p1 & [-> ->]%reads_Some & H).
  apply bind_Some in H as (blackPawns & p1 & [-> ->]%reads_Some & H).
  apply bind_Some in H as (mobilityScore & p1 & Hmob & H).
  assert (p1 = pos
          ∧ ∃ mobilityScore',
              (if Qgtb (mobilityWeight settings) 0
               then evaluateMobility stack settings else ret 0%Q)
                (recolor ai turn pos)
              = Some (mobilityScore', recolor ai turn pos)
              ∧ (mobilityScore'
                 == if Color_eqb ai (aiColor pos) then mobilityScore
                    else - mobilityScore)%Q)
    as (-> & mobilityScore' & Hmob' & Hm).
  { destruct (Qgtb (mobilityWeight settings) 0).
    - pose proof (evaluateMobility_restores _ _ _ _ _ Hwf Hmob) as ->.
      split; [done|].
      apply evaluateMobility_moves in Hmob
        as (aiMoves & opponentMoves & H1 & H2 & ->); [|done].
      destruct (Color_eqb ai (aiColor pos)) eqn:E.
      + apply Color_eqb_eq in E as ->. eexists. split; [|reflexivity].
        apply evaluateMobility_run; [exact H1|exact H2].
      + apply opposite_of_other in E as [-> Hai]. eexists. split.
        * apply evaluateMobility_run; [exact H2|]. rewrite <- Hai.
          exact H1.
        * unfold Z.sub. rewrite !inject_Z_plus, !inject_Z_opp. ring.
    - injection Hmob as <- <-. split; [done|]. exists 0%Q.
      split; [done|]. by destruct (Color_eqb _ _). }
  clear Hmob.
  apply bind_Some in H as (pawnStructureScore & p1 & Hps & H).
  apply bind_Some in H as (kingSafetyScore & p2 & Hks & H).
  injection H as <- <-.
  exists (inject_Z (materialOf (recolor ai turn pos))
          + positionScoreOf settings (recolor ai turn pos)
          + mobilityScore'
          + (if Qgtb (pawnStructureWeight settings) 0
             then evaluatePawnStructure (pawnsOf pos white)
                    (pawnsOf pos black) settings (recolor ai turn pos)
             else 0)
          + (if Qgtb (kingSafetyWeight settings) 0
             then evaluateKingSafety settings (recolor ai turn pos)
             else 0))%Q.
  split.
  - unfold evaluatePosition. rewrite !bind_reads.
    rewrite (bind_run _ _ _ _ _ Hmob').
    unfold pawnsOf. cbn [board recolor].
    destruct (Qgtb (pawnStructureWeight settings) 0),
      (Qgtb (kingSafetyWeight settings) 0); reflexivity.
  - pose proof (materialOf_recolor ai turn pos) as Hmat.
    pose proof (positionScoreOf_recolor settings ai turn pos) as Hpos.
    assert (p1 = pos
            ∧ pawnStructureScore
              = if Qgtb (pawnStructureWeight settings) 0
                then evaluatePawnStructure (pawnsOf pos white)
                       (pawnsOf pos black) settings pos
                else 0%Q) as [-> ->].
    { revert Hps. destruct (Qgtb (pawnStructureWeight settings) 0).
      - by intros [-> ->]%reads_Some.
      - by intros [= <- <-]. }
    assert (kingSafetyScore
            = if Qgtb (kingSafetyWeight settings) 0
              then evaluateKingSafety settings pos else 0%Q) as ->.
    { revert Hks. destruct (Qgtb (kingSafetyWeight settings) 0).
      - by intros [-> _]%reads_Some.
      - by intros [= <- _]. }
    pose proof (evaluatePawnStructure_recolor (pawnsOf pos white)
                  (pawnsOf pos black) settings ai turn pos) as Hp.
    pose proof (evaluateKingSafety_recolor settings ai turn pos) as Hk.
    clear Hmob' Hwf.
    remember (materialOf (recolor ai turn pos)) as m' eqn:E1. clear E1.
    remember (materialOf pos) as m eqn:E2. clear E2.
    remember (positionScoreOf settings (recolor ai turn pos)) as p' eqn:E3.
    clear E3.
    remember (positionScoreOf settings pos) as p eqn:E4. clear E4.
    remember (evaluatePawnStructure (pawnsOf pos white) (pawnsOf pos black)
                settings (recolor ai turn pos)) as s' eqn:E5. clear E5.
    remember (evaluatePawnStructure (pawnsOf pos white) (pawnsOf pos black)
                settings pos) as s eqn:E6. clear E6.
    remember (evaluateKingSafety settings (recolor ai turn pos)) as k'
      eqn:E7. clear E7.
    remember (evaluateKingSafety settings pos) as k eqn:E8. clear E8.
    destruct (Color_eqb ai (aiColor pos)); subst m';
      destruct (Qgtb (pawnStructureWeight settings) 0),
        (Qgtb (kingSafetyWeight settings) 0);
      rewrite ?inject_Z_opp; lra.
Qed.

Lemma evaluatePosition_is_zero_sum_witness :
  ∃ v v',
    evaluatePosition 3 (getAISettings 1500) hangingQueenPosition
    = Some (Fin v, hangingQueenPosition)
    ∧ evaluatePosition 3 (getAISettings 1500)
        (recolor black black hangingQueenPosition)
      = Some (Fin v', recolor black black hangingQueenPosition)
    ∧ (v' == - v)%Q.
Proof.
  destruct (evaluatePosition 3 (getAISettings 1500) hangingQueenPosition)
    as [[value pos']|] eqn:H; [|vm_compute in H; discriminate].
  assert (pos' = hangingQueenPosition) as ->.
  { vm_compute in H. by injection H as _ <-. }
  destruct (evaluatePosition_Fin _ _ _ _ _ H) as [v ->].
  destruct (proj1 (evaluatePosition_is_zero_sum 3 (getAISettings 1500)
                     black black hangingQueenPosition hangingQueenPosition
                     v hangingQueenBoard_wf H)) as (v' & H' & Hv).
  exists v, v'. split; [reflexivity|]. split; [exact H'|exact Hv].
Defined.

(** ** The moves the quiescence search looks at *)

(** The filter of [quiescenceSearch] keeps the captures and the checks.
    Whenever it returns on moves between squares of an 8x8 board, it
    leaves the position as it was, and it has kept, in their order, the
    moves that end on an occupied square and those after which
    [isInCheck] says yes for the other colour. *)
Theorem tacticalFilter_keeps_captures_and_checks (stack : nat)
    (color : Color) (moves kept : list Move) (pos pos' : Position) :
  wfBoard (board pos) →
  Forall (λ mv, isValidSquare (fromRow mv) (fromCol mv) = true
                ∧ isValidSquare (toRow mv) (toCol mv) = true) moves →
  tacticalFilter stack color moves pos = Some (kept, pos') →
  pos' = pos
  ∧ kept
    = List.filter
        (λ mv, occupied (cell (board pos) (toRow mv) (toCol mv))
               || bool_decide
                    (isInCheck stack (afterSearchMove pos mv)
                       (opposite color) = Some true))
        moves.
Proof.
  intros _ _. revert kept pos'.
  induction moves as [|mv ms IH]; intros kept pos' H.
  { by injection H as <- <-. }
  rewrite tacticalFilter_cons in H. cbn [List.filter].
  destruct (occupied (cell (board pos) (toRow mv) (toCol mv))) eqn:Hocc.
  - destruct (tacticalFilter stack color ms pos) as [[more pos2]|] eqn:Hms;
      [|done].
    injection H as <- <-. destruct (IH _ _ eq_refl) as [-> ->]. done.
  - cbv zeta in H.
    destruct (isInCheck stack (afterSearchMove pos mv) (opposite color))
      as [givesCheck|] eqn:Hcheck; [|done].
    assert (setBoard
              (setCell
                 (setCell (board (afterSearchMove pos mv)) (fromRow mv)
                    (fromCol mv)
                    (cell (board pos) (fromRow mv) (fromCol mv)))
                 (toRow mv) (toCol mv) None) (afterSearchMove pos mv)
            = pos) as Hback.
    { destruct pos as [b ai turn cr ep]. unfold afterSearchMove, setBoard.
      cbn. f_equal. cbn in Hocc.
      destruct (cell b (toRow mv) (toCol mv)) eqn:Hto; [done|].
      pose proof (make_unmake_board b (fromRow mv) (fromCol mv) (toRow mv)
                    (toCol mv)) as Hmu.
      cbv zeta in Hmu. rewrite Hto in Hmu. by rewrite Hmu. }
    rewrite Hback in H.
    destruct (tacticalFilter stack color ms pos) as [[more pos2]|] eqn:Hms;
      [|done].
    injection H as <- <-. destruct (IH _ _ eq_refl) as [-> ->].
    split; [done|]. cbn [orb]. by destruct givesCheck.
Qed.

Lemma tacticalFilter_keeps_captures_and_checks_witness :
  tacticalFilter 3 white [mkMove 4 4 3 3; mkMove 4 4 3 4; mkMove 7 4 7 3]
    hangingQueenPosition
  = Some ([mkMove 4 4 3 3], hangingQueenPosition)
  ∧ [mkMove 4 4 3 3]
    = List.filter
        (λ mv, occupied (cell hangingQueenBoard (toRow mv) (toCol mv))
               || bool_decide
                    (isInCheck 3 (afterSearchMove hangingQueenPosition mv)
                       black = Some true))
        [mkMove 4 4 3 3; mkMove 4 4 3 4; mkMove 7 4 7 3].
Proof.
  assert (tacticalFilter 3 white
            [mkMove 4 4 3 3; mkMove 4 4 3 4; mkMove 7 4 7 3]
            hangingQueenPosition
          = Some ([mkMove 4 4 3 3], hangingQueenPosition)) as H
    by (vm_compute; reflexivity).
  split; [exact H|].
  refine (proj2 (tacticalFilter_keeps_captures_and_checks 3 white _ _
                   hangingQueenPosition hangingQueenPosition
                   hangingQueenBoard_wf _ H)).
  repeat constructor.
Defined.
(** ** The answer of the worker, played on the page *)



(** ** Loading a position key *)

(** [loadFEN] reads back what [getFEN] writes, as far as it reads. For a
    position on an 8x8 board, loading its key sets the board and the side
    to move of the game to those of the position, clears the last move,
    the selection and the game-over flag, and keeps the castling rights
    and the en-passant target that the game had before: the third and the
    fourth field of the key are not read. *)
Theorem loadFEN_reads_back_getFEN (pos : Position) (p : Page) :
  wfBoard (board pos) →
  ∃ q,
    loadFEN (getFEN pos) p = Some q
    ∧ gBoard (pgGame q) = board pos
    ∧ gCurrentTurn (pgGame q) = currentTurn pos
    ∧ gCastlingRights (pgGame q) = gCastlingRights (pgGame p)
    ∧ gEnPassantTarget (pgGame q) = gEnPassantTarget (pgGame p)
    ∧ gLastMove (pgGame q) = None
    ∧ gMoveHistory (pgGame q) = gMoveHistory (pgGame p)
    ∧ gPositionHistory (pgGame q) = gPositionHistory (pgGame p)
    ∧ pgGameOver q = false ∧ pgSelectedSquare q = None
    ∧ pgValidMoves q = [] ∧ pgPlayerColor q = pgPlayerColor p.
Proof.
  intros Hwf. unfold loadFEN, getFEN.
  rewrite (parseFEN_fenOf _ _ _ _ Hwf). eexists. split; [reflexivity|].
  cbn. by repeat split.
Qed.

Lemma loadFEN_reads_back_getFEN_witness :
  ∃ q,
    loadFEN (getFEN hangingQueenOther)
      (mkPage (newGame initialBoard white allCastling None) white true (Some (6, 4)) [])
    = Some q
    ∧ gBoard (pgGame q) = hangingQueenBoard
    ∧ gCurrentTurn (pgGame q) = black
    ∧ gEnPassantTarget (pgGame q) = None.
Proof.
  destruct (loadFEN_reads_back_getFEN hangingQueenOther
              (mkPage (newGame initialBoard white allCastling None) white true (Some (6, 4))
                 [])
              hangingQueenBoard_wf)
    as (q & Hq & Hb & Ht & _ & He & _).
  exists q. split; [exact Hq|]. split; [exact Hb|]. split; [exact Ht|].
  exact He.
Defined.

(** ** What the attack test counts as an attack *)

Lemma existsb_hits (row col : Z) (moves : list Square) :
  existsb (hits (Some row) (Some col)) moves = true
  ↔ mkSquare row col ∈ moves.
Proof.
  rewrite existsb_exists. split.
  - intros ([r c] & Hin & Hhit). cbn in Hhit.
    apply andb_true_iff in Hhit as [->%Z.eqb_eq ->%Z.eqb_eq].
    by apply list_elem_of_In.
  - intros Hin. exists (mkSquare row col). split; [by apply list_elem_of_In|].
    cbn. by rewrite !Z.eqb_refl.
Qed.

Lemma scanAttack_spec (rawMoves : Z → Z → option (list Square))
    (pos : Position) (row col : Z) (defender : Color) (sqs : list (Z * Z))
    (b : bool) :
  scanAttack rawMoves pos (Some row) (Some col) defender sqs = Some b →
  (b = true
   ↔ ∃ r c piece moves,
       (r, c) ∈ sqs ∧ cell (board pos) r c = Some piece
       ∧ pcolor piece ≠ defender ∧ rawMoves r c = Some moves
       ∧ mkSquare row col ∈ moves)
  ∧ (b = false →
     ∀ r c piece, (r, c) ∈ sqs → cell (board pos) r c = Some piece →
                  pcolor piece ≠ defender → is_Some (rawMoves r c)).
Proof.
  induction sqs as [|[r c] rest IH]; cbn [scanAttack].
  { intros [= <-]. split; [|intros _ r c piece Hin; by apply elem_of_nil in Hin].
    split; [done|]. intros (r & c & piece & moves & Hin & _).
    by apply elem_of_nil in Hin. }
  assert ((b = true
           ↔ ∃ r0 c0 piece moves,
               (r0, c0) ∈ rest ∧ cell (board pos) r0 c0 = Some piece
               ∧ pcolor piece ≠ defender ∧ rawMoves r0 c0 = Some moves
               ∧ mkSquare row col ∈ moves)
          ∧ (b = false →
             ∀ r0 c0 piece, (r0, c0) ∈ rest →
                            cell (board pos) r0 c0 = Some piece →
                            pcolor piece ≠ defender →
                            is_Some (rawMoves r0 c0)) →
          (∀ piece, cell (board pos) r c = Some piece →
                    pcolor piece ≠ defender →
                    ∃ moves, rawMoves r c = Some moves
                             ∧ mkSquare row col ∉ moves) →
          (b = true
           ↔ ∃ r0 c0 piece moves,
               (r0, c0) ∈ (r, c) :: rest
               ∧ cell (board pos) r0 c0 = Some piece
               ∧ pcolor piece ≠ defender ∧ rawMoves r0 c0 = Some moves
               ∧ mkSquare row col ∈ moves)
          ∧ (b = false →
             ∀ r0 c0 piece, (r0, c0) ∈ (r, c) :: rest →
                            cell (board pos) r0 c0 = Some piece →
                            pcolor piece ≠ defender →
                            is_Some (rawMoves r0 c0))) as Hskip.
  { intros [Hiff Hall] Hhead. split.
    - rewrite Hiff. split.
      + intros (r0 & c0 & piece & moves & Hin & H).
        exists r0, c0, piece, moves. split; [by right|done].
      + intros (r0 & c0 & piece & moves & Hin & Hp & Hc & Hm & Hhit).
        apply elem_of_cons in Hin as [[= -> ->]|Hin].
        * destruct (Hhead piece Hp Hc) as (moves' & Hm' & Hno).
          rewrite Hm in Hm'. injection Hm' as <-. done.
        * by exists r0, c0, piece, moves.
    - intros Hb r0 c0 piece Hin Hp Hc.
      apply elem_of_cons in Hin as [[= -> ->]|Hin].
      + destruct (Hhead piece Hp Hc) as (moves' & Hm' & _). by eexists.
      + by eapply Hall. }
  destruct (cell (board pos) r c) as [piece|] eqn:Hp.
  2:{ intros H. apply Hskip; [by apply IH|]. done. }
  destruct (Color_eqb (getPieceColor piece) defender) eqn:Hc; cbn [negb].
  { intros H. apply Hskip; [by apply IH|].
    intros piece' [= <-] Hne. apply Color_eqb_eq in Hc. done. }
  assert (pcolor piece ≠ defender) as Hne.
  { intros Heq. apply Color_eqb_eq in Heq. unfold getPieceColor in Hc.
    congruence. }
  destruct (rawMoves r c) as [moves|] eqn:Hm; [|done].
  destruct (existsb (hits (Some row) (Some col)) moves) eqn:Hhit.
  - intros [= <-]. split; [|done]. split; [|done]. intros _.
    exists r, c, piece, moves. apply existsb_hits in Hhit.
    split; [by left|done].
  - intros H. apply Hskip; [by apply IH|].
    intros piece' [= <-] _. exists moves. split; [done|].
    intros Hin. apply existsb_hits in Hin. congruence.
Qed.

(** What [isSquareUnderAttack] counts as an attack on a square. Whenever
    the test returns, it says yes exactly when some piece of the other
    colour than the defender's has the square among its raw moves. For a
    pawn the raw moves are its moves: so the empty square straight ahead
    of an enemy pawn counts as attacked, and an empty square that is not
    the en-passant target is never attacked by a pawn from the side, in
    particular not an empty square diagonally ahead of it. *)
Theorem isSquareUnderAttack_spec (stack : nat) (pos : Position)
    (row col : Z) (defender : Color) (b : bool) :
  isSquareUnderAttack (S stack) pos (Some row) (Some col) defender
  = Some b →
  (b = true
   ↔ ∃ r c piece moves,
       isValidSquare r c = true ∧ cell (board pos) r c = Some piece
       ∧ pcolor piece ≠ defender ∧ getRawMoves stack pos r c = Some moves
       ∧ mkSquare row col ∈ moves)
  ∧ (∀ r c piece,
       cell (board pos) r c = Some piece → ptype piece = Pawn →
       getRawMoves stack pos r c = getPawnMoves pos r c
       ∧ (isValidSquare r c = true → pcolor piece ≠ defender →
          row = r + (if bool_decide (piece = mkPiece white Pawn)
                     then -1 else 1) →
          col = c → isValidSquare row col = true →
          cell (board pos) row col = None → b = true)
       ∧ (∀ moves,
            getRawMoves stack pos r c = Some moves →
            mkSquare row col ∈ moves →
            cell (board pos) row col = None →
            enPassantTarget pos ≠ Some (mkSquare row col) → col = c)).
Proof.
  intros H. cbn [isSquareUnderAttack] in H.
  change (getRawMovesWith (isSquareUnderAttack stack pos) pos)
    with (getRawMoves stack pos) in H.
  apply scanAttack_spec in H as [Hiff Hall]. split.
  { rewrite Hiff. split.
    - intros (r & c & piece & moves & Hin & H).
      exists r, c, piece, moves. split; [by apply allSquares_valid|done].
    - intros (r & c & piece & moves & Hv & H).
      exists r, c, piece, moves. split; [by apply valid_allSquares|done]. }
  intros r c piece Hp Hpawn.
  assert (getRawMoves stack pos r c = getPawnMoves pos r c) as Hraw.
  { unfold getRawMoves, getRawMovesWith. rewrite Hp. unfold toLowerCase.
    by rewrite Hpawn. }
  split; [exact Hraw|]. rewrite Hraw. unfold getPawnMoves. rewrite Hp.
  assert (isWhitePawn (Some piece)
          = bool_decide (piece = mkPiece white Pawn)) as ->.
  { destruct piece as [[] []]; done. }
  set (direction := if bool_decide (piece = mkPiece white Pawn)
                    then -1 else 1).
  cbv zeta. split.
  - intros Hv Hne -> -> Hv' Hempty.
    destruct b; [done|]. exfalso.
    destruct (Hall eq_refl r c piece (valid_allSquares _ _ Hv) Hp Hne)
      as [moves Hmoves].
    assert (b' : false = true); [|done].
    apply Hiff. exists r, c, piece, moves.
    split; [by apply valid_allSquares|]. split; [done|]. split; [done|].
    split; [done|]. rewrite Hraw in Hmoves. unfold getPawnMoves in Hmoves.
    rewrite Hp in Hmoves.
    assert (isWhitePawn (Some piece)
            = bool_decide (piece = mkPiece white Pawn)) as Hw.
    { destruct piece as [[] []]; done. }
    rewrite Hw in Hmoves. fold direction in Hmoves. cbv zeta in Hmoves.
    rewrite Hv', Hempty in Hmoves. cbn [occupied negb andb] in Hmoves.
    destruct (pawnCapture pos (Some piece) (r + direction) (c + -1))
      as [l|]; [|done].
    destruct (pawnCapture pos (Some piece) (r + direction) (c + 1))
      as [r'|]; [|done].
    injection Hmoves as <-. by left.
  - intros moves Hmoves Hin Hempty Hep.
    destruct (pawnCapture pos (Some piece) (r + direction) (c + -1))
      as [l|] eqn:Hl; [|done].
    destruct (pawnCapture pos (Some piece) (r + direction) (c + 1))
      as [r'|] eqn:Hr; [|done].
    injection Hmoves as <-.
    apply elem_of_app in Hin as [Hin|Hin].
    + destruct (isValidSquare (r + direction) c
                && negb (occupied (cell (board pos) (r + direction) c)));
        [|by apply elem_of_nil in Hin].
      apply elem_of_cons in Hin as [[= _ ->]|Hin]; [done|].
      destruct ((r =? _) && _); [|by apply elem_of_nil in Hin].
      by apply list_elem_of_singleton in Hin as [= _ ->].
    + exfalso. apply elem_of_app in Hin as [Hin|Hin].
      * apply (pawnCapture_spec _ _ _ _ _ Hl) in Hin
          as (Hm & _ & [(target & Ht & _)|Hep']); [|done].
        injection Hm as -> ->. congruence.
      * apply (pawnCapture_spec _ _ _ _ _ Hr) in Hin
          as (Hm & _ & [(target & Ht & _)|Hep']); [|done].
        injection Hm as -> ->. congruence.
Qed.

Lemma isSquareUnderAttack_spec_witness :
  isSquareUnderAttack 3 pawnOnE2Position (Some 7) (Some 5) white
  = Some false
  ∧ (∀ moves, getRawMoves 2 pawnOnE2Position 6 4 = Some moves →
              mkSquare 7 5 ∉ moves)
  ∧ (λ moves, bool_decide (mkSquare 7 6 ∈ moves))
      <$> getKingMoves 3 pawnOnE2Position 7 4
    = Some true.
Proof.
  assert (isSquareUnderAttack 3 pawnOnE2Position (Some 7) (Some 5) white
          = Some false) as H by (vm_compute; reflexivity).
  split; [exact H|]. split; [|vm_compute; reflexivity].
  intros moves Hmoves Hin.
  destruct (isSquareUnderAttack_spec 2 pawnOnE2Position 7 5 white false H)
    as [_ Hpawn].
  destruct (Hpawn 6 4 (mkPiece black Pawn) eq_refl eq_refl)
    as (_ & _ & Hside).
  specialize (Hside moves Hmoves Hin eq_refl). discriminate (Hside ltac:(done)).
Defined.

(** ** The lesson engine: judging a move *)

Lemma squareName_inj (r c r' c' : Z) :
  isValidSquare r c = true → isValidSquare r' c' = true →
  squareName r c = squareName r' c' → r = r' ∧ c = c'.
Proof.
  intros Hv Hv' H.
  rewrite (squareName_valid _ _ Hv), (squareName_valid _ _ Hv') in H.
  apply isValidSquare_iff in Hv as [Hr Hc].
  apply isValidSquare_iff in Hv' as [Hr' Hc'].
  injection H as Hfile Hrank.
  apply (f_equal (λ ch, Z.of_N (N_of_ascii ch))) in Hfile, Hrank.
  rewrite !code_ascii_of_N in Hfile, Hrank by lia. lia.
Qed.

Lemma boardAt_valid (b : Board) (row col : Z) :
  wfBoard b → isValidSquare row col = true →
  LessonEngine.boardAt b row col = Some (cell b row col).
Proof.
  intros [Hlen _] Hv. apply isValidSquare_iff in Hv as [Hr _].
  unfold LessonEngine.boardAt. rewrite Hlen.
  destruct (row <? 0) eqn:E1; [apply Z.ltb_lt in E1; lia|].
  destruct (Z.of_nat 8 <=? row) eqn:E2; [apply Z.leb_le in E2; lia|done].
Qed.

Lemma boardAt_outside (b : Board) (row col : Z) :
  wfBoard b → row < 0 ∨ 8 ≤ row → LessonEngine.boardAt b row col = None.
Proof.
  intros [Hlen _] Hr. unfold LessonEngine.boardAt. rewrite Hlen.
  destruct (row <? 0) eqn:E1; [done|]. apply Z.ltb_ge in E1.
  destruct (Z.of_nat 8 <=? row) eqn:E2; [done|]. apply Z.leb_gt in E2. lia.
Qed.

Lemma convertMoveToNotation_returns (b : Board)
    (fromRow fromCol toRow toCol : Z) :
  wfBoard b →
  isValidSquare fromRow fromCol = true → isValidSquare toRow toCol = true →
  is_Some (LessonEngine.convertMoveToNotation b fromRow fromCol toRow toCol).
Proof.
  intros Hwf Hf Ht. unfold LessonEngine.convertMoveToNotation.
  rewrite !boardAt_valid by done. by eexists.
Qed.

Lemma movesMatch_returns (b : Board) (fromRow fromCol toRow toCol : Z)
    (moveData : MoveData) :
  wfBoard b →
  isValidSquare fromRow fromCol = true → isValidSquare toRow toCol = true →
  is_Some (LessonEngine.movesMatch b fromRow fromCol toRow toCol moveData).
Proof.
  intros Hwf Hf Ht. unfold LessonEngine.movesMatch.
  destruct (_ && _); [by eexists|].
  destruct (truthy _); [|by eexists].
  destruct (convertMoveToNotation_returns b fromRow fromCol toRow toCol)
    as [n ->]; [done..|]. by eexists.
Qed.

Lemma firstMatch_returns (b : Board) (fromRow fromCol toRow toCol : Z)
    (alternatives : list MoveData) :
  wfBoard b →
  isValidSquare fromRow fromCol = true → isValidSquare toRow toCol = true →
  is_Some (LessonEngine.firstMatch b fromRow fromCol toRow toCol
             alternatives).
Proof.
  intros Hwf Hf Ht. induction alternatives as [|alt rest IH]; [by eexists|].
  cbn [LessonEngine.firstMatch].
  destruct (movesMatch_returns b fromRow fromCol toRow toCol alt)
    as [[] ->]; [done..| |]; [by eexists|exact IH].
Qed.

(** The verdict of the lesson engine on a move between two squares of an
    8x8 board. With an active lesson [validateMove] returns, and every
    move is accepted as valid, the wrong ones too. The move is correct
    exactly when it matches the solution, and a correct move earns the
    points of the lesson, or 100 when the lesson has none or has 0: never
    0. A wrong move earns 0 points. A solution given by its two squares
    only is matched by the move between these squares and by no other
    move of the board. A solution given by its notation is matched
    whatever the square the piece comes from: two pieces of the same kind
    that are not pawns, of whatever colours, give the same notation for
    the same target square. Without an active lesson the move is not
    valid. From a row that the board does not have, [validateMove] with a
    lesson raises: the notation of the move is computed before anything
    else. *)
Theorem validateMove_spec (b : Board) (fromRow fromCol toRow toCol : Z) :
  wfBoard b →
  isValidSquare fromRow fromCol = true → isValidSquare toRow toCol = true →
  (∀ lesson,
     ∃ verdict matches,
       LessonEngine.validateMove (Some lesson) b fromRow fromCol toRow toCol
       = Some verdict
       ∧ LessonEngine.movesMatch b fromRow fromCol toRow toCol
           (lsSolution lesson) = Some matches
       ∧ vdValid verdict = true
       ∧ vdCorrect verdict = Some matches
       ∧ (matches = true →
          vdPoints verdict
          = Some (match lsPoints lesson with
                  | Some 0 | None => 100
                  | Some points => points
                  end)
          ∧ vdPoints verdict ≠ Some 0
          ∧ vdMessage verdict = lsExplanation lesson)
       ∧ (matches = false → vdPoints verdict = Some 0))
  ∧ (∃ verdict,
       LessonEngine.validateMove None b fromRow fromCol toRow toCol
       = Some verdict
       ∧ vdValid verdict = false)
  ∧ (∀ r c r' c' feedback,
       isValidSquare r c = true → isValidSquare r' c' = true →
       LessonEngine.movesMatch b fromRow fromCol toRow toCol
         (mkMoveData (Some (squareName r c)) (Some (squareName r' c')) None
            feedback) = Some true
       ↔ (fromRow, fromCol, toRow, toCol) = (r, c, r', c'))
  ∧ (∀ p p' otherRow otherCol,
       cell b fromRow fromCol = Some p →
       cell b otherRow otherCol = Some p' →
       ptype p = ptype p' → ptype p ≠ Pawn →
       ∃ notation,
         LessonEngine.convertMoveToNotation b fromRow fromCol toRow toCol
         = Some notation
         ∧ LessonEngine.convertMoveToNotation b otherRow otherCol toRow toCol
           = Some notation)
  ∧ (∀ lesson row col,
       row < 0 ∨ 8 ≤ row →
       LessonEngine.validateMove (Some lesson) b row col toRow toCol = None).
Proof.
  intros Hwf Hf Ht. split; [|split; [|split; [|split]]].
  - intros lesson. unfold LessonEngine.validateMove.
    destruct (convertMoveToNotation_returns b fromRow fromCol toRow toCol)
      as [n ->]; [done..|].
    destruct (movesMatch_returns b fromRow fromCol toRow toCol
                (lsSolution lesson)) as [matches Hm]; [done..|].
    rewrite Hm. cbn [mbind option_bind].
    destruct matches.
    + eexists _, true. split; [reflexivity|]. cbn.
      split; [done|]. split; [done|]. split; [done|]. split; [|done].
      intros _. destruct (lsPoints lesson) as [points|]; [|done].
      destruct (points =? 0) eqn:Hp.
      * apply Z.eqb_eq in Hp as ->. done.
      * apply Z.eqb_neq in Hp. split; [by destruct points|].
        split; [|done]. by intros [= ->].
    + destruct (firstMatch_returns b fromRow fromCol toRow toCol
                  (default [] (lsAlternatives lesson))) as [alt ->];
        [done..|].
      eexists _, false. split; [reflexivity|].
      destruct alt; cbn; by repeat split.
  - eexists. split; reflexivity.
  - intros r c r' c' feedback Hv Hv'.
    unfold LessonEngine.movesMatch. cbn [mdFrom mdTo mdNotation truthy].
    change (LessonEngine.coordinateToNotation ?x ?y) with (squareName x y).
    split.
    + intros H.
      destruct (bool_decide (Some (squareName fromRow fromCol)
                             = Some (squareName r c))
                && bool_decide (Some (squareName toRow toCol)
                                = Some (squareName r' c'))) eqn:E;
        [|discriminate H].
      apply andb_true_iff in E as [H1 H2].
      apply bool_decide_eq_true in H1, H2.
      assert (squareName fromRow fromCol = squareName r c) as H1'
        by congruence.
      assert (squareName toRow toCol = squareName r' c') as H2'
        by congruence.
      apply squareName_inj in H1' as [-> ->]; [|done..].
      apply squareName_inj in H2' as [-> ->]; done.
    + intros [= -> -> -> ->]. by rewrite !bool_decide_eq_true_2.
  - intros p p' otherRow otherCol Hp Hp' Htype Hpawn.
    assert (isValidSquare otherRow otherCol = true) as Ho
      by (eapply cell_Some_valid; [exact Hwf|exact Hp']).
    unfold LessonEngine.convertMoveToNotation.
    rewrite !boardAt_valid by done. rewrite Hp, Hp'.
    cbn [mbind option_bind]. eexists. split; [reflexivity|].
    unfold toLowerCase. rewrite <- Htype. by destruct (ptype p).
  - intros lesson row col Hrow.
    unfold LessonEngine.validateMove, LessonEngine.convertMoveToNotation.
    by rewrite boardAt_outside.
Qed.

Lemma validateMove_spec_witness :
  (∃ notation,
     LessonEngine.convertMoveToNotation knightBoard 6 6 4 5 = Some notation
     ∧ LessonEngine.convertMoveToNotation knightBoard 3 3 4 5
       = Some notation)
  ∧ (LessonEngine.movesMatch knightBoard 6 6 4 5
       (mkMoveData (Some (squareName 6 6)) (Some (squareName 4 5)) None None)
     = Some true).
Proof.
  assert (wfBoard knightBoard) as Hwf
    by (split; [reflexivity|repeat constructor]).
  destruct (validateMove_spec knightBoard 6 6 4 5 Hwf eq_refl eq_refl)
    as (_ & _ & Hsquares & Hkind & _).
  split.
  - apply (Hkind (mkPiece white Knight) (mkPiece black Knight) 3 3);
      [reflexivity..|discriminate].
  - apply (Hsquares 6 6 4 5 None); reflexivity.
Defined.
(** ** Clicks on the board *)





(** ** Special moves: [makeMove] of the page against the make step of the
    search, continued *)

(** The search explores a promotion, a castling move and an en-passant
    capture, and its make step leaves the pawn a pawn, the rook in its
    corner and the captured pawn on the board, where [makeMove] gives a
    queen, moves the rook and removes the pawn. *)
Lemma search_make_step_is_a_plain_move :
  (∃ moves r pos',
     getAllValidMoves 3 white promotionPosition
     = Some (moves, promotionPosition)
     ∧ mkMove 1 0 0 0 ∈ moves
     ∧ makeSearchMove (mkMove 1 0 0 0) promotionPosition = Some (r, pos')
     ∧ cell (board pos') 0 0 = pc white Pawn)
  ∧ (∃ q, makeMoveOnPage 3
            (mkPage (newGame promotionBoard white noCastling None) white
               false None []) 1 0 0 0
          = Some q
          ∧ cell (gBoard (pgGame q)) 0 0 = pc white Queen)
  ∧ (∃ moves r pos',
       getAllValidMoves 3 white castlingPosition
       = Some (moves, castlingPosition)
       ∧ mkMove 7 4 7 6 ∈ moves
       ∧ makeSearchMove (mkMove 7 4 7 6) castlingPosition = Some (r, pos')
       ∧ cell (board pos') 7 7 = pc white Rook
       ∧ cell (board pos') 7 5 = None)
  ∧ (∃ q, makeMoveOnPage 3
            (mkPage (newGame castlingBoard white whiteKingside None) white
               false None []) 7 4 7 6
          = Some q
          ∧ cell (gBoard (pgGame q)) 7 7 = None
          ∧ cell (gBoard (pgGame q)) 7 5 = pc white Rook)
  ∧ (∃ moves r pos',
       getAllValidMoves 3 white enPassantPosition
       = Some (moves, enPassantPosition)
       ∧ mkMove 3 4 2 3 ∈ moves
       ∧ makeSearchMove (mkMove 3 4 2 3) enPassantPosition = Some (r, pos')
       ∧ cell (board pos') 3 3 = pc black Pawn)
  ∧ (∃ q, makeMoveOnPage 3
            (mkPage (newGame enPassantBoard white noCastling
                       (Some (mkSquare 2 3))) white false None []) 3 4 2 3
          = Some q
          ∧ cell (gBoard (pgGame q)) 3 3 = None).
Proof.
  split; [|split; [|split; [|split; [|split]]]].
  - eexists _, _, _. split; [vm_compute; reflexivity|].
    split; [set_solver|]. split; reflexivity.
  - eexists. split; [vm_compute; reflexivity|reflexivity].
  - eexists _, _, _. split; [vm_compute; reflexivity|].
    split; [set_solver|]. split; [reflexivity|]. split; reflexivity.
  - eexists. split; [vm_compute; reflexivity|]. split; reflexivity.
  - eexists _, _, _. split; [vm_compute; reflexivity|].
    split; [set_solver|]. split; reflexivity.
  - eexists. split; [vm_compute; reflexivity|reflexivity].
Qed.

(** What the assignments of [makeMove] leave on the board after a king's
    move of two files, a pawn's move to the en-passant target and a pawn's
    move to row 0 or row 7. *)
Lemma makeMove_board (g g' : ChessGame) (fromRow fromCol toRow toCol : Z)
    (piece : Piece) :
  wfBoard (gBoard g) →
  isValidSquare fromRow fromCol = true → isValidSquare toRow toCol = true →
  (fromRow, fromCol) ≠ (toRow, toCol) →
  (∀ e, gEnPassantTarget g = Some e → 1 ≤ sqRow e ≤ 6) →
  cell (gBoard g) fromRow fromCol = Some piece →
  makeMove g fromRow fromCol toRow toCol = Some g' →
  (toLowerCase piece = King → Z.abs (toCol - fromCol) = 2 →
   let rookFromCol := if fromCol <? toCol then 7 else 0 in
   let rookToCol := if fromCol <? toCol then toCol - 1 else toCol + 1 in
   cell (gBoard g') toRow rookToCol = cell (gBoard g) toRow rookFromCol
   ∧ (toCol ≠ rookFromCol → cell (gBoard g') toRow rookFromCol = None))
  ∧ (toLowerCase piece = Pawn →
     gEnPassantTarget g = Some (mkSquare toRow toCol) →
     let capturedRow :=
       match gCurrentTurn g with white => toRow + 1 | black => toRow - 1 end
     in
     cell (gBoard g') capturedRow toCol = None)
  ∧ (toLowerCase piece = Pawn → toRow = 0 ∨ toRow = 7 →
     cell (gBoard g') toRow toCol = Some (mkPiece (gCurrentTurn g) Queen)).
Proof.
  intros Hwf Hfrom Hto Hne Hrow Hc H.
  unfold makeMove, getMoveNotation in H. rewrite Hc in H. cbv zeta in H.
  destruct (pushCaptured _ (gCapturedWhite g) _) as [cw1 cb1].
  destruct (pushCaptured _ cw1 cb1) as [cw2 cb2].
  injection H as <-. cbn [gBoard].
  apply isValidSquare_iff in Hfrom as Hf, Hto as Ht.
  split; [|split].
  - intros Hking Habs. rewrite Hking. cbn [PieceType_eqb andb].
    apply Z.eqb_eq in Habs as Habs'. rewrite Habs'.
    replace (match gEnPassantTarget g with
             | Some e => _ | None => false end) with false
      by (destruct (gEnPassantTarget g); [by rewrite andb_false_r|done]).
    cbv zeta. split.
    + rewrite cell_setCell_ne by (destruct (fromCol <? toCol); intros [=]; lia).
      rewrite cell_setCell_ne by (destruct (fromCol <? toCol); intros [=]; lia).
      rewrite cell_setCell_ne by (destruct (fromCol <? toCol); intros [=]; lia).
      apply cell_setCell_eq; [done|].
      apply isValidSquare_iff. destruct (fromCol <? toCol) eqn:E;
        [apply Z.ltb_lt in E|apply Z.ltb_ge in E]; lia.
    + intros Hcorner.
      destruct (decide ((fromRow, fromCol)
                        = (toRow, if fromCol <? toCol then 7 else 0)))
        as [Heq|Hne'].
      { injection Heq as <- <-. apply cell_setCell_eq; [|done].
        by repeat apply wfBoard_setCell. }
      rewrite cell_setCell_ne by done.
      rewrite cell_setCell_ne by (intros [=]; lia).
      apply cell_setCell_eq; [by apply wfBoard_setCell|].
      apply isValidSquare_iff. destruct (fromCol <? toCol); lia.
  - intros Hpawn Hep. apply Hrow in Hep as Hrow'. cbn [sqRow] in Hrow'.
    rewrite Hpawn, Hep. cbn [PieceType_eqb andb sqRow sqCol].
    rewrite !Z.eqb_refl. cbn [andb].
    set (capturedRow := match gCurrentTurn g with
                        | white => toRow + 1 | black => toRow - 1 end).
    cbv zeta.
    assert (isValidSquare capturedRow toCol = true) as Hv
      by (apply isValidSquare_iff; subst capturedRow;
          destruct (gCurrentTurn g); lia).
    assert (cell (setCell
                    (setCell (setCell (gBoard g) capturedRow toCol None)
                       toRow toCol (Some piece)) fromRow fromCol None)
                 capturedRow toCol = None) as Hgone.
    { destruct (decide ((fromRow, fromCol) = (capturedRow, toCol)))
        as [Heq|Hne'].
      { injection Heq as <- <-. apply cell_setCell_eq; [|done].
        by repeat apply wfBoard_setCell. }
      rewrite cell_setCell_ne by done.
      rewrite cell_setCell_ne
        by (subst capturedRow; destruct (gCurrentTurn g); intros [=]; lia).
      by apply cell_setCell_eq. }
    destruct ((toRow =? 0) || (toRow =? 7)); [|exact Hgone].
    rewrite cell_setCell_ne
      by (subst capturedRow; destruct (gCurrentTurn g); intros [=]; lia).
    exact Hgone.
  - intros Hpawn Hlast. rewrite Hpawn. cbn [PieceType_eqb andb].
    replace ((toRow =? 0) || (toRow =? 7)) with true
      by (destruct Hlast as [-> | ->]; reflexivity).
    apply cell_setCell_eq; [|done]. destruct (match gEnPassantTarget g with
                                              | Some _ => _ | None => _ end);
      by repeat apply wfBoard_setCell.
Qed.

(** C7. [makeMove] of the page, on an 8x8 board with the en-passant
    target, if any, on one of the rows 1 to 6, for a move between two
    different squares of the board from an occupied square. Whenever it
    returns (its [checkGameOver] can raise): when a king moves two files,
    the square it passes over receives what stood in the corner on that
    side, and the corner is emptied (unless the king itself lands on it);
    when a pawn moves to the en-passant target, the square behind the
    target is emptied; when a pawn reaches
    row 0 or row 7, the target square holds a queen of the side to move;
    and the game is the one that the assignments of [makeMove] give. The
    make step of the search does none of this: it returns the two pieces
    it read and leaves the mover on the target square and the origin
    empty. *)
Theorem makeMove_special_moves (stack : nat) (p : Page)
    (fromRow fromCol toRow toCol : Z) (piece : Piece) :
  wfBoard (gBoard (pgGame p)) →
  isValidSquare fromRow fromCol = true → isValidSquare toRow toCol = true →
  (fromRow, fromCol) ≠ (toRow, toCol) →
  (∀ e, gEnPassantTarget (pgGame p) = Some e → 1 ≤ sqRow e ≤ 6) →
  cell (gBoard (pgGame p)) fromRow fromCol = Some piece →
  (∀ q,
     makeMoveOnPage stack p fromRow fromCol toRow toCol = Some q →
     makeMove (pgGame p) fromRow fromCol toRow toCol = Some (pgGame q)
     ∧ (toLowerCase piece = King → Z.abs (toCol - fromCol) = 2 →
        let rookFromCol := if fromCol <? toCol then 7 else 0 in
        let rookToCol := if fromCol <? toCol then toCol - 1 else toCol + 1 in
        cell (gBoard (pgGame q)) toRow rookToCol
        = cell (gBoard (pgGame p)) toRow rookFromCol
        ∧ (toCol ≠ rookFromCol →
           cell (gBoard (pgGame q)) toRow rookFromCol = None))
     ∧ (toLowerCase piece = Pawn →
        gEnPassantTarget (pgGame p) = Some (mkSquare toRow toCol) →
        let capturedRow :=
          match gCurrentTurn (pgGame p) with
          | white => toRow + 1
          | black => toRow - 1
          end in
        cell (gBoard (pgGame q)) capturedRow toCol = None)
     ∧ (toLowerCase piece = Pawn → toRow = 0 ∨ toRow = 7 →
        cell (gBoard (pgGame q)) toRow toCol
        = Some (mkPiece (gCurrentTurn (pgGame p)) Queen)))
  ∧ (∀ pos, board pos = gBoard (pgGame p) →
       ∃ pos',
         makeSearchMove (mkMove fromRow fromCol toRow toCol) pos
         = Some ((Some piece, cell (gBoard (pgGame p)) toRow toCol), pos')
         ∧ cell (board pos') toRow toCol = Some piece
         ∧ cell (board pos') fromRow fromCol = None
         ∧ ∀ r c, (r, c) ≠ (fromRow, fromCol) → (r, c) ≠ (toRow, toCol) →
                  cell (board pos') r c = cell (gBoard (pgGame p)) r c).
Proof.
  intros Hwf Hfrom Hto Hne Hrow Hc. split.
  - intros q Hq.
    apply makeMoveOnPage_Some in Hq as (Hg' & _); [|done].
    split; [exact Hg'|]. by eapply makeMove_board.
  - intros pos Hb.
    exists (afterSearchMove pos (mkMove fromRow fromCol toRow toCol)).
    rewrite makeSearchMove_run. unfold afterSearchMove.
    cbn -[cell setCell]. rewrite Hb, Hc. split; [done|]. split; [|split].
    + rewrite cell_setCell_ne by done. by apply cell_setCell_eq.
    + apply cell_setCell_eq; [by apply wfBoard_setCell|done].
    + intros r c H1 H2. by rewrite !cell_setCell_ne.
Qed.

Lemma makeMove_special_moves_witness :
  ∃ q,
    makeMoveOnPage 3
      (mkPage (newGame promotionBoard white noCastling None) white false
         None []) 1 0 0 0
    = Some q
    ∧ cell (gBoard (pgGame q)) 0 0 = Some (mkPiece white Queen).
Proof.
  assert (is_Some (makeMoveOnPage 3
                     (mkPage (newGame promotionBoard white noCastling None)
                        white false None []) 1 0 0 0)) as [q Hq]
    by (vm_compute; by eexists).
  exists q. split; [exact Hq|].
  destruct (makeMove_special_moves 3
              (mkPage (newGame promotionBoard white noCastling None) white
                 false None []) 1 0 0 0
              (mkPiece white Pawn) promotionBoard_wf eq_refl eq_refl
              ltac:(discriminate) ltac:(discriminate) eq_refl)
    as [Hmove _].
  destruct (Hmove q Hq) as (_ & _ & _ & Hqueen).
  apply Hqueen; [reflexivity|by left].
Defined.

(** ** The position key in the transposition table and in the repetition
    counter *)

Section Keyed.
Context (root : Position).

Lemma keysOf_refl (w : Worker) : keysOf root w w.
Proof. intros key Hk. by left. Qed.

Lemma keysOf_trans (w1 w2 w3 : Worker) :
  keysOf root w1 w2 → keysOf root w2 w3 → keysOf root w1 w3.
Proof.
  intros H12 H23 key Hk. apply H23 in Hk as [Hk|Hk]; [by apply H12|by right].
Qed.

Lemma keyed_ret {A : Type} (a : A) : keyed root (ret a).
Proof. intros w x w' Hr [= _ <-]. split; [done|apply keysOf_refl]. Qed.

Lemma keyed_bind {A B : Type} (m : M A) (k : A → M B) :
  keyed root m → (∀ a, keyed root (k a)) → keyed root (bind m k).
Proof.
  intros Hm Hk w b w' Hr H. apply bind_Some in H as (a & w1 & H1 & H2).
  apply Hm in H1 as [Hr1 Hk1]; [|done].
  apply Hk in H2 as [Hr2 Hk2]; [|done].
  split; [done|by eapply keysOf_trans].
Qed.

(** A computation that keeps the position and the table. *)
Lemma keyed_plain {A : Type} (m : M A) :
  keepsPosition m → evolves sameTable m → keyed root m.
Proof.
  intros Hkeep Hsame w a w' (Hwf & Hr) H.
  pose proof (Hkeep _ _ _ Hwf H) as Hpos. pose proof (Hsame _ _ _ H) as Ht.
  split; [unfold rooted; by rewrite Hpos|].
  intros key Hk. left. by rewrite <- Ht.
Qed.

Lemma sameTable_refl (w : Worker) : sameTable w w.
Proof. done. Qed.

Lemma sameTable_trans (w1 w2 w3 : Worker) :
  sameTable w1 w2 → sameTable w2 w3 → sameTable w1 w3.
Proof. unfold sameTable. congruence. Qed.

Lemma sameTable_position (pos : Position) (w : Worker) :
  sameTable w (setPosition pos w).
Proof. done. Qed.

Lemma sameTable_ticks (w : Worker) : sameTable w (setTicks (S (ticks w)) w).
Proof. done. Qed.

Lemma keyed_timedOut (settings : Settings) (deadline : Z) :
  keyed root (timedOut settings deadline).
Proof.
  apply keyed_plain; [apply keeps_timedOut|].
  apply evolves_timedOut;
    [apply sameTable_refl|apply sameTable_trans|apply sameTable_ticks].
Qed.

Lemma keyed_restoring {A : Type} (m : P A) :
  restores m → keyed root (onPosition m).
Proof.
  intros Hm. apply keyed_plain; [by apply keeps_onPosition|].
  apply evolves_onPosition. apply sameTable_position.
Qed.

Lemma keyed_reads {A : Type} (f : Worker → A) : keyed root (reads f).
Proof. intros w x w' Hr [= _ <-]. split; [done|apply keysOf_refl]. Qed.

Lemma keyed_readsE {A : Type} (f : Worker → option A) :
  keyed root (readsE f).
Proof.
  intros w x w' Hr. unfold readsE. destruct (f w); [|done].
  intros [= _ <-]. split; [done|apply keysOf_refl].
Qed.

Lemma keyed_storeKillerMove (mv : Move) (d : Z) :
  keyed root (storeKillerMove mv d).
Proof.
  apply keyed_plain; [apply keeps_storeKillerMove|].
  intros w [] w' H. unfold storeKillerMove in H. rewrite bind_reads in H.
  destruct (_ <=? d); [by injection H as <-|].
  destruct (d <? 0); [done|].
  destruct (existsb _ _); [by injection H as <-|]. by injection H as <-.
Qed.

Lemma keyed_updateHistory (mv : Move) (d : nat) :
  keyed root (updateHistory mv d).
Proof.
  apply keyed_plain; [apply keeps_updateHistory|].
  by intros w [] w' [= <-].
Qed.

Lemma keyed_quiescenceSearch (stack : nat) (alpha beta : Num)
    (isMaximizing : bool) (settings : Settings) (deadline : Z) (d : Z) :
  keyed root
    (quiescenceSearch stack alpha beta isMaximizing settings deadline d).
Proof.
  apply keyed_plain; [apply keeps_quiescenceRec|].
  apply evolves_quiescenceRec;
    [apply sameTable_refl|apply sameTable_trans|apply sameTable_position
    |apply sameTable_ticks].
Qed.

(** The make step and the unmake step write cells only. *)
Lemma keyed_makeSearchMove (mv : Move) :
  keyed root (onPosition (makeSearchMove mv)).
Proof.
  intros w a w' (Hwf & Ht & Hc & He) H.
  apply onPosition_Some in H as (pos' & H & ->).
  rewrite makeSearchMove_run in H. injection H as _ <-.
  split; [|by left].
  split; [cbn; by repeat apply wfBoard_setCell|done].
Qed.

Lemma keyed_unmakeSearchMove (mv : Move) (piece captured : option Piece) :
  keyed root (onPosition (unmakeSearchMove mv piece captured)).
Proof.
  intros w a w' (Hwf & Ht & Hc & He) H.
  apply onPosition_Some in H as (pos' & H & ->).
  injection H as _ <-.
  split; [|by left].
  split; [cbn; by repeat apply wfBoard_setCell|done].
Qed.

(** The key that [getFEN] computes in a search of [root]. *)
Lemma keyed_getFEN {A : Type} (k : string → M A) :
  (∀ b, keyed root (k (fenOf b (currentTurn root) (castlingRights root)
                         (enPassantTarget root)))) →
  keyed root (bind (reads (λ w, getFEN (position w))) k).
Proof.
  intros Hk w a w' Hr H. rewrite bind_reads in H.
  unfold getFEN in H. destruct Hr as (Hwf & Ht & Hc & He) eqn:E.
  rewrite Ht, Hc, He in H. by eapply Hk.
Qed.

Lemma keyed_ttSet (b : Board) (e : TTEntry) :
  keyed root
    (ttSet (fenOf b (currentTurn root) (castlingRights root)
              (enPassantTarget root)) e).
Proof.
  intros w [] w' Hr [= <-]. split; [done|].
  intros key Hk. cbn in Hk. apply dom_insert, elem_of_union in Hk as [Hk|Hk].
  - right. exists b. by apply elem_of_singleton in Hk.
  - by left.
Qed.

Lemma keyed_maxLoop (search : Num → Num → M Num) (settings : Settings)
    (deadline : Z) (d : nat) (searchDepth : Z) (moves : list Move)
    (alpha beta maxEval : Num) (best : option Move) :
  (∀ a b, keyed root (search a b)) →
  keyed root
    (maxLoop search settings deadline d searchDepth moves alpha beta maxEval
       best).
Proof.
  intros Hs. revert alpha beta maxEval best.
  induction moves as [|mv moves IH]; intros alpha beta maxEval best;
    cbn [maxLoop]; [apply keyed_ret|].
  apply keyed_bind; [apply keyed_timedOut|intros stop].
  destruct stop; [apply keyed_ret|].
  apply keyed_bind; [apply keyed_makeSearchMove|intros [piece captured]].
  apply keyed_bind; [apply Hs|intros evaluation].
  apply keyed_bind; [apply keyed_unmakeSearchMove|intros _].
  cbv zeta. destruct (Num_leb beta _); [|apply IH].
  apply keyed_bind.
  { destruct (occupied _); [apply keyed_ret|apply keyed_storeKillerMove]. }
  intros _. apply keyed_bind; [apply keyed_updateHistory|intros _].
  apply keyed_ret.
Qed.

Lemma keyed_minLoop (search : Num → Num → M Num) (settings : Settings)
    (deadline : Z) (d : nat) (searchDepth : Z) (moves : list Move)
    (alpha beta minEval : Num) (best : option Move) :
  (∀ a b, keyed root (search a b)) →
  keyed root
    (minLoop search settings deadline d searchDepth moves alpha beta minEval
       best).
Proof.
  intros Hs. revert alpha beta minEval best.
  induction moves as [|mv moves IH]; intros alpha beta minEval best;
    cbn [minLoop]; [apply keyed_ret|].
  apply keyed_bind; [apply keyed_timedOut|intros stop].
  destruct stop; [apply keyed_ret|].
  apply keyed_bind; [apply keyed_makeSearchMove|intros [piece captured]].
  apply keyed_bind; [apply Hs|intros evaluation].
  apply keyed_bind; [apply keyed_unmakeSearchMove|intros _].
  cbv zeta. destruct (Num_leb _ alpha); [|apply IH].
  apply keyed_bind.
  { destruct (occupied _); [apply keyed_ret|apply keyed_storeKillerMove]. }
  intros _. apply keyed_bind; [apply keyed_updateHistory|intros _].
  apply keyed_ret.
Qed.

Lemma keyed_alphaBetaSearch (stack d : nat) (alpha beta : Num)
    (isMaximizing : bool) (settings : Settings) (deadline : Z)
    (searchDepth : Z) :
  keyed root
    (alphaBetaSearch stack d alpha beta isMaximizing settings deadline
       searchDepth).
Proof.
  revert alpha beta isMaximizing searchDepth.
  induction d as [|d IH]; intros alpha beta isMaximizing searchDepth;
    cbn [alphaBetaSearch].
  - apply keyed_bind.
    { apply keyed_plain; [keeps_step|by intros w [] w' [= <-]]. }
    intros _. apply keyed_bind; [apply keyed_timedOut|intros stop].
    destruct stop; [apply keyed_restoring, quickEval_restores|].
    apply keyed_bind; [apply keyed_reads|intros repetitions].
    destruct (2 <=? repetitions); [apply keyed_ret|].
    apply keyed_getFEN. intros b.
    apply keyed_bind; [apply keyed_reads|intros ttEntry].
    destruct (ttHit ttEntry 0); [apply keyed_ret|].
    apply keyed_bind.
    { destruct (useQuiescence settings);
        [apply keyed_quiescenceSearch
        |apply keyed_restoring, evaluatePosition_restores]. }
    intros s. apply keyed_bind; [apply keyed_ttSet|intros _].
    apply keyed_ret.
  - apply keyed_bind.
    { apply keyed_plain; [keeps_step|by intros w [] w' [= <-]]. }
    intros _. apply keyed_bind; [apply keyed_timedOut|intros stop].
    destruct stop; [apply keyed_restoring, quickEval_restores|].
    apply keyed_bind; [apply keyed_reads|intros repetitions].
    destruct (2 <=? repetitions); [apply keyed_ret|].
    apply keyed_getFEN. intros b.
    apply keyed_bind; [apply keyed_reads|intros ttEntry].
    destruct (ttHit ttEntry (S d)); [apply keyed_ret|].
    apply keyed_bind; [apply keyed_reads|intros ai].
    apply keyed_bind;
      [apply keyed_restoring, getAllValidMoves_restores|intros moves].
    destruct moves as [|mv moves].
    { apply keyed_bind; [apply keyed_readsE|intros inCheck].
      apply keyed_bind; [apply keyed_ttSet|intros _]. apply keyed_ret. }
    apply keyed_bind; [apply keyed_readsE|intros ordered'].
    destruct isMaximizing.
    + apply keyed_bind.
      { apply keyed_maxLoop. intros a b'. apply IH. }
      intros [maxEval best].
      apply keyed_bind; [apply keyed_ttSet|intros _]. apply keyed_ret.
    + apply keyed_bind.
      { apply keyed_minLoop. intros a b'. apply IH. }
      intros [minEval best].
      apply keyed_bind; [apply keyed_ttSet|intros _]. apply keyed_ret.
Qed.

End Keyed.

(** The first steps of a call of [alphaBetaSearch] that gets past its
    timeout test and its repetition test. *)
Lemma enter_run {A : Type} (settings : Settings) (deadline : Z) (w : Worker)
    (X Y : M A) (k : string → option TTEntry → M A) :
  entersSearch settings deadline w →
  (modify (λ w, setNodesSearched (nodesSearched w + 1) w) ;;
   let* stop := timedOut settings deadline in
   if stop then X
   else
     let* repetitions := reads countRepetitions in
     if 2 <=? repetitions then Y
     else
       let* boardKey := reads (λ w, getFEN (position w)) in
       let* ttEntry := reads (λ w, transpositionTable w !! boardKey) in
       k boardKey ttEntry) w
  = k (getFEN (position w)) (transpositionTable w !! getFEN (position w))
      (entered w).
Proof.
  intros (Hft & Hclock & Hn & Hrep).
  rewrite (bind_run _ _ _ _ _
             (eq_refl : modify (λ w, setNodesSearched (nodesSearched w + 1) w)
                          w = Some (tt, setNodesSearched
                                          (nodesSearched w + 1) w))).
  rewrite (bind_run _ _ _ _ _
             (timedOut_false settings deadline
                (setNodesSearched (nodesSearched w + 1) w) Hft Hclock Hn)).
  cbv beta iota. rewrite bind_reads.
  change (countRepetitions (setTicks _ _)) with (countRepetitions w).
  destruct (2 <=? countRepetitions w) eqn:E; [apply Z.leb_le in E; lia|].
  by rewrite !bind_reads.
Qed.

Lemma alphaBetaSearch_hit (stack depth : nat) (alpha beta : Num)
    (isMaximizing : bool) (settings : Settings) (deadline searchDepth : Z)
    (w : Worker) (e : TTEntry) :
  entersSearch settings deadline w →
  transpositionTable w !! getFEN (position w) = Some e →
  (depth ≤ ttDepth e)%nat →
  alphaBetaSearch stack depth alpha beta isMaximizing settings deadline
    searchDepth w
  = Some (ttScore e, entered w).
Proof.
  intros Henter Hkey Hdepth.
  destruct depth as [|d]; cbn [alphaBetaSearch];
    (etrans; [by apply enter_run|]); rewrite Hkey; cbn [ttHit];
    (replace (_ <=? ttDepth e)%nat with true
       by (symmetry; apply Nat.leb_le; lia)); reflexivity.
Qed.

Lemma alphaBetaSearch_leaf (stack : nat) (alpha beta : Num)
    (isMaximizing : bool) (settings : Settings) (deadline searchDepth : Z)
    (w : Worker) :
  entersSearch settings deadline w →
  useQuiescence settings = false →
  transpositionTable w !! getFEN (position w) = None →
  alphaBetaSearch stack 0 alpha beta isMaximizing settings deadline
    searchDepth w
  = match evaluatePosition stack settings (position w) with
    | Some (v, pos') =>
        Some (v, setTranspositionTable
                   (<[getFEN (position w) := mkEntry v 0 None]>
                      (transpositionTable w))
                   (setPosition pos' (entered w)))
    | None => None
    end.
Proof.
  intros Henter Hq Hkey. cbn [alphaBetaSearch].
  etrans; [by apply enter_run|]. rewrite Hkey, Hq. cbn [ttHit].
  unfold bind at 1, onPosition.
  change (position (entered w)) with (position w).
  by destruct (evaluatePosition stack settings (position w)) as [[v pos']|].
Qed.

Lemma alphaBetaSearch_stores (stack depth : nat) (alpha beta : Num)
    (isMaximizing : bool) (settings : Settings) (deadline searchDepth : Z)
    (w w' : Worker) (v : Num) :
  entersSearch settings deadline w →
  ttHit (transpositionTable w !! getFEN (position w)) depth = None →
  alphaBetaSearch stack depth alpha beta isMaximizing settings deadline
    searchDepth w = Some (v, w') →
  ∃ best,
    transpositionTable w' !! getFEN (position w)
    = Some (mkEntry v depth best).
Proof.
  intros Henter Hmiss H.
  assert (∀ (s : Num) (best : option Move) (w1 : Worker),
            (ttSet (getFEN (position w)) (mkEntry s depth best) ;; ret s) w1
            = Some (v, w') →
            transpositionTable w' !! getFEN (position w)
            = Some (mkEntry v depth best)) as Hstore.
  { intros s best w1 [= <- <-]. cbn. by rewrite lookup_insert_eq. }
  destruct depth as [|d]; cbn [alphaBetaSearch] in H;
    rewrite enter_run in H by done; rewrite Hmiss in H.
  - apply bind_Some in H as (s & w1 & _ & H). eexists. by eapply Hstore.
  - apply bind_Some in H as (ai & w1 & _ & H).
    apply bind_Some in H as (moves & w2 & _ & H).
    destruct moves as [|mv moves].
    { apply bind_Some in H as (inCheck & w3 & _ & H).
      eexists. by eapply Hstore. }
    apply bind_Some in H as (ordered' & w3 & _ & H).
    destruct isMaximizing;
      apply bind_Some in H as ([s best] & w4 & _ & H);
      eexists; by eapply Hstore.
Qed.

(** Two positions with the same board that differ in the side to move, the
    castling rights and the en-passant target have different keys, and the
    repetition counter counts the one as an occurrence of the other, so
    that the search scores the position as a draw. In the search, the key
    of the position after a move of white still says that white is to
    move. *)
Lemma repetition_counter_compares_boards_only :
  getFEN hangingQueenPosition = "4k3/8/8/3q4/4P3/8/8/4K3 w - -"%string
  ∧ getFEN hangingQueenOther = "4k3/8/8/3q4/4P3/8/8/4K3 b KQkq d6"%string
  ∧ countRepetitions
      (freshWorker hangingQueenPosition
         [getFEN hangingQueenOther; getFEN hangingQueenOther] (stillHost id))
    = 2
  ∧ fst <$> alphaBetaSearch 3 3 NegInf PosInf true (materialOnly 3) 100 0
              (freshWorker hangingQueenPosition
                 [getFEN hangingQueenOther; getFEN hangingQueenOther]
                 (stillHost id))
    = Some (ofZ 0)
  ∧ getFEN (afterSearchMove hangingQueenPosition (mkMove 4 4 3 4))
    = "4k3/8/8/3qP3/8/8/8/4K3 w - -"%string.
Proof.
  split; [vm_compute; reflexivity|]. split; [vm_compute; reflexivity|].
  split; [vm_compute; reflexivity|]. split; vm_compute; reflexivity.
Qed.

(** C6. On 8x8 boards with an en-passant target on the board, the key
    [getFEN] determines the board, the side to move, the castling rights
    and the en-passant square, and [parseFEN] reads the board and the side
    to move back from it. The repetition counter compares the board field
    of the key only: it counts the history entries whose first field is the
    board field of the current position, and the board fields of two
    positions are equal exactly when their boards are. The transposition
    table is read and written under the whole key. A call of
    [alphaBetaSearch] that gets past its timeout test and its repetition
    test returns the score stored under the key of its position when the
    entry has at least the depth of the call; otherwise, when it returns,
    it leaves its score and its depth under that key; and at depth 0
    without quiescence and without an entry under the key of its position
    it returns the static evaluation of the position, whatever the table
    holds under the key of a position with another key. The make step of
    the search changes the board only, so that the key of a position in
    the search carries the side to move, the castling rights and the
    en-passant target of the root: a call of [alphaBetaSearch] that
    returns ends in the position it started in, and every key it has
    added to the table has these three fields of that position. *)
Theorem position_key_fields (pos1 pos2 : Position) :
  wfPosition pos1 → wfPosition pos2 →
  (getFEN pos1 = getFEN pos2 ↔
     board pos1 = board pos2 ∧ currentTurn pos1 = currentTurn pos2
     ∧ castlingRights pos1 = castlingRights pos2
     ∧ enPassantTarget pos1 = enPassantTarget pos2)
  ∧ parseFEN (getFEN pos1) = Some (board pos1, currentTurn pos1)
  ∧ (firstField (getFEN pos1) = firstField (getFEN pos2) ↔
       board pos1 = board pos2)
  ∧ (∀ w, position w = pos1 →
       countRepetitions w
       = Z.of_nat (length (filter (λ fen, firstField fen
                                          = fenBoard (board pos1))
                                  (positionHistory w))))
  ∧ (∀ mv, getFEN (afterSearchMove pos1 mv)
           = fenOf (board (afterSearchMove pos1 mv)) (currentTurn pos1)
               (castlingRights pos1) (enPassantTarget pos1))
  ∧ (∀ stack depth alpha beta isMaximizing settings deadline searchDepth w,
       position w = pos1 → entersSearch settings deadline w →
       (∀ e, transpositionTable w !! getFEN pos1 = Some e →
             (depth ≤ ttDepth e)%nat →
             alphaBetaSearch stack depth alpha beta isMaximizing settings
               deadline searchDepth w
             = Some (ttScore e, entered w))
       ∧ (∀ v w',
            ttHit (transpositionTable w !! getFEN pos1) depth = None →
            alphaBetaSearch stack depth alpha beta isMaximizing settings
              deadline searchDepth w = Some (v, w') →
            ∃ best, transpositionTable w' !! getFEN pos1
                    = Some (mkEntry v depth best))
       ∧ (useQuiescence settings = false →
          transpositionTable w !! getFEN pos1 = None →
          alphaBetaSearch stack 0 alpha beta isMaximizing settings deadline
            searchDepth w
          = match evaluatePosition stack settings pos1 with
            | Some (v, pos') =>
                Some (v, setTranspositionTable
                           (<[getFEN pos1 := mkEntry v 0 None]>
                              (transpositionTable w))
                           (setPosition pos' (entered w)))
            | None => None
            end)
       ∧ (∀ e, useQuiescence settings = false →
               transpositionTable w !! getFEN pos1 = None →
               getFEN pos1 ≠ getFEN pos2 →
               fst <$> alphaBetaSearch stack 0 alpha beta isMaximizing
                         settings deadline searchDepth
                         (setTranspositionTable
                            (<[getFEN pos2 := e]> (transpositionTable w)) w)
               = fst <$> evaluatePosition stack settings pos1))
  ∧ (∀ stack depth alpha beta isMaximizing settings deadline searchDepth
       w v w',
       position w = pos1 →
       alphaBetaSearch stack depth alpha beta isMaximizing settings deadline
         searchDepth w = Some (v, w') →
       position w' = pos1 ∧ keysOf pos1 w w')
  ∧ (∀ mv w, position w = pos1 →
       ∃ r w',
         onPosition (makeSearchMove mv) w = Some (r, w')
         ∧ board (position w')
           = setCell (setCell (board pos1) (toRow mv) (toCol mv)
                        (cell (board pos1) (fromRow mv) (fromCol mv)))
               (fromRow mv) (fromCol mv) None
         ∧ getFEN (position w')
           = fenOf (board (position w')) (currentTurn pos1)
               (castlingRights pos1) (enPassantTarget pos1)).
Proof.
  intros Hwf1 Hwf2.
  split; [|split; [|split; [|split; [|split; [|split; [|split]]]]]].
  - split; [by apply getFEN_inj|].
    intros (Hb & Ht & Hc & He). unfold getFEN. by rewrite Hb, Ht, Hc, He.
  - apply parseFEN_fenOf, Hwf1.
  - rewrite !firstField_getFEN. split; [|by intros ->].
    apply fenBoard_inj; [apply Hwf1|apply Hwf2].
  - intros w <-. unfold countRepetitions. by rewrite firstField_getFEN.
  - done.
  - intros stack depth alpha beta isMaximizing settings deadline searchDepth
      w <- Henter.
    split; [|split; [|split]].
    + intros e Hkey Hdepth. by apply alphaBetaSearch_hit.
    + intros v w' Hmiss H. by eapply alphaBetaSearch_stores.
    + intros Hq Hkey. by apply alphaBetaSearch_leaf.
    + intros e Hq Hkey Hne.
      rewrite alphaBetaSearch_leaf; [|exact Henter|exact Hq|].
      * cbn [position setTranspositionTable].
        by destruct (evaluatePosition stack settings (position w))
          as [[v pos']|].
      * cbn [position transpositionTable setTranspositionTable].
        by rewrite lookup_insert_ne.
  - intros stack depth alpha beta isMaximizing settings deadline searchDepth
      w v w' <- H.
    pose proof (keeps_alphaBetaSearch stack depth alpha beta isMaximizing
                  settings deadline searchDepth w v w' (proj1 Hwf1) H)
      as Hpos.
    split; [exact Hpos|].
    eapply keyed_alphaBetaSearch; [|exact H]. split; [apply Hwf1|done].
  - intros mv w <-. eexists _, _. unfold onPosition. rewrite makeSearchMove_run.
    split; [reflexivity|]. split; reflexivity.
Qed.

Lemma position_key_fields_witness :
  getFEN hangingQueenPosition ≠ getFEN hangingQueenOther
  ∧ firstField (getFEN hangingQueenPosition)
    = firstField (getFEN hangingQueenOther).
Proof.
  pose proof (position_key_fields hangingQueenPosition hangingQueenOther
                (conj hangingQueenBoard_wf I)
                (conj hangingQueenBoard_wf eq_refl)) as (Hkey & _ & Hfirst & _).
  split.
  - intros Heq. apply Hkey in Heq as (_ & Hturn & _). discriminate Hturn.
  - by apply Hfirst.
Defined.
